(** * Mt-KaHyPar: contraction, construction and refinement scheduling

    A shallow embedding of the parts of the partitioner that its
    specification talks about, each translated from the C++ source:

    - [Scheduler]: [quotient_graph_block_scheduler.h]
      ([SchedulerBase::buildQuotientGraph], [updateBlockPairCutHyperedges],
      [blockPairCutHyperedges], the block-weight arbitration);
    - [NaturalCut]: [natural_cut_detection.cpp] ([depthFirstSearch]);
    - [GraphFactory]: [static_graph_factory.cpp]
      ([StaticGraphFactory::construct]);
    - [Contraction]: [static_hypergraph.cpp] ([StaticHypergraph::contract],
      which forwards to [contract_v2]);
    - [FM]: the localized FM search that [fm_core_test.cc] exercises; the
      search and the partitioned hypergraph are not among the sources and
      follow the specification;
    - [Schedulers]: the rest of [quotient_graph_block_scheduler.h]
      ([MatchingScheduler], [OptScheduler], [get_not_aquired_weight]);
    - [Metrics]: [metrics.h] ([hyperedgeCut], [km1], [soed],
      [hypernodeDegreeRank]);
    - [Threshold]: the loops of [run_natural_cut_detection] that follow the
      searches;
    - [Coarsening], [Adjacency], [Search]: notions to state further
      properties of the contraction, of the graph construction and of the
      depth-first search.

    Vectors are lists read with stdpp's lookup and written with its insert;
    machine integers are [N] or [Z] with their wrap-around written out.
    Parallel loops are run in index order: their bodies touch disjoint data
    or combine with commutative atomic additions. *)

From Stdlib Require Import ZArith NArith Lia List Bool.
From stdpp Require Import base tactics option list numbers sets sorting gmap.

Set Default Proof Using "Type".
Set Warnings "-clear-no-such-hyp".
Local Open Scope nat_scope.

(** * Part I: the model *)

(** ** Vector primitives *)

(** [m[i][j]] on a vector of vectors, with a default value outside of it. *)
Definition mget {A} (d : A) (m : list (list A)) (i j : nat) : A :=
  default d (m !! i ≫= (.!! j)).

(** [m[i][j] = x]. *)
Definition mset {A} (m : list (list A)) (i j : nat) (x : A) : list (list A) :=
  match m !! i with
  | Some row => <[i := <[j := x]> row]> m
  | None => m
  end.

(** A [k] times [k] vector of vectors. *)
Definition square {A} (k : nat) (m : list (list A)) : Prop :=
  length m = k ∧ Forall (λ row, length row = k) m.

(** [std::swap(v[i], v[j])]. *)
Definition vec_swap {A} (l : list A) (i j : nat) : list A :=
  match l !! i, l !! j with
  | Some x, Some y => <[j := x]> (<[i := y]> l)
  | _, _ => l
  end.

(** [v.pop_back()]. *)
Definition vec_pop {A} (l : list A) : list A := take (length l - 1) l.

(** * The quotient-graph block scheduler

  [SchedulerBase] of [quotient_graph_block_scheduler.h]. *)

Module Scheduler.

Definition PartitionID := nat.
Definition HyperedgeID := nat.

(** [using edge = std::pair<PartitionID, PartitionID>]. *)
Definition edge : Type := PartitionID * PartitionID.

(** The accessors of [PartitionedHypergraph] that the scheduler calls. The
    class itself is declared elsewhere; every accessor is a field, so the
    results below hold whatever the partitioned hypergraph answers. *)
Record PartitionedHypergraph := {
  initialNumEdges : nat;
  edges : list HyperedgeID;
  connectivity : HyperedgeID → nat;
  connectivitySet : HyperedgeID → list PartitionID;
  pinCountInPart : HyperedgeID → PartitionID → nat;
  partWeight : PartitionID → Z;
}.

(** The data members of [SchedulerBase]; [size_t] block weights are [Z]
    in [0, 2^64). *)
Record SchedulerBase := {
  _quotient_graph : list edge;
  _round_edges : list edge;
  _active_blocks : list bool;
  _locked_blocks : list bool;
  _block_pair_cut_he : list (list (list HyperedgeID));
  _block_weights : list (list Z);
}.

(** The constructor, for [context.partition.k = k]. *)
Definition SchedulerBase_new (k : nat) : SchedulerBase :=
  {| _quotient_graph := [];
     _round_edges := [];
     _active_blocks := replicate k true;
     _locked_blocks := replicate k false;
     _block_pair_cut_he := replicate k (replicate k []);
     _block_weights := replicate k (replicate k 0%Z) |}.

(** *** [std::set<edge>]: a strictly increasing list *)

Definition edge_ltb (a b : edge) : bool :=
  (a.1 <? b.1) || ((a.1 =? b.1) && (a.2 <? b.2)).

Fixpoint set_insert (e : edge) (s : list edge) : list edge :=
  match s with
  | [] => [e]
  | x :: s' =>
      if edge_ltb e x then e :: s
      else if edge_ltb x e then x :: set_insert e s'
      else s
  end.

(** *** [buildQuotientGraph] *)

(** The body of the two inner loops for one pair of blocks. *)
Definition record_pair (he : HyperedgeID)
    (st : list edge * list (list (list HyperedgeID)))
    (block0 block1 : PartitionID) :=
  if block0 <? block1 then
    (set_insert (block0, block1) st.1,
     mset st.2 block0 block1 (mget [] st.2 block0 block1 ++ [he]))
  else st.

Definition scan_edge (phg : PartitionedHypergraph)
    (st : list edge * list (list (list HyperedgeID))) (he : HyperedgeID) :=
  if 1 <? connectivity phg he then
    foldl (λ st block0,
             foldl (λ st block1, record_pair he st block0 block1)
                   st (connectivitySet phg he))
          st (connectivitySet phg he)
  else st.

Definition buildQuotientGraph (phg : PartitionedHypergraph)
    (s : SchedulerBase) : SchedulerBase :=
  let '(edge_list, cut) :=
    foldl (scan_edge phg) ([], _block_pair_cut_he s) (edges phg) in
  {| _quotient_graph := _quotient_graph s ++ edge_list;
     _round_edges := _round_edges s;
     _active_blocks := _active_blocks s;
     _locked_blocks := _locked_blocks s;
     _block_pair_cut_he := cut;
     _block_weights := _block_weights s |}.

(** *** Block-weight arbitration *)

Definition wrap64 (z : Z) : Z := (z mod 2 ^ 64)%Z.

Definition init_block_weights (phg : PartitionedHypergraph) (k : nat)
    (W : list (list Z)) : list (list Z) :=
  foldl (λ W i,
           foldl (λ W j,
                    mset W i j (if decide (j = i)
                                then wrap64 (partWeight phg i) else 0%Z))
                 W (seq 0 k))
        W (seq 0 k).

Definition aquire_block_weight (W : list (list Z))
    (block_to_aquire other_block : nat) (amount : Z) : list (list Z) :=
  let W1 := mset W block_to_aquire other_block amount in
  mset W1 block_to_aquire block_to_aquire
       (wrap64 (mget 0%Z W1 block_to_aquire block_to_aquire - amount)).

Definition release_block_weight (W : list (list Z))
    (block_to_release other_block : nat) (amount : Z) : list (list Z) :=
  let W1 := mset W block_to_release other_block 0%Z in
  mset W1 block_to_release block_to_release
       (wrap64 (mget 0%Z W1 block_to_release block_to_release + amount)).

(** *** [updateBlockPairCutHyperedges] and [blockPairCutHyperedges] *)

(** The loop [for (i = 0; i < N; ++i)]. After a removal the source runs
    [--i; --N] and then the loop's [++i], so [i] stays where it is (for
    [i = 0] through the wrap-around of [size_t]). Every iteration lowers
    [N - i], which the fuel counts. [visited] is the
    [FastResetFlagArray] over [initialNumEdges()] flags. *)
Fixpoint update_loop (phg : PartitionedHypergraph) (block0 block1 : PartitionID)
    (fuel : nat) (l : list HyperedgeID) (i N : nat) (visited : list bool)
    : list HyperedgeID :=
  match fuel with
  | 0 => l
  | S fuel =>
      if decide (i < N) then
        match l !! i with
        | None => l
        | Some he =>
            let visited' := <[he := true]> visited in
            if bool_decide (pinCountInPart phg he block0 = 0)
               || bool_decide (pinCountInPart phg he block1 = 0)
               || default false (visited !! he)
            then update_loop phg block0 block1 fuel
                   (vec_pop (vec_swap l i (N - 1))) i (N - 1) visited'
            else update_loop phg block0 block1 fuel l (i + 1) N visited'
        end
      else l
  end.

Definition updateBlockPairCutHyperedges (phg : PartitionedHypergraph)
    (block0 block1 : PartitionID) (s : SchedulerBase) : SchedulerBase :=
  let l := mget [] (_block_pair_cut_he s) block0 block1 in
  let N := length l in
  let l' := update_loop phg block0 block1 N l 0 N
              (replicate (initialNumEdges phg) false) in
  {| _quotient_graph := _quotient_graph s;
     _round_edges := _round_edges s;
     _active_blocks := _active_blocks s;
     _locked_blocks := _locked_blocks s;
     _block_pair_cut_he := mset (_block_pair_cut_he s) block0 block1 l';
     _block_weights := _block_weights s |}.

(** Returns the new state and the range
    [(_block_pair_cut_he[block0][block1].cbegin(), .cend())] as a list. *)
Definition blockPairCutHyperedges (phg : PartitionedHypergraph)
    (block0 block1 : PartitionID) (s : SchedulerBase)
    : SchedulerBase * list HyperedgeID :=
  let s' := updateBlockPairCutHyperedges phg block0 block1 s in
  (s', mget [] (_block_pair_cut_he s') block0 block1).

(** *** Notions used to state the properties *)

(** The cut-hyperedge lists [c'] extend the lists [c]. *)
Definition cut_le (k : nat) (c c' : list (list (list HyperedgeID))) : Prop :=
  square k c' ∧ ∀ i j he, he ∈ mget [] c i j → he ∈ mget [] c' i j.

(** A partitioned hypergraph with two blocks: hyperedge 0 is cut, hyperedge 1
    lies in block 1. *)
Definition phg_two_blocks : PartitionedHypergraph :=
  {| initialNumEdges := 2;
     edges := [0; 1];
     connectivity := λ he, if he =? 0 then 2 else 1;
     connectivitySet := λ he, if he =? 0 then [0; 1] else [1];
     pinCountInPart := λ he b, if he =? 0 then 1 else b;
     partWeight := λ b, if b =? 0 then 13%Z else 7%Z |}.

(** A scheduler whose list for the pair (0, 1) holds hyperedge 0 twice and the
    uncut hyperedge 1. *)
Definition sched_stale : SchedulerBase :=
  {| _quotient_graph := [(0, 1)];
     _round_edges := [];
     _active_blocks := [true; true];
     _locked_blocks := [false; false];
     _block_pair_cut_he := [[[]; [1; 0; 0]]; [[]; []]];
     _block_weights := [[0; 0]; [0; 0]]%Z |}.

(** The block weights after [init_block_weights] (part weights 13 and 7) and
    [aquire_block_weight(0, 1, 3)]. *)
Definition W13 : list (list Z) :=
  aquire_block_weight
    (init_block_weights phg_two_blocks 2 (_block_weights (SchedulerBase_new 2)))
    0 1 3.

End Scheduler.

(** * Scheduling the block pairs

  The rest of [quotient_graph_block_scheduler.h]: the round edges
  ([getInitialParallelEdges]), the two schedulers [MatchingScheduler] and
  [OptScheduler] that derive from [SchedulerBase], and the reader of the
  block weights. [context.partition.k] is the parameter [k]. *)

Module Schedulers.
Import Scheduler.

(** [v[b]] on a [std::vector<bool>]. *)
Definition flag_at (v : list bool) (b : PartitionID) : bool :=
  default false (v !! b).

Definition with_round (s : SchedulerBase) (round : list edge)
    (active locked : list bool) : SchedulerBase :=
  {| _quotient_graph := _quotient_graph s;
     _round_edges := round;
     _active_blocks := active;
     _locked_blocks := locked;
     _block_pair_cut_he := _block_pair_cut_he s;
     _block_weights := _block_weights s |}.

(** The loop of [getInitialParallelEdges]: the quotient edges between two
    active blocks are pushed to [_round_edges]. *)
Definition push_active_edges (s : SchedulerBase) : list edge :=
  foldl (λ round e,
           if flag_at (_active_blocks s) e.1 && flag_at (_active_blocks s) e.2
           then round ++ [e] else round)
        (_round_edges s) (_quotient_graph s).

(** [removeElement(index, vector)]. *)
Definition removeElement {A} (index : nat) (vector : list A) : list A :=
  vec_pop (vec_swap vector index (length vector - 1)).

(** [setActiveBlock] and [getNumberOfActiveBlocks]. *)
Definition setActiveBlock (s : SchedulerBase) (blockId : nat) (active : bool)
    : SchedulerBase :=
  with_round s (_round_edges s) (<[blockId := active]> (_active_blocks s))
             (_locked_blocks s).

Definition getNumberOfActiveBlocks (s : SchedulerBase) : nat :=
  foldl (λ active_blocks active,
           if active : bool then active_blocks + 1 else active_blocks)
        0 (_active_blocks s).

(** [get_not_aquired_weight]: the sum, in [size_t], of the row of [block]
    without the entry of [other_block]. *)
Definition get_not_aquired_weight (k : nat) (W : list (list Z))
    (block other_block : PartitionID) : Z :=
  foldl (λ weight i,
           if decide (i ≠ other_block)
           then wrap64 (weight + mget 0%Z W block i) else weight)
        0%Z (seq 0 k).

(** ** [MatchingScheduler] *)

(** The loop [for (i = 0; i < _round_edges.size(); ++i)] that
    [getInitialParallelEdgesImpl] and [scheduleNextBlocksImpl] share: an edge
    between two unlocked blocks locks them, is handed out ([push_back] on
    [initialEdges] in the first, [feeder.add] in the second) and is removed
    by a swap with the last edge; [i--] and the loop's [++i] leave [i] where
    it is. Every iteration lowers [size - i], which the fuel counts. *)
Fixpoint schedule_loop (fuel : nat) (round : list edge) (locked : list bool)
    (i : nat) (out : list edge) : list edge * list bool * list edge :=
  match fuel with
  | 0 => (round, locked, out)
  | S fuel =>
      match round !! i with
      | None => (round, locked, out)
      | Some e =>
          if negb (flag_at locked e.1) && negb (flag_at locked e.2) then
            schedule_loop fuel
              (vec_pop (vec_swap round i (length round - 1)))
              (<[e.2 := true]> (<[e.1 := true]> locked)) i (out ++ [e])
          else schedule_loop fuel round locked (i + 1) out
      end
  end.

Module Matching.

Definition getInitialParallelEdgesImpl (k : nat) (s : SchedulerBase)
    : SchedulerBase * list edge :=
  let '(round, locked, initialEdges) :=
    schedule_loop (length (_round_edges s)) (_round_edges s)
                  (_locked_blocks s) 0 [] in
  (with_round s round (replicate k false) locked, initialEdges).

(** [SchedulerBase::getInitialParallelEdges] for this scheduler. *)
Definition getInitialParallelEdges (k : nat) (s : SchedulerBase)
    : SchedulerBase * list edge :=
  getInitialParallelEdgesImpl k
    (with_round s (push_active_edges s) (_active_blocks s) (_locked_blocks s)).

(** Returns the new state and the edges given to the feeder. *)
Definition scheduleNextBlocksImpl (old_edge : edge) (s : SchedulerBase)
    : SchedulerBase * list edge :=
  let locked0 := <[old_edge.2 := false]> (<[old_edge.1 := false]> (_locked_blocks s)) in
  let '(round, locked, fed) :=
    schedule_loop (length (_round_edges s)) (_round_edges s) locked0 0 [] in
  (with_round s round (_active_blocks s) locked, fed).

End Matching.

(** ** [OptScheduler] *)

Module Opt.

Definition SIZE_MAX : N := (2 ^ 64 - 1)%N.
Definition wrap_size (x : N) : N := (x mod 2 ^ 64)%N.

(** [_tasks_on_block] holds [size_t]; [_node_lock] holds [tbb::atomic<int>],
    indexed by the vertex. *)
Record OptScheduler := {
  base : SchedulerBase;
  _tasks_on_block : list N;
  _node_lock : list Z;
}.

Definition OptScheduler_new (k initialNumNodes : nat) : OptScheduler :=
  {| base := SchedulerBase_new k;
     _tasks_on_block := replicate k 0%N;
     _node_lock := replicate initialNumNodes 0%Z |}.

Definition tasks_at (tasks : list N) (b : PartitionID) : N :=
  default 0%N (tasks !! b).

(** [std::max(_tasks_on_block[e.first], _tasks_on_block[e.second])]. *)
Definition independence_of (tasks : list N) (e : edge) : N :=
  N.max (tasks_at tasks e.1) (tasks_at tasks e.2).

(** The body of the scanning loop of [getMostIndependentEdge]; the state is
    [independence] and [best_edge], which is not initialised before the
    first assignment. *)
Definition scan_best (tasks : list N) (st : N * option (edge * nat))
    (ie : nat * edge) : N * option (edge * nat) :=
  let temp_independence := independence_of tasks ie.2 in
  if (temp_independence <? st.1)%N
  then (temp_independence, Some (ie.2, ie.1)) else st.

(** [getMostIndependentEdge]; [None] is the pair
    [(kInvalidPartition, kInvalidPartition)], which the callers test for. *)
Definition getMostIndependentEdge (s : OptScheduler)
    : OptScheduler * option edge :=
  let round := _round_edges (base s) in
  let tasks := _tasks_on_block s in
  let '(independence, best_edge) :=
    foldl (scan_best tasks) (SIZE_MAX, None) (imap pair round) in
  if (independence <? SIZE_MAX)%N then
    match best_edge with
    | Some (e, index) =>
        let tasks1 := <[e.1 := wrap_size (tasks_at tasks e.1 + 1)]> tasks in
        let tasks2 := <[e.2 := wrap_size (tasks_at tasks1 e.2 + 1)]> tasks1 in
        ({| base := with_round (base s) (removeElement index round)
                      (_active_blocks (base s)) (_locked_blocks (base s));
            _tasks_on_block := tasks2;
            _node_lock := _node_lock s |}, Some e)
    | None => (s, None)
    end
  else (s, None).

(** The loop over the threads of [getInitialParallelEdgesImpl]. *)
Fixpoint initial_loop (num_threads : nat) (s : OptScheduler)
    (initial_edges : list edge) : OptScheduler * list edge :=
  match num_threads with
  | 0 => (s, initial_edges)
  | S n =>
      let '(s', e) := getMostIndependentEdge s in
      initial_loop n s' (match e with
                         | Some e => initial_edges ++ [e]
                         | None => initial_edges
                         end)
  end.

Definition getInitialParallelEdgesImpl (k num_threads : nat) (s : OptScheduler)
    : OptScheduler * list edge :=
  let '(s', initial_edges) := initial_loop num_threads s [] in
  ({| base := with_round (base s') (_round_edges (base s'))
                (replicate k false) (_locked_blocks (base s'));
      _tasks_on_block := _tasks_on_block s';
      _node_lock := _node_lock s' |}, initial_edges).

(** [x--] on a [size_t]. *)
Definition decr_size (x : N) : N := wrap_size (x + 2 ^ 64 - 1).

(** Returns the new state and the edges given to the feeder. *)
Definition scheduleNextBlocksImpl (old_edge : edge) (s : OptScheduler)
    : OptScheduler * list edge :=
  let tasks := _tasks_on_block s in
  let tasks1 := <[old_edge.1 := decr_size (tasks_at tasks old_edge.1)]> tasks in
  let tasks2 := <[old_edge.2 := decr_size (tasks_at tasks1 old_edge.2)]> tasks1 in
  let '(s', e) :=
    getMostIndependentEdge
      {| base := base s; _tasks_on_block := tasks2; _node_lock := _node_lock s |} in
  (s', match e with Some e => [e] | None => [] end).

(** *** The node locks *)

Definition lock_at (s : OptScheduler) (node : nat) : Z :=
  default 0%Z (_node_lock s !! node).

Definition set_lock (s : OptScheduler) (node : nat) (x : Z) : OptScheduler :=
  {| base := base s;
     _tasks_on_block := _tasks_on_block s;
     _node_lock := <[node := x]> (_node_lock s) |}.

(** [compare_and_swap(blocksIdx, 0)] stores [blocksIdx] if the lock holds 0
    and returns what the lock held; the [int] it returns becomes the [bool]
    [already_aquired]. *)
Definition tryAquireNodeImpl (s : OptScheduler) (node : nat) (blocksIdx : Z)
    : OptScheduler * bool :=
  let old := lock_at s node in
  let already_aquired := negb (old =? 0)%Z in
  (if (old =? 0)%Z then set_lock s node blocksIdx else s, negb already_aquired).

Definition isAquiredImpl (s : OptScheduler) (node : nat) : bool :=
  negb (lock_at s node =? 0)%Z.

(** [PartitionID] is a signed [int] here, as the division needs it. *)
Definition is_block_overlap (k : Z) (s : OptScheduler) (node : nat)
    (block_0 block_1 : Z) : bool :=
  let blocks_idx := lock_at s node in
  let other_block_0 := (blocks_idx ÷ k)%Z in
  let other_block_1 := Z.rem blocks_idx k in
  (block_0 =? other_block_0)%Z || (block_0 =? other_block_1)%Z
  || (block_1 =? other_block_0)%Z || (block_1 =? other_block_1)%Z.

Definition releaseNodeImpl (s : OptScheduler) (node : nat) : OptScheduler :=
  set_lock s node 0%Z.

End Opt.

(** ** Notions used to state the properties *)

(** The block [b] is an end of the edge [e]. *)
Definition touches (e : edge) (b : PartitionID) : Prop := e.1 = b ∨ e.2 = b.

(** The ends of the edges are blocks below [k]. *)
Definition in_range (k : nat) (l : list edge) : Prop :=
  Forall (λ e : edge, e.1 < k ∧ e.2 < k) l.

(** No block is an end of two edges of the list: the edges are a matching
    of the quotient graph. *)
Definition disjoint_edges (l : list edge) : Prop :=
  ∀ i j e e' b,
    l !! i = Some e → l !! j = Some e' → touches e b → touches e' b → i = j.

(** The number of edges of the list that [b] is an end of; an edge from [b]
    to [b] counts twice, as the counters of [OptScheduler] do. *)
Definition load (l : list edge) (b : PartitionID) : N :=
  foldr (λ e n, (N.b2n (bool_decide (e.1 = b)) + N.b2n (bool_decide (e.2 = b)) + n)%N)
        0%N l.

(** The sum of the row of [block] of the block weights without the entry of
    [other_block], as an integer. *)
Definition row_without (k : nat) (W : list (list Z))
    (block other_block : PartitionID) : Z :=
  foldr Z.add 0%Z
    ((λ i, if decide (i ≠ other_block) then mget 0%Z W block i else 0%Z)
       <$> seq 0 k).

(** A scheduler for four blocks at the start of a round: the quotient graph
    has the edges 0-1, 0-2, 1-2 and 2-3, every block is active and none is
    locked. *)
Definition sched_four : SchedulerBase :=
  {| _quotient_graph := [(0, 1); (0, 2); (1, 2); (2, 3)];
     _round_edges := [];
     _active_blocks := replicate 4 true;
     _locked_blocks := replicate 4 false;
     _block_pair_cut_he := replicate 4 (replicate 4 []);
     _block_weights := replicate 4 (replicate 4 0%Z) |}.

(** The same scheduler in the middle of the round: 0-1 and 2-3 are running,
    0-2 and 1-2 wait. *)
Definition sched_four_running : SchedulerBase :=
  (Matching.getInitialParallelEdges 4 sched_four).1.

(** The locked blocks are the ends of the running edges. *)
Definition locks_match (running : list edge) (locked : list bool) : Prop :=
  ∀ b, flag_at locked b = true ↔ ∃ e, e ∈ running ∧ touches e b.

(** An [OptScheduler] for four blocks in the middle of a round: the edge 0-1
    is running, three edges wait. *)
Definition opt_four : Opt.OptScheduler :=
  {| Opt.base := with_round sched_four [(0, 2); (1, 2); (2, 3)]
                   (replicate 4 false) (replicate 4 false);
     Opt._tasks_on_block := [1; 1; 0; 0]%N;
     Opt._node_lock := [] |}.

End Schedulers.

(** * The static hypergraph

    The data members of [StaticHypergraph] as [contract_v2] and [copy] write
    them. Identifiers are 32-bit and sizes 64-bit unsigned integers ([N]),
    weights are signed ([Z]). *)

Module Hypergraph.

Abbreviation HypernodeID := N (only parsing).
Abbreviation HyperedgeID := N (only parsing).
Abbreviation HypernodeWeight := Z (only parsing).
Abbreviation HyperedgeWeight := Z (only parsing).

(** Modelled from the spec: the declarations of [HypernodeWeight] and
    [HyperedgeWeight] are not among the sources; both are taken to be
    [int32_t], the type that mt-kahypar gives them. [fits_weight z] says that
    [z] is a value of the type and [wrap_weight z] is the value that the low
    32 bits of [z] stand for in two's complement, which is what an addition
    leaves in a variable of the type. *)
Definition fits_weight (z : Z) : Prop := (- 2 ^ 31 ≤ z < 2 ^ 31)%Z.
Definition wrap_weight (z : Z) : Z := ((z + 2 ^ 31) mod 2 ^ 32 - 2 ^ 31)%Z.

#[export] Instance fits_weight_dec z : Decision (fits_weight z).
Proof. unfold fits_weight. apply _. Defined.

(** [a + b] and [a * b] on two weights. The variables and fields of the type
    hold values of the type only; for other integers, which the code cannot
    be given, the result is left as it is. *)
Definition add_weight (a b : Z) : Z :=
  if decide (fits_weight a ∧ fits_weight b) then wrap_weight (a + b)
  else (a + b)%Z.
Definition mul_weight (a b : Z) : Z :=
  if decide (fits_weight a ∧ fits_weight b) then wrap_weight (a * b)
  else (a * b)%Z.

(** [for (w : ws) a += w]. *)
Definition add_weights (a : Z) (ws : list Z) : Z := foldl add_weight a ws.

(** [std::numeric_limits<HypernodeID>::max()]. *)
Definition kInvalidHypernode : HypernodeID := (2 ^ 32 - 1)%N.
Definition kInvalidHyperedge : HyperedgeID := (2 ^ 32 - 1)%N.

(** [v[i]] and [v[i] = x] for an index held in a machine integer. *)
Definition vget {A} (d : A) (l : list A) (i : N) : A :=
  default d (l !! N.to_nat i).
Definition vset {A} (l : list A) (i : N) (x : A) : list A :=
  <[N.to_nat i := x]> l.

(** The elements [v[first], ..., v[first + size - 1]]. *)
Definition window {A} (l : list A) (first size : N) : list A :=
  take (N.to_nat size) (drop (N.to_nat first) l).

Record Hypernode := {
  hn_begin : N;            (* _begin *)
  hn_size : N;             (* _size *)
  hn_weight : HypernodeWeight;
  hn_valid : bool;
}.

Record Hyperedge := {
  he_begin : N;            (* _begin *)
  he_size : N;             (* _size *)
  he_weight : HyperedgeWeight;
  he_valid : bool;
}.

Record StaticHypergraph := {
  _num_hypernodes : N;
  _num_hyperedges : N;
  _num_pins : N;
  _total_degree : N;
  _total_weight : HypernodeWeight;
  _max_edge_size : N;
  _hypernodes : list Hypernode;
  _incident_nets : list HyperedgeID;
  _hyperedges : list Hyperedge;
  _incidence_array : list HypernodeID;
  _community_ids : list Z;
}.

(** What a default-constructed element of [_hypernodes] and [_hyperedges]
    holds. *)
Definition hn_default : Hypernode :=
  {| hn_begin := 0%N; hn_size := 0%N; hn_weight := 1%Z; hn_valid := false |}.
Definition he_default : Hyperedge :=
  {| he_begin := 0%N; he_size := 0%N; he_weight := 1%Z; he_valid := false |}.

(** Modelled from the spec: the accessors of [static_hypergraph.h], which is
    not among the sources. Vertex [v]'s nets occupy
    [[first_incident, first_incident + degree)] of [incident_nets], edge [e]'s
    pins occupy [[first_pin, first_pin + size)] of [incidence]; the
    [doParallelFor...] iterations visit the enabled vertices and edges. *)
Definition hypernode (H : StaticHypergraph) (u : HypernodeID) : Hypernode :=
  vget hn_default (_hypernodes H) u.
Definition hyperedge (H : StaticHypergraph) (e : HyperedgeID) : Hyperedge :=
  vget he_default (_hyperedges H) e.
Definition initialNumNodes (H : StaticHypergraph) : N := _num_hypernodes H.
Definition initialNumEdges (H : StaticHypergraph) : N := _num_hyperedges H.
Definition nodeIsEnabled (H : StaticHypergraph) (u : HypernodeID) : bool :=
  hn_valid (hypernode H u).
Definition edgeIsEnabled (H : StaticHypergraph) (e : HyperedgeID) : bool :=
  he_valid (hyperedge H e).
Definition nodeWeight (H : StaticHypergraph) (u : HypernodeID) : HypernodeWeight :=
  hn_weight (hypernode H u).
Definition edgeWeight (H : StaticHypergraph) (e : HyperedgeID) : HyperedgeWeight :=
  he_weight (hyperedge H e).
Definition edgeSize (H : StaticHypergraph) (e : HyperedgeID) : N :=
  he_size (hyperedge H e).
Definition communityID (H : StaticHypergraph) (u : HypernodeID) : Z :=
  vget 0%Z (_community_ids H) u.
Definition pins (H : StaticHypergraph) (e : HyperedgeID) : list HypernodeID :=
  window (_incidence_array H) (he_begin (hyperedge H e)) (he_size (hyperedge H e)).
Definition incidentEdges (H : StaticHypergraph) (u : HypernodeID) : list HyperedgeID :=
  window (_incident_nets H) (hn_begin (hypernode H u)) (hn_size (hypernode H u)).

(** The identifiers [0, ..., n - 1]. *)
Definition ids (n : N) : list N := N.of_nat <$> seq 0 (N.to_nat n).

(** The enabled vertices and edges, in increasing order. *)
Definition nodes (H : StaticHypergraph) : list HypernodeID :=
  filter (λ u, nodeIsEnabled H u = true) (ids (initialNumNodes H)).
Definition edges (H : StaticHypergraph) : list HyperedgeID :=
  filter (λ e, edgeIsEnabled H e = true) (ids (initialNumEdges H)).

(** The arrays of the hypergraph with the given vertices (weight, enabled) and
    nets (pins, weight, enabled); used to write down examples. *)
Definition offsets (sizes : list nat) : list nat :=
  (λ i, foldr Nat.add 0 (take i sizes)) <$> seq 0 (length sizes).

Definition hypergraph_of (vertices : list (HypernodeWeight * bool))
    (nets : list (list HypernodeID * HyperedgeWeight * bool)) : StaticHypergraph :=
  let pin_lists : list (list HypernodeID) := (λ x, x.1.1) <$> nets in
  let incident u :=
    (λ x : nat * list HypernodeID, N.of_nat x.1)
      <$> filter (λ x : nat * list HypernodeID, u ∈ x.2)
                 (imap (λ i l, (i, l)) pin_lists) in
  let incident_lists := incident <$> ids (N.of_nat (length vertices)) in
  {| _num_hypernodes := N.of_nat (length vertices);
     _num_hyperedges := N.of_nat (length nets);
     _num_pins := N.of_nat (length (mjoin pin_lists));
     _total_degree := N.of_nat (length (mjoin incident_lists));
     _total_weight :=
       foldr Z.add 0%Z ((λ x : HypernodeWeight * bool, if x.2 then x.1 else 0%Z)
                          <$> vertices);
     _max_edge_size := foldr N.max 0%N ((λ l : list HypernodeID, N.of_nat (length l))
                                       <$> pin_lists);
     _hypernodes :=
       zip_with (λ (x : HypernodeWeight * bool) (y : nat * list HyperedgeID),
                   {| hn_begin := N.of_nat y.1; hn_size := N.of_nat (length y.2);
                      hn_weight := x.1; hn_valid := x.2 |})
                vertices (zip (offsets (length <$> incident_lists)) incident_lists);
     _incident_nets := mjoin incident_lists;
     _hyperedges :=
       zip_with (λ (x : list HypernodeID * HyperedgeWeight * bool) (y : nat),
                   {| he_begin := N.of_nat y; he_size := N.of_nat (length x.1.1);
                      he_weight := x.1.2; he_valid := x.2 |})
                nets (offsets (length <$> pin_lists));
     _incidence_array := mjoin pin_lists;
     _community_ids := replicate (length vertices) 0%Z |}.

End Hypergraph.

(** * Natural-cut community detection

    [depthFirstSearch] of [natural_cut_detection.cpp]. *)

Module NaturalCut.
Import Hypergraph.

Definition invalid_node : HypernodeID := (2 ^ 32 - 1)%N.

(** Arithmetic of [HypernodeID]. *)
Definition wrap32 (x : N) : N := (x mod 2 ^ 32)%N.

(** The vectors that [depthFirstSearch] receives by reference and its local
    variables. [previous] is declared without a value: it is [None] until
    the first [previous = v]. *)
Record dfs_state := {
  visitedHypernode : list bool;
  depth : list HypernodeID;
  lowPoint : list HypernodeID;
  parent : list HypernodeID;
  components : list HypernodeID;
  s : list HypernodeID;             (* std::stack, top first *)
  pushedChildren : list bool;
  previous : option HypernodeID;
}.

(** The locals of one scan of the neighbours of a popped vertex. *)
Record scan_state := {
  sc_lowPoint : list HypernodeID;
  sc_parent : list HypernodeID;
  children : Z;
  isArticulationPoint : bool;
}.

(** The body of the first-visit loops: [if (!visitedHypernode[u]) ...]. *)
Definition push_child (v : HypernodeID) (st : dfs_state) (u : HypernodeID)
    : dfs_state :=
  if vget false (visitedHypernode st) u then st
  else {| visitedHypernode := vset (visitedHypernode st) u true;
          depth := depth st;
          lowPoint := lowPoint st;
          parent := vset (parent st) u v;
          components := components st;
          s := u :: s st;
          pushedChildren := pushedChildren st;
          previous := previous st |}.

(** The body of the loops over the neighbours of the popped vertex [v]. The
    condition [parent[u] = v] stores [v] and is true when [v] is not zero. *)
Definition scan_pin (dep : list HypernodeID) (v : HypernodeID)
    (sc : scan_state) (u : HypernodeID) : scan_state :=
  let parent1 := vset (sc_parent sc) u v in
  if negb (v =? 0)%N then
    let lp := sc_lowPoint sc in
    {| sc_lowPoint := vset lp v (N.min (vget 0%N lp v) (vget 0%N lp u));
       sc_parent := parent1;
       children := (children sc + 1)%Z;
       isArticulationPoint :=
         if (vget 0%N dep v <=? vget 0%N lp u)%N then true
         else isArticulationPoint sc |}
  else if negb (vget 0%N parent1 v =? u)%N then
    let lp := sc_lowPoint sc in
    {| sc_lowPoint := vset lp v (N.min (vget 0%N lp v) (vget 0%N lp u));
       sc_parent := parent1;
       children := children sc;
       isArticulationPoint := isArticulationPoint sc |}
  else
    {| sc_lowPoint := sc_lowPoint sc;
       sc_parent := parent1;
       children := children sc;
       isArticulationPoint := isArticulationPoint sc |}.

(** [for (e : incidentEdges(v)) for (u : pins(e)) body]. *)
Definition for_neighbours {S} (H : StaticHypergraph) (v : HypernodeID)
    (body : S → HypernodeID → S) (st : S) : S :=
  foldl (λ st e, foldl body st (pins H e)) st (incidentEdges H v).

Definition scan_popped (H : StaticHypergraph) (v : HypernodeID)
    (st : dfs_state) : scan_state :=
  for_neighbours H v (scan_pin (depth st) v)
    {| sc_lowPoint := lowPoint st; sc_parent := parent st;
       children := 0%Z; isArticulationPoint := false |}.

(** One iteration of [while (!s.empty())]. [None] stands for an iteration
    without defined behaviour: [lowPoint[previous]] is read while [previous]
    has no value, or outside of the vector. *)
Definition dfs_step (H : StaticHypergraph) (start : HypernodeID)
    (st : dfs_state) : option dfs_state :=
  match s st with
  | [] => Some st
  | v :: rest =>
      if negb (vget false (pushedChildren st) v) then
        let pushed := vset (pushedChildren st) v true in
        let d := if negb (v =? start)%N
                 then wrap32 (vget 0%N (depth st) (vget 0%N (parent st) v) + 1)
                 else 0%N in
        let depth1 := vset (depth st) v d in
        Some (for_neighbours H v (push_child v)
                {| visitedHypernode := visitedHypernode st;
                   depth := depth1;
                   lowPoint := vset (lowPoint st) v d;
                   parent := parent st;
                   components := components st;
                   s := s st;
                   pushedChildren := pushed;
                   previous := previous st |})
      else
        let sc := scan_popped H v st in
        (* ((parent[v] != invalid_node) && isArticulationPoint)
           || ((parent[v] = invalid_node) && (children > 1)) *)
        let first := negb (vget 0%N (sc_parent sc) v =? invalid_node)%N
                     && isArticulationPoint sc in
        let parent2 := if first then sc_parent sc
                       else vset (sc_parent sc) v invalid_node in
        let cond := first || (1 <? children sc)%Z in
        let popped comps :=
          {| visitedHypernode := visitedHypernode st;
             depth := depth st;
             lowPoint := sc_lowPoint sc;
             parent := parent2;
             components := comps;
             s := rest;
             pushedChildren := pushedChildren st;
             previous := Some v |} in
        if cond then Some (popped (components st))
        else
          match previous st with
          | None => None
          | Some p =>
              match sc_lowPoint sc !! N.to_nat p with
              | None => None
              | Some low_p =>
                  Some (popped
                          (if (low_p =? vget 0%N (sc_lowPoint sc) v)%N
                           then vset (components st) v p
                           else components st))
              end
          end
  end.

(** How a call of [depthFirstSearch] goes on: it returns with the state
    [st], it has no defined behaviour, or it is still in its loop when the
    fuel of the model is used up. *)
Inductive dfs_outcome :=
  | Returns (st : dfs_state)
  | Undefined
  | Running (st : dfs_state).

Fixpoint dfs_loop (H : StaticHypergraph) (start : HypernodeID) (fuel : nat)
    (st : dfs_state) : dfs_outcome :=
  match s st with
  | [] => Returns st
  | _ =>
      match fuel with
      | 0 => Running st
      | S fuel =>
          match dfs_step H start st with
          | None => Undefined
          | Some st' => dfs_loop H start fuel st'
          end
      end
  end.

(** [depthFirstSearch(start, d, hypergraph, visitedHypernode, depth, lowPoint,
    parent, components)]; [d] is not used by the source. *)
Definition depthFirstSearch (fuel : nat)
    (start : HypernodeID) (H : StaticHypergraph)
    (visited : list bool) (dep low par comps : list HypernodeID) : dfs_outcome :=
  dfs_loop H start fuel
    {| visitedHypernode := visited; depth := dep; lowPoint := low;
       parent := par; components := comps; s := [start];
       pushedChildren := replicate (N.to_nat (initialNumNodes H)) false;
       previous := None |}.

(** The number of neighbour visits of one scan. *)
Definition num_neighbour_visits (H : StaticHypergraph) (v : HypernodeID) : Z :=
  Z.of_nat (length (mjoin (pins H <$> incidentEdges H v))).

(** Two vertices joined by one hyperedge. *)
Definition H_pair : StaticHypergraph :=
  {| _num_hypernodes := 2%N; _num_hyperedges := 1%N; _num_pins := 2%N;
     _total_degree := 2%N; _total_weight := 2%Z; _max_edge_size := 2%N;
     _hypernodes := [ {| hn_begin := 0%N; hn_size := 1%N; hn_weight := 1%Z; hn_valid := true |};
                      {| hn_begin := 1%N; hn_size := 1%N; hn_weight := 1%Z; hn_valid := true |} ];
     _incident_nets := [0; 0]%N;
     _hyperedges := [ {| he_begin := 0%N; he_size := 2%N; he_weight := 1%Z; he_valid := true |} ];
     _incidence_array := [0; 1]%N;
     _community_ids := [0; 0]%Z |}.

Definition dfs_state_pair : dfs_state :=
  {| visitedHypernode := [true; true];
     depth := [0; 1]%N; lowPoint := [0; 1]%N;
     parent := [invalid_node; 0%N];
     components := [0; 0]%N;
     s := [1%N; 0%N; 0%N];
     pushedChildren := [true; true];
     previous := None |}.

(** One vertex without a hyperedge. *)
Definition H_isolated : StaticHypergraph :=
  {| _num_hypernodes := 1%N; _num_hyperedges := 0%N; _num_pins := 0%N;
     _total_degree := 0%N; _total_weight := 1%Z; _max_edge_size := 0%N;
     _hypernodes := [ {| hn_begin := 0%N; hn_size := 0%N; hn_weight := 1%Z; hn_valid := true |} ];
     _incident_nets := [];
     _hyperedges := [];
     _incidence_array := [];
     _community_ids := [0]%Z |}.

End NaturalCut.

(** * Construction of a static graph

    [StaticGraphFactory::construct] of [static_graph_factory.cpp]. The graph
    stores every undirected edge twice, once in the window of each end
    point. *)

Module GraphFactory.
Import Hypergraph.

Record Edge := {
  target : HypernodeID;
  backwardsEdge : HyperedgeID;
  e_weight : HyperedgeWeight;
}.

Record Node := {
  n_begin : N;             (* firstEntry() *)
  n_weight : HypernodeWeight;
  n_valid : bool;
}.

Record StaticGraph := {
  _num_nodes : N;
  _num_edges : N;
  _total_weight : HypernodeWeight;
  _nodes : list Node;
  _edges : list Edge;
  _community_ids : list Z;
}.

(** What [resize] fills the vectors with: unit weights (the tests of the
    graph read weight 1 where no weights are given), a disabled node. *)
Definition default_edge : Edge :=
  {| target := 0%N; backwardsEdge := 0%N; e_weight := 1%Z |}.
Definition default_node : Node :=
  {| n_begin := 0%N; n_weight := 1%Z; n_valid := false |}.

Definition node (g : StaticGraph) (u : HypernodeID) : Node :=
  vget default_node (_nodes g) u.

(** The entries of [_edges] in the window of [u], from [node(u).firstEntry()]
    up to [node(u + 1).firstEntry()]. *)
Definition incident_window (g : StaticGraph) (u : HypernodeID) : list Edge :=
  window (_edges g) (n_begin (node g u))
         (n_begin (node g (u + 1)%N) - n_begin (node g u))%N.

(** [++num_degree_per_vertex[pin]] for the pins of all edges. *)
Definition count_degrees (num_nodes : N) (edge_vector : list (list HypernodeID))
    : list N :=
  foldl (λ c e, foldl (λ c pin, vset c pin (vget 0 c pin + 1)%N) c e)
        (replicate (N.to_nat num_nodes) 0%N) edge_vector.

(** Modelled from the spec: [TBBPrefixSum], declared in
    [parallel_prefix_sum.h]; [degree_prefix_sum[i]] is the sum of the degrees
    before [i], the first position of vertex [i]. *)
Definition prefix_sum (l : list N) (i : N) : N :=
  foldr N.add 0%N (take (N.to_nat i) l).

(** The body of the loop of [setup_edges] for the edge at [pos]. *)
Definition setup_edge (prefix : N → N) (edge_weight : option (list HyperedgeWeight))
    (st : list Edge * list N) (pe : nat * list HypernodeID)
    : list Edge * list N :=
  let '(es, position) := st in
  let '(pos, e) := pe in
  let pin0 := default 0%N (e !! 0) in
  let incident_edges_pos0 := (prefix pin0 + vget 0 position pin0)%N in
  let position := vset position pin0 (vget 0 position pin0 + 1)%N in
  let pin1 := default 0%N (e !! 1) in
  let incident_edges_pos1 := (prefix pin1 + vget 0 position pin1)%N in
  let position := vset position pin1 (vget 0 position pin1 + 1)%N in
  let w (old : Edge) := match edge_weight with
                        | Some ws => default 0%Z (ws !! pos)
                        | None => e_weight old
                        end in
  let edge0 := vget default_edge es incident_edges_pos0 in
  let es := vset es incident_edges_pos0
              {| target := pin1; backwardsEdge := incident_edges_pos1;
                 e_weight := w edge0 |} in
  let edge1 := vget default_edge es incident_edges_pos1 in
  let es := vset es incident_edges_pos1
              {| target := pin0; backwardsEdge := incident_edges_pos0;
                 e_weight := w edge1 |} in
  (es, position).

(** The body of the loop of [setup_nodes]. *)
Definition setup_node (prefix : N → N) (node_weight : option (list HypernodeWeight))
    (ns : list Node) (pos : N) : list Node :=
  vset ns pos
    {| n_begin := prefix pos;
       n_weight := match node_weight with
                   | Some ws => vget 0%Z ws pos
                   | None => n_weight (vget default_node ns pos)
                   end;
       n_valid := true |}.

(** The comparison [a.target() < b.target()] that [std::sort] is called with;
    as an order, [a] may stand before [b]. *)
Definition by_target (a b : Edge) : Prop := (target a ≤ target b)%N.

#[export] Instance by_target_dec : RelDecision by_target :=
  λ a b, decide (target a ≤ target b)%N.

(** [std::sort(v.begin() + b, v.begin() + e, cmp)]. The order that
    [std::sort] gives to entries with equal targets is not specified; the
    model takes the one of a merge sort. *)
Definition sort_range (es : list Edge) (b e : N) : list Edge :=
  take (N.to_nat b) es
  ++ merge_sort by_target (window es b (e - b)%N)
  ++ drop (N.to_nat e) es.

Definition sort_incident_edges (ns : list Node) (es : list Edge) (u : HypernodeID)
    : list Edge :=
  sort_range es (n_begin (vget default_node ns u))
                (n_begin (vget default_node ns (u + 1)%N)).

(** [computeAndSetTotalNodeWeight]. *)
Definition total_node_weight (num_nodes : N) (ns : list Node) : HypernodeWeight :=
  foldl (λ w u, let n := vget default_node ns u in
                if n_valid n then (w + n_weight n)%Z else w)
        0%Z (ids num_nodes).

(** [construct]; [None] stands for the exit through [ERROR] on an edge that
    does not have two pins. *)
Definition construct (num_nodes num_edges : N)
    (edge_vector : list (list HypernodeID))
    (edge_weight : option (list HyperedgeWeight))
    (node_weight : option (list HypernodeWeight))
    (stable_construction_of_degree : bool) : option StaticGraph :=
  if bool_decide (Forall (λ e, length e = 2) edge_vector) then
    let nodes0 := replicate (N.to_nat num_nodes + 1) default_node in
    let edges0 := replicate (2 * N.to_nat num_edges) default_edge in
    let num_degree_per_vertex := count_degrees num_nodes edge_vector in
    let degree_prefix_sum := prefix_sum num_degree_per_vertex in
    let edges1 :=
      (foldl (setup_edge degree_prefix_sum edge_weight)
             (edges0, replicate (N.to_nat num_nodes) 0%N)
             (imap (λ pos e, (pos, e)) edge_vector)).1 in
    let nodes1 :=
      foldl (setup_node degree_prefix_sum node_weight) nodes0 (ids num_nodes) in
    (* Add Sentinel *)
    let nodes2 :=
      vset nodes1 num_nodes
        {| n_begin := N.of_nat (length edges1); n_weight := 1%Z; n_valid := false |} in
    let edges2 :=
      if stable_construction_of_degree
      then foldl (sort_incident_edges nodes2) edges1 (ids num_nodes)
      else edges1 in
    Some {| _num_nodes := num_nodes;
            _num_edges := num_edges;
            _total_weight := total_node_weight num_nodes nodes2;
            _nodes := nodes2;
            _edges := edges2;
            _community_ids := replicate (N.to_nat num_nodes) 0%Z |}
  else None.

(** The edge-pin lists given to [construct] name vertices of the graph, one
    list per edge. *)
Definition wf_edge_vector (num_nodes num_edges : N)
    (edge_vector : list (list HypernodeID)) : Prop :=
  length edge_vector = N.to_nat num_edges ∧
  Forall (Forall (λ pin, pin < num_nodes)%N) edge_vector.

(** The targets in the window of [u] ascend. *)
Definition window_sorted (g : StaticGraph) (u : HypernodeID) : Prop :=
  Sorted N.le (target <$> incident_window g u).

End GraphFactory.

(** * Contraction

    [StaticHypergraph::contract] of [static_hypergraph.cpp]. Its first
    statement is [return contract_v2(communities);], so [contract_v2] is what
    runs. *)

Module Contraction.
Import Hypergraph.

Definition wrap32 (x : N) : N := (x mod 2 ^ 32)%N.
Definition wrap64 (x : N) : N := (x mod 2 ^ 64)%N.
(** [x - y] on [HypernodeID], for [y] up to [2^32]. *)
Definition sub32 (x y : N) : N := wrap32 (x + 2 ^ 32 - y).
(** [std::numeric_limits<size_t>::max()]. *)
Definition SIZE_MAX : N := (2 ^ 64 - 1)%N.

(** [struct ContractedHyperedgeInformation]. *)
Record ContractedHyperedgeInformation := {
  info_he : HyperedgeID;   (* he *)
  info_hash : N;           (* hash *)
  info_size : N;           (* size *)
  info_valid : bool;       (* valid *)
}.

(** [operator<]: [std::tie(hash, size, he) < std::tie(o.hash, o.size, o.he)]. *)
Definition info_ltb (a b : ContractedHyperedgeInformation) : bool :=
  (info_hash a <? info_hash b)%N
  || ((info_hash a =? info_hash b)%N
      && ((info_size a <? info_size b)%N
          || ((info_size a =? info_size b)%N && (info_he a <? info_he b)%N))).

(** The order that sorting by [operator<] establishes: [b] is not less than
    [a]. *)
Definition info_le (a b : ContractedHyperedgeInformation) : Prop :=
  info_ltb b a = false.

#[export] Instance info_le_dec : RelDecision info_le :=
  λ a b, decide (info_ltb b a = false).

(** [v.clear()] marks a net as removed. *)
Definition is_empty {A} (l : list A) : bool :=
  match l with [] => true | _ => false end.

(** A write into a vector that was resized to a computed number of
    elements: outside of the vector it corrupts memory, here [None]. *)
Definition write_checked {A} (l : list A) (i : nat) (x : A) : option (list A) :=
  if decide (i < length l) then Some (<[i := x]> l) else None.

(** A loop whose body can fail. *)
Fixpoint foldl_opt {S B} (f : S → B → option S) (st : S) (l : list B) : option S :=
  match l with
  | [] => Some st
  | x :: l => st' ← f st x; foldl_opt f st' l
  end.

(** ** Compactification of the cluster ids *)

(** [mapping[clusters[u]] = 1] for every [u] below [initialNumNodes()]. *)
Definition mark_clusters (n : N) (clusters : list HypernodeID) : list HypernodeID :=
  foldl (λ mapping u, vset mapping (vget 0%N clusters u) 1%N)
        (replicate (N.to_nat n) 0%N) (ids n).

(** [parallel_prefix_sum(first, last, first, std::plus<>(), neutral)],
    declared in [parallel_prefix_sum.h]; as the comment at the call says, the
    sum is inclusive. *)
Fixpoint parallel_prefix_sum (neutral : N) (l : list N) : list N :=
  match l with
  | [] => []
  | x :: l => let s := wrap32 (neutral + x) in s :: parallel_prefix_sum s l
  end.

(** [clusters[u] = nodeIsEnabled(u) ? mapping[clusters[u]] - 1
                                    : kInvalidHypernode]. *)
Definition relabel (H : StaticHypergraph) (mapping clusters : list HypernodeID)
    : list HypernodeID :=
  foldl (λ clusters u,
           vset clusters u
                (if nodeIsEnabled H u
                 then sub32 (vget 0%N mapping (vget 0%N clusters u)) 1
                 else kInvalidHypernode))
        clusters (ids (initialNumNodes H)).

(** ** Coarse pin lists *)

(** One pin: [if (cv != kInvalidHypernode && !contained[cv])]. *)
Definition add_pin (clusters : list HypernodeID)
    (st : list bool * list HypernodeID) (v : HypernodeID)
    : list bool * list HypernodeID :=
  let cv := vget 0%N clusters v in
  if negb (cv =? kInvalidHypernode)%N && negb (vget false st.1 cv)
  then (vset st.1 cv true, st.2 ++ [cv])
  else st.

Definition bits_set (contained : list bool) (l : list HypernodeID) : list bool :=
  foldl (λ c v, vset c v true) contained l.
Definition bits_reset (contained : list bool) (l : list HypernodeID) : list bool :=
  foldl (λ c v, vset c v false) contained l.

Definition cs2 (x : N) : N := wrap64 (x * x).

(** [size_t edge_hash = 420; for (v : pin_list) edge_hash += cs2(v);]. *)
Definition edge_hash (pin_list : list HypernodeID) : N :=
  foldl (λ h v, wrap64 (h + cs2 v)) 420%N pin_list.

Record pin_list_state := {
  pl_pin_lists : list (list HypernodeID);            (* coarse_pin_lists *)
  pl_permutation : list ContractedHyperedgeInformation;
  pl_contained : list bool;                          (* local_maps.local() *)
}.

(** The body of the first [doParallelForAllEdges]. *)
Definition map_pin_list (H : StaticHypergraph) (clusters : list HypernodeID)
    (st : pin_list_state) (e : HyperedgeID) : pin_list_state :=
  let '(contained, pin_list) :=
    foldl (add_pin clusters) (pl_contained st, []) (pins H e) in
  let contained := bits_reset contained pin_list in
  if 1 <? length pin_list then
    {| pl_pin_lists := vset (pl_pin_lists st) e pin_list;
       pl_permutation :=
         vset (pl_permutation st) e
              {| info_he := e; info_hash := edge_hash pin_list;
                 info_size := N.of_nat (length pin_list); info_valid := true |};
       pl_contained := contained |}
  else
    {| pl_pin_lists := vset (pl_pin_lists st) e [];
       pl_permutation :=
         vset (pl_permutation st) e
              {| info_he := e; info_hash := SIZE_MAX;
                 info_size := 0; info_valid := false |};
       pl_contained := contained |}.

(** ** Identical-net detection

    Positions in [permutation] and the counters of nets and pins are [nat]:
    they are bounded by the sizes of the vectors. *)

Record detect_state := {
  permutation : list ContractedHyperedgeInformation;
  coarse_pin_lists : list (list HypernodeID);
  coarse_edge_weights : list HyperedgeWeight;
  contained : list bool;
  num_coarse_nets : nat;
  num_coarse_pins : nat;
}.

Definition invalidate (i : ContractedHyperedgeInformation) :=
  {| info_he := info_he i; info_hash := info_hash i;
     info_size := info_size i; info_valid := false |}.

Definition info_at (kEdgeHashSeed : N)
    (perm : list ContractedHyperedgeInformation) (i : nat) :=
  default {| info_he := kInvalidHyperedge; info_hash := kEdgeHashSeed;
             info_size := SIZE_MAX; info_valid := false |} (perm !! i).

Section detection.
Context (kEdgeHashSeed : N) (H : StaticHypergraph).

(** [for (j = pos + 1; j < permutation.size() && hash == permutation[j].hash
         && rep.size == permutation[j].size; ++j)], entered with
    [rem = permutation.size() - j]. *)
Fixpoint cand_loop (hash rep_size : N) (bits : list bool) (rem j : nat)
    (perm : list ContractedHyperedgeInformation)
    (pin_lists : list (list HypernodeID)) (rep_weight : HyperedgeWeight)
    : list ContractedHyperedgeInformation * list (list HypernodeID)
      * HyperedgeWeight :=
  match rem with
  | 0 => (perm, pin_lists, rep_weight)
  | S rem =>
      let cand := info_at kEdgeHashSeed perm j in
      if (hash =? info_hash cand)%N && (rep_size =? info_size cand)%N then
        let cand_pins := vget [] pin_lists (info_he cand) in
        if info_valid cand && forallb (λ v, vget false bits v) cand_pins then
          cand_loop hash rep_size bits rem (j + 1)
            (<[j := invalidate cand]> perm)
            (vset pin_lists (info_he cand) [])
            (add_weight rep_weight (edgeWeight H (info_he cand)))
        else cand_loop hash rep_size bits rem (j + 1) perm pin_lists rep_weight
      else (perm, pin_lists, rep_weight)
  end.

(** [for ( ; pos < permutation.size() && hash == permutation[pos].hash; ++pos)],
    entered with [rem = permutation.size() - pos]. The state carries the
    local counters in [num_coarse_nets] and [num_coarse_pins]. *)
Fixpoint run_loop (hash : N) (rem pos : nat) (st : detect_state) : detect_state :=
  match rem with
  | 0 => st
  | S rem =>
      let rep := info_at kEdgeHashSeed (permutation st) pos in
      if (hash =? info_hash rep)%N then
        if info_valid rep then
          let rep_pins := vget [] (coarse_pin_lists st) (info_he rep) in
          let bits := bits_set (contained st) rep_pins in
          let '(perm, pin_lists, rep_weight) :=
            cand_loop hash (info_size rep) bits rem (pos + 1)
              (permutation st) (coarse_pin_lists st)
              (edgeWeight H (info_he rep)) in
          run_loop hash rem (pos + 1)
            {| permutation := perm;
               coarse_pin_lists := pin_lists;
               coarse_edge_weights :=
                 vset (coarse_edge_weights st) (info_he rep) rep_weight;
               contained := bits_reset bits (vget [] pin_lists (info_he rep));
               num_coarse_nets := num_coarse_nets st + 1;
               num_coarse_pins :=
                 num_coarse_pins st + length (vget [] pin_lists (info_he rep)) |}
        else run_loop hash rem (pos + 1) st
      else st
  end.

(** The body of the second [doParallelForAllEdges], called with the ids of
    the enabled edges as positions. *)
Definition detect_at (st : detect_state) (e : HyperedgeID) : detect_state :=
  let pos := N.to_nat e in
  let here := info_at kEdgeHashSeed (permutation st) pos in
  if ((pos =? 0)
      || negb (info_hash here
               =? info_hash (info_at kEdgeHashSeed (permutation st) (pos - 1)))%N)
     && info_valid here
  then run_loop (info_hash here) (length (permutation st) - pos) pos st
  else st.

End detection.

(** ** Writing the coarse hypergraph *)

Record emit_state := {
  em_hyperedges : list Hyperedge;        (* chg._hyperedges *)
  em_offsets : list nat;                 (* offsets_for_fine_nets *)
  net_size_sum : nat;
  coarse_net_id : nat;
}.

(** The final pass of [net_size_prefix_sum] for one fine net. *)
Definition emit_net (pin_lists : list (list HypernodeID))
    (weights : list HyperedgeWeight) (st : emit_state) (e : HyperedgeID)
    : option emit_state :=
  let pin_list := vget [] pin_lists e in
  if negb (is_empty pin_list) then
    hes ← write_checked (em_hyperedges st) (coarse_net_id st)
           {| he_begin := N.of_nat (net_size_sum st);
              he_size := N.of_nat (length pin_list);
              he_weight := vget 0%Z weights e;
              he_valid := true |};
    Some {| em_hyperedges := hes;
            em_offsets := vset (em_offsets st) e (net_size_sum st);
            net_size_sum := net_size_sum st + length pin_list;
            coarse_net_id := coarse_net_id st + 1 |}
  else Some st.

Definition incr_size (hn : Hypernode) : Hypernode :=
  {| hn_begin := hn_begin hn; hn_size := (hn_size hn + 1)%N;
     hn_weight := hn_weight hn; hn_valid := hn_valid hn |}.

(** [chg._incidence_array[pos++] = v] and the increment of the degree of
    [v]. *)
Definition copy_pin (st : list HypernodeID * list Hypernode * nat) (v : HypernodeID)
    : option (list HypernodeID * list Hypernode * nat) :=
  let '(incidence, hns, pos) := st in
  incidence' ← write_checked incidence pos v;
  Some (incidence',
        vset hns v (incr_size (vget hn_default hns v)),
        pos + 1).

(** The body of the third [doParallelForAllEdges]. *)
Definition copy_pin_list (pin_lists : list (list HypernodeID)) (offsets : list nat)
    (st : list HypernodeID * list Hypernode) (e : HyperedgeID)
    : option (list HypernodeID * list Hypernode) :=
  let pin_list := vget [] pin_lists e in
  if negb (is_empty pin_list) then
    r ← foldl_opt copy_pin (st.1, st.2, vget 0 offsets e) pin_list;
    Some (r.1.1, r.1.2)
  else Some st.

(** The final pass of [degree_prefix_sum] for one coarse vertex. *)
Definition place_node (st : list Hypernode * N) (u : HypernodeID)
    : list Hypernode * N :=
  let '(hns, sum) := st in
  let hn := vget hn_default hns u in
  (vset hns u {| hn_begin := sum; hn_size := hn_size hn;
                 hn_weight := hn_weight hn; hn_valid := true |},
   (sum + hn_size hn)%N).

(** [pos = fetch_add(chg._hypernodes[v]._begin, 1); chg._incident_nets[pos] = he]. *)
Definition scatter_pin (e : HyperedgeID) (st : list Hypernode * list HyperedgeID)
    (v : HypernodeID) : list Hypernode * list HyperedgeID :=
  let '(hns, nets) := st in
  let hn := vget hn_default hns v in
  (vset hns v {| hn_begin := (hn_begin hn + 1)%N; hn_size := hn_size hn;
                 hn_weight := hn_weight hn; hn_valid := hn_valid hn |},
   vset nets (hn_begin hn) e).

(** The body of the loop that resets the cursors and sorts the incident nets
    of one coarse vertex. *)
Definition reset_node (st : list Hypernode * list HyperedgeID) (u : HypernodeID)
    : list Hypernode * list HyperedgeID :=
  let '(hns, nets) := st in
  let hn := vget hn_default hns u in
  let first := wrap64 (hn_begin hn + 2 ^ 64 - hn_size hn) in
  (vset hns u {| hn_begin := first; hn_size := hn_size hn;
                 hn_weight := 0%Z; hn_valid := hn_valid hn |},
   take (N.to_nat first) nets
   ++ merge_sort N.le (window nets first (hn_size hn))
   ++ drop (N.to_nat first + N.to_nat (hn_size hn)) nets).

(** The body of the last [doParallelForAllNodes]. *)
Definition aggregate_node (H : StaticHypergraph) (clusters : list HypernodeID)
    (st : list Hypernode * list Z) (u : HypernodeID) : list Hypernode * list Z :=
  let '(hns, comm) := st in
  let cu := vget 0%N clusters u in
  let hn := vget hn_default hns cu in
  (vset hns cu {| hn_begin := hn_begin hn; hn_size := hn_size hn;
                  hn_weight := add_weight (hn_weight hn) (nodeWeight H u);
                  hn_valid := hn_valid hn |},
   vset comm cu (communityID H u)).

Section contract.
Context (kEdgeHashSeed : N).

(** The state after the pin lists are generated, sorted and freed of
    identical nets. *)
Definition detect_identical_nets (H : StaticHypergraph)
    (num_coarse_nodes : N) (clusters : list HypernodeID) : detect_state :=
  let m := N.to_nat (initialNumEdges H) in
  let pl :=
    foldl (map_pin_list H clusters)
      {| pl_pin_lists := replicate m [];
         pl_permutation :=
           replicate m {| info_he := kInvalidHyperedge; info_hash := kEdgeHashSeed;
                          info_size := SIZE_MAX; info_valid := false |};
         pl_contained := replicate (N.to_nat num_coarse_nodes) false |}
      (edges H) in
  foldl (detect_at kEdgeHashSeed H)
    {| permutation := merge_sort info_le (pl_permutation pl);
       coarse_pin_lists := pl_pin_lists pl;
       coarse_edge_weights := replicate m 0%Z;
       contained := pl_contained pl;
       num_coarse_nets := 0;
       num_coarse_pins := 0 |}
    (edges H).

(** [contract_v2(clusters)]: the coarse hypergraph and the rewritten
    [clusters], or [None] where a write leaves the vector it was meant for. *)
Definition contract_v2 (H : StaticHypergraph) (clusters : list HypernodeID)
    : option (StaticHypergraph * list HypernodeID) :=
  let n := initialNumNodes H in
  let mapping := parallel_prefix_sum 0 (mark_clusters n clusters) in
  let num_coarse_nodes := vget 0%N mapping (n - 1)%N in
  let clusters := relabel H mapping clusters in
  let d := detect_identical_nets H num_coarse_nodes clusters in
  em ← foldl_opt (emit_net (coarse_pin_lists d) (coarse_edge_weights d))
         {| em_hyperedges := replicate (num_coarse_nets d) he_default;
            em_offsets := replicate (N.to_nat (initialNumEdges H)) 0;
            net_size_sum := 0; coarse_net_id := 0 |}
         (ids (initialNumEdges H));
  cp ← foldl_opt (copy_pin_list (coarse_pin_lists d) (em_offsets em))
         (replicate (num_coarse_pins d) 0%N,
          replicate (N.to_nat num_coarse_nodes) hn_default)
         (edges H);
  let chg0 :=
    {| _num_hypernodes := num_coarse_nodes;
       _num_hyperedges := N.of_nat (num_coarse_nets d);
       _num_pins := N.of_nat (num_coarse_pins d);
       _total_degree := N.of_nat (num_coarse_pins d);
       _total_weight := _total_weight H;
       _max_edge_size := 0;
       _hypernodes := cp.2;
       _incident_nets := replicate (num_coarse_pins d) 0%N;
       _hyperedges := em_hyperedges em;
       _incidence_array := cp.1;
       _community_ids := replicate (N.to_nat num_coarse_nodes) 0%Z |} in
  let hns1 := (foldl place_node (cp.2, 0%N) (ids num_coarse_nodes)).1 in
  let '(hns2, nets2) :=
    foldl (λ st e, foldl (scatter_pin e) st (pins chg0 e))
          (hns1, _incident_nets chg0) (ids (_num_hyperedges chg0)) in
  let '(hns3, nets3) := foldl reset_node (hns2, nets2) (ids num_coarse_nodes) in
  let max_edge_size :=
    foldl (λ mx e, N.max mx (edgeSize chg0 e)) 0%N (ids (_num_hyperedges chg0)) in
  let '(hns4, comm) :=
    foldl (aggregate_node H clusters) (hns3, _community_ids chg0) (nodes H) in
  Some ({| _num_hypernodes := num_coarse_nodes;
           _num_hyperedges := _num_hyperedges chg0;
           _num_pins := _num_pins chg0;
           _total_degree := _total_degree chg0;
           _total_weight := _total_weight H;
           _max_edge_size := max_edge_size;
           _hypernodes := hns4;
           _incident_nets := nets3;
           _hyperedges := em_hyperedges em;
           _incidence_array := cp.1;
           _community_ids := comm |},
        clusters).

Definition contract := contract_v2.

End contract.

(** ** Notions used to state the properties *)

(** The hypergraph handed to [contract]: its vectors have the advertised
    sizes, identifiers fit 32 bits and the pins of the enabled nets are
    vertices. *)
Definition wf_hypergraph (H : StaticHypergraph) : Prop :=
  (0 < initialNumNodes H < 2 ^ 32 - 1)%N ∧
  (initialNumEdges H < 2 ^ 32 - 1)%N ∧
  length (_hypernodes H) = N.to_nat (initialNumNodes H) ∧
  length (_hyperedges H) = N.to_nat (initialNumEdges H) ∧
  ∀ e v, e ∈ edges H → v ∈ pins H e → (v < initialNumNodes H)%N.

(** The cluster vector: one cluster id, below the number of vertices, per
    vertex. *)
Definition wf_clusters (H : StaticHypergraph) (clusters : list HypernodeID) : Prop :=
  length clusters = N.to_nat (initialNumNodes H) ∧
  ∀ u, (u < initialNumNodes H)%N → (vget 0%N clusters u < initialNumNodes H)%N.

(** The distinct coarse ids of a pin list, in the order of their first
    occurrence; disabled pins (invalid id) contribute nothing. *)
Definition coarse_pins (clusters : list HypernodeID) (l : list HypernodeID)
    : list HypernodeID :=
  foldl (λ acc v, let cv := vget 0%N clusters v in
                  if bool_decide (cv = kInvalidHypernode ∨ cv ∈ acc)
                  then acc else acc ++ [cv])
        [] l.

(** What the first pass leaves in [coarse_pin_lists[e]] and [permutation[e]]:
    nets with fewer than two coarse pins are removed, disabled nets are not
    visited. *)
Definition L0 (H : StaticHypergraph) (clusters : list HypernodeID) (e : HyperedgeID)
    : list HypernodeID :=
  let l := coarse_pins clusters (pins H e) in
  if edgeIsEnabled H e && (1 <? length l) then l else [].

Definition P0 (kEdgeHashSeed : N) (H : StaticHypergraph)
    (clusters : list HypernodeID) (e : HyperedgeID)
    : ContractedHyperedgeInformation :=
  let l := coarse_pins clusters (pins H e) in
  if edgeIsEnabled H e then
    if 1 <? length l then
      {| info_he := e; info_hash := edge_hash l;
         info_size := N.of_nat (length l); info_valid := true |}
    else {| info_he := e; info_hash := SIZE_MAX; info_size := 0; info_valid := false |}
  else {| info_he := kInvalidHyperedge; info_hash := kEdgeHashSeed;
          info_size := SIZE_MAX; info_valid := false |}.

(** The sum of the weights of the fine nets [M]. *)
Definition sum_weights (H : StaticHypergraph) (M : list HyperedgeID) : Z :=
  foldr Z.add 0%Z (edgeWeight H <$> M).

(** The weight that the detection of identical nets leaves for the
    representative at the head of [M] when it merges the other nets of [M]
    into it, in this order: [rep_weight = edgeWeight(rep.he)] and then
    [rep_weight += edgeWeight(cand.he)] for each of them. *)
Definition merged_weight (H : StaticHypergraph) (M : list HyperedgeID) : Z :=
  match M with
  | [] => 0%Z
  | rep :: cands => add_weights (edgeWeight H rep) (edgeWeight H <$> cands)
  end.

(** [perm'] is [perm] with some valid entries invalidated. *)
Definition perm_le (perm perm' : list ContractedHyperedgeInformation) : Prop :=
  length perm' = length perm ∧
  ∀ q i, perm !! q = Some i →
         perm' !! q = Some i ∨
         (info_valid i = true ∧ perm' !! q = Some (invalidate i)).

(** Valid entries at different positions name different nets. *)
Definition he_inj (perm : list ContractedHyperedgeInformation) : Prop :=
  ∀ q q' i i', perm !! q = Some i → perm !! q' = Some i' →
               info_valid i = true → info_valid i' = true →
               info_he i = info_he i' → q = q'.

(** What the sorted [permutation] and the pin lists of the first pass
    satisfy, whatever the hashes are. *)
Record perm_facts (H : StaticHypergraph) (cl : list HypernodeID) (nc : nat)
    (P : list ContractedHyperedgeInformation) : Prop := {
  pf_len : length P = N.to_nat (initialNumEdges H);
  pf_valid : ∀ q i, P !! q = Some i → info_valid i = true →
      info_he i ∈ edges H ∧
      info_size i = N.of_nat (length (L0 H cl (info_he i))) ∧
      2 ≤ length (L0 H cl (info_he i));
  pf_inj : he_inj P;
  pf_all : ∀ e, (e < initialNumEdges H)%N → L0 H cl e ≠ [] →
      ∃ q i, P !! q = Some i ∧ info_valid i = true ∧ info_he i = e;
  pf_nodup : ∀ e, NoDup (L0 H cl e);
  pf_range : ∀ e, e ∈ edges H → Forall (λ c, N.to_nat c < nc) (L0 H cl e);
}.

(** The state of the identical-net detection: [reps] are the positions
    handled as representatives so far, [Ms r] the fine nets merged into the
    representative at position [r], itself included. *)
Record det_inv (H : StaticHypergraph) (cl : list HypernodeID) (nc : nat)
    (P : list ContractedHyperedgeInformation) (st : detect_state)
    (reps : list nat) (Ms : nat → list HyperedgeID) : Prop := {
  di_perm : perm_le P (permutation st);
  di_lists_len : length (coarse_pin_lists st) = length P;
  di_weights_len : length (coarse_edge_weights st) = length P;
  di_bits : contained st = replicate nc false;
  di_lists : ∀ e, vget [] (coarse_pin_lists st) e = []
                  ∨ vget [] (coarse_pin_lists st) e = L0 H cl e;
  di_valid : ∀ q i, permutation st !! q = Some i → info_valid i = true →
      vget [] (coarse_pin_lists st) (info_he i) = L0 H cl (info_he i);
  di_merged : ∀ q i, P !! q = Some i → info_valid i = true →
      permutation st !! q = Some (invalidate i) →
      vget [] (coarse_pin_lists st) (info_he i) = [] ∧
      ∃ r, r ∈ reps ∧ info_he i ∈ Ms r;
  di_reps : NoDup reps;
  di_rep : ∀ r, r ∈ reps →
      ∃ i, permutation st !! r = Some i ∧ info_valid i = true ∧
           vget 0%Z (coarse_edge_weights st) (info_he i) = merged_weight H (Ms r) ∧
           NoDup (Ms r) ∧ info_he i ∈ Ms r ∧
           ∀ e, e ∈ Ms r → e ∈ edges H ∧ L0 H cl e ≠ [] ∧
                           L0 H cl e ≡ₚ L0 H cl (info_he i);
  di_members : ∀ r e, r ∈ reps → e ∈ Ms r →
      vget [] (coarse_pin_lists st) e = [] ∨ e = info_he (info_at 0%N P r);
  di_disj : ∀ r r' e, r ∈ reps → r' ∈ reps → e ∈ Ms r → e ∈ Ms r' → r = r';
  di_nets : num_coarse_nets st = length reps;
  di_pins : num_coarse_pins st
            = foldr Nat.add 0
                ((λ r, length (L0 H cl (info_he (info_at 0 P r)))) <$> reps);
}.

(** The body of [run_loop] for a valid representative at [pos]. *)
Definition process_rep (kEdgeHashSeed : N) (H : StaticHypergraph) (hash : N)
    (pos : nat) (st : detect_state) : detect_state :=
  let rep := info_at kEdgeHashSeed (permutation st) pos in
  let rep_pins := vget [] (coarse_pin_lists st) (info_he rep) in
  let bits := bits_set (contained st) rep_pins in
  let '(perm, pin_lists, rep_weight) :=
    cand_loop kEdgeHashSeed H hash (info_size rep) bits
      (length (permutation st) - (pos + 1)) (pos + 1)
      (permutation st) (coarse_pin_lists st) (edgeWeight H (info_he rep)) in
  {| permutation := perm;
     coarse_pin_lists := pin_lists;
     coarse_edge_weights := vset (coarse_edge_weights st) (info_he rep) rep_weight;
     contained := bits_reset bits (vget [] pin_lists (info_he rep));
     num_coarse_nets := num_coarse_nets st + 1;
     num_coarse_pins :=
       num_coarse_pins st + length (vget [] pin_lists (info_he rep)) |}.

(** The merged nets after the representative at [p] took [M]. *)
Definition Ms_update (Ms : nat → list HyperedgeID) (p : nat) (M : list HyperedgeID)
    : nat → list HyperedgeID :=
  λ r, if decide (r = p) then M else Ms r.

(** No two nets have the same coarse pins. *)
Definition distinct_nets (H : StaticHypergraph) (cl : list HypernodeID) : Prop :=
  ∀ e e', e ∈ edges H → e' ∈ edges H → L0 H cl e ≠ [] →
          L0 H cl e ≡ₚ L0 H cl e' → e = e'.

(** Every net is enabled and keeps at least two coarse pins, and no two nets
    have the same coarse pins: nothing is removed or merged. *)
Definition no_merge (H : StaticHypergraph) (cl : list HypernodeID)
    (P : list ContractedHyperedgeInformation) : Prop :=
  (∀ e, (e < initialNumEdges H)%N → edgeIsEnabled H e = true) ∧
  (∀ i, i ∈ P → info_valid i = true) ∧
  distinct_nets H cl.

(** Every net is enabled, the entries of removed nets are those with the hash
    [SIZE_MAX], and the hashes do not decrease along [P]: the valid entries
    come first. *)
Definition valid_first (H : StaticHypergraph)
    (P : list ContractedHyperedgeInformation) : Prop :=
  (∀ e, (e < initialNumEdges H)%N → edgeIsEnabled H e = true) ∧
  (∀ i, i ∈ P → (info_hash i ≤ SIZE_MAX)%N ∧
                (info_valid i = true ↔ info_hash i ≠ SIZE_MAX)) ∧
  (∀ q q' i i', q ≤ q' → P !! q = Some i → P !! q' = Some i' →
                (info_hash i ≤ info_hash i')%N).

(** The fine nets below [m] whose pin list is not empty, and their pins in
    the order in which they are written. *)
Definition nonempty_nets (lists : list (list HypernodeID)) (m : N) : list HyperedgeID :=
  filter (λ e, is_empty (vget [] lists e) = false) (ids m).
Definition emitted_pins (lists : list (list HypernodeID)) (nets : list HyperedgeID)
    : list HypernodeID :=
  mjoin (vget [] lists <$> nets).

(** The sum of the weights of the enabled vertices of cluster [c]. *)
Definition cluster_weight (H : StaticHypergraph) (cl : list HypernodeID)
    (c : HypernodeID) : Z :=
  foldr Z.add 0%Z
    (nodeWeight H <$> filter (λ u, vget 0%N cl u = c) (nodes H)).

(** The weight that the additions of the last loop of the contraction leave
    in the coarse vertex [c]: the weights of the enabled vertices of the
    cluster, added one by one to 0. *)
Definition aggregated_weight (H : StaticHypergraph) (cl : list HypernodeID)
    (c : HypernodeID) : Z :=
  add_weights 0%Z (nodeWeight H <$> filter (λ u, vget 0%N cl u = c) (nodes H)).

(** The bitmap [bits], of [nc] flags, holds exactly the ids of [l]. *)
Definition bits_of (nc : nat) (bits : list bool) (l : list HypernodeID) : Prop :=
  length bits = nc ∧ ∀ c, vget false bits c = true ↔ c ∈ l.

(** Three vertices, the last one disabled, and one net. *)
Definition H_disabled_vertex : StaticHypergraph :=
  hypergraph_of [(1, true); (1, true); (1, false)]%Z [([0; 1]%N, 5%Z, true)].

(** Three vertices and three nets with the same pins. *)
Definition H_parallel : StaticHypergraph :=
  hypergraph_of (replicate 3 (1%Z, true))
    [([0; 1; 2]%N, 1%Z, true); ([2; 1; 0]%N, 2%Z, true); ([0; 2; 1]%N, 3%Z, true)].

Definition chg_parallel : StaticHypergraph :=
  Eval vm_compute in
    match contract 42 H_parallel (ids 3) with
    | Some r => r.1
    | None => H_parallel
    end.

(** Three vertices of weights 4, 5, 6 and two nets. *)
Definition H_path : StaticHypergraph :=
  hypergraph_of [(4%Z, true); (5%Z, true); (6%Z, true)]
    [([0; 1]%N, 7%Z, true); ([2; 1]%N, 8%Z, true)].

(** Four vertices and four nets; with vertices 1 and 2 in one cluster the
    nets 0, 1 and 3 share the coarse pins 0 and 1. *)
Definition H_merge : StaticHypergraph :=
  hypergraph_of (replicate 4 (1%Z, true))
    [([0; 1]%N, 1%Z, true); ([0; 1; 2]%N, 2%Z, true);
     ([2; 3]%N, 3%Z, true); ([1; 0]%N, 4%Z, true)].
Definition clusters_merge : list HypernodeID := [0; 1; 1; 3]%N.
Definition chg_merge : StaticHypergraph :=
  Eval vm_compute in
    match contract 42 H_merge clusters_merge with
    | Some r => r.1
    | None => H_merge
    end.

(** Two vertices and two nets on the pins 0 and 1, of the weights [2^31 - 1]
    and 1. *)
Definition H_heavy : StaticHypergraph :=
  hypergraph_of (replicate 2 (1%Z, true))
    [([0; 1]%N, 2147483647%Z, true); ([0; 1]%N, 1%Z, true)].

End Contraction.

(** * More notions for the contraction *)

Module Coarsening.
Import Hypergraph Contraction.

(** The representatives handled so far keep every later valid entry of
    their hash and size apart: such an entry has a coarse pin that the
    representative lacks. *)
Definition apart (H : StaticHypergraph) (cl : list HypernodeID)
    (P : list ContractedHyperedgeInformation) (st : detect_state)
    (reps : list nat) : Prop :=
  ∀ r q ir iq, r ∈ reps → r < q →
    P !! r = Some ir → permutation st !! q = Some iq →
    info_valid iq = true →
    info_hash iq = info_hash ir → info_size iq = info_size ir →
    ∃ v, v ∈ L0 H cl (info_he iq) ∧ v ∉ L0 H cl (info_he ir).

(** A vertex record whose degree counter went up by [k]. *)
Definition grow (hn : Hypernode) (k : N) : Hypernode :=
  {| hn_begin := hn_begin hn; hn_size := (hn_size hn + k)%N;
     hn_weight := hn_weight hn; hn_valid := hn_valid hn |}.

(** Where the range of [c] starts when the ranges of the vertices follow
    each other in the order of the ids: the sum of the sizes before [c]. *)
Definition first_entry (sizes : HypernodeID → N) (c : HypernodeID) : N :=
  foldr N.add 0%N (sizes <$> ids c).

(** The nets below [m] that have the pin [c], in increasing order. *)
Definition nets_of (pinsof : HyperedgeID → list HypernodeID) (m : N)
    (c : HypernodeID) : list HyperedgeID :=
  filter (λ k, c ∈ pinsof k) (ids m).

(** The state while the incident nets are written: the range of the vertex
    [c] starts at [first_entry deg c], holds the nets [W c] so far and has
    room for [deg c] nets; [_begin] of [c] is the next free entry. *)
Definition scatter_inv (deg : HypernodeID → N) (nc : nat)
    (hns : list Hypernode) (arr : list HyperedgeID)
    (W : HypernodeID → list HyperedgeID) : Prop :=
  length hns = nc ∧
  length arr = N.to_nat (first_entry deg (N.of_nat nc)) ∧
  ∀ c, (c < N.of_nat nc)%N →
    hn_begin (vget hn_default hns c)
    = (first_entry deg c + N.of_nat (length (W c)))%N ∧
    (N.of_nat (length (W c)) ≤ deg c)%N ∧
    ∀ t x, W c !! t = Some x →
           arr !! (N.to_nat (first_entry deg c) + t) = Some x.

End Coarsening.

(** ** Localized k-way FM *)

Module FM.
Import Hypergraph.

Abbreviation PartitionID := nat (only parsing).
Abbreviation Gain := Z (only parsing).

(** Modelled from the spec: the partitioned overlay of section 4.3, whose
    class (partitioned_hypergraph.h) is not among the sources. It holds
    [part_of], [pin_count_in_part], [connectivity_set], as one flag per block
    for every net, and [part_weight]. *)
Record PartitionedHypergraph := {
  phg_hg : StaticHypergraph;
  phg_k : nat;
  part_of : list PartitionID;
  pin_count_in_part : list (list nat);
  connectivity_set : list (list bool);
  part_weight : list Z;
}.

Definition partID (phg : PartitionedHypergraph) (u : HypernodeID) : PartitionID :=
  vget 0 (part_of phg) u.
Definition pin_count (phg : PartitionedHypergraph) (e : HyperedgeID)
    (b : PartitionID) : nat :=
  default 0 (vget [] (pin_count_in_part phg) e !! b).

(** A flag as a number. *)
Definition flag (b : bool) : nat := if b then 1 else 0.

(** The number of blocks in [connectivity_set[e]]. *)
Definition count_blocks (flags : list bool) : nat :=
  length (filter (λ x : bool, x = true) flags).
Definition connectivity (phg : PartitionedHypergraph) (e : HyperedgeID) : nat :=
  count_blocks (vget [] (connectivity_set phg) e).

(** Modelled from the spec: [set_only_part(v, b)] updates [part_of[v]]. *)
Definition set_only_part (phg : PartitionedHypergraph) (v : HypernodeID)
    (b : PartitionID) : PartitionedHypergraph :=
  {| phg_hg := phg_hg phg; phg_k := phg_k phg;
     part_of := vset (part_of phg) v b;
     pin_count_in_part := pin_count_in_part phg;
     connectivity_set := connectivity_set phg;
     part_weight := part_weight phg |}.

(** The pins of [pin_list] that [parts] puts into block [b]. *)
Definition pins_in_part (parts : list PartitionID) (pin_list : list HypernodeID)
    (b : PartitionID) : nat :=
  length (filter (λ v, vget 0 parts v = b) pin_list).

(** Modelled from the spec: [initialize_partition] recomputes
    [pin_count_in_part], [connectivity_set] and [part_weight] from scratch. *)
Definition initialize_partition (phg : PartitionedHypergraph)
    : PartitionedHypergraph :=
  let H := phg_hg phg in
  let blocks := seq 0 (phg_k phg) in
  let count e b := pins_in_part (part_of phg) (pins H e) b in
  {| phg_hg := H; phg_k := phg_k phg; part_of := part_of phg;
     pin_count_in_part := (λ e, count e <$> blocks) <$> ids (initialNumEdges H);
     connectivity_set :=
       (λ e, (λ b, bool_decide (0 < count e b)) <$> blocks)
         <$> ids (initialNumEdges H);
     part_weight :=
       (λ b, foldr Z.add 0%Z
               (nodeWeight H <$> filter (λ v, vget 0 (part_of phg) v = b) (nodes H)))
         <$> blocks |}.

(** Modelled from the spec: what a successful [change_part] does for one
    incident net: decrement [pin_count[e][from]] (if it reaches 0 remove
    [from] from [connectivity_set[e]]) and increment [pin_count[e][to]] (if it
    was 0 add [to]). The gain-cache hook works on data outside of the overlay
    and is left out. *)
Definition update_row (from to : PartitionID) (row : list nat * list bool)
    : list nat * list bool :=
  let '(counts, flags) := row in
  let count_from := default 0 (counts !! from) - 1 in
  let counts1 := <[from := count_from]> counts in
  let flags1 := if decide (count_from = 0) then <[from := false]> flags else flags in
  let count_to := default 0 (counts1 !! to) in
  (<[to := count_to + 1]> counts1,
   if decide (count_to = 0) then <[to := true]> flags1 else flags1).

(** Modelled from the spec: the same for the net [e] of the overlay. *)
Definition update_edge (from to : PartitionID)
    (st : list (list nat) * list (list bool)) (e : HyperedgeID)
    : list (list nat) * list (list bool) :=
  let row := update_row from to (vget [] st.1 e, vget [] st.2 e) in
  (vset st.1 e row.1, vset st.2 e row.2).

(** Modelled from the spec: the transition of [v] from [from] to [to] that a
    successful [change_part] makes: the block of [v], the block weights and
    the incident nets. *)
Definition move_node (phg : PartitionedHypergraph) (v : HypernodeID)
    (from to : PartitionID) : PartitionedHypergraph :=
  let H := phg_hg phg in
  let w := nodeWeight H v in
  let weights1 :=
    <[from := (default 0 (part_weight phg !! from) - w)%Z]> (part_weight phg) in
  let st :=
    foldl (update_edge from to) (pin_count_in_part phg, connectivity_set phg)
          (incidentEdges H v) in
  {| phg_hg := H; phg_k := phg_k phg;
     part_of := vset (part_of phg) v to;
     pin_count_in_part := st.1;
     connectivity_set := st.2;
     part_weight := <[to := (default 0 (weights1 !! to) + w)%Z]> weights1 |}.

(** Modelled from the spec: [change_part(v, from, to, gain_cache_hook)]
    succeeds iff [part_weight[to] + weight(v) <= max_part_weight]. *)
Definition change_part (phg : PartitionedHypergraph) (v : HypernodeID)
    (from to : PartitionID) (max_part_weight : Z) : bool * PartitionedHypergraph :=
  if decide (default 0 (part_weight phg !! to) + nodeWeight (phg_hg phg) v
             ≤ max_part_weight)%Z
  then (true, move_node phg v from to)
  else (false, phg).

(** Modelled from the spec: [km1_gain(v, from, to)], the sum over the incident
    nets [e] of [(pin_count[e][from] == 1 ? w(e) : 0)
    - (pin_count[e][to] == 0 ? w(e) : 0)]. *)
Definition km1_gain (phg : PartitionedHypergraph) (v : HypernodeID)
    (from to : PartitionID) : Gain :=
  foldr Z.add 0%Z
    ((λ e, (if decide (pin_count phg e from = 1%nat)
            then edgeWeight (phg_hg phg) e else 0)
           - (if decide (pin_count phg e to = 0%nat)
              then edgeWeight (phg_hg phg) e else 0))%Z
       <$> incidentEdges (phg_hg phg) v).

(** Modelled from the spec: the km1 metric of the glossary, the sum over the
    nets of [(connectivity(e) - 1) * weight(e)]; [metrics::km1] of the test
    is declared in metrics.h, not among the sources. *)
Definition km1 (phg : PartitionedHypergraph) : Z :=
  foldr Z.add 0%Z
    ((λ e, (Z.of_nat (connectivity phg e) - 1) * edgeWeight (phg_hg phg) e)%Z
       <$> edges (phg_hg phg)).

(** Modelled from the spec: an entry [Move{v, from, to, gain, move_id}] of
    the move tracker; the test reads its [gain]. The id of a move is its
    position in [moveOrder]. *)
Record Move := {
  mv_node : HypernodeID;
  mv_from : PartitionID;
  mv_to : PartitionID;
  gain : Gain;
}.

Section fm.
(** The gain that marks a reverted move; its value is declared with [Move],
    outside of the sources. *)
Context (invalidGain : Gain).

(** The loop of the test [FMCoreTest.PQInsertAndUpdate] over
    [moveTracker.moveOrder], up to [numPerformedMoves()]. *)
Definition accumulated_gain (moveOrder : list Move) : Z :=
  foldl (λ acc m, if decide (gain m ≠ invalidGain) then (acc + gain m)%Z else acc)
        0%Z moveOrder.

(** Modelled from the spec: step 2 (Expand) of section 4.7 for one vertex
    popped from the priority queue with its target block. The queue, the
    seeds and the stopping rule only decide which vertices are popped and when
    the search ends: the search is given the sequence of popped pairs. The
    gain strategy keeps the key of [v] equal to the gain of its move, which is
    the gain logged with the move. *)
Definition expand (max_part_weight : list Z)
    (st : PartitionedHypergraph * list Move) (popped : HypernodeID * PartitionID)
    : PartitionedHypergraph * list Move :=
  let '(phg, moveOrder) := st in
  let '(v, to) := popped in
  let from := partID phg v in
  if decide (to = from) then st
  else
    let g := km1_gain phg v from to in
    let r := change_part phg v from to (default 0%Z (max_part_weight !! to)) in
    if r.1
    then (r.2, moveOrder ++ [{| mv_node := v; mv_from := from; mv_to := to;
                                gain := g |}])
    else st.

(** Modelled from the spec: step 4 (Rollback), the length of the prefix of the
    moves that maximizes the cumulative gain; among equal sums the longest
    prefix, as the rollback scenario of the spec expects (gains +3, +1, -2,
    +2, -5 keep the first four moves). *)
Definition best_prefix (gains : list Gain) : nat :=
  (foldl (λ (st : nat * Z * Z * nat) g,
            let '(i, sum, best_sum, best) := st in
            let sum' := (sum + g)%Z in
            if decide (best_sum ≤ sum')%Z
            then (i + 1, sum', sum', i + 1)
            else (i + 1, sum', best_sum, best))
         (0, 0%Z, 0%Z, 0) gains).2.

(** Modelled from the spec: the inverse [change_part] of a move. *)
Definition revert (phg : PartitionedHypergraph) (m : Move) : PartitionedHypergraph :=
  move_node phg (mv_node m) (mv_to m) (mv_from m).

(** Modelled from the spec: the gain of a reverted move is marked invalid. *)
Definition mark_invalid (m : Move) : Move :=
  {| mv_node := mv_node m; mv_from := mv_from m; mv_to := mv_to m;
     gain := invalidGain |}.

(** Modelled from the spec: the moves after the best prefix, here those from
    index [keep] on, are reverted in LIFO order and their gains are marked
    invalid. *)
Definition rollback (phg : PartitionedHypergraph) (moveOrder : list Move)
    (keep : nat) : PartitionedHypergraph * list Move :=
  (foldl revert phg (reverse (drop keep moveOrder)),
   take keep moveOrder ++ (mark_invalid <$> drop keep moveOrder)).

(** Modelled from the spec: one localized search, [findMoves] of
    localized_kway_fm_core.h (not among the sources): Expand for the popped
    vertices, then Rollback to the best prefix of the moves of this search. *)
Definition findMoves (max_part_weight : list Z) (phg : PartitionedHypergraph)
    (moveOrder : list Move) (popped : list (HypernodeID * PartitionID))
    : PartitionedHypergraph * list Move :=
  let first := length moveOrder in
  let st := foldl (expand max_part_weight) (phg, moveOrder) popped in
  let best := best_prefix (gain <$> drop first st.2) in
  rollback st.1 st.2 (first + best).

End fm.

(** The moves of a log applied in order. *)
Definition replay (phg : PartitionedHypergraph) (moves : list Move)
    : PartitionedHypergraph :=
  foldl (λ p m, move_node p (mv_node m) (mv_from m) (mv_to m)) phg moves.

(** The incident nets of a vertex are the enabled nets that contain it, and
    no net contains a vertex twice. *)
Definition wf_incidence (H : StaticHypergraph) : Prop :=
  (∀ v, (v < initialNumNodes H)%N →
        incidentEdges H v ≡ₚ filter (λ e, v ∈ pins H e) (edges H)) ∧
  (∀ e, e ∈ edges H → NoDup (pins H e)).

(** The overlay agrees with its partition: the pin counts and connectivity
    flags of the enabled nets are those of [part_of]. *)
Definition consistent (phg : PartitionedHypergraph) : Prop :=
  let H := phg_hg phg in
  length (part_of phg) = N.to_nat (initialNumNodes H) ∧
  Forall (λ b, b < phg_k phg) (part_of phg) ∧
  length (pin_count_in_part phg) = N.to_nat (initialNumEdges H) ∧
  length (connectivity_set phg) = N.to_nat (initialNumEdges H) ∧
  length (part_weight phg) = phg_k phg ∧
  ∀ e, e ∈ edges H →
    length (vget [] (pin_count_in_part phg) e) = phg_k phg ∧
    length (vget [] (connectivity_set phg) e) = phg_k phg ∧
    ∀ b, b < phg_k phg →
      pin_count phg e b = pins_in_part (part_of phg) (pins H e) b ∧
      vget [] (connectivity_set phg) e !! b
      = Some (bool_decide (0 < pins_in_part (part_of phg) (pins H e) b)).

(** The sum of the absolute weights of the nets of a vertex. *)
Definition incident_weight (H : StaticHypergraph) (v : HypernodeID) : Z :=
  foldr Z.add 0%Z ((λ e, Z.abs (edgeWeight H e)) <$> incidentEdges H v).

(** The moves of a log as the search makes them from [phg]: every move takes
    a vertex from its block to another block and carries its gain. *)
Fixpoint valid_moves (phg : PartitionedHypergraph) (moves : list Move) : Prop :=
  match moves with
  | [] => True
  | m :: moves =>
      (mv_node m < initialNumNodes (phg_hg phg))%N ∧
      mv_from m = partID phg (mv_node m) ∧
      mv_to m ≠ mv_from m ∧ mv_to m < phg_k phg ∧
      gain m = km1_gain phg (mv_node m) (mv_from m) (mv_to m) ∧
      valid_moves (move_node phg (mv_node m) (mv_from m) (mv_to m)) moves
  end.

(** The four vertices of [H_merge] in two blocks. *)
Definition phg_merge : PartitionedHypergraph :=
  initialize_partition
    {| phg_hg := Contraction.H_merge; phg_k := 2; part_of := [0; 1; 0; 1];
       pin_count_in_part := []; connectivity_set := []; part_weight := [] |}.

End FM.

(** * Partition metrics

  The integer metrics of [metrics.h]. They are templates over the type of
  the partitioned hypergraph and call a handful of its accessors, which the
  class [HyperGraph] collects. [HyperedgeWeight] and [PartitionID] are
  signed [int]s, whose overflow has no defined result: the sums are taken
  in [Z]. *)

Module Metrics.

Class HyperGraph (G : Type) := {
  edges : G → list N;
  connectivity : G → N → Z;
  edgeWeight : G → N → Z;
  nodes : G → list N;
  nodeDegree : G → N → N;
}.

Section metrics.
Context {G : Type} `{HyperGraph G}.

(** The three accumulators are [HyperedgeWeight]s and [connectivity] is a
    [PartitionID], both of 32 bits: every [+=], [*] and [- 1] of the source
    is computed in that width. *)
Definition hyperedgeCut (hypergraph : G) : Z :=
  foldl (λ cut he,
           if (1 <? connectivity hypergraph he)%Z
           then Hypergraph.add_weight cut (edgeWeight hypergraph he) else cut)
        0%Z (edges hypergraph).

Definition km1 (hypergraph : G) : Z :=
  foldl (λ km1 he,
           Hypergraph.add_weight km1
             (Hypergraph.mul_weight
                (Z.max (Hypergraph.add_weight (connectivity hypergraph he) (-1)) 0)
                (edgeWeight hypergraph he)))
        0%Z (edges hypergraph).

Definition soed (hypergraph : G) : Z :=
  foldl (λ soed he,
           let connectivity := connectivity hypergraph he in
           if (1 <? connectivity)%Z
           then Hypergraph.add_weight soed
                  (Hypergraph.mul_weight connectivity (edgeWeight hypergraph he))
           else soed)
        0%Z (edges hypergraph).

(** The sums that the three loops accumulate, as integers without a width:
    the weight of the cut hyperedges, the connectivity metric and the sum of
    external degrees. *)
Definition cut_sum (hypergraph : G) : Z :=
  foldr Z.add 0%Z
    ((λ he, if (1 <? connectivity hypergraph he)%Z
            then edgeWeight hypergraph he else 0%Z) <$> edges hypergraph).

Definition km1_sum (hypergraph : G) : Z :=
  foldr Z.add 0%Z
    ((λ he, (Z.max (connectivity hypergraph he - 1) 0
             * edgeWeight hypergraph he)%Z) <$> edges hypergraph).

Definition soed_sum (hypergraph : G) : Z :=
  foldr Z.add 0%Z
    ((λ he, if (1 <? connectivity hypergraph he)%Z
            then (connectivity hypergraph he * edgeWeight hypergraph he)%Z
            else 0%Z) <$> edges hypergraph).

(** A hypergraph whose connectivities and weights are values of the 32-bit
    types, no connectivity being the least value of its type. *)
Definition fits_metrics (hypergraph : G) : Prop :=
  ∀ he, he ∈ edges hypergraph →
    Hypergraph.fits_weight (edgeWeight hypergraph he) ∧
    (- 2 ^ 31 < connectivity hypergraph he < 2 ^ 31)%Z.

(** [hypernodeDegreeRank]; sorting numbers has one result, here that of a
    merge sort. [None] stands for a [rank] outside of [hn_degrees], which the
    source excludes with an [ASSERT]. *)
Definition hypernodeDegreeRank (hypergraph : G) (rank : nat) : option N :=
  let hn_degrees := nodeDegree hypergraph <$> nodes hypergraph in
  merge_sort N.le hn_degrees !! rank.

End metrics.

(** The partitioned hypergraph of the FM search as a [HyperGraph]. *)
#[export] Instance FM_HyperGraph : HyperGraph FM.PartitionedHypergraph :=
  {| edges := λ phg, Hypergraph.edges (FM.phg_hg phg);
     connectivity := λ phg he, Z.of_nat (FM.connectivity phg he);
     edgeWeight := λ phg he, Hypergraph.edgeWeight (FM.phg_hg phg) he;
     nodes := λ phg, Hypergraph.nodes (FM.phg_hg phg);
     nodeDegree := λ phg hn,
       N.of_nat (length (Hypergraph.incidentEdges (FM.phg_hg phg) hn)) |}.

(** A hypergraph given by the lists of its answers, for examples: per
    hyperedge its connectivity and weight, per vertex its degree. *)
Record Table := {
  t_edges : list (Z * Z);
  t_degrees : list N;
}.

#[export] Instance Table_HyperGraph : HyperGraph Table :=
  {| edges := λ t, Hypergraph.ids (N.of_nat (length (t_edges t)));
     connectivity := λ t he, (Hypergraph.vget (0, 0)%Z (t_edges t) he).1;
     edgeWeight := λ t he, (Hypergraph.vget (0, 0)%Z (t_edges t) he).2;
     nodes := λ t, Hypergraph.ids (N.of_nat (length (t_degrees t)));
     nodeDegree := λ t hn, Hypergraph.vget 0%N (t_degrees t) hn |}.

Definition table_example : Table :=
  {| t_edges := [(1, 5); (2, 3); (3, 2); (0, 7)]%Z;
     t_degrees := [3; 1; 2; 1; 0]%N |}.

(** One hyperedge of weight [2^30] that connects four blocks. *)
Definition table_heavy : Table :=
  {| t_edges := [(4, 1073741824)]%Z; t_degrees := [] |}.

End Metrics.

(** * The adjacency array of a static graph

    Notions to state what [StaticGraphFactory::construct] stores. *)

Module Adjacency.
Import Hypergraph GraphFactory.

(** How often [v] is a pin of the edges [ev]. *)
Definition pin_count (ev : list (list HypernodeID)) (v : HypernodeID) : N :=
  N.of_nat (length (filter (λ p, p = v) (mjoin ev))).

(** The weight that the two entries of the edge at [pos] get:
    [edge_weight[pos]], or the weight of a fresh entry when no weights are
    given. *)
Definition given_edge_weight (edge_weight : option (list HyperedgeWeight))
    (pos : nat) : HyperedgeWeight :=
  match edge_weight with
  | Some ws => default 0%Z (ws !! pos)
  | None => e_weight default_edge
  end.

(** The state of [setup_edges] after the edges [ev]: the counter of every
    vertex is the number of its entries, the entries of a vertex follow each
    other from [prefix v] on, the entries not yet written are fresh, and the
    two entries of every edge point at each other. *)
Definition setup_inv (prefix : N → N) (ew : option (list HyperedgeWeight))
    (n : nat) (ev : list (list HypernodeID))
    (es : list Edge) (position : list N) : Prop :=
  length position = n ∧
  (∀ v, (v < N.of_nat n)%N → vget 0%N position v = pin_count ev v) ∧
  (∀ v i, (v < N.of_nat n)%N →
          (prefix v + pin_count ev v ≤ i < prefix (v + 1))%N →
          vget default_edge es i = default_edge) ∧
  ∀ pos p0 p1, ev !! pos = Some [p0; p1] →
    ∃ i0 i1 : N,
      i0 ≠ i1 ∧
      (prefix p0 ≤ i0 < prefix p0 + pin_count ev p0)%N ∧
      (prefix p1 ≤ i1 < prefix p1 + pin_count ev p1)%N ∧
      vget default_edge es i0
      = {| target := p1; backwardsEdge := i1;
           e_weight := given_edge_weight ew pos |} ∧
      vget default_edge es i1
      = {| target := p0; backwardsEdge := i0;
           e_weight := given_edge_weight ew pos |}.

(** The graph with the edges 0-2 and 0-1, built without and with the stable
    order of the incident edges. *)
Definition graph_of (stable : bool) : StaticGraph :=
  Eval vm_compute in
    match construct 3 2 [[0; 2]; [0; 1]]%N None None stable with
    | Some g => g
    | None => {| _num_nodes := 0; _num_edges := 0; _total_weight := 0;
                 _nodes := []; _edges := []; _community_ids := [] |}
    end.

End Adjacency.

(** * The progress of the depth-first search

    Notions to state that [while (!s.empty())] of [depthFirstSearch] ends. *)

Module Search.
Import Hypergraph NaturalCut.

(** The number of flags of [visitedHypernode] that are not set. *)
Definition unvisited (visited : list bool) : nat :=
  length (filter (λ b, b = false) visited).

(** The number of stack entries whose flag in [pushedChildren] is not set:
    they are still to be expanded. *)
Definition waiting (pushed : list bool) (stack : list HypernodeID) : nat :=
  length (filter (λ v, vget false pushed v = false) stack).

(** A bound on the number of iterations that the loop still makes: a vertex
    that is not visited can be pushed, expanded and popped; an entry of the
    stack is popped, and before that expanded when it is waiting. *)
Definition dfs_measure (st : dfs_state) : nat :=
  2 * unvisited (visitedHypernode st) + length (s st)
  + waiting (pushedChildren st) (s st).

(** The two flag arrays have one flag per vertex and the stack holds
    vertices. *)
Definition dfs_wf (H : StaticHypergraph) (st : dfs_state) : Prop :=
  length (visitedHypernode st) = N.to_nat (initialNumNodes H) ∧
  length (pushedChildren st) = N.to_nat (initialNumNodes H) ∧
  Forall (λ v, v < initialNumNodes H)%N (s st).

(** The pins of the incident nets of every vertex are vertices. *)
Definition pins_in_range (H : StaticHypergraph) : Prop :=
  ∀ v e u, e ∈ incidentEdges H v → u ∈ pins H e → (u < initialNumNodes H)%N.

(** [u] is a pin of an incident net of [v]: the inner loops of the search
    run over the neighbours of [v]. *)
Definition neighbour (H : StaticHypergraph) (v u : HypernodeID) : Prop :=
  ∃ e, e ∈ incidentEdges H v ∧ u ∈ pins H e.

(** [u] is reached from [start] by one or more steps to a neighbour. *)
Inductive reached (H : StaticHypergraph) (start : HypernodeID)
    : HypernodeID → Prop :=
  | reached_first u : neighbour H start u → reached H start u
  | reached_next v u :
      reached H start v → neighbour H v u → reached H start u.

(** The flagged vertices are closed under neighbours, as they are before the
    first search and after every search. *)
Definition closed_flags (H : StaticHypergraph) (visited : list bool) : Prop :=
  ∀ v u, vget false visited v = true → neighbour H v u →
         vget false visited u = true.

(** The state of the search between two iterations, for the visited flags
    [V0] at its start: the neighbours of an expanded vertex are visited; a
    vertex visited by this search is reached from [start] and is expanded or
    on the stack; so is [start], reached or not. *)
Record dfs_inv (H : StaticHypergraph) (start : HypernodeID) (V0 : list bool)
    (st : dfs_state) : Prop := {
  inv_expanded : ∀ v u,
    vget false (pushedChildren st) v = true → neighbour H v u →
    vget false (visitedHypernode st) u = true;
  inv_visited : ∀ v,
    vget false (visitedHypernode st) v = true →
    vget false V0 v = true
    ∨ (reached H start v
       ∧ (vget false (pushedChildren st) v = true ∨ v ∈ s st));
  inv_start : vget false (pushedChildren st) start = true ∨ start ∈ s st;
  inv_mono : ∀ v,
    vget false V0 v = true → vget false (visitedHypernode st) v = true;
  inv_reached : ∀ v,
    vget false (pushedChildren st) v = true ∨ v ∈ s st →
    v = start ∨ reached H start v;
}.

(** The part of the invariant that holds while a vertex is expanded. *)
Definition expanding (H : StaticHypergraph) (start : HypernodeID)
    (V0 : list bool) (st : dfs_state) : Prop :=
  dfs_wf H st ∧
  (∀ v, vget false (visitedHypernode st) v = true →
        vget false V0 v = true
        ∨ (reached H start v
           ∧ (vget false (pushedChildren st) v = true ∨ v ∈ s st))) ∧
  (∀ v, vget false (pushedChildren st) v = true ∨ v ∈ s st →
        v = start ∨ reached H start v).

End Search.

(** * The size threshold of the natural-cut detection

    The two loops of [run_natural_cut_detection] between the searches and
    the contraction: the components are counted in a [std::map], and every
    vertex of a component that is not small becomes a component of its
    own. *)

Module Threshold.
Import Hypergraph NaturalCut.

(** [m[key]] of [std::map]: a missing key is inserted with the value 0. *)
Definition map_at (m : gmap N N) (key : N) : gmap N N * N :=
  match m !! key with
  | Some x => (m, x)
  | None => (<[key := 0%N]> m, 0%N)
  end.

(** [if (m.find(c) == m.end()) m.insert((c, 0)); m[c]++] for
    [c = components[id]]. *)
Definition count_component (components : list HypernodeID) (m : gmap N N)
    (id : HypernodeID) : gmap N N :=
  let c := vget 0%N components id in
  let m := if decide (m !! c = None) then <[c := 0%N]> m else m in
  let '(m, x) := map_at m c in
  <[c := wrap32 (x + 1)]> m.

(** [if (m[components[id]] >= n / (2 * 10)) components[id] = id]. *)
Definition reset_large (n : N) (st : gmap N N * list HypernodeID)
    (id : HypernodeID) : gmap N N * list HypernodeID :=
  let '(m, components) := st in
  let '(m, x) := map_at m (vget 0%N components id) in
  if (n / (2 * 10) <=? x)%N then (m, vset components id id) else (m, components).

(** The two loops, for [n = initialNumNodes()]. *)
Definition split_large (n : N) (components : list HypernodeID)
    : list HypernodeID :=
  let m := foldl (count_component components) ∅ (ids n) in
  (foldl (reset_large n) (m, components) (ids n)).2.

(** The number of vertices below [j] that have the component [c]. *)
Definition component_size (components : list HypernodeID) (j : N)
    (c : HypernodeID) : N :=
  N.of_nat (length (filter (λ i, vget 0%N components i = c) (ids j))).

End Threshold.

(** * Part II: the properties *)

(** ** Vector primitives *)

Section matrix.
Context {A : Type}.
Implicit Types m : list (list A).

Lemma square_row k m i :
  square k m → i < k → ∃ row, m !! i = Some row ∧ length row = k.
Proof.
  intros [Hl Hr] Hi.
  destruct (lookup_lt_is_Some_2 m i) as [row Hrow]; [lia|].
  exists row. split; [done|].
  by eapply (Forall_lookup_1 _ _ _ _ Hr Hrow).
Qed.

Lemma mset_square k m i j x : square k m → square k (mset m i j x).
Proof.
  intros [Hl Hr]. unfold mset.
  destruct (m !! i) as [row|] eqn:Hrow; [|done].
  split; [by rewrite length_insert|].
  apply Forall_insert; [done|].
  rewrite length_insert.
  by eapply (Forall_lookup_1 _ _ _ _ Hr Hrow).
Qed.

Lemma mget_mset_eq d k m i j x :
  square k m → i < k → j < k → mget d (mset m i j x) i j = x.
Proof.
  intros Hsq Hi Hj.
  destruct (square_row k m i Hsq Hi) as (row & Hrow & Hlen).
  unfold mget, mset. rewrite Hrow.
  rewrite list_lookup_insert_eq by (destruct Hsq; lia). simpl.
  by rewrite list_lookup_insert_eq by lia.
Qed.

Lemma mget_mset_ne d m i j i' j' x :
  (i, j) ≠ (i', j') → mget d (mset m i j x) i' j' = mget d m i' j'.
Proof.
  intros Hne. unfold mget, mset.
  destruct (m !! i) as [row|] eqn:Hrow; [|done].
  destruct (decide (i = i')) as [<-|Hi].
  - rewrite list_lookup_insert_eq by (by eapply lookup_lt_Some).
    rewrite Hrow. simpl.
    rewrite list_lookup_insert_ne; [done|]. congruence.
  - by rewrite list_lookup_insert_ne.
Qed.

Lemma square_ext k m1 m2 d :
  square k m1 → square k m2 →
  (∀ i j, i < k → j < k → mget d m1 i j = mget d m2 i j) → m1 = m2.
Proof.
  intros Hs1 Hs2 Hext.
  apply list_eq_same_length with k; [by destruct Hs2|by destruct Hs1|].
  intros i r1 r2 Hi Hr1 Hr2.
  destruct (square_row k m1 i Hs1 Hi) as (r1' & Hr1' & Hl1).
  destruct (square_row k m2 i Hs2 Hi) as (r2' & Hr2' & Hl2).
  simplify_eq.
  apply list_eq_same_length with (length r1); [congruence|done|].
  intros j x y Hj Hx Hy.
  specialize (Hext i j Hi Hj).
  unfold mget in Hext. rewrite Hr1, Hr2 in Hext. simpl in Hext.
  rewrite Hx, Hy in Hext. done.
Qed.

Lemma square_replicate k (x : A) : square k (replicate k (replicate k x)).
Proof.
  split; [by rewrite length_replicate|].
  apply Forall_replicate. by rewrite length_replicate.
Qed.
End matrix.

Lemma vec_swap_pop_length {A} (l : list A) i :
  i < length l → length (vec_pop (vec_swap l i (length l - 1))) = length l - 1.
Proof.
  intros Hi. unfold vec_pop, vec_swap.
  destruct (lookup_lt_is_Some_2 l i Hi) as [x Hx].
  destruct (lookup_lt_is_Some_2 l (length l - 1)) as [y Hy]; [lia|].
  rewrite Hx, Hy, !length_take, !length_insert. lia.
Qed.

Lemma vec_swap_pop_take {A} (l : list A) i :
  i < length l → take i (vec_pop (vec_swap l i (length l - 1))) = take i l.
Proof.
  intros Hi. unfold vec_pop, vec_swap.
  destruct (lookup_lt_is_Some_2 l i Hi) as [x Hx].
  destruct (lookup_lt_is_Some_2 l (length l - 1)) as [y Hy]; [lia|].
  rewrite Hx, Hy, !length_insert, take_take.
  replace (i `min` (length l - 1)) with i by lia.
  rewrite !take_insert_ge by lia. done.
Qed.

Lemma vec_swap_pop_subseteq {A} (l : list A) i :
  vec_pop (vec_swap l i (length l - 1)) ⊆ l.
Proof.
  unfold vec_pop, vec_swap.
  destruct (l !! i) as [x|] eqn:Hx; [|apply subseteq_take].
  destruct (l !! (length l - 1)) as [y|] eqn:Hy; [|apply subseteq_take].
  intros z Hz. apply subseteq_take in Hz.
  apply list_elem_of_lookup in Hz as [n Hn].
  apply list_lookup_insert_Some in Hn as [(_ & <- & _)|[_ Hn]].
  { by eapply list_elem_of_lookup_2. }
  apply list_lookup_insert_Some in Hn as [(_ & <- & _)|[_ Hn]].
  { by eapply list_elem_of_lookup_2. }
  by eapply list_elem_of_lookup_2.
Qed.

(** ** The quotient-graph block scheduler *)

Module SchedulerSpec.
Import Scheduler.

Lemma edge_ltb_total (a b : edge) :
  edge_ltb a b = false → edge_ltb b a = false → a = b.
Proof.
  destruct a as [a1 a2], b as [b1 b2]. unfold edge_ltb. simpl.
  intros H1 H2.
  apply orb_false_iff in H1 as [H1 H1'], H2 as [H2 H2'].
  apply Nat.ltb_ge in H1, H2.
  assert (a1 = b1) as -> by lia.
  rewrite Nat.eqb_refl in H1', H2'. simpl in *.
  apply Nat.ltb_ge in H1', H2'. f_equal. lia.
Qed.

Lemma elem_of_set_insert e x s : x ∈ set_insert e s ↔ x = e ∨ x ∈ s.
Proof.
  induction s as [|y s IH]; simpl.
  - rewrite list_elem_of_singleton. set_solver.
  - destruct (edge_ltb e y) eqn:H1; [set_solver|].
    destruct (edge_ltb y e) eqn:H2; [set_solver|].
    rewrite (edge_ltb_total e y H1 H2). set_solver.
Qed.

(** The pairs recorded in the [std::set]. *)

Lemma record_pair_set he st b0 b1 x :
  x ∈ (record_pair he st b0 b1).1 ↔ x ∈ st.1 ∨ (b0 < b1 ∧ x = (b0, b1)).
Proof.
  unfold record_pair. destruct (b0 <? b1) eqn:Hlt; simpl.
  - apply Nat.ltb_lt in Hlt. rewrite elem_of_set_insert. naive_solver.
  - apply Nat.ltb_ge in Hlt. split; [auto|]. intros [?|[? _]]; [done|lia].
Qed.

Lemma inner_loop_set he b0 l st x :
  x ∈ (foldl (λ st b1, record_pair he st b0 b1) st l).1
  ↔ x ∈ st.1 ∨ ∃ b1, b1 ∈ l ∧ b0 < b1 ∧ x = (b0, b1).
Proof.
  revert st. induction l as [|b l IH]; intros st; simpl.
  - split; [auto|]. intros [?|(b1 & Hb1 & _)]; [done|]. by apply elem_of_nil in Hb1.
  - rewrite IH, record_pair_set. split.
    + intros [[?|[? ->]]|(b1 & ? & ? & ->)]; [by left|right..].
      * exists b. split; [left|done].
      * exists b1. split; [by right|done].
    + intros [?|(b1 & [->|Hb1]%elem_of_cons & ? & ->)]; [by left; left|by left; right|].
      right. by exists b1.
Qed.

Lemma outer_loop_set he l l' st x :
  x ∈ (foldl (λ st b0, foldl (λ st b1, record_pair he st b0 b1) st l') st l).1
  ↔ x ∈ st.1 ∨ ∃ b0 b1, b0 ∈ l ∧ b1 ∈ l' ∧ b0 < b1 ∧ x = (b0, b1).
Proof.
  revert st. induction l as [|b l IH]; intros st; simpl.
  - split; [auto|]. intros [?|(? & ? & Hb & _)]; [done|]. by apply elem_of_nil in Hb.
  - rewrite IH, inner_loop_set. split.
    + intros [[?|(b1 & ? & ? & ->)]|(b0 & b1 & ? & ? & ? & ->)]; [by left|right..].
      * exists b, b1. split; [left|done].
      * exists b0, b1. split; [by right|done].
    + intros [?|(b0 & b1 & [->|Hb0]%elem_of_cons & ? & ? & ->)]; [by left; left|..].
      * left; right. by exists b1.
      * right. by exists b0, b1.
Qed.

Lemma scan_edge_set phg st he x :
  x ∈ (scan_edge phg st he).1
  ↔ x ∈ st.1 ∨ (1 < connectivity phg he ∧
                 ∃ b0 b1, b0 ∈ connectivitySet phg he ∧
                          b1 ∈ connectivitySet phg he ∧ b0 < b1 ∧ x = (b0, b1)).
Proof.
  unfold scan_edge. destruct (1 <? connectivity phg he) eqn:Hc.
  - apply Nat.ltb_lt in Hc. rewrite outer_loop_set. naive_solver.
  - apply Nat.ltb_ge in Hc. split; [auto|]. intros [?|[? _]]; [done|lia].
Qed.

Lemma scan_edges_set phg es st x :
  x ∈ (foldl (scan_edge phg) st es).1
  ↔ x ∈ st.1 ∨ ∃ he b0 b1, he ∈ es ∧ 1 < connectivity phg he ∧
        b0 ∈ connectivitySet phg he ∧ b1 ∈ connectivitySet phg he ∧
        b0 < b1 ∧ x = (b0, b1).
Proof.
  revert st. induction es as [|e es IH]; intros st; simpl.
  - split; [auto|]. intros [?|(? & ? & ? & Hb & _)]; [done|]. by apply elem_of_nil in Hb.
  - rewrite IH, scan_edge_set. split.
    + intros [[?|(? & b0 & b1 & ? & ? & ? & ->)]|(he & b0 & b1 & ? & ? & ? & ? & ? & ->)];
        [by left|right..].
      * exists e, b0, b1. split; [left|done].
      * exists he, b0, b1. split; [by right|done].
    + intros [?|(he & b0 & b1 & [->|Hhe]%elem_of_cons & ? & ? & ? & ? & ->)];
        [by left; left|..].
      * left; right. split; [done|]. by exists b0, b1.
      * right. by exists he, b0, b1.
Qed.

(** The cut-hyperedge lists only grow, and keep their shape. *)

Lemma cut_le_refl k c : square k c → cut_le k c c.
Proof. by split. Qed.

Lemma cut_le_trans k c1 c2 c3 : cut_le k c1 c2 → cut_le k c2 c3 → cut_le k c1 c3.
Proof. intros [? H1] [? H2]. split; [done|]. auto. Qed.

Lemma record_pair_cut k he st b0 b1 :
  square k st.2 → b1 < k →
  cut_le k st.2 (record_pair he st b0 b1).2 ∧
  (b0 < b1 → he ∈ mget [] (record_pair he st b0 b1).2 b0 b1).
Proof.
  intros Hsq Hb1. unfold record_pair. destruct (b0 <? b1) eqn:Hlt; simpl.
  - apply Nat.ltb_lt in Hlt. split; [split|].
    + by apply mset_square.
    + intros i j he' Hin. destruct (decide ((b0, b1) = (i, j))) as [[= <- <-]|Hne].
      * rewrite (mget_mset_eq _ k) by (done || lia). set_solver.
      * by rewrite mget_mset_ne.
    + intros _. rewrite (mget_mset_eq _ k) by (done || lia). set_solver.
  - apply Nat.ltb_ge in Hlt. split; [by apply cut_le_refl|lia].
Qed.

Lemma inner_loop_cut k he b0 l st :
  square k st.2 → (∀ b, b ∈ l → b < k) →
  let st' := foldl (λ st b1, record_pair he st b0 b1) st l in
  cut_le k st.2 st'.2 ∧ (∀ b1, b1 ∈ l → b0 < b1 → he ∈ mget [] st'.2 b0 b1).
Proof.
  revert st. induction l as [|b l IH]; intros st Hsq Hk; simpl.
  - split; [by apply cut_le_refl|]. intros b1 Hb1. by apply elem_of_nil in Hb1.
  - destruct (record_pair_cut k he st b0 b Hsq) as [Hle Hin]; [apply Hk; left|].
    destruct (IH (record_pair he st b0 b)) as [Hle' Hin'];
      [by destruct Hle|intros; apply Hk; by right|].
    split; [by eapply cut_le_trans|].
    intros b1 [->|Hb1]%elem_of_cons Hlt; [|by apply Hin'].
    destruct Hle' as [_ Hmono]. apply Hmono. by apply Hin.
Qed.

Lemma outer_loop_cut k he l l' st :
  square k st.2 → (∀ b, b ∈ l' → b < k) →
  let st' := foldl (λ st b0, foldl (λ st b1, record_pair he st b0 b1) st l') st l in
  cut_le k st.2 st'.2 ∧
  (∀ b0 b1, b0 ∈ l → b1 ∈ l' → b0 < b1 → he ∈ mget [] st'.2 b0 b1).
Proof.
  revert st. induction l as [|b l IH]; intros st Hsq Hk; simpl.
  - split; [by apply cut_le_refl|]. intros b0 b1 Hb0. by apply elem_of_nil in Hb0.
  - destruct (inner_loop_cut k he b l' st Hsq Hk) as [Hle Hin].
    destruct (IH (foldl (λ st b1, record_pair he st b b1) st l')) as [Hle' Hin'];
      [by destruct Hle|done|].
    split; [by eapply cut_le_trans|].
    intros b0 b1 [->|Hb0]%elem_of_cons Hb1 Hlt; [|by apply Hin'].
    destruct Hle' as [_ Hmono]. apply Hmono. by apply Hin.
Qed.

Lemma scan_edge_cut phg k st he :
  square k st.2 → (∀ b, b ∈ connectivitySet phg he → b < k) →
  cut_le k st.2 (scan_edge phg st he).2 ∧
  (1 < connectivity phg he →
   ∀ b0 b1, b0 ∈ connectivitySet phg he → b1 ∈ connectivitySet phg he →
            b0 < b1 → he ∈ mget [] (scan_edge phg st he).2 b0 b1).
Proof.
  intros Hsq Hk. unfold scan_edge. destruct (1 <? connectivity phg he) eqn:Hc.
  - destruct (outer_loop_cut k he (connectivitySet phg he)
                (connectivitySet phg he) st Hsq Hk) as [Hle Hin].
    split; [done|]. intros _. apply Hin.
  - apply Nat.ltb_ge in Hc. split; [by apply cut_le_refl|lia].
Qed.

Lemma scan_edges_cut phg k es st :
  square k st.2 →
  (∀ he b, he ∈ es → b ∈ connectivitySet phg he → b < k) →
  let st' := foldl (scan_edge phg) st es in
  cut_le k st.2 st'.2 ∧
  (∀ he b0 b1, he ∈ es → 1 < connectivity phg he →
     b0 ∈ connectivitySet phg he → b1 ∈ connectivitySet phg he →
     b0 < b1 → he ∈ mget [] st'.2 b0 b1).
Proof.
  revert st. induction es as [|e es IH]; intros st Hsq Hk; simpl.
  - split; [by apply cut_le_refl|]. intros he b0 b1 Hhe. by apply elem_of_nil in Hhe.
  - destruct (scan_edge_cut phg k st e Hsq) as [Hle Hin];
      [intros; eapply Hk; [left|done]|].
    destruct (IH (scan_edge phg st e)) as [Hle' Hin'];
      [by destruct Hle|intros; eapply Hk; [by right|done]|].
    split; [by eapply cut_le_trans|].
    intros he b0 b1 [->|Hhe]%elem_of_cons Hc Hb0 Hb1 Hlt; [|by apply Hin'].
    destruct Hle' as [_ Hmono]. apply Hmono. by apply Hin.
Qed.

(** C3. On a freshly constructed scheduler, [buildQuotientGraph] puts the pair
    [(b0, b1)], [b0 < b1], into the quotient graph exactly when some hyperedge
    of connectivity above one has both blocks in its connectivity set, and
    every such hyperedge is in [_block_pair_cut_he[b0][b1]]. The blocks of
    the connectivity sets are blocks of the partition, below [k]. *)
Theorem buildQuotientGraph_spec (phg : PartitionedHypergraph) (k : nat)
    (b0 b1 : PartitionID) :
  (∀ he b, he ∈ edges phg → b ∈ connectivitySet phg he → b < k) →
  b0 < b1 →
  let s := buildQuotientGraph phg (SchedulerBase_new k) in
  ((b0, b1) ∈ _quotient_graph s ↔
     ∃ he, he ∈ edges phg ∧ 1 < connectivity phg he ∧
           b0 ∈ connectivitySet phg he ∧ b1 ∈ connectivitySet phg he) ∧
  (∀ he, he ∈ edges phg → 1 < connectivity phg he →
         b0 ∈ connectivitySet phg he → b1 ∈ connectivitySet phg he →
         he ∈ mget [] (_block_pair_cut_he s) b0 b1).
Proof.
  intros Hk Hlt. unfold buildQuotientGraph. simpl.
  pose proof (scan_edges_set phg (edges phg)
                ([], replicate k (replicate k [])) (b0, b1)) as Hset.
  destruct (scan_edges_cut phg k (edges phg) ([], replicate k (replicate k [])))
    as [_ Hcut]; [apply square_replicate|done|].
  destruct (foldl (scan_edge phg) ([], replicate k (replicate k [])) (edges phg))
    as [edge_list cut] eqn:Hfold.
  simpl in *. split.
  - rewrite Hset. split.
    + intros [Hnil|(he & b0' & b1' & ? & ? & ? & ? & ? & [= <- <-])].
      { by apply elem_of_nil in Hnil. }
      by exists he.
    + intros (he & ? & ? & ? & ?). right. by exists he, b0, b1.
  - intros he ????. by apply Hcut.
Qed.

Lemma buildQuotientGraph_spec_witness :
  let s := buildQuotientGraph phg_two_blocks (SchedulerBase_new 2) in
  ((0, 1) ∈ _quotient_graph s ↔
     ∃ he, he ∈ edges phg_two_blocks ∧ 1 < connectivity phg_two_blocks he ∧
           0 ∈ connectivitySet phg_two_blocks he ∧
           1 ∈ connectivitySet phg_two_blocks he) ∧
  (∀ he, he ∈ edges phg_two_blocks → 1 < connectivity phg_two_blocks he →
         0 ∈ connectivitySet phg_two_blocks he →
         1 ∈ connectivitySet phg_two_blocks he →
         he ∈ mget [] (_block_pair_cut_he s) 0 1).
Proof.
  apply (buildQuotientGraph_spec phg_two_blocks 2 0 1); [|lia].
  intros he b _ Hb. simpl in Hb.
  destruct (he =? 0); repeat (apply elem_of_cons in Hb as [->|Hb]; [lia|]);
    by apply elem_of_nil in Hb.
Defined.

(** The loop of [updateBlockPairCutHyperedges]: the entries before [i] are
    pairwise different, have pins in both blocks and are flagged in
    [visited]. *)
Lemma update_loop_spec phg b0 b1 fuel l i N visited :
  N = length l → i ≤ N → N - i ≤ fuel →
  (∀ he, he ∈ l → he < length visited) →
  NoDup (take i l) →
  (∀ he, he ∈ take i l →
     0 < pinCountInPart phg he b0 ∧ 0 < pinCountInPart phg he b1 ∧
     visited !! he = Some true) →
  let r := update_loop phg b0 b1 fuel l i N visited in
  NoDup r ∧ ∀ he, he ∈ r →
     0 < pinCountInPart phg he b0 ∧ 0 < pinCountInPart phg he b1.
Proof.
  revert l i N visited.
  induction fuel as [|fuel IH]; intros l i N visited HN Hi Hfuel Hbound Hnd Hpre; simpl.
  { assert (i = length l) as Hil by lia.
    rewrite Hil, firstn_all in Hnd, Hpre. naive_solver. }
  destruct (decide (i < N)) as [Hlt|Hge]; cycle 1.
  { assert (i = length l) as Hil by lia.
    rewrite Hil, firstn_all in Hnd, Hpre. naive_solver. }
  destruct (lookup_lt_is_Some_2 l i) as [he Hhe]; [lia|]. rewrite Hhe.
  assert (he < length visited) as Hhev
    by (apply Hbound; by eapply list_elem_of_lookup_2).
  assert (∀ he', (he' = he ∨ visited !! he' = Some true) →
                 <[he := true]> visited !! he' = Some true) as Hvis.
  { intros he' [->|Hv]; [by apply list_lookup_insert_eq|].
    destruct (decide (he = he')) as [->|Hne];
      [by apply list_lookup_insert_eq|by rewrite list_lookup_insert_ne]. }
  destruct (bool_decide (pinCountInPart phg he b0 = 0)
            || bool_decide (pinCountInPart phg he b1 = 0)
            || default false (visited !! he)) eqn:Hcond.
  - subst N. apply IH.
    + by rewrite vec_swap_pop_length.
    + lia.
    + lia.
    + intros he' Hin. rewrite length_insert. apply Hbound.
      by eapply vec_swap_pop_subseteq.
    + by rewrite vec_swap_pop_take.
    + intros he' Hin. rewrite vec_swap_pop_take in Hin by done.
      destruct (Hpre he' Hin) as (? & ? & ?). auto.
  - apply orb_false_iff in Hcond as [Hcond Hv].
    apply orb_false_iff in Hcond as [Hp0 Hp1].
    apply bool_decide_eq_false in Hp0, Hp1.
    replace (i + 1) with (S i) by lia.
    apply IH; try lia.
    + intros he' Hin. rewrite length_insert. by apply Hbound.
    + rewrite (take_S_r l i he Hhe). apply NoDup_app. split_and!; [done| |apply NoDup_singleton].
      intros he' Hin ->%list_elem_of_singleton.
      destruct (Hpre he Hin) as (_ & _ & Hv'). by rewrite Hv' in Hv.
    + intros he' Hin. rewrite (take_S_r l i he Hhe) in Hin.
      apply elem_of_app in Hin as [Hin| ->%list_elem_of_singleton].
      * destruct (Hpre he' Hin) as (? & ? & ?). auto.
      * split_and!; [lia|lia|auto].
Qed.

(** C10. The list that [blockPairCutHyperedges(b0, b1)] returns, run on its
    own, names no hyperedge twice and only hyperedges with a pin in block
    [b0] and a pin in block [b1]. The stored hyperedges are hyperedges of the
    hypergraph (they index the [visited] flags). *)
Theorem blockPairCutHyperedges_spec (phg : PartitionedHypergraph) (k : nat)
    (s : SchedulerBase) (b0 b1 : PartitionID) :
  square k (_block_pair_cut_he s) →
  b0 < b1 → b1 < k →
  (∀ he, he ∈ mget [] (_block_pair_cut_he s) b0 b1 → he < initialNumEdges phg) →
  let l := (blockPairCutHyperedges phg b0 b1 s).2 in
  NoDup l ∧
  ∀ he, he ∈ l → 0 < pinCountInPart phg he b0 ∧ 0 < pinCountInPart phg he b1.
Proof.
  intros Hsq Hlt Hk Hbound. unfold blockPairCutHyperedges. simpl.
  rewrite (mget_mset_eq _ k) by (done || lia).
  apply update_loop_spec; try (done || lia).
  - intros he Hin. rewrite length_replicate. by apply Hbound.
  - apply NoDup_nil_2.
  - intros he Hin. by apply elem_of_nil in Hin.
Qed.

Lemma blockPairCutHyperedges_spec_witness :
  let l := (blockPairCutHyperedges phg_two_blocks 0 1 sched_stale).2 in
  NoDup l ∧
  ∀ he, he ∈ l → 0 < pinCountInPart phg_two_blocks he 0 ∧
                 0 < pinCountInPart phg_two_blocks he 1.
Proof.
  apply (blockPairCutHyperedges_spec phg_two_blocks 2 sched_stale 0 1);
    [|lia|lia|].
  - split; [reflexivity|]. repeat constructor.
  - intros he Hin. simpl. cbv in Hin.
    repeat (apply elem_of_cons in Hin as [->|Hin]; [lia|]).
    by apply elem_of_nil in Hin.
Defined.

(** *** Block weights *)

Lemma wrap64_small z : (0 ≤ z < 2 ^ 64)%Z → wrap64 z = z.
Proof. intros. unfold wrap64. by apply Z.mod_small. Qed.

(** C6, as the code has it. [aquire_block_weight] stores the amount in
    [W[b][b']] and takes it from [W[b][b]]; [release_block_weight] clears
    [W[b][b']] and gives the amount back. When no reservation of [b] towards
    [b'] is open ([W[b][b'] = 0], as after [init_block_weights] or after a
    release), acquiring and then releasing restores the matrix. *)
Theorem aquire_release_block_weight (k : nat) (W : list (list Z))
    (b b' : nat) (a : Z) :
  square k W → b < k → b' < k → b ≠ b' →
  mget 0%Z W b b' = 0%Z →
  (0 ≤ a ≤ mget 0%Z W b b)%Z → (mget 0%Z W b b < 2 ^ 64)%Z →
  let W1 := aquire_block_weight W b b' a in
  mget 0%Z W1 b b' = a ∧
  mget 0%Z W1 b b = (mget 0%Z W b b - a)%Z ∧
  (∀ i j, (i, j) ≠ (b, b') → (i, j) ≠ (b, b) → mget 0%Z W1 i j = mget 0%Z W i j) ∧
  release_block_weight W1 b b' a = W.
Proof.
  intros Hsq Hb Hb' Hne H0 Ha Hmax. simpl.
  assert (square k (mset W b b' a)) as Hsq1 by by apply mset_square.
  assert (square k (aquire_block_weight W b b' a)) as Hsq2
    by by apply mset_square.
  assert (mget 0%Z (aquire_block_weight W b b' a) b b' = a) as E1.
  { unfold aquire_block_weight.
    rewrite mget_mset_ne by congruence. by rewrite (mget_mset_eq _ k). }
  assert (mget 0%Z (aquire_block_weight W b b' a) b b
          = (mget 0%Z W b b - a)%Z) as E2.
  { unfold aquire_block_weight. rewrite (mget_mset_eq _ k) by done.
    rewrite mget_mset_ne by congruence. apply wrap64_small. lia. }
  assert (∀ i j, (i, j) ≠ (b, b') → (i, j) ≠ (b, b) →
            mget 0%Z (aquire_block_weight W b b' a) i j = mget 0%Z W i j) as E3.
  { intros i j ??. unfold aquire_block_weight.
    by rewrite !mget_mset_ne by congruence. }
  split_and!; [done..|].
  apply (square_ext k _ _ 0%Z); [by do 2 apply mset_square|done|].
  intros i j Hi Hj. unfold release_block_weight.
  destruct (decide ((i, j) = (b, b))) as [[= -> ->]|Hd].
  { rewrite (mget_mset_eq _ k) by (done || by apply mset_square).
    rewrite mget_mset_ne by congruence. rewrite E2.
    rewrite wrap64_small by lia. lia. }
  rewrite mget_mset_ne by congruence.
  destruct (decide ((i, j) = (b, b'))) as [[= -> ->]|Hd'].
  { rewrite (mget_mset_eq _ k) by done. by rewrite H0. }
  rewrite mget_mset_ne by congruence. by apply E3.
Qed.

Lemma aquire_release_block_weight_witness :
  let W := init_block_weights phg_two_blocks 2 (_block_weights (SchedulerBase_new 2)) in
  let W1 := aquire_block_weight W 0 1 3 in
  mget 0%Z W1 0 1 = 3%Z ∧
  mget 0%Z W1 0 0 = (mget 0%Z W 0 0 - 3)%Z ∧
  (∀ i j, (i, j) ≠ (0, 1) → (i, j) ≠ (0, 0) → mget 0%Z W1 i j = mget 0%Z W i j) ∧
  release_block_weight W1 0 1 3 = W.
Proof.
  apply (aquire_release_block_weight 2
           (init_block_weights phg_two_blocks 2 (_block_weights (SchedulerBase_new 2)))
           0 1 3); try lia; try reflexivity.
  - split; [reflexivity|]. repeat constructor.
  - cbv. split; discriminate.
Defined.

(** C6, as the specification words it, fails: a second acquire towards the
    same partner overwrites the first reservation, and the release then
    clears both. The state [W13] is reached from [init_block_weights] by one
    acquire. *)
Lemma aquire_release_not_inverse :
  ¬ (∀ (k : nat) (W : list (list Z)) (b b' : nat) (a : Z),
       square k W → b < k → b' < k → b ≠ b' →
       (∀ i j, i < k → j < k → (0 ≤ mget 0%Z W i j < 2 ^ 64)%Z) →
       (0 ≤ a ≤ mget 0%Z W b b)%Z →
       release_block_weight (aquire_block_weight W b b' a) b b' a = W ∧
       mget 0%Z (aquire_block_weight W b b' a) b b'
       = (mget 0%Z W b b' + a)%Z).
Proof.
  intros H.
  destruct (H 2 W13 0 1 2%Z) as [Hrel _]; try lia.
  - split; [reflexivity|]. repeat constructor.
  - intros i j Hi Hj.
    destruct i as [|[|i]], j as [|[|j]]; try lia; cbv; (split; [discriminate|reflexivity]).
  - cbv. split; discriminate.
  - vm_compute in Hrel. discriminate.
Qed.

End SchedulerSpec.

(** ** Scheduling the block pairs *)

Module SchedulersSpec.
Import Scheduler Schedulers.

Lemma removeElement_perm {A} (l : list A) i x :
  l !! i = Some x → x :: removeElement i l ≡ₚ l.
Proof.
  intros Hx. unfold removeElement, vec_pop, vec_swap. rewrite Hx.
  destruct l as [|y l _] using rev_ind; [done|].
  rewrite length_app. cbn [length].
  replace (length l + 1 - 1) with (length l) by lia.
  rewrite lookup_app_r, Nat.sub_diag by lia. cbn [lookup list_lookup].
  rewrite !length_insert, length_app. cbn [length].
  replace (length l + 1 - 1) with (length l) by lia.
  destruct (decide (i < length l)) as [Hlt|Hge].
  - rewrite lookup_app_l in Hx by done.
    rewrite (insert_app_l l) by done.
    rewrite insert_app_r_alt by (rewrite length_insert; lia).
    rewrite take_app_length' by (by rewrite length_insert).
    apply list_elem_of_split_length in Hx as (l1 & l2 & -> & ->).
    rewrite insert_app_r_alt, Nat.sub_diag by lia. cbn [insert list_insert].
    rewrite <-Permutation_cons_append, <-!Permutation_middle.
    apply Permutation_swap.
  - pose proof (lookup_lt_Some _ _ _ Hx) as Hi. rewrite length_app in Hi.
    cbn [length] in Hi. assert (i = length l) as -> by lia.
    rewrite lookup_app_r, Nat.sub_diag in Hx by lia. cbn in Hx.
    assert (y = x) as -> by congruence.
    rewrite insert_app_r_alt, Nat.sub_diag by lia. cbn [insert list_insert].
    rewrite insert_app_r_alt, Nat.sub_diag by lia. cbn [insert list_insert].
    rewrite take_app_length. by rewrite Permutation_cons_append.
Qed.

Lemma flag_at_insert l b b' x :
  b < length l →
  flag_at (<[b := x]> l) b' = if decide (b = b') then x else flag_at l b'.
Proof.
  intros Hb. unfold flag_at. case_decide as Hbb.
  - subst. by rewrite list_lookup_insert_eq.
  - by rewrite list_lookup_insert_ne.
Qed.

Lemma in_range_removeElement k (l : list edge) i :
  in_range k l → in_range k (removeElement i l).
Proof.
  unfold in_range. rewrite !Forall_forall. intros Hl e He.
  apply Hl. by eapply vec_swap_pop_subseteq.
Qed.

(** The loop hands out a maximal set of block-disjoint edges: it ends by
    reaching the end of the list, not by running out of [fuel]. *)
Lemma schedule_loop_spec fuel round locked i out :
  in_range (length locked) round →
  length round ≤ fuel + i →
  (∀ j e, j < i → round !! j = Some e →
          ∃ b, touches e b ∧ flag_at locked b = true) →
  ∃ new round' locked',
    schedule_loop fuel round locked i out = (round', locked', out ++ new) ∧
    length locked' = length locked ∧
    new ++ round' ≡ₚ round ∧
    disjoint_edges new ∧
    (∀ e b, e ∈ new → touches e b → flag_at locked b = false) ∧
    (∀ b, flag_at locked' b = true ↔
          flag_at locked b = true ∨ ∃ e, e ∈ new ∧ touches e b) ∧
    (∀ e, e ∈ round' → ∃ b, touches e b ∧ flag_at locked' b = true).
Proof.
  revert round locked i out.
  assert (∀ round locked i out,
    length round ≤ i →
    (∀ j e, j < i → round !! j = Some e →
            ∃ b, touches e b ∧ flag_at locked b = true) →
    ∃ new round' locked',
      (round, locked, out) = (round', locked', out ++ new) ∧
      length locked' = length locked ∧
      new ++ round' ≡ₚ round ∧
      disjoint_edges new ∧
      (∀ e b, e ∈ new → touches e b → flag_at locked b = false) ∧
      (∀ b, flag_at locked' b = true ↔
            flag_at locked b = true ∨ ∃ e, e ∈ new ∧ touches e b) ∧
      (∀ e, e ∈ round' → ∃ b, touches e b ∧ flag_at locked' b = true)) as Hend.
  { intros round locked i out Hlen Hpre. exists [], round, locked.
    rewrite app_nil_r. split_and!; try done.
    - intros e b He. by apply elem_of_nil in He.
    - intros b. split; [by left|]. intros [?|(e & He & _)]; [done|].
      by apply elem_of_nil in He.
    - intros e He. apply list_elem_of_lookup in He as [j Hj].
      apply (Hpre j); [|done]. apply lookup_lt_Some in Hj. lia. }
  induction fuel as [|fuel IH]; intros round locked i out Hrange Hlen Hpre.
  { apply (Hend _ _ i); [simpl in Hlen; lia|done]. }
  cbn [schedule_loop].
  destruct (round !! i) as [e|] eqn:He.
  2:{ apply (Hend _ _ i); [by apply lookup_ge_None|done]. }
  pose proof (lookup_lt_Some _ _ _ He) as Hi.
  assert (e.1 < length locked ∧ e.2 < length locked) as [He1 He2].
  { unfold in_range in Hrange. rewrite Forall_forall in Hrange.
    apply Hrange. by eapply list_elem_of_lookup_2. }
  destruct (negb (flag_at locked e.1) && negb (flag_at locked e.2)) eqn:Htest.
  - apply andb_true_iff in Htest as [Hf1 Hf2].
    apply negb_true_iff in Hf1, Hf2.
    set (locked1 := <[e.2 := true]> (<[e.1 := true]> locked)).
    assert (∀ b, flag_at locked1 b = true ↔
                 flag_at locked b = true ∨ touches e b) as Hl1.
    { intros b. unfold locked1.
      rewrite flag_at_insert by (by rewrite length_insert).
      rewrite flag_at_insert by done. unfold touches.
      repeat case_decide; naive_solver. }
    destruct (IH (vec_pop (vec_swap round i (length round - 1))) locked1 i
                 (out ++ [e]))
      as (new & round' & locked' & Hrun & Hlen' & Hperm & Hdis & Hfree & Hlk & Hmax).
    { unfold locked1. rewrite !length_insert.
      by apply (in_range_removeElement _ _ i). }
    { rewrite vec_swap_pop_length by done. lia. }
    { intros j e' Hj Hj'.
      assert (round !! j = Some e') as Hj2.
      { rewrite <-(lookup_take_lt _ i) by done.
        rewrite <-(vec_swap_pop_take round i) by done.
        by rewrite lookup_take_lt. }
      destruct (Hpre j e' Hj Hj2) as (b & Hb & Hbl).
      exists b. split; [done|]. apply Hl1. by left. }
    exists (e :: new), round', locked'. split_and!.
    + rewrite Hrun. by rewrite <-(assoc_L (++)).
    + rewrite Hlen'. unfold locked1. by rewrite !length_insert.
    + cbn [app]. rewrite Hperm. by apply removeElement_perm.
    + assert (∀ e' b, e' ∈ new → touches e b → touches e' b → False) as Hx.
      { intros e' b He' Hb Hb'. specialize (Hfree e' b He' Hb').
        assert (flag_at locked1 b = true) as Ht by (apply Hl1; by right).
        congruence. }
      intros j j' e1 e2 b Hj Hj' Hb1 Hb2.
      destruct j as [|j], j' as [|j']; simplify_eq/=.
      * done.
      * exfalso. eapply (Hx e2 b); [by eapply list_elem_of_lookup_2|done..].
      * exfalso. eapply (Hx e1 b); [by eapply list_elem_of_lookup_2|done..].
      * f_equal. by eapply Hdis.
    + intros e' b He' Hb. apply elem_of_cons in He' as [->|He'].
      * destruct Hb as [<-|<-]; done.
      * specialize (Hfree e' b He' Hb).
        destruct (flag_at locked b) eqn:Hfl; [|done].
        assert (flag_at locked1 b = true) as Ht by (apply Hl1; by left).
        congruence.
    + intros b. rewrite Hlk, Hl1. split.
      * intros [[?|?]|(e' & He' & Hb)]; [by left|right..].
        -- exists e. split; [left|done].
        -- exists e'. split; [by right|done].
      * intros [?|(e' & He' & Hb)]; [by left; left|].
        apply elem_of_cons in He' as [->|He']; [by left; right|].
        right. by exists e'.
    + done.
  - destruct (IH round locked (i + 1) out)
      as (new & round' & locked' & Hrun & Hrest); [done|lia| |].
    { intros j e' Hj Hj'. destruct (decide (j = i)) as [->|Hne].
      - pose proof (eq_trans (eq_sym Hj') He) as [= ->].
        apply andb_false_iff in Htest as [Hf|Hf]; apply negb_false_iff in Hf.
        + exists e.1. split; [by left|done].
        + exists e.2. split; [by right|done].
      - apply (Hpre j); [lia|done]. }
    by exists new, round', locked'.
Qed.

Lemma push_active_edges_spec s :
  push_active_edges s =
  _round_edges s
  ++ filter (λ e : edge, flag_at (_active_blocks s) e.1
                         && flag_at (_active_blocks s) e.2)
            (_quotient_graph s).
Proof.
  unfold push_active_edges. generalize (_round_edges s) as round.
  induction (_quotient_graph s) as [|e l IH]; intros round; cbn [foldl].
  { by rewrite app_nil_r. }
  rewrite IH, filter_cons.
  destruct (flag_at (_active_blocks s) e.1 && flag_at (_active_blocks s) e.2);
    cbn; [by rewrite <-(assoc_L (++))|done].
Qed.

Lemma in_range_push_active k s :
  in_range k (_quotient_graph s) → in_range k (_round_edges s) →
  in_range k (push_active_edges s).
Proof.
  intros Hq Hr. rewrite push_active_edges_spec. unfold in_range in *.
  apply Forall_app. split; [done|]. rewrite Forall_forall in *.
  intros e He. apply Hq. by apply list_elem_of_filter in He as [_ ?].
Qed.

(** X1. The edges that [getInitialParallelEdges] of the matching scheduler
    returns share no block with each other and touch no block that was
    locked before; afterwards exactly the blocks locked before and the ends
    of the returned edges are locked. *)
Theorem getInitialParallelEdges_matching (k : nat) (s : SchedulerBase) :
  length (_locked_blocks s) = k →
  in_range k (_quotient_graph s) →
  in_range k (_round_edges s) →
  let s' := (Matching.getInitialParallelEdges k s).1 in
  let initialEdges := (Matching.getInitialParallelEdges k s).2 in
  disjoint_edges initialEdges ∧
  (∀ e b, e ∈ initialEdges → touches e b →
          flag_at (_locked_blocks s) b = false) ∧
  (∀ b, flag_at (_locked_blocks s') b = true ↔
        flag_at (_locked_blocks s) b = true
        ∨ ∃ e, e ∈ initialEdges ∧ touches e b).
Proof.
  intros Hk Hq Hr.
  unfold Matching.getInitialParallelEdges, Matching.getInitialParallelEdgesImpl.
  cbn [with_round _round_edges _locked_blocks].
  destruct (schedule_loop_spec (length (push_active_edges s))
              (push_active_edges s) (_locked_blocks s) 0 [])
    as (new & round' & locked' & -> & _ & _ & Hdis & Hfree & Hlk & _).
  { rewrite Hk. by apply in_range_push_active. }
  { lia. }
  { intros j e Hj. lia. }
  done.
Qed.

Lemma getInitialParallelEdges_matching_witness :
  let s' := (Matching.getInitialParallelEdges 4 sched_four).1 in
  let initialEdges := (Matching.getInitialParallelEdges 4 sched_four).2 in
  disjoint_edges initialEdges ∧
  (∀ e b, e ∈ initialEdges → touches e b →
          flag_at (_locked_blocks sched_four) b = false) ∧
  (∀ b, flag_at (_locked_blocks s') b = true ↔
        flag_at (_locked_blocks sched_four) b = true
        ∨ ∃ e, e ∈ initialEdges ∧ touches e b).
Proof.
  apply (getInitialParallelEdges_matching 4 sched_four).
  - reflexivity.
  - unfold in_range. simpl. repeat constructor.
  - unfold in_range. simpl. constructor.
Defined.

(** X2. [getInitialParallelEdges] of the matching scheduler loses no edge:
    the returned edges and the edges left in [_round_edges] are the edges
    that were there and the quotient edges between two active blocks. Every
    edge that is left has a locked end, so that no further edge could have
    been started, and no block is active afterwards. *)
Theorem getInitialParallelEdges_maximal (k : nat) (s : SchedulerBase) :
  length (_locked_blocks s) = k →
  in_range k (_quotient_graph s) →
  in_range k (_round_edges s) →
  let s' := (Matching.getInitialParallelEdges k s).1 in
  let initialEdges := (Matching.getInitialParallelEdges k s).2 in
  initialEdges ++ _round_edges s' ≡ₚ
    _round_edges s
    ++ filter (λ e : edge, flag_at (_active_blocks s) e.1
                           && flag_at (_active_blocks s) e.2)
              (_quotient_graph s) ∧
  (∀ e, e ∈ _round_edges s' →
        ∃ b, touches e b ∧ flag_at (_locked_blocks s') b = true) ∧
  getNumberOfActiveBlocks s' = 0.
Proof.
  intros Hk Hq Hr.
  unfold Matching.getInitialParallelEdges, Matching.getInitialParallelEdgesImpl.
  cbn [with_round _round_edges _locked_blocks].
  destruct (schedule_loop_spec (length (push_active_edges s))
              (push_active_edges s) (_locked_blocks s) 0 [])
    as (new & round' & locked' & -> & _ & Hperm & _ & _ & _ & Hmax).
  { rewrite Hk. by apply in_range_push_active. }
  { lia. }
  { intros j e Hj. lia. }
  cbn [fst snd app with_round _round_edges _locked_blocks].
  split_and!; [by rewrite Hperm, push_active_edges_spec|done|].
  unfold getNumberOfActiveBlocks. cbn [_active_blocks with_round].
  clear. induction k as [|k IH]; [done|]. by cbn.
Qed.

Lemma getInitialParallelEdges_maximal_witness :
  let s' := (Matching.getInitialParallelEdges 4 sched_four).1 in
  let initialEdges := (Matching.getInitialParallelEdges 4 sched_four).2 in
  initialEdges ++ _round_edges s' ≡ₚ
    _round_edges sched_four
    ++ filter (λ e : edge, flag_at (_active_blocks sched_four) e.1
                           && flag_at (_active_blocks sched_four) e.2)
              (_quotient_graph sched_four) ∧
  (∀ e, e ∈ _round_edges s' →
        ∃ b, touches e b ∧ flag_at (_locked_blocks s') b = true) ∧
  getNumberOfActiveBlocks s' = 0.
Proof.
  apply (getInitialParallelEdges_maximal 4 sched_four).
  - reflexivity.
  - unfold in_range. simpl. repeat constructor.
  - unfold in_range. simpl. constructor.
Defined.

Lemma disjoint_edges_app (l1 l2 : list edge) :
  disjoint_edges l1 → disjoint_edges l2 →
  (∀ e1 e2 b, e1 ∈ l1 → e2 ∈ l2 → touches e1 b → touches e2 b → False) →
  disjoint_edges (l1 ++ l2).
Proof.
  intros H1 H2 Hx i j e e' b Hi Hj Hb Hb'.
  apply lookup_app_Some in Hi as [Hi|[Hil Hi]];
    apply lookup_app_Some in Hj as [Hj|[Hjl Hj]].
  - by eapply H1.
  - exfalso. eapply (Hx e e' b); eauto using list_elem_of_lookup_2.
  - exfalso. eapply (Hx e' e b); eauto using list_elem_of_lookup_2.
  - assert (i - length l1 = j - length l1) by (by eapply H2). lia.
Qed.

Lemma lookup_delete_middle {A} (l1 l2 : list A) (x : A) i :
  (l1 ++ l2) !! i = (l1 ++ x :: l2) !! (if decide (i < length l1) then i else S i).
Proof.
  case_decide as Hi.
  - by rewrite !lookup_app_l.
  - rewrite !lookup_app_r by lia.
    by replace (S i - length l1) with (S (i - length l1)) by lia.
Qed.

Lemma disjoint_edges_delete (l1 l2 : list edge) (x : edge) :
  disjoint_edges (l1 ++ x :: l2) →
  disjoint_edges (l1 ++ l2) ∧
  ∀ e b, e ∈ l1 ++ l2 → touches e b → touches x b → False.
Proof.
  intros Hd. split.
  - intros i j e e' b Hi Hj Hb Hb'.
    rewrite (lookup_delete_middle _ _ x) in Hi, Hj.
    pose proof (Hd _ _ _ _ _ Hi Hj Hb Hb') as Heq.
    repeat case_decide; lia.
  - intros e b He Hb Hb'. apply list_elem_of_lookup in He as [i Hi].
    rewrite (lookup_delete_middle _ _ x) in Hi.
    assert ((l1 ++ x :: l2) !! length l1 = Some x) as Hx
      by (by rewrite list_lookup_middle).
    pose proof (Hd _ _ _ _ _ Hi Hx Hb Hb') as Heq.
    case_decide; lia.
Qed.

(** X3. [scheduleNextBlocksImpl] of the matching scheduler keeps the running
    block pairs disjoint: when the running edges share no block and the
    locked blocks are their ends, then after one of them has ended, the
    other running edges and the edges given to the feeder share no block
    and the locked blocks are again their ends. Each edge given to the
    feeder is taken from [_round_edges], and each edge left there has a
    locked end. *)
Theorem scheduleNextBlocks_keeps_matching (k : nat) (s : SchedulerBase)
    (running1 running2 : list edge) (old_edge : edge) :
  length (_locked_blocks s) = k →
  old_edge.1 < k → old_edge.2 < k →
  in_range k (_round_edges s) →
  disjoint_edges (running1 ++ old_edge :: running2) →
  locks_match (running1 ++ old_edge :: running2) (_locked_blocks s) →
  let s' := (Matching.scheduleNextBlocksImpl old_edge s).1 in
  let fed := (Matching.scheduleNextBlocksImpl old_edge s).2 in
  disjoint_edges (running1 ++ running2 ++ fed) ∧
  locks_match (running1 ++ running2 ++ fed) (_locked_blocks s') ∧
  fed ++ _round_edges s' ≡ₚ _round_edges s ∧
  (∀ e, e ∈ _round_edges s' →
        ∃ b, touches e b ∧ flag_at (_locked_blocks s') b = true).
Proof.
  intros Hk Ho1 Ho2 Hr Hdis Hlocks.
  destruct (disjoint_edges_delete _ _ _ Hdis) as [HdisR Hold].
  unfold Matching.scheduleNextBlocksImpl.
  set (locked0 := <[old_edge.2 := false]> (<[old_edge.1 := false]> (_locked_blocks s))).
  assert (∀ b, flag_at locked0 b = true ↔
               ∃ e, e ∈ running1 ++ running2 ∧ touches e b) as Hl0.
  { intros b. unfold locked0.
    rewrite flag_at_insert by (rewrite length_insert; lia).
    rewrite flag_at_insert by lia. split.
    - intros Hb. repeat case_decide; try done.
      apply Hlocks in Hb as (e & He & Hb). exists e. split; [|done].
      rewrite elem_of_app, elem_of_cons in He. rewrite elem_of_app.
      destruct He as [?|[->|?]]; [by left| |by right].
      destruct Hb as [?|?]; congruence.
    - intros (e & He & Hb).
      assert (¬ touches old_edge b) as Hnt by (intros ?; by eapply Hold).
      unfold touches in Hnt.
      repeat case_decide; [tauto..|].
      apply Hlocks. exists e. split; [|done].
      rewrite elem_of_app, elem_of_cons. rewrite elem_of_app in He. tauto. }
  destruct (schedule_loop_spec (length (_round_edges s)) (_round_edges s)
              locked0 0 [])
    as (new & round' & locked' & -> & _ & Hperm & Hdisn & Hfree & Hlk & Hmax).
  { unfold locked0. rewrite !length_insert. by rewrite Hk. }
  { lia. }
  { intros j e Hj. lia. }
  cbn [fst snd app with_round _round_edges _locked_blocks].
  split_and!; [|intros b|done..].
  - rewrite (assoc_L (++)). apply disjoint_edges_app; [done..|].
    intros e1 e2 b He1 He2 Hb1 Hb2.
    specialize (Hfree e2 b He2 Hb2).
    assert (flag_at locked0 b = true) by (apply Hl0; by exists e1).
    congruence.
  - rewrite Hlk, Hl0. rewrite (assoc_L (++)). split.
    + intros [(e & He & Hb)|(e & He & Hb)]; exists e;
        (split; [|done]); rewrite elem_of_app; tauto.
    + intros (e & He & Hb). apply elem_of_app in He as [He|He];
        [left|right]; by exists e.
Qed.

Lemma scheduleNextBlocks_keeps_matching_witness :
  let s' := (Matching.scheduleNextBlocksImpl (0, 1) sched_four_running).1 in
  let fed := (Matching.scheduleNextBlocksImpl (0, 1) sched_four_running).2 in
  disjoint_edges ([] ++ [(2, 3)] ++ fed) ∧
  locks_match ([] ++ [(2, 3)] ++ fed) (_locked_blocks s') ∧
  fed ++ _round_edges s' ≡ₚ _round_edges sched_four_running ∧
  (∀ e, e ∈ _round_edges s' →
        ∃ b, touches e b ∧ flag_at (_locked_blocks s') b = true).
Proof.
  apply (scheduleNextBlocks_keeps_matching 4 sched_four_running [] [(2, 3)] (0, 1)).
  - reflexivity.
  - simpl. lia.
  - simpl. lia.
  - unfold in_range. vm_compute. repeat constructor.
  - intros i j e e' b Hi Hj Hb Hb'. unfold touches in *.
    destruct i as [|[|i]], j as [|[|j]]; simplify_eq/=; (done || lia).
  - intros b. vm_compute. split.
    + intros Hb. destruct b as [|[|[|[|b]]]]; try done.
      * exists (0, 1). split; [left|by left].
      * exists (0, 1). split; [left|by right].
      * exists (2, 3). split; [right; left|by left].
      * exists (2, 3). split; [right; left|by right].
    + intros (e & He & Hb).
      repeat (apply elem_of_cons in He as [->|He];
              [destruct Hb as [<-|<-]; reflexivity|]).
      by apply elem_of_nil in He.
Defined.

(** *** [OptScheduler] *)

Import Opt.

Lemma scan_best_spec tasks (l : list edge) :
  let r := foldl (scan_best tasks) (SIZE_MAX, None) (imap pair l) in
  (r = (SIZE_MAX, None) ∧
   ∀ e, e ∈ l → (SIZE_MAX ≤ independence_of tasks e)%N) ∨
  (∃ e i, r = (independence_of tasks e, Some (e, i)) ∧ l !! i = Some e ∧
     (independence_of tasks e < SIZE_MAX)%N ∧
     (∀ e', e' ∈ l → (independence_of tasks e ≤ independence_of tasks e')%N) ∧
     (∀ j e', j < i → l !! j = Some e' →
              (independence_of tasks e < independence_of tasks e')%N)).
Proof.
  induction l as [|x l IH] using rev_ind; cbn zeta.
  { left. split; [done|]. intros e He. by apply elem_of_nil in He. }
  rewrite imap_app, foldl_app. cbn [imap foldl]. rewrite Nat.add_0_r.
  destruct IH as [[Heq Hall]|(e & i & Heq & Hi & Hlt & Hmin & Hfirst)];
    rewrite Heq; unfold scan_best; cbn [fst snd].
  - destruct (N.ltb_spec (independence_of tasks x) SIZE_MAX) as [Hx|Hx].
    + right. exists x, (length l). split_and!; [done| |done| |].
      * by rewrite list_lookup_middle.
      * intros e' [He'| ->%list_elem_of_singleton]%elem_of_app; [|done].
        specialize (Hall e' He'). lia.
      * intros j e' Hj Hj'. rewrite lookup_app_l in Hj' by done.
        apply list_elem_of_lookup_2 in Hj'. specialize (Hall e' Hj'). lia.
    + left. split; [done|].
      intros e' [He'| ->%list_elem_of_singleton]%elem_of_app; auto.
  - pose proof (lookup_lt_Some _ _ _ Hi) as Hil.
    destruct (N.ltb_spec (independence_of tasks x) (independence_of tasks e))
      as [Hx|Hx].
    + right. exists x, (length l). split_and!; [done| |lia| |].
      * by rewrite list_lookup_middle.
      * intros e' [He'| ->%list_elem_of_singleton]%elem_of_app; [|done].
        specialize (Hmin e' He'). lia.
      * intros j e' Hj Hj'. rewrite lookup_app_l in Hj' by done.
        apply list_elem_of_lookup_2 in Hj'. specialize (Hmin e' Hj'). lia.
    + right. exists e, i. split_and!; [done| |done| |].
      * by rewrite lookup_app_l.
      * intros e' [He'| ->%list_elem_of_singleton]%elem_of_app; auto.
      * intros j e' Hj Hj'. rewrite lookup_app_l in Hj' by lia. eauto.
Qed.

Lemma tasks_at_insert tasks b b' x :
  b < length tasks →
  tasks_at (<[b := x]> tasks) b' = if decide (b = b') then x else tasks_at tasks b'.
Proof.
  intros Hb. unfold tasks_at. case_decide as Hbb.
  - subst. by rewrite list_lookup_insert_eq.
  - by rewrite list_lookup_insert_ne.
Qed.

Lemma getMostIndependentEdge_pick (s : OptScheduler) :
  let round := _round_edges (base s) in
  let tasks := _tasks_on_block s in
  in_range (length tasks) round →
  Forall (λ t, t < SIZE_MAX)%N tasks →
  round ≠ [] →
  ∃ e i,
    (getMostIndependentEdge s).2 = Some e ∧
    round !! i = Some e ∧
    (∀ e', e' ∈ round → (independence_of tasks e ≤ independence_of tasks e')%N) ∧
    (∀ j e', j < i → round !! j = Some e' →
             (independence_of tasks e < independence_of tasks e')%N) ∧
    e :: _round_edges (base (getMostIndependentEdge s).1) ≡ₚ round ∧
    length (_tasks_on_block (getMostIndependentEdge s).1) = length tasks ∧
    ∀ b, tasks_at (_tasks_on_block (getMostIndependentEdge s).1) b =
         wrap_size (tasks_at tasks b + load [e] b).
Proof.
  intros round tasks Hrange Htasks Hne.
  assert (∀ b, (tasks_at tasks b < SIZE_MAX)%N) as Hlt.
  { intros b. unfold tasks_at. destruct (tasks !! b) as [t|] eqn:Ht; [|done].
    rewrite Forall_forall in Htasks. apply Htasks.
    by eapply list_elem_of_lookup_2. }
  unfold getMostIndependentEdge. fold round tasks.
  destruct (scan_best_spec tasks round)
    as [[_ Hall]|(e & i & -> & Hi & Hind & Hmin & Hfirst)].
  { destruct round as [|e0 round0]; [done|].
    specialize (Hall e0 ltac:(left)). unfold independence_of in Hall.
    pose proof (Hlt e0.1). pose proof (Hlt e0.2). lia. }
  apply N.ltb_lt in Hind as Hind'. rewrite Hind'.
  exists e, i. cbn [fst snd base _round_edges with_round _tasks_on_block].
  split_and!; [done..| | |].
  { by apply removeElement_perm. }
  { by rewrite !length_insert. }
  assert (e.1 < length tasks ∧ e.2 < length tasks) as [He1 He2].
  { unfold in_range in Hrange. rewrite Forall_forall in Hrange.
    apply Hrange. by eapply list_elem_of_lookup_2. }
  intros b. rewrite tasks_at_insert by (by rewrite length_insert).
  rewrite !tasks_at_insert by done. unfold load, wrap_size. cbn [foldr].
  pose proof (Hlt b) as Hb. unfold SIZE_MAX in Hb. clear -Hb.
  destruct e as [b0 b1]. cbn [fst snd].
  repeat case_decide; subst; repeat (case_bool_decide; try congruence);
    cbn [N.b2n]; rewrite ?N.Div0.add_mod_idemp_l;
    try (f_equal; lia).
  rewrite N.mod_small; lia.
Qed.

(** X4. [getMostIndependentEdge], when [_round_edges] is not empty and
    every block has fewer than [SIZE_MAX] tasks, returns an edge of
    [_round_edges] whose larger task count is the least of all edges, the
    first such edge of the list; it removes this edge and no other from
    [_round_edges] and counts one more task on each of its two blocks. *)
Theorem getMostIndependentEdge_spec (s : OptScheduler) :
  let round := _round_edges (base s) in
  let tasks := _tasks_on_block s in
  in_range (length tasks) round →
  Forall (λ t, t < SIZE_MAX)%N tasks →
  round ≠ [] →
  ∃ e i,
    (getMostIndependentEdge s).2 = Some e ∧
    round !! i = Some e ∧
    (∀ e', e' ∈ round → (independence_of tasks e ≤ independence_of tasks e')%N) ∧
    (∀ j e', j < i → round !! j = Some e' →
             (independence_of tasks e < independence_of tasks e')%N) ∧
    e :: _round_edges (base (getMostIndependentEdge s).1) ≡ₚ round ∧
    ∀ b, tasks_at (_tasks_on_block (getMostIndependentEdge s).1) b =
         wrap_size (tasks_at tasks b + load [e] b).
Proof.
  intros round tasks Hrange Htasks Hne.
  destruct (getMostIndependentEdge_pick s Hrange Htasks Hne)
    as (e & i & ? & ? & ? & ? & ? & _ & ?).
  by exists e, i.
Qed.

Lemma getMostIndependentEdge_spec_witness :
  ∃ e i,
    (getMostIndependentEdge opt_four).2 = Some e ∧
    _round_edges (base opt_four) !! i = Some e ∧
    (∀ e', e' ∈ _round_edges (base opt_four) →
           (independence_of (_tasks_on_block opt_four) e
            ≤ independence_of (_tasks_on_block opt_four) e')%N) ∧
    (∀ j e', j < i → _round_edges (base opt_four) !! j = Some e' →
             (independence_of (_tasks_on_block opt_four) e
              < independence_of (_tasks_on_block opt_four) e')%N) ∧
    e :: _round_edges (base (getMostIndependentEdge opt_four).1)
      ≡ₚ _round_edges (base opt_four) ∧
    ∀ b, tasks_at (_tasks_on_block (getMostIndependentEdge opt_four).1) b =
         wrap_size (tasks_at (_tasks_on_block opt_four) b + load [e] b).
Proof.
  apply (getMostIndependentEdge_spec opt_four).
  - unfold in_range. simpl. repeat constructor.
  - simpl. repeat constructor.
  - done.
Defined.

Lemma getMostIndependentEdge_saturated (s : OptScheduler) :
  (∀ e, e ∈ _round_edges (base s) →
        (SIZE_MAX ≤ independence_of (_tasks_on_block s) e)%N) →
  getMostIndependentEdge s = (s, None).
Proof.
  intros Hall. unfold getMostIndependentEdge.
  destruct (scan_best_spec (_tasks_on_block s) (_round_edges (base s)))
    as [[-> _]|(e & i & -> & Hi & Hind & _)].
  - by rewrite N.ltb_irrefl.
  - apply list_elem_of_lookup_2 in Hi. specialize (Hall e Hi). lia.
Qed.

(** X5. [getMostIndependentEdge] on an empty [_round_edges], or when every
    edge has a block with [SIZE_MAX] tasks, returns the pair of invalid
    blocks and changes nothing. *)
Theorem getMostIndependentEdge_none (s : OptScheduler) :
  (∀ e, e ∈ _round_edges (base s) →
        (SIZE_MAX ≤ independence_of (_tasks_on_block s) e)%N) →
  getMostIndependentEdge s = (s, None).
Proof. apply getMostIndependentEdge_saturated. Qed.

Lemma getMostIndependentEdge_none_witness :
  getMostIndependentEdge (OptScheduler_new 4 0) = (OptScheduler_new 4 0, None).
Proof.
  apply (getMostIndependentEdge_none (OptScheduler_new 4 0)).
  intros e He. simpl in He. by apply elem_of_nil in He.
Defined.

Lemma load_app (l1 l2 : list edge) b : load (l1 ++ l2) b = (load l1 b + load l2 b)%N.
Proof. induction l1 as [|e l1 IH]; cbn [app load foldr]; [done|]. fold (load l1 b) (load (l1 ++ l2) b). lia. Qed.

Lemma load_le (l : list edge) b : (load l b ≤ 2 * N.of_nat (length l))%N.
Proof.
  induction l as [|e l IH]; cbn [load foldr length]; [lia|]. fold (load l b).
  do 2 case_bool_decide; cbn [N.b2n]; lia.
Qed.

Lemma tasks_Forall (tasks : list N) (bound : N) :
  (∀ b, tasks_at tasks b < bound)%N → Forall (λ t, t < bound)%N tasks.
Proof.
  intros Hb. apply Forall_forall. intros t Ht.
  apply list_elem_of_lookup in Ht as [b Ht].
  specialize (Hb b). change (default 0 (tasks !! b) < bound)%N in Hb.
  by rewrite Ht in Hb.
Qed.

(** One call of [getMostIndependentEdge] when the task counters count the
    running edges. *)
Lemma pick_counts (s : OptScheduler) (running : list edge) :
  let round := _round_edges (base s) in
  let tasks := _tasks_on_block s in
  let s1 := (getMostIndependentEdge s).1 in
  let new := match (getMostIndependentEdge s).2 with
             | Some e => [e]
             | None => []
             end in
  in_range (length tasks) round →
  (∀ b, tasks_at tasks b = load running b) →
  (2 * N.of_nat (length running + length round) < SIZE_MAX)%N →
  length new = 1 `min` length round ∧
  new ++ _round_edges (base s1) ≡ₚ round ∧
  length (_tasks_on_block s1) = length tasks ∧
  (∀ b, tasks_at (_tasks_on_block s1) b = load (running ++ new) b) ∧
  _locked_blocks (base s1) = _locked_blocks (base s) ∧
  _active_blocks (base s1) = _active_blocks (base s).
Proof.
  intros round tasks s1 new Hrange Hload Hbound.
  destruct (decide (round = [])) as [Hnil|Hne].
  - unfold s1, new. rewrite getMostIndependentEdge_saturated.
    2:{ fold round. rewrite Hnil. intros e He. by apply elem_of_nil in He. }
    cbn [fst snd app]. rewrite app_nil_r. fold round. rewrite Hnil.
    split_and!; (done || exact Hload).
  - assert (∀ b, (tasks_at tasks b < SIZE_MAX)%N) as Hlt.
    { intros b. rewrite Hload. pose proof (load_le running b). lia. }
    destruct (getMostIndependentEdge_pick s Hrange (tasks_Forall _ _ Hlt) Hne)
      as (e & i & He & Hi & _ & _ & Hperm & Hlen & Htasks).
    unfold new, s1. rewrite He. split_and!; [|done|done| | |].
    + destruct round; [done|]. cbn. lia.
    + intros b. rewrite Htasks, load_app. fold tasks. rewrite Hload.
      unfold wrap_size. apply N.mod_small.
      pose proof (load_le running b). pose proof (load_le [e] b).
      destruct round; [done|]. cbn [length] in *. unfold SIZE_MAX in *. lia.
    + unfold getMostIndependentEdge.
      destruct (foldl _ _ _) as [ind [[e' i']|]]; destruct (_ <? _)%N; done.
    + unfold getMostIndependentEdge.
      destruct (foldl _ _ _) as [ind [[e' i']|]]; destruct (_ <? _)%N; done.
Qed.

Lemma initial_loop_spec (n : nat) (s : OptScheduler) (out running : list edge) :
  let round := _round_edges (base s) in
  let tasks := _tasks_on_block s in
  let s' := (initial_loop n s out).1 in
  in_range (length tasks) round →
  (∀ b, tasks_at tasks b = load running b) →
  (2 * N.of_nat (length running + length round) < SIZE_MAX)%N →
  ∃ new,
    (initial_loop n s out).2 = out ++ new ∧
    length new = n `min` length round ∧
    new ++ _round_edges (base s') ≡ₚ round ∧
    (∀ b, tasks_at (_tasks_on_block s') b = load (running ++ new) b) ∧
    _locked_blocks (base s') = _locked_blocks (base s).
Proof.
  revert s out running. induction n as [|n IH]; intros s out running; cbn zeta.
  { intros _ Hload _. exists []. cbn [initial_loop fst snd app].
    rewrite !app_nil_r. done. }
  intros Hrange Hload Hbound. cbn [initial_loop].
  destruct (pick_counts s running Hrange Hload Hbound)
    as (Hlen & Hperm & Hlt & Hload1 & Hlk1 & _).
  destruct (getMostIndependentEdge s) as [s1 oe]. cbn [fst snd] in *.
  set (new := match oe with Some e => [e] | None => [] end) in *.
  assert (match oe with Some e => out ++ [e] | None => out end = out ++ new)
    as -> by (unfold new; destruct oe; by rewrite ?app_nil_r).
  assert (length (_round_edges (base s)) =
          length new + length (_round_edges (base s1))) as Hlr.
  { by rewrite <-Hperm, length_app. }
  destruct (IH s1 (out ++ new) (running ++ new))
    as (new' & Hout & Hlen' & Hperm' & Hload' & Hlk'); [|done| |].
  { rewrite Hlt. unfold in_range in *. rewrite <-Hperm in Hrange.
    by apply Forall_app in Hrange as [_ ?]. }
  { rewrite length_app. lia. }
  exists (new ++ new'). split_and!.
  - by rewrite Hout, (assoc_L (++)).
  - rewrite length_app. lia.
  - by rewrite <-(assoc_L (++)), Hperm'.
  - intros b. by rewrite Hload', (assoc_L (++)).
  - by rewrite Hlk'.
Qed.

(** X6. [getInitialParallelEdgesImpl] of [OptScheduler], when the task
    counters count the running edges at each block, returns as many edges as
    there are threads, or all of [_round_edges] if these are fewer; the
    edges are taken from [_round_edges], the counters then count the running
    and the returned edges, and no block is active afterwards. *)
Theorem opt_getInitialParallelEdges_counts (k num_threads : nat)
    (s : OptScheduler) (running : list edge) :
  let round := _round_edges (base s) in
  let s' := (Opt.getInitialParallelEdgesImpl k num_threads s).1 in
  let initial_edges := (Opt.getInitialParallelEdgesImpl k num_threads s).2 in
  in_range (length (_tasks_on_block s)) round →
  (∀ b, tasks_at (_tasks_on_block s) b = load running b) →
  (2 * N.of_nat (length running + length round) < SIZE_MAX)%N →
  length initial_edges = num_threads `min` length round ∧
  initial_edges ++ _round_edges (base s') ≡ₚ round ∧
  (∀ b, tasks_at (_tasks_on_block s') b = load (running ++ initial_edges) b) ∧
  getNumberOfActiveBlocks (base s') = 0.
Proof.
  intros round s' initial_edges Hrange Hload Hbound.
  destruct (initial_loop_spec num_threads s [] running Hrange Hload Hbound)
    as (new & Hout & Hlen & Hperm & Hload' & _).
  unfold initial_edges, s', Opt.getInitialParallelEdgesImpl.
  destruct (initial_loop num_threads s []) as [s1 out].
  cbn [fst snd app base with_round _round_edges _tasks_on_block] in *.
  subst out. split_and!; [done..|].
  unfold getNumberOfActiveBlocks. cbn [_active_blocks with_round].
  clear. induction k as [|k IH]; [done|]. by cbn.
Qed.

Lemma opt_getInitialParallelEdges_counts_witness :
  let round := _round_edges (base opt_four) in
  let s' := (Opt.getInitialParallelEdgesImpl 4 2 opt_four).1 in
  let initial_edges := (Opt.getInitialParallelEdgesImpl 4 2 opt_four).2 in
  length initial_edges = 2 `min` length round ∧
  initial_edges ++ _round_edges (base s') ≡ₚ round ∧
  (∀ b, tasks_at (_tasks_on_block s') b = load ([(0, 1)] ++ initial_edges) b) ∧
  getNumberOfActiveBlocks (base s') = 0.
Proof.
  apply (opt_getInitialParallelEdges_counts 4 2 opt_four [(0, 1)]).
  - unfold in_range. simpl. repeat constructor.
  - intros b. destruct b as [|[|[|[|b]]]]; reflexivity.
  - vm_compute. reflexivity.
Defined.

Lemma decr_size_small (x : N) : (1 ≤ x < 2 ^ 64)%N → decr_size x = (x - 1)%N.
Proof.
  intros Hx. unfold decr_size, wrap_size.
  replace (x + 2 ^ 64 - 1)%N with (x - 1 + 1 * 2 ^ 64)%N by lia.
  rewrite N.Div0.mod_add. apply N.mod_small. lia.
Qed.

Lemma tasks_decr (tasks : list N) (e : edge) (rest : list edge) b :
  e.1 < length tasks → e.2 < length tasks →
  (tasks_at tasks b = load [e] b + load rest b)%N →
  (tasks_at tasks b < 2 ^ 64)%N →
  let tasks1 := <[e.1 := decr_size (tasks_at tasks e.1)]> tasks in
  let tasks2 := <[e.2 := decr_size (tasks_at tasks1 e.2)]> tasks1 in
  tasks_at tasks2 b = load rest b.
Proof.
  intros He1 He2 Hload Hlt. cbn zeta.
  rewrite tasks_at_insert by (by rewrite length_insert).
  rewrite !tasks_at_insert by done.
  revert Hload. unfold load at 1. cbn [foldr].
  destruct e as [b0 b1]. cbn [fst snd].
  repeat case_decide; subst; repeat (case_bool_decide; try congruence);
    cbn [N.b2n]; intros Hload;
    rewrite ?(decr_size_small (tasks_at tasks b)) by lia;
    rewrite ?decr_size_small by lia; lia.
Qed.

(** X7. [scheduleNextBlocksImpl] of [OptScheduler] keeps the task counters
    exact: when they count the running edges at each block, then after one
    running edge has ended they count the other running edges and the edge
    given to the feeder. An edge is given to the feeder whenever
    [_round_edges] is not empty, and it is taken from there. *)
Theorem opt_scheduleNextBlocks_counts (s : OptScheduler)
    (running1 running2 : list edge) (old_edge : edge) :
  let round := _round_edges (base s) in
  let tasks := _tasks_on_block s in
  let s' := (Opt.scheduleNextBlocksImpl old_edge s).1 in
  let fed := (Opt.scheduleNextBlocksImpl old_edge s).2 in
  in_range (length tasks) round →
  old_edge.1 < length tasks → old_edge.2 < length tasks →
  (∀ b, tasks_at tasks b = load (running1 ++ old_edge :: running2) b) →
  (2 * N.of_nat (length (running1 ++ old_edge :: running2) + length round)
   < SIZE_MAX)%N →
  length fed = 1 `min` length round ∧
  fed ++ _round_edges (base s') ≡ₚ round ∧
  ∀ b, tasks_at (_tasks_on_block s') b = load (running1 ++ running2 ++ fed) b.
Proof.
  intros round tasks s' fed Hrange Ho1 Ho2 Hload Hbound.
  unfold s', fed, Opt.scheduleNextBlocksImpl. fold tasks.
  set (tasks1 := <[old_edge.1 := decr_size (tasks_at tasks old_edge.1)]> tasks).
  set (tasks2 := <[old_edge.2 := decr_size (tasks_at tasks1 old_edge.2)]> tasks1).
  set (s0 := {| base := base s; _tasks_on_block := tasks2;
                _node_lock := _node_lock s |}).
  rewrite length_app in Hbound. cbn [length] in Hbound.
  destruct (pick_counts s0 (running1 ++ running2))
    as (Hlen & Hperm & _ & Hload' & _).
  { cbn [s0 base _tasks_on_block]. unfold tasks2, tasks1.
    by rewrite !length_insert. }
  { intros b. cbn [s0 _tasks_on_block].
    rewrite load_app. rewrite <-(load_app running1).
    apply (tasks_decr tasks old_edge (running1 ++ running2) b Ho1 Ho2).
    - rewrite Hload, !load_app.
      change (old_edge :: running2) with ([old_edge] ++ running2).
      rewrite load_app. lia.
    - rewrite Hload. pose proof (load_le (running1 ++ old_edge :: running2) b) as Hle.
      rewrite length_app in Hle. cbn [length] in Hle.
      unfold SIZE_MAX in Hbound. lia. }
  { cbn [s0 base]. fold round. rewrite length_app. lia. }
  destruct (getMostIndependentEdge s0) as [s1 oe].
  cbn [fst snd s0 base] in *. fold round in Hlen, Hperm.
  split_and!; [done..|].
  intros b. by rewrite Hload', (assoc_L (++)).
Qed.

Lemma opt_scheduleNextBlocks_counts_witness :
  let round := _round_edges (base opt_four) in
  let s' := (Opt.scheduleNextBlocksImpl (0, 1) opt_four).1 in
  let fed := (Opt.scheduleNextBlocksImpl (0, 1) opt_four).2 in
  length fed = 1 `min` length round ∧
  fed ++ _round_edges (base s') ≡ₚ round ∧
  ∀ b, tasks_at (_tasks_on_block s') b = load ([] ++ [] ++ fed) b.
Proof.
  apply (opt_scheduleNextBlocks_counts opt_four [] [] (0, 1)).
  - unfold in_range. simpl. repeat constructor.
  - simpl. lia.
  - simpl. lia.
  - intros b. destruct b as [|[|[|[|b]]]]; reflexivity.
  - vm_compute. reflexivity.
Defined.

(** *** The node locks *)

Lemma lock_at_set_lock s node node' x :
  node < length (_node_lock s) →
  lock_at (set_lock s node x) node' =
  if decide (node = node') then x else lock_at s node'.
Proof.
  intros Hn. unfold lock_at, set_lock. cbn [_node_lock]. case_decide as Hnn.
  - subst. by rewrite list_lookup_insert_eq.
  - by rewrite list_lookup_insert_ne.
Qed.

(** X8. A free vertex is acquired by [tryAquireNodeImpl] with the index
    [block_0 * k + block_1] of a block pair; it is then reported as acquired,
    a second [tryAquireNodeImpl] fails and changes nothing,
    [is_block_overlap] holds for exactly the pairs that share a block with
    the stored pair, and [releaseNodeImpl] frees the vertex again. *)
Theorem node_lock_round_trip (k : Z) (s : OptScheduler) (node : nat)
    (b0 b1 c0 c1 : Z) :
  node < length (_node_lock s) →
  lock_at s node = 0%Z →
  (0 ≤ b0)%Z → (0 ≤ b1 < k)%Z → (0 < b0 * k + b1)%Z →
  let s1 := (tryAquireNodeImpl s node (b0 * k + b1)).1 in
  (tryAquireNodeImpl s node (b0 * k + b1)).2 = true ∧
  isAquiredImpl s1 node = true ∧
  (∀ blocksIdx, tryAquireNodeImpl s1 node blocksIdx = (s1, false)) ∧
  (is_block_overlap k s1 node c0 c1 = true ↔
   c0 = b0 ∨ c0 = b1 ∨ c1 = b0 ∨ c1 = b1) ∧
  isAquiredImpl (releaseNodeImpl s1 node) node = false ∧
  (∀ node', node' ≠ node → lock_at (releaseNodeImpl s1 node) node' = lock_at s node').
Proof.
  intros Hn Hfree Hb0 Hb1 Hpos. unfold tryAquireNodeImpl. rewrite Hfree.
  cbn [Z.eqb negb fst snd].
  assert (lock_at (set_lock s node (b0 * k + b1)) node = (b0 * k + b1)%Z) as Hl.
  { rewrite lock_at_set_lock by done. by rewrite decide_True. }
  assert ((b0 * k + b1 =? 0)%Z = false) as Hnz by (apply Z.eqb_neq; lia).
  split_and!.
  - done.
  - unfold isAquiredImpl. by rewrite Hl, Hnz.
  - intros blocksIdx. by rewrite Hl, Hnz.
  - unfold is_block_overlap. rewrite Hl.
    assert ((b0 * k + b1) ÷ k = b0)%Z as ->.
    { rewrite Z.quot_div_nonneg by nia.
      rewrite Z.add_comm, Z.div_add by lia. rewrite Z.div_small by lia. lia. }
    assert (Z.rem (b0 * k + b1) k = b1)%Z as ->.
    { rewrite Z.rem_mod_nonneg by nia.
      rewrite Z.add_comm, Z.mod_add by lia. by apply Z.mod_small. }
    rewrite !orb_true_iff, !Z.eqb_eq. tauto.
  - unfold isAquiredImpl, releaseNodeImpl.
    rewrite lock_at_set_lock by (unfold set_lock; cbn; by rewrite length_insert).
    by rewrite decide_True.
  - intros node' Hne. unfold releaseNodeImpl.
    rewrite lock_at_set_lock by (unfold set_lock; cbn; by rewrite length_insert).
    rewrite decide_False by done.
    rewrite lock_at_set_lock by done. by rewrite decide_False.
Qed.

Lemma node_lock_round_trip_witness :
  let s := OptScheduler_new 4 3 in
  let s1 := (tryAquireNodeImpl s 2 (1 * 4 + 3)).1 in
  (tryAquireNodeImpl s 2 (1 * 4 + 3)).2 = true ∧
  isAquiredImpl s1 2 = true ∧
  (∀ blocksIdx, tryAquireNodeImpl s1 2 blocksIdx = (s1, false)) ∧
  (is_block_overlap 4 s1 2 0 3 = true ↔
   0 = 1 ∨ 0 = 3 ∨ 3 = 1 ∨ 3 = 3)%Z ∧
  isAquiredImpl (releaseNodeImpl s1 2) 2 = false ∧
  (∀ node', node' ≠ 2 → lock_at (releaseNodeImpl s1 2) node' = lock_at s node').
Proof.
  apply (node_lock_round_trip 4 (OptScheduler_new 4 3) 2 1 3 0 3).
  - simpl. lia.
  - reflexivity.
  - lia.
  - lia.
  - lia.
Defined.

(** *** Reading the block weights *)

Lemma zsum_snoc (l : list Z) (x : Z) :
  foldr Z.add 0%Z (l ++ [x]) = (foldr Z.add 0%Z l + x)%Z.
Proof. induction l as [|y l IH]; cbn [foldr app]; lia. Qed.

Lemma zsum_update (f g : nat → Z) (k i0 : nat) :
  i0 < k → (∀ i, i ≠ i0 → g i = f i) →
  foldr Z.add 0%Z (g <$> seq 0 k)
  = (foldr Z.add 0%Z (f <$> seq 0 k) - f i0 + g i0)%Z.
Proof.
  intros Hi Hext. induction k as [|k IH]; [lia|].
  rewrite seq_S, !fmap_app. cbn [Nat.add].
  change (g <$> [k]) with [g k]. change (f <$> [k]) with [f k].
  rewrite !zsum_snoc.
  destruct (decide (i0 = k)) as [->|Hne].
  - assert (g <$> seq 0 k = f <$> seq 0 k) as ->; [|lia].
    apply list_fmap_ext. intros i x [-> Hx]%lookup_seq. apply Hext. lia.
  - rewrite IH by lia. rewrite (Hext k) by done. lia.
Qed.

Lemma get_not_aquired_weight_sum k W b o :
  get_not_aquired_weight k W b o = wrap64 (row_without k W b o).
Proof.
  unfold get_not_aquired_weight, row_without.
  induction k as [|k IH]; [done|].
  rewrite seq_S, foldl_app, fmap_app. cbn [Nat.add foldl].
  match goal with |- context [?h <$> [k]] => change (h <$> [k]) with [h k] end.
  rewrite zsum_snoc, IH. case_decide; unfold wrap64.
  - by rewrite Zplus_mod_idemp_l.
  - by rewrite Z.add_0_r.
Qed.

Lemma wrap64_eq_mod (x y q : Z) : x = (y + q * 2 ^ 64)%Z → wrap64 x = wrap64 y.
Proof. intros ->. unfold wrap64. apply Z_mod_plus_full. Qed.

Lemma wrap64_decomp (t : Z) : wrap64 t = (t - 2 ^ 64 * (t / 2 ^ 64))%Z.
Proof. unfold wrap64. by apply Z.mod_eq. Qed.

Lemma row_without_mset k W b j x o :
  square k W → b < k → j < k →
  row_without k (mset W b j x) b o
  = (row_without k W b o
     + if decide (j ≠ o) then x - mget 0%Z W b j else 0)%Z.
Proof.
  intros Hsq Hb Hj. unfold row_without.
  rewrite (zsum_update
             (λ i : PartitionID, if decide (i ≠ o) then mget 0%Z W b i else 0%Z)
             _ k j Hj).
  - rewrite (mget_mset_eq _ k) by done. unfold PartitionID in *.
    repeat case_decide; (done || lia).
  - intros i Hi. cbn beta. by rewrite mget_mset_ne by congruence.
Qed.

Lemma row_without_mset_other k W b b' j x o :
  b' ≠ b → row_without k (mset W b j x) b' o = row_without k W b' o.
Proof.
  intros Hne. unfold row_without. f_equal. apply list_fmap_ext.
  intros i y _. by rewrite mget_mset_ne by congruence.
Qed.

Lemma init_row_spec (v : nat → Z) (k k' i : nat) W :
  square k W → i < k → k' ≤ k →
  let W' := foldl (λ W j, mset W i j (v j)) W (seq 0 k') in
  square k W' ∧
  ∀ i' j', mget 0%Z W' i' j'
           = if decide (i' = i ∧ j' < k') then v j' else mget 0%Z W i' j'.
Proof.
  intros Hsq Hi Hk. induction k' as [|k' IH].
  { split; [done|]. intros i' j'. rewrite decide_False by lia. done. }
  destruct IH as [Hsq' Hget]; [lia|]. cbv zeta.
  rewrite seq_S, foldl_app. cbn [foldl Nat.add].
  split; [by apply mset_square|]. intros i' j'.
  destruct (decide ((i, k') = (i', j'))) as [[= <- <-]|Hne].
  - rewrite (mget_mset_eq _ k) by (done || lia). by rewrite decide_True by lia.
  - rewrite mget_mset_ne by done. rewrite Hget.
    repeat case_decide; try done; destruct_and?; subst;
      (lia || (exfalso; apply Hne; f_equal; lia)).
Qed.

Lemma init_block_weights_spec phg k W :
  square k W →
  square k (init_block_weights phg k W) ∧
  ∀ i j, i < k → j < k →
         mget 0%Z (init_block_weights phg k W) i j
         = if decide (j = i) then wrap64 (partWeight phg i) else 0%Z.
Proof.
  intros Hsq. unfold init_block_weights.
  assert (∀ k', k' ≤ k →
            let W' := foldl (λ W i,
                               foldl (λ W j,
                                        mset W i j
                                          (if decide (j = i)
                                           then wrap64 (partWeight phg i) else 0%Z))
                                     W (seq 0 k))
                            W (seq 0 k') in
            square k W' ∧
            ∀ i j, i < k' → j < k →
                   mget 0%Z W' i j
                   = if decide (j = i) then wrap64 (partWeight phg i) else 0%Z)
    as Hrows.
  { intros k'. induction k' as [|k' IH]; intros Hk'.
    { split; [done|]. intros; lia. }
    destruct IH as [Hsq' Hget]; [lia|]. cbv zeta.
    rewrite seq_S, foldl_app. cbn [foldl Nat.add].
    destruct (init_row_spec
                (λ j, if decide (j = k') then wrap64 (partWeight phg k') else 0%Z)
                k k k' _ Hsq' ltac:(lia) ltac:(lia)) as [Hsq'' Hget''].
    split; [done|]. intros i j Hi Hj. rewrite Hget''.
    case_decide as Hd.
    - destruct Hd as [-> _]. done.
    - apply Hget; lia. }
  by apply Hrows.
Qed.

(** X22. After [init_block_weights], [get_not_aquired_weight] of a block
    returns the weight of the block for every other block, and 0 when asked
    for the block itself. *)
Theorem get_not_aquired_weight_init phg k W b o :
  square k W → b < k →
  get_not_aquired_weight k (init_block_weights phg k W) b o
  = if decide (o = b) then 0%Z else wrap64 (partWeight phg b).
Proof.
  intros Hsq Hb. destruct (init_block_weights_spec phg k W Hsq) as [_ Hget].
  rewrite get_not_aquired_weight_sum. unfold row_without.
  assert (foldr Z.add 0%Z
            ((λ i, if decide (i ≠ o)
                   then mget 0%Z (init_block_weights phg k W) b i else 0%Z)
               <$> seq 0 k)
          = if decide (o = b) then 0%Z else wrap64 (partWeight phg b)) as ->.
  { rewrite (zsum_update (λ _, 0%Z) _ k b Hb).
    - rewrite Hget by done. rewrite (decide_True (P := b = b)) by done.
      assert (foldr Z.add 0%Z ((λ _ : nat, 0%Z) <$> seq 0 k) = 0%Z) as ->.
      { clear. generalize 0. induction k as [|k IH]; intros st; [done|].
        cbn [seq fmap list_fmap foldr]. fold (fmap (M := list) (λ _ : nat, 0%Z)).
        by rewrite IH. }
      repeat case_decide; subst; (done || lia).
    - intros i Hi. cbn beta. case_decide; [|done].
      destruct (decide (i < k)) as [Hik|Hik].
      + rewrite Hget by done. by rewrite decide_False.
      + unfold mget.
        destruct (init_block_weights_spec phg k W Hsq) as [Hsq' _].
        destruct (square_row k _ b Hsq' Hb) as (row & -> & Hlen). cbn.
        by rewrite lookup_ge_None_2 by lia. }
  case_decide; [done|]. unfold wrap64. by rewrite Z.mod_mod.
Qed.

Lemma get_not_aquired_weight_init_witness :
  get_not_aquired_weight 2
    (init_block_weights phg_two_blocks 2 (_block_weights (SchedulerBase_new 2))) 0 1
  = if decide (1 = 0) then 0%Z else wrap64 (partWeight phg_two_blocks 0).
Proof.
  apply (get_not_aquired_weight_init phg_two_blocks 2
           (_block_weights (SchedulerBase_new 2)) 0 1).
  - apply (square_replicate 2).
  - lia.
Defined.

(** X23. [aquire_block_weight] of [amount] for the pair of [block] and
    [other_block] lowers what [get_not_aquired_weight] returns for this pair
    by [amount]; what it returns for [block] and a third block is unchanged
    when no amount was held for the pair before, and the rows of the other
    blocks are not touched. *)
Theorem get_not_aquired_weight_aquire k W block other_block third amount :
  square k W → block < k → other_block < k → other_block ≠ block →
  let W1 := aquire_block_weight W block other_block amount in
  get_not_aquired_weight k W1 block other_block
  = wrap64 (get_not_aquired_weight k W block other_block - amount) ∧
  (mget 0%Z W block other_block = 0%Z → third ≠ block → third ≠ other_block →
   get_not_aquired_weight k W1 block third
   = get_not_aquired_weight k W block third) ∧
  (∀ b o, b ≠ block →
          get_not_aquired_weight k W1 b o = get_not_aquired_weight k W b o).
Proof.
  intros Hsq Hb Ho Hne. cbv zeta. unfold aquire_block_weight.
  assert (square k (mset W block other_block amount)) as Hsq1
    by (by apply mset_square).
  assert (mget 0%Z (mset W block other_block amount) block block
          = mget 0%Z W block block) as Hdiag
    by (rewrite mget_mset_ne; [done|congruence]).
  rewrite Hdiag. split_and!.
  - rewrite !get_not_aquired_weight_sum.
    rewrite (row_without_mset k) by done. rewrite Hdiag.
    rewrite (row_without_mset k) by done.
    rewrite (decide_True (P := block ≠ other_block)) by done.
    rewrite (decide_False (P := other_block ≠ other_block)) by (intros ?; done).
    rewrite (wrap64_decomp (mget 0%Z W block block - amount)).
    rewrite (wrap64_decomp (row_without k W block other_block)).
    apply (wrap64_eq_mod _ _
             (row_without k W block other_block / 2 ^ 64
              - (mget 0%Z W block block - amount) / 2 ^ 64)).
    generalize (row_without k W block other_block / 2 ^ 64)%Z.
    generalize ((mget 0%Z W block block - amount) / 2 ^ 64)%Z. intros; lia.
  - intros H0 Ht1 Ht2. rewrite !get_not_aquired_weight_sum.
    rewrite (row_without_mset k) by done. rewrite Hdiag.
    rewrite (row_without_mset k) by done.
    rewrite (decide_True (P := block ≠ third)) by done.
    rewrite (decide_True (P := other_block ≠ third)) by done.
    rewrite H0. rewrite (wrap64_decomp (mget 0%Z W block block - amount)).
    apply (wrap64_eq_mod _ _ (- ((mget 0%Z W block block - amount) / 2 ^ 64))).
    generalize ((mget 0%Z W block block - amount) / 2 ^ 64)%Z. intros; lia.
  - intros b o Hbb. rewrite !get_not_aquired_weight_sum.
    by rewrite !row_without_mset_other.
Qed.

Lemma get_not_aquired_weight_aquire_witness :
  let W := init_block_weights phg_two_blocks 2
             (_block_weights (SchedulerBase_new 2)) in
  let W1 := aquire_block_weight W 0 1 3 in
  get_not_aquired_weight 2 W1 0 1
  = wrap64 (get_not_aquired_weight 2 W 0 1 - 3) ∧
  (mget 0%Z W 0 1 = 0%Z → 2 ≠ 0 → 2 ≠ 1 →
   get_not_aquired_weight 2 W1 0 2 = get_not_aquired_weight 2 W 0 2) ∧
  (∀ b o, b ≠ 0 →
          get_not_aquired_weight 2 W1 b o = get_not_aquired_weight 2 W b o).
Proof.
  apply (get_not_aquired_weight_aquire 2
           (init_block_weights phg_two_blocks 2
              (_block_weights (SchedulerBase_new 2))) 0 1 2 3).
  - split; [reflexivity|]. repeat constructor.
  - lia.
  - lia.
  - lia.
Defined.

End SchedulersSpec.

(** ** Vectors indexed by machine integers *)

Section vget_vset.
Import Hypergraph.
Context {A : Type}.
Implicit Types l : list A.

Lemma vget_vset_eq d l i x :
  N.to_nat i < length l → vget d (vset l i x) i = x.
Proof. intros Hi. unfold vget, vset. by rewrite list_lookup_insert_eq. Qed.

Lemma vget_vset_ne d l i j x : i ≠ j → vget d (vset l i x) j = vget d l j.
Proof.
  intros Hne. unfold vget, vset. rewrite list_lookup_insert_ne; [done|]. lia.
Qed.

Lemma length_vset l i x : length (vset l i x) = length l.
Proof. apply length_insert. Qed.

Lemma vget_lookup d l i x : l !! N.to_nat i = Some x → vget d l i = x.
Proof. intros Hx. unfold vget. by rewrite Hx. Qed.
End vget_vset.

(** ** Arithmetic on weights *)

Section weights.
Import Hypergraph.

Lemma wrap_weight_fits z : fits_weight (wrap_weight z).
Proof.
  unfold fits_weight, wrap_weight.
  pose proof (Z.mod_pos_bound (z + 2 ^ 31) (2 ^ 32) ltac:(lia)). lia.
Qed.

Lemma wrap_weight_small z : fits_weight z → wrap_weight z = z.
Proof.
  unfold fits_weight, wrap_weight. intros Hz.
  rewrite Z.mod_small by lia. lia.
Qed.

(** Two integers that differ by a multiple of [2^32] wrap to the same
    weight. *)
Lemma wrap_weight_eq (x y q : Z) :
  x = (y + q * 2 ^ 32)%Z → wrap_weight x = wrap_weight y.
Proof.
  intros ->. unfold wrap_weight.
  replace (y + q * 2 ^ 32 + 2 ^ 31)%Z with (y + 2 ^ 31 + q * 2 ^ 32)%Z by lia.
  by rewrite Z_mod_plus_full.
Qed.

Lemma wrap_weight_decomp z : ∃ q, wrap_weight z = (z + q * 2 ^ 32)%Z.
Proof.
  exists (- ((z + 2 ^ 31) / 2 ^ 32))%Z. unfold wrap_weight.
  rewrite Z.mod_eq by lia. lia.
Qed.

Lemma wrap_weight_add_l a b : wrap_weight (wrap_weight a + b) = wrap_weight (a + b).
Proof.
  destruct (wrap_weight_decomp a) as [q ->].
  apply (wrap_weight_eq _ _ q). lia.
Qed.

Lemma wrap_weight_add_r a b : wrap_weight (a + wrap_weight b) = wrap_weight (a + b).
Proof. rewrite Z.add_comm, wrap_weight_add_l. f_equal. lia. Qed.

Lemma wrap_weight_idemp z : wrap_weight (wrap_weight z) = wrap_weight z.
Proof. apply wrap_weight_small, wrap_weight_fits. Qed.

Lemma add_weight_fits a b :
  fits_weight a → fits_weight b → add_weight a b = wrap_weight (a + b).
Proof. intros Ha Hb. unfold add_weight. by rewrite decide_True. Qed.

Lemma add_weight_0_l w : add_weight 0 w = w.
Proof.
  unfold add_weight. case_decide as Hd; [|done].
  destruct Hd as [_ Hw]. by apply wrap_weight_small.
Qed.

Lemma add_weight_keeps_fit a b :
  fits_weight a → fits_weight b → fits_weight (add_weight a b).
Proof. intros Ha Hb. rewrite add_weight_fits by done. apply wrap_weight_fits. Qed.

Lemma mul_weight_fits a b :
  fits_weight a → fits_weight b → mul_weight a b = wrap_weight (a * b).
Proof. intros Ha Hb. unfold mul_weight. by rewrite decide_True. Qed.

(** Adding weights of the type one by one gives their sum, wrapped. *)
Lemma add_weights_fits (a : Z) (ws : list Z) :
  fits_weight a → Forall fits_weight ws →
  add_weights a ws = wrap_weight (a + foldr Z.add 0%Z ws).
Proof.
  unfold add_weights. revert a.
  induction ws as [|w ws IH]; intros a Ha Hws; cbn [foldl foldr].
  { rewrite Z.add_0_r. by rewrite wrap_weight_small. }
  apply Forall_cons in Hws as [Hw Hws].
  rewrite IH by (done || by apply add_weight_keeps_fit).
  rewrite add_weight_fits by done. rewrite wrap_weight_add_l. f_equal. lia.
Qed.

Lemma add_weights_keeps_fit (a : Z) (ws : list Z) :
  fits_weight a → Forall fits_weight ws → fits_weight (add_weights a ws).
Proof.
  intros Ha Hws. rewrite add_weights_fits by done. apply wrap_weight_fits.
Qed.

Lemma add_weights_app a ws1 ws2 :
  add_weights a (ws1 ++ ws2) = add_weights (add_weights a ws1) ws2.
Proof. apply foldl_app. Qed.

End weights.

(** ** Natural-cut community detection *)

Module NaturalCutSpec.
Import Hypergraph NaturalCut.

Lemma scan_pin_child dep v sc u :
  v ≠ 0%N →
  children (scan_pin dep v sc u) = (children sc + 1)%Z ∧
  sc_parent (scan_pin dep v sc u) = vset (sc_parent sc) u v.
Proof.
  intros Hv. unfold scan_pin.
  destruct (N.eqb_spec v 0) as [?|_]; [done|]. by simpl.
Qed.

(** Scanning the pins [l] of one edge counts every pin as a child and leaves
    [v] in the [parent] entry of each of them; entries that hold [v] keep it. *)
Lemma scan_pins_child dep v l sc :
  v ≠ 0%N →
  let sc' := foldl (scan_pin dep v) sc l in
  children sc' = (children sc + Z.of_nat (length l))%Z ∧
  length (sc_parent sc') = length (sc_parent sc) ∧
  (∀ u, vget 0%N (sc_parent sc) u = v → vget 0%N (sc_parent sc') u = v) ∧
  (∀ u, u ∈ l → N.to_nat u < length (sc_parent sc) →
        vget 0%N (sc_parent sc') u = v).
Proof.
  intros Hv. revert sc. induction l as [|u0 l IH]; intros sc; simpl.
  { split_and!; [lia|done|done|]. intros u Hu. by apply elem_of_nil in Hu. }
  destruct (scan_pin_child dep v sc u0 Hv) as [Hc Hp].
  destruct (IH (scan_pin dep v sc u0)) as (Hc' & Hl' & Hkeep & Hset).
  rewrite Hp, length_vset in Hl'.
  assert (∀ u, vget 0%N (sc_parent sc) u = v →
               vget 0%N (sc_parent (scan_pin dep v sc u0)) u = v) as Hstep.
  { intros u Hu. rewrite Hp. destruct (decide (u0 = u)) as [->|Hne].
    - destruct (decide (N.to_nat u < length (sc_parent sc))).
      + by apply vget_vset_eq.
      + unfold vset. by rewrite list_insert_ge by lia.
    - by rewrite vget_vset_ne. }
  split_and!; [lia|done|auto|].
  intros u [->|Hu]%elem_of_cons Hlen.
  - apply Hkeep. rewrite Hp. by apply vget_vset_eq.
  - apply Hset; [done|]. by rewrite Hp, length_vset.
Qed.

Lemma scan_edges_child H dep v es sc :
  v ≠ 0%N →
  let sc' := foldl (λ st e, foldl (scan_pin dep v) st (pins H e)) sc es in
  children sc' = (children sc + Z.of_nat (length (mjoin (pins H <$> es))))%Z ∧
  length (sc_parent sc') = length (sc_parent sc) ∧
  (∀ u, vget 0%N (sc_parent sc) u = v → vget 0%N (sc_parent sc') u = v) ∧
  (∀ e u, e ∈ es → u ∈ pins H e → N.to_nat u < length (sc_parent sc) →
          vget 0%N (sc_parent sc') u = v).
Proof.
  intros Hv. revert sc. induction es as [|e0 es IH]; intros sc; simpl.
  { split_and!; [lia|done|done|]. intros e u He. by apply elem_of_nil in He. }
  destruct (scan_pins_child dep v (pins H e0) sc Hv) as (Hc & Hl & Hkeep & Hset).
  destruct (IH (foldl (scan_pin dep v) sc (pins H e0)))
    as (Hc' & Hl' & Hkeep' & Hset').
  split_and!.
  - rewrite Hc', Hc.
    change (mjoin (pins H <$> e0 :: es))
      with (pins H e0 ++ mjoin (pins H <$> es)).
    rewrite length_app. unfold fmap. lia.
  - congruence.
  - auto.
  - intros e u [->|He]%elem_of_cons Hu Hlen.
    + apply Hkeep'. by apply Hset.
    + eapply Hset'; [done..|]. by rewrite Hl.
Qed.

(** C9. The scan of a popped vertex [v] tests [parent[u] = v], an assignment.
    For [v] other than vertex 0 the child branch runs for every pin [u] of
    every edge incident to [v] ([children] counts all of them), and after the
    scan [parent[u]] is [v] for each of these pins. The pins are vertices of
    the hypergraph, inside the [parent] vector. *)
Theorem scan_popped_assigns_parent (H : StaticHypergraph) (v : HypernodeID)
    (st : dfs_state) :
  v ≠ 0%N →
  (∀ e u, e ∈ incidentEdges H v → u ∈ pins H e →
          N.to_nat u < length (parent st)) →
  let sc := scan_popped H v st in
  children sc = num_neighbour_visits H v ∧
  ∀ e u, e ∈ incidentEdges H v → u ∈ pins H e → vget 0%N (sc_parent sc) u = v.
Proof.
  intros Hv Hrange. unfold scan_popped, for_neighbours, num_neighbour_visits.
  destruct (scan_edges_child H (depth st) v (incidentEdges H v)
              {| sc_lowPoint := lowPoint st; sc_parent := parent st;
                 children := 0; isArticulationPoint := false |} Hv)
    as (Hc & _ & _ & Hset).
  simpl in *. split; [lia|].
  intros e u He Hu. eapply Hset; eauto.
Qed.

Lemma scan_popped_assigns_parent_witness :
  let sc := scan_popped H_pair 1%N dfs_state_pair in
  children sc = num_neighbour_visits H_pair 1%N ∧
  ∀ e u, e ∈ incidentEdges H_pair 1%N → u ∈ pins H_pair e →
         vget 0%N (sc_parent sc) u = 1%N.
Proof.
  apply (scan_popped_assigns_parent H_pair 1%N dfs_state_pair); [discriminate|].
  intros e u He Hu. vm_compute in He.
  apply list_elem_of_singleton in He as ->. vm_compute in Hu.
  repeat (apply elem_of_cons in Hu as [->|Hu]; [vm_compute; lia|]).
  by apply elem_of_nil in Hu.
Defined.

End NaturalCutSpec.

(** ** Construction of a static graph *)

Module GraphFactorySpec.
Import Hypergraph GraphFactory.

#[export] Instance by_target_total : Total by_target.
Proof. intros a b. unfold by_target. lia. Qed.

Lemma length_ids n : length (ids n) = N.to_nat n.
Proof. unfold ids. by rewrite length_fmap, length_seq. Qed.

Lemma ids_S (j : nat) : ids (N.of_nat (S j)) = ids (N.of_nat j) ++ [N.of_nat j].
Proof.
  unfold ids. rewrite !Nat2N.id, seq_S, fmap_app. done.
Qed.

Lemma elem_of_ids n u : u ∈ ids n ↔ (u < n)%N.
Proof.
  unfold ids. rewrite list_elem_of_fmap. split.
  - intros (i & -> & Hi%elem_of_seq). lia.
  - intros Hu. exists (N.to_nat u). rewrite elem_of_seq. split; lia.
Qed.

(** *** Windows of a vector *)

Lemma window_app_l {A} (l1 l2 : list A) b s :
  N.to_nat b + N.to_nat s ≤ length l1 →
  window (l1 ++ l2) b s = window l1 b s.
Proof.
  intros Hle. unfold window.
  by rewrite !take_drop_commute, take_app_le by lia.
Qed.

Lemma window_take {A} (l : list A) n b s :
  N.to_nat b + N.to_nat s ≤ n → window (take n l) b s = window l b s.
Proof.
  intros Hle. unfold window.
  rewrite !take_drop_commute, take_take. do 2 f_equal. lia.
Qed.

Lemma length_window {A} (l : list A) b s :
  N.to_nat b + N.to_nat s ≤ length l → length (window l b s) = N.to_nat s.
Proof. intros Hle. unfold window. rewrite length_take, length_drop. lia. Qed.

(** *** Sorting one range *)

Section sort_range.
Context (es : list Edge) (b e : N).
Context (Hbe : (b ≤ e)%N) (He : N.to_nat e ≤ length es).

Lemma length_sorted_part :
  length (merge_sort by_target (window es b (e - b)%N)) = N.to_nat (e - b).
Proof using Hbe He.
  rewrite (Permutation_length (merge_sort_Permutation _ _)).
  apply length_window. lia.
Qed.

Lemma length_sort_range : length (sort_range es b e) = length es.
Proof using Hbe He.
  unfold sort_range.
  rewrite !length_app, length_sorted_part, length_take, length_drop. lia.
Qed.

Lemma window_sort_range_same :
  window (sort_range es b e) b (e - b)%N
  = merge_sort by_target (window es b (e - b)%N).
Proof using Hbe He.
  unfold sort_range, window at 1.
  rewrite drop_app_length' by (rewrite length_take; lia).
  rewrite take_app_length' by (by rewrite length_sorted_part).
  done.
Qed.

Lemma window_sort_range_before b' s' :
  (b' + s' ≤ b)%N → window (sort_range es b e) b' s' = window es b' s'.
Proof using Hbe He.
  intros Hle. unfold sort_range.
  rewrite window_app_l by (rewrite length_take; lia).
  apply window_take. lia.
Qed.
End sort_range.

(** *** The loop that sorts the window of every vertex

    [B] gives the first entries stored in the nodes; they ascend and end
    within the vector of edges. *)

Lemma sort_loop_sorted (ns : list Node) (es : list Edge) (n : nat) :
  let B u := n_begin (vget default_node ns u) in
  (∀ u, (u < N.of_nat n)%N → (B u ≤ B (u + 1))%N) →
  N.to_nat (B (N.of_nat n)) ≤ length es →
  let es' := foldl (sort_incident_edges ns) es (ids (N.of_nat n)) in
  length es' = length es ∧
  ∀ u, (u < N.of_nat n)%N →
       Sorted by_target (window es' (B u) (B (u + 1) - B u)%N).
Proof.
  intros B Hmono Hend.
  assert (∀ i j : nat, i ≤ j → j ≤ n → (B (N.of_nat i) ≤ B (N.of_nat j))%N) as Hle.
  { intros i j Hij Hj. induction Hij as [|j Hij IH]; [lia|].
    etrans; [apply IH; lia|].
    replace (N.of_nat (S j)) with (N.of_nat j + 1)%N by lia.
    apply Hmono. lia. }
  assert (∀ j, j ≤ n →
            let es' := foldl (sort_incident_edges ns) es (ids (N.of_nat j)) in
            length es' = length es ∧
            ∀ u, (u < N.of_nat j)%N →
                 Sorted by_target (window es' (B u) (B (u + 1) - B u)%N)) as Hind;
    [|by apply Hind].
  induction j as [|j IH]; intros Hj.
  { split; [done|]. intros u Hu. lia. }
  destruct IH as [Hlen Hsorted]; [lia|].
  cbv zeta. rewrite ids_S, foldl_app. cbn [foldl].
  set (es1 := foldl (sort_incident_edges ns) es (ids (N.of_nat j))) in *.
  unfold sort_incident_edges. fold (B (N.of_nat j)) (B (N.of_nat j + 1)%N).
  assert (B (N.of_nat j) ≤ B (N.of_nat j + 1))%N as Hb by (apply Hmono; lia).
  assert (N.to_nat (B (N.of_nat j + 1)%N) ≤ length es1) as He.
  { rewrite Hlen. etrans; [|apply Hend].
    replace (N.of_nat j + 1)%N with (N.of_nat (S j)) by lia.
    specialize (Hle (S j) n Hj ltac:(lia)). lia. }
  split; [by rewrite length_sort_range|].
  intros u Hu. destruct (decide (u = N.of_nat j)) as [->|Hne].
  - rewrite window_sort_range_same by done. apply Sorted_merge_sort, _.
  - rewrite window_sort_range_before; [apply Hsorted; lia|done|done|].
    assert (B (u + 1)%N ≤ B (N.of_nat j))%N.
    { replace (u + 1)%N with (N.of_nat (S (N.to_nat u))) by lia.
      apply Hle; lia. }
    assert (B u ≤ B (u + 1))%N by (apply Hmono; lia).
    lia.
Qed.

(** *** Degrees and their prefix sums *)

Lemma prefix_sum_mono (l : list N) (i j : N) :
  (i ≤ j)%N → (prefix_sum l i ≤ prefix_sum l j)%N.
Proof.
  intros Hij. unfold prefix_sum.
  replace (N.to_nat j) with (N.to_nat i + (N.to_nat j - N.to_nat i)) by lia.
  rewrite <-take_take_drop, foldr_app.
  generalize (foldr N.add 0%N (take (N.to_nat j - N.to_nat i) (drop (N.to_nat i) l))).
  induction (take (N.to_nat i) l) as [|x k IH]; intros acc; simpl; [lia|].
  specialize (IH acc). lia.
Qed.

Lemma sum_vset_incr (c : list N) (pin : N) :
  N.to_nat pin < length c →
  foldr N.add 0%N (vset c pin (vget 0 c pin + 1)%N) = (foldr N.add 0 c + 1)%N.
Proof.
  unfold vset, vget. generalize (N.to_nat pin) as i. clear pin.
  induction c as [|x c IH]; intros i Hi; simpl in *; [lia|].
  destruct i as [|i]; simpl; [lia|]. rewrite IH by lia. lia.
Qed.

Lemma count_pins_sum (c : list N) (e : list HypernodeID) :
  Forall (λ pin, N.to_nat pin < length c) e →
  let c' := foldl (λ c pin, vset c pin (vget 0 c pin + 1)%N) c e in
  length c' = length c ∧
  foldr N.add 0%N c' = (foldr N.add 0 c + N.of_nat (length e))%N.
Proof.
  revert c. induction e as [|pin e IH]; intros c Hin; simpl; [split; [done|lia]|].
  apply Forall_cons in Hin as [Hpin Hin].
  destruct (IH (vset c pin (vget 0 c pin + 1)%N)) as [Hl Hs].
  { by rewrite length_vset. }
  rewrite length_vset in Hl. rewrite sum_vset_incr in Hs by done.
  split; [done|lia].
Qed.

Lemma count_degrees_sum num_nodes num_edges edge_vector :
  wf_edge_vector num_nodes num_edges edge_vector →
  Forall (λ e, length e = 2) edge_vector →
  let c := count_degrees num_nodes edge_vector in
  length c = N.to_nat num_nodes ∧
  foldr N.add 0%N c = (2 * num_edges)%N.
Proof.
  intros [Hlen Hpins] Hsize. unfold count_degrees.
  assert (∀ c : list N, length c = N.to_nat num_nodes →
            let c' := foldl (λ c e, foldl (λ c pin, vset c pin (vget 0 c pin + 1)%N) c e)
                            c edge_vector in
            length c' = length c ∧
            foldr N.add 0%N c'
            = (foldr N.add 0 c + 2 * N.of_nat (length edge_vector))%N) as Hgen.
  { clear Hlen. induction edge_vector as [|e ev IH]; intros c Hc; simpl.
    { split; [done|lia]. }
    apply Forall_cons in Hpins as [Hpe Hpins], Hsize as [Hse Hsize].
    destruct (count_pins_sum c e) as [Hl Hs].
    { eapply Forall_impl; [exact Hpe|]. simpl. intros. lia. }
    destruct (IH Hpins Hsize _ (eq_trans Hl Hc)) as [Hl' Hs'].
    split; [congruence|]. rewrite Hs', Hs, Hse. lia. }
  destruct (Hgen (replicate (N.to_nat num_nodes) 0%N)) as [Hl Hs].
  { by rewrite length_replicate. }
  rewrite length_replicate in Hl. split; [done|].
  rewrite Hs, Hlen.
  assert (foldr N.add 0%N (replicate (N.to_nat num_nodes) 0%N) = 0%N) as ->.
  { clear. induction (N.to_nat num_nodes) as [|k IHk]; [done|]. simpl. by rewrite IHk. }
  lia.
Qed.

(** *** The vectors written by [setup_edges] and [setup_nodes] *)

Lemma setup_edges_length prefix ew (l : list (nat * list HypernodeID)) st :
  length (foldl (setup_edge prefix ew) st l).1 = length st.1.
Proof.
  revert st. induction l as [|[pos e] l IH]; intros [es position]; [done|].
  simpl. rewrite IH. simpl. by rewrite !length_vset.
Qed.

Lemma setup_nodes_spec prefix nw (ns : list Node) (n : nat) :
  n ≤ length ns →
  let ns' := foldl (setup_node prefix nw) ns (ids (N.of_nat n)) in
  length ns' = length ns ∧
  (∀ u, (u < N.of_nat n)%N → n_begin (vget default_node ns' u) = prefix u) ∧
  (∀ u, (N.of_nat n ≤ u)%N → vget default_node ns' u = vget default_node ns u).
Proof.
  induction n as [|n IH]; intros Hn.
  { split_and!; [done| |done]. intros u Hu. lia. }
  destruct IH as (Hl & Hb & Hk); [lia|].
  cbv zeta. rewrite ids_S, foldl_app. cbn [foldl].
  set (ns1 := foldl (setup_node prefix nw) ns (ids (N.of_nat n))) in *.
  unfold setup_node.
  split_and!.
  - by rewrite length_vset.
  - intros u Hu. destruct (decide (u = N.of_nat n)) as [->|Hne].
    + rewrite vget_vset_eq by lia. done.
    + rewrite vget_vset_ne by done. apply Hb. lia.
  - intros u Hu. rewrite vget_vset_ne by lia. apply Hk. lia.
Qed.

(** C7, as the code has it. With stable construction switched on, [construct]
    leaves the entries in the window of every vertex in ascending order of
    their targets. *)
Theorem construct_stable_sorted (num_nodes num_edges : N)
    (edge_vector : list (list HypernodeID))
    (edge_weight : option (list HyperedgeWeight))
    (node_weight : option (list HypernodeWeight)) :
  wf_edge_vector num_nodes num_edges edge_vector →
  Forall (λ e, length e = 2) edge_vector →
  ∃ g, construct num_nodes num_edges edge_vector edge_weight node_weight true
       = Some g ∧
       ∀ u, (u < num_nodes)%N → window_sorted g u.
Proof.
  intros Hwf Hsize. unfold construct.
  rewrite bool_decide_eq_true_2 by done.
  eexists. split; [reflexivity|].
  intros u Hu. unfold window_sorted, incident_window, node. simpl.
  apply Sorted_fmap with (R1 := by_target); [by intros ??|].
  destruct (count_degrees_sum _ _ _ Hwf Hsize) as [Hcl Hcs].
  set (prefix := prefix_sum (count_degrees num_nodes edge_vector)) in *.
  set (edges1 := (foldl (setup_edge prefix edge_weight) _ _).1).
  assert (length edges1 = 2 * N.to_nat num_edges) as Hel.
  { unfold edges1. rewrite setup_edges_length. cbn [fst]. rewrite length_replicate. lia. }
  destruct (setup_nodes_spec prefix node_weight
              (replicate (N.to_nat num_nodes + 1) default_node)
              (N.to_nat num_nodes)) as (Hnl & Hnb & Hnk).
  { rewrite length_replicate. lia. }
  rewrite N2Nat.id in Hnl, Hnb, Hnk.
  set (nodes1 := foldl (setup_node prefix node_weight) _ (ids num_nodes)) in *.
  rewrite length_replicate in Hnl.
  set (nodes2 := vset nodes1 num_nodes _).
  assert (∀ v, (v < num_nodes)%N →
               n_begin (vget default_node nodes2 v) = prefix v) as Hb2.
  { intros v Hv. unfold nodes2. rewrite vget_vset_ne by lia. by apply Hnb. }
  assert (n_begin (vget default_node nodes2 num_nodes)
          = N.of_nat (length edges1)) as Hs2.
  { unfold nodes2. rewrite vget_vset_eq by lia. done. }
  assert (prefix num_nodes = N.of_nat (length edges1)) as Htot.
  { unfold prefix, prefix_sum. rewrite take_ge by lia. lia. }
  destruct (sort_loop_sorted nodes2 edges1 (N.to_nat num_nodes)) as [_ Hsorted].
  - rewrite N2Nat.id. intros v Hv. rewrite Hb2 by done.
    destruct (decide (v + 1 = num_nodes)%N) as [Heq|Hne].
    + rewrite Heq, Hs2, <-Htot. apply prefix_sum_mono. lia.
    + rewrite Hb2 by lia. apply prefix_sum_mono. lia.
  - rewrite N2Nat.id, Hs2. lia.
  - rewrite N2Nat.id in Hsorted. by apply Hsorted.
Qed.

Lemma construct_stable_sorted_witness :
  ∃ g, construct 3 2 [[0; 2]; [0; 1]]%N None None true = Some g ∧
       ∀ u, (u < 3)%N → window_sorted g u.
Proof.
  apply (construct_stable_sorted 3 2 [[0; 2]; [0; 1]]%N None None).
  - split; [reflexivity|]. repeat constructor.
  - repeat constructor.
Defined.

(** C7, as the specification words it, fails: without stable construction the
    window of vertex 0 is left as the insertion loop filled it, here with the
    targets 2 and 1. *)
Lemma construct_unstable_not_sorted :
  ¬ (∀ (num_nodes num_edges : N) (edge_vector : list (list HypernodeID))
       (stable : bool) (g : StaticGraph) (u : HypernodeID),
       wf_edge_vector num_nodes num_edges edge_vector →
       construct num_nodes num_edges edge_vector None None stable = Some g →
       (u < num_nodes)%N → window_sorted g u).
Proof.
  intros H.
  destruct (construct 3 2 [[0; 2]; [0; 1]]%N None None false) as [g|] eqn:Hg;
    [|discriminate].
  specialize (H 3%N 2%N [[0; 2]; [0; 1]]%N false g 0%N).
  specialize (H ltac:(split; [reflexivity|repeat constructor]) Hg eq_refl).
  vm_compute in Hg. injection Hg as <-. vm_compute in H.
  apply Sorted_inv in H as [_ H]. apply HdRel_inv in H. by apply H.
Qed.

End GraphFactorySpec.

(** ** Contraction *)

Module ContractionSpec.
Import Hypergraph Contraction.
Import GraphFactorySpec.

(** [lia] with the powers of two written out. *)
Ltac pow_lia :=
  change (2 ^ 32)%N with 4294967296%N in *;
  change (2 ^ 64)%N with 18446744073709551616%N in *;
  lia.

(** *** Loops that rewrite one element per index *)

Lemma foldl_vset_ids {A} (d : A) (g : N → A → A) (l : list A) (n : nat) :
  n ≤ length l →
  let l' := foldl (λ l u, vset l u (g u (vget d l u))) l (ids (N.of_nat n)) in
  length l' = length l ∧
  (∀ u, (u < N.of_nat n)%N → vget d l' u = g u (vget d l u)) ∧
  (∀ u, (N.of_nat n ≤ u)%N → vget d l' u = vget d l u).
Proof.
  induction n as [|n IH]; intros Hn.
  { split_and!; [done| |done]. intros u Hu. lia. }
  destruct IH as (Hl & Hlt & Hge); [lia|].
  cbv zeta. rewrite ids_S, foldl_app. cbn [foldl].
  set (l1 := foldl _ l (ids (N.of_nat n))) in *.
  split_and!.
  - by rewrite length_vset.
  - intros u Hu. destruct (decide (u = N.of_nat n)) as [->|Hne].
    + rewrite vget_vset_eq by lia. f_equal. apply Hge. lia.
    + rewrite vget_vset_ne by done. apply Hlt. lia.
  - intros u Hu. rewrite vget_vset_ne by lia. apply Hge. lia.
Qed.

(** *** Compactification *)

Lemma mark_clusters_spec (n : N) (clusters : list HypernodeID) :
  (∀ u, (u < n)%N → (vget 0%N clusters u < n)%N) →
  let mapping := mark_clusters n clusters in
  length mapping = N.to_nat n ∧
  ∀ c, (c < n)%N →
    (vget 0%N mapping c = 1%N ∧ ∃ u, (u < n)%N ∧ vget 0%N clusters u = c) ∨
    (vget 0%N mapping c = 0%N ∧ ∀ u, (u < n)%N → vget 0%N clusters u ≠ c).
Proof.
  intros Hcl. unfold mark_clusters.
  assert (∀ j : nat, j ≤ N.to_nat n →
    let mapping := foldl (λ mapping u, vset mapping (vget 0%N clusters u) 1%N)
                         (replicate (N.to_nat n) 0%N) (ids (N.of_nat j)) in
    length mapping = N.to_nat n ∧
    ∀ c, (c < n)%N →
      (vget 0%N mapping c = 1%N ∧ ∃ u, (u < N.of_nat j)%N ∧ vget 0%N clusters u = c) ∨
      (vget 0%N mapping c = 0%N ∧ ∀ u, (u < N.of_nat j)%N → vget 0%N clusters u ≠ c))
    as Hind.
  { induction j as [|j IH]; intros Hj.
    - cbv zeta. change (ids (N.of_nat 0)) with (@nil N). cbn [foldl].
      split; [by rewrite length_replicate|]. intros c Hc. right. split; [|lia].
      unfold vget. rewrite lookup_replicate_2 by lia. done.
    - destruct IH as [Hl Hm]; [lia|].
      cbv zeta. rewrite ids_S, foldl_app. cbn [foldl].
      set (m1 := foldl _ _ (ids (N.of_nat j))) in *.
      split; [by rewrite length_vset|].
      intros c Hc.
      destruct (decide (vget 0%N clusters (N.of_nat j) = c)) as [Heq|Hne].
      + left. rewrite Heq. rewrite vget_vset_eq by lia.
        split; [done|]. exists (N.of_nat j). split; [lia|done].
      + rewrite vget_vset_ne by done.
        destruct (Hm c Hc) as [[H1 (u & Hu & Hcu)]|[H0 Hno]].
        * left. split; [done|]. exists u. split; [lia|done].
        * right. split; [done|]. intros u Hu.
          destruct (decide (u = N.of_nat j)) as [->|?]; [done|]. apply Hno. lia. }
  specialize (Hind (N.to_nat n) ltac:(lia)). rewrite N2Nat.id in Hind. done.
Qed.

(** The inclusive sums do not wrap while they stay below [2^32]. *)
Lemma parallel_prefix_sum_spec (l : list N) (acc : N) :
  (acc + foldr N.add 0 l < 2 ^ 32)%N →
  let sums := parallel_prefix_sum acc l in
  length sums = length l ∧
  ∀ i, i < length l →
       sums !! i = Some (acc + foldr N.add 0 (take (S i) l))%N.
Proof.
  revert acc. induction l as [|x l IH]; intros acc Hlt; simpl in *.
  { split; [done|]. intros i Hi. lia. }
  assert (wrap32 (acc + x) = (acc + x)%N) as Hw.
  { unfold wrap32. apply N.mod_small. pow_lia. }
  rewrite Hw. destruct (IH (acc + x)%N) as [Hl Hs]; [lia|].
  split; [by rewrite Hl|].
  intros [|i] Hi; simpl.
  - f_equal. destruct l; simpl; lia.
  - rewrite Hs by lia. f_equal. simpl. lia.
Qed.

Lemma foldr_add_take_le (l : list N) (i j : nat) :
  i ≤ j → (foldr N.add 0 (take i l) ≤ foldr N.add 0 (take j l))%N.
Proof.
  intros Hij. replace j with (i + (j - i)) by lia.
  rewrite <-take_take_drop, foldr_app.
  generalize (foldr N.add 0%N (take (j - i) (drop i l))).
  induction (take i l) as [|x k IH]; intros acc; simpl; [lia|].
  specialize (IH acc). lia.
Qed.

Lemma foldr_add_bounded (l : list N) :
  Forall (λ x, x ≤ 1)%N l → (foldr N.add 0 l ≤ N.of_nat (length l))%N.
Proof. induction 1; simpl; lia. Qed.

Lemma foldr_add_lookup (l : list N) (i : nat) x :
  l !! i = Some x → (x ≤ foldr N.add 0 (take (S i) l))%N.
Proof.
  revert i. induction l as [|y l IH]; intros [|i] Hi; simplify_eq/=; [lia|].
  specialize (IH i Hi). lia.
Qed.

(** What the compactification computes from a well-formed cluster vector:
    the marks, the number of coarse vertices and the new ids. *)
Lemma compactify_spec (H : StaticHypergraph) (clusters : list HypernodeID) :
  let n := initialNumNodes H in
  (0 < n < 2 ^ 32 - 1)%N →
  wf_clusters H clusters →
  let mapping := parallel_prefix_sum 0 (mark_clusters n clusters) in
  let num_coarse_nodes := vget 0%N mapping (n - 1)%N in
  let clusters' := relabel H mapping clusters in
  length clusters' = N.to_nat n ∧
  (num_coarse_nodes ≤ n)%N ∧
  (∀ u, (u < n)%N → nodeIsEnabled H u = true →
        (vget 0%N clusters' u < num_coarse_nodes)%N) ∧
  (∀ u, (u < n)%N → nodeIsEnabled H u = false →
        vget 0%N clusters' u = kInvalidHypernode).
Proof.
  intros n Hn [Hcl Hcr] mapping num_coarse_nodes clusters'.
  destruct (mark_clusters_spec n clusters Hcr) as [Hml Hmark].
  set (marks := mark_clusters n clusters) in *.
  assert (Forall (λ x, x ≤ 1)%N marks) as Hle1.
  { apply Forall_lookup_2. intros i x Hix.
    assert (i < length marks) as Hi by (by eapply lookup_lt_Some).
    destruct (Hmark (N.of_nat i)) as [[Hx _]|[Hx _]]; [pow_lia|..];
      unfold vget in Hx; rewrite Nat2N.id, Hix in Hx; simpl in Hx; pow_lia. }
  pose proof (foldr_add_bounded marks Hle1) as Hbound.
  destruct (parallel_prefix_sum_spec marks 0) as [Hsl Hsum]; [pow_lia|].
  fold mapping in Hsl, Hsum.
  assert (∀ c, (c < n)%N →
            vget 0%N mapping c = foldr N.add 0%N (take (S (N.to_nat c)) marks)) as Hmap.
  { intros c Hc. unfold vget. rewrite Hsum by pow_lia. simpl. pow_lia. }
  assert (num_coarse_nodes = foldr N.add 0%N marks) as Hnum.
  { unfold num_coarse_nodes. rewrite Hmap by pow_lia. by rewrite take_ge by pow_lia. }
  destruct (foldl_vset_ids 0%N
              (λ u c, if nodeIsEnabled H u
                      then sub32 (vget 0%N mapping c) 1 else kInvalidHypernode)
              clusters (N.to_nat n)) as (Hrl & Hrlt & _); [pow_lia|].
  rewrite N2Nat.id in Hrl, Hrlt.
  assert (clusters' = foldl (λ l u, vset l u
            (if nodeIsEnabled H u then sub32 (vget 0%N mapping (vget 0%N l u)) 1
             else kInvalidHypernode)) clusters (ids n)) as Hcl' by done.
  rewrite <-Hcl' in Hrl, Hrlt. clear Hcl'.
  split_and!.
  - by rewrite Hrl.
  - rewrite Hnum. pow_lia.
  - intros u Hu Hen. rewrite Hrlt, Hen by done.
    set (c := vget 0%N clusters u).
    assert (c < n)%N as Hc by (by apply Hcr).
    rewrite Hmap by done.
    assert (1 ≤ foldr N.add 0%N (take (S (N.to_nat c)) marks))%N as Hge1.
    { destruct (Hmark c Hc) as [[H1 _]|[_ Hno]]; [|by destruct (Hno u Hu)].
      unfold vget in H1.
      destruct (marks !! N.to_nat c) as [x|] eqn:Hx; simpl in H1; [|pow_lia].
      subst x. by apply foldr_add_lookup in Hx. }
    assert (foldr N.add 0%N (take (S (N.to_nat c)) marks) ≤ foldr N.add 0%N marks)%N
      as Hlec.
    { rewrite <-(take_ge marks (length marks)) at 2 by pow_lia.
      apply foldr_add_take_le. pow_lia. }
    unfold sub32, wrap32. rewrite Hnum.
    replace (foldr N.add 0%N (take (S (N.to_nat c)) marks) + 2 ^ 32 - 1)%N
      with (foldr N.add 0%N (take (S (N.to_nat c)) marks) - 1 + 1 * 2 ^ 32)%N
      by pow_lia.
    rewrite N.Div0.mod_add, N.mod_small by pow_lia. pow_lia.
  - intros u Hu Hen. by rewrite Hrlt, Hen.
Qed.

(** *** Set-and-reset bitmaps *)

Lemma vget_range {A} (d : A) (l : list A) (i : N) :
  vget d l i ≠ d → N.to_nat i < length l.
Proof.
  intros Hne. apply lookup_lt_is_Some. unfold vget in Hne.
  destruct (l !! N.to_nat i); [done|]. by destruct Hne.
Qed.

Lemma foldl_vset_const {A} (d x : A) (l : list N) (bits : list A) :
  let bits' := foldl (λ c v, vset c v x) bits l in
  length bits' = length bits ∧
  (∀ c, c ∈ l → N.to_nat c < length bits → vget d bits' c = x) ∧
  (∀ c, c ∉ l → vget d bits' c = vget d bits c).
Proof.
  revert bits. induction l as [|v l IH]; intros bits; simpl.
  { split_and!; [done| |done]. intros c Hc. by apply elem_of_nil in Hc. }
  destruct (IH (vset bits v x)) as (Hl & Hin & Hout).
  rewrite length_vset in Hl, Hin.
  split_and!; [done| |].
  - intros c Hc Hlen. destruct (decide (c ∈ l)) as [Hcl|Hcl]; [by apply Hin|].
    apply elem_of_cons in Hc as [->|?]; [|done].
    rewrite Hout by done. by apply vget_vset_eq.
  - intros c Hc. apply not_elem_of_cons in Hc as [Hne Hcl].
    rewrite Hout by done. by apply vget_vset_ne.
Qed.

Lemma bits_of_empty nc : bits_of nc (replicate nc false) [].
Proof.
  split; [by rewrite length_replicate|]. intros c.
  split; [|by intros ?%elem_of_nil].
  unfold vget. intros Hc.
  destruct (replicate nc false !! N.to_nat c) as [b|] eqn:Hb; [|done].
  apply lookup_replicate in Hb as [-> _]. done.
Qed.

Lemma bits_of_inv nc l : bits_of nc l [] → l = replicate nc false.
Proof.
  intros [Hl Hb]. apply list_eq_same_length with nc;
    [by rewrite length_replicate|done|].
  intros i x y Hi Hx Hy. apply lookup_replicate in Hy as [-> _].
  destruct x; [|done].
  specialize (Hb (N.of_nat i)). unfold vget in Hb.
  rewrite Nat2N.id, Hx in Hb. simpl in Hb.
  apply proj1 in Hb. specialize (Hb eq_refl). by apply elem_of_nil in Hb.
Qed.

Lemma bits_set_spec nc l : 
  Forall (λ c, N.to_nat c < nc) l →
  bits_of nc (bits_set (replicate nc false) l) l.
Proof.
  intros Hl. destruct (foldl_vset_const false true l (replicate nc false))
    as (Hlen & Hin & Hout).
  rewrite length_replicate in Hlen, Hin.
  split; [done|]. intros c. split.
  - intros Hc. destruct (decide (c ∈ l)) as [|Hcl]; [done|].
    unfold bits_set in Hc. rewrite Hout in Hc by done.
    destruct (bits_of_empty nc) as [_ He]. apply He in Hc.
    by apply elem_of_nil in Hc.
  - intros Hc. apply Hin; [done|]. by eapply (proj1 (Forall_forall _ _) Hl).
Qed.

Lemma bits_reset_spec nc bits l :
  bits_of nc bits l → bits_reset bits l = replicate nc false.
Proof.
  intros [Hl Hb]. apply bits_of_inv.
  destruct (foldl_vset_const false false l bits) as (Hlen & Hin & Hout).
  split; [unfold bits_reset; congruence|].
  intros c. split; [|by intros ?%elem_of_nil].
  intros Hc. destruct (decide (c ∈ l)) as [Hcl|Hcl].
  - unfold bits_reset in Hc. rewrite Hin in Hc; [done..|].
    apply (vget_range false). apply Hb in Hcl. by rewrite Hcl.
  - unfold bits_reset in Hc. rewrite Hout in Hc by done. by apply Hb in Hc.
Qed.

(** *** The coarse pins of a net *)

Lemma coarse_pins_snoc cl l v :
  coarse_pins cl (l ++ [v])
  = let cv := vget 0%N cl v in
    if bool_decide (cv = kInvalidHypernode ∨ cv ∈ coarse_pins cl l)
    then coarse_pins cl l else coarse_pins cl l ++ [cv].
Proof. unfold coarse_pins. by rewrite foldl_app. Qed.

Lemma coarse_pins_spec cl l :
  NoDup (coarse_pins cl l) ∧
  ∀ c, c ∈ coarse_pins cl l ↔
       c ≠ kInvalidHypernode ∧ ∃ v, v ∈ l ∧ vget 0%N cl v = c.
Proof.
  induction l as [|v l [IHn IHm]] using rev_ind.
  { split; [apply NoDup_nil_2|]. intros c. split; [by intros ?%elem_of_nil|].
    intros (_ & v & Hv & _). by apply elem_of_nil in Hv. }
  rewrite coarse_pins_snoc. cbv zeta.
  case_bool_decide as Hd.
  - split; [done|]. intros c. rewrite IHm. split.
    + intros (Hc & v' & Hv' & Hcv). split; [done|]. exists v'.
      split; [|done]. apply elem_of_app. by left.
    + intros (Hc & v' & [Hv'| ->%list_elem_of_singleton]%elem_of_app & Hcv).
      * split; [done|]. by exists v'.
      * destruct Hd as [Hd|Hd]; [congruence|]. rewrite <-Hcv. by apply IHm.
  - split.
    + apply NoDup_app. split_and!; [done| |apply NoDup_singleton].
      intros c Hc ->%list_elem_of_singleton. tauto.
    + intros c. rewrite elem_of_app, IHm, list_elem_of_singleton. split.
      * intros [(Hc & v' & Hv' & Hcv)| ->].
        -- split; [done|]. exists v'. split; [|done]. apply elem_of_app. by left.
        -- split; [tauto|]. exists v. split; [|done]. apply elem_of_app.
           right. by apply list_elem_of_singleton.
      * intros (Hc & v' & [Hv'| ->%list_elem_of_singleton]%elem_of_app & Hcv).
        -- left. split; [done|]. by exists v'.
        -- by right.
Qed.

(** The loop over the pins with the bitmap computes [coarse_pins]. *)
Lemma add_pins_spec nc cl l :
  (∀ v, v ∈ l → vget 0%N cl v = kInvalidHypernode ∨ N.to_nat (vget 0%N cl v) < nc) →
  let r := foldl (add_pin cl) (replicate nc false, []) l in
  r.2 = coarse_pins cl l ∧ bits_of nc r.1 r.2.
Proof.
  induction l as [|v l IH] using rev_ind; intros Hr.
  { split; [done|]. apply bits_of_empty. }
  destruct IH as [IHl IHb].
  { intros v' Hv'. apply Hr, elem_of_app. by left. }
  cbv zeta. rewrite foldl_app, coarse_pins_snoc. cbn [foldl].
  destruct (foldl (add_pin cl) (replicate nc false, []) l) as [bits acc].
  simpl in IHl, IHb. subst acc. unfold add_pin. cbn [fst snd]. cbv zeta.
  set (cv := vget 0%N cl v).
  destruct (Hr v) as [Hinv|Hlt]; [apply elem_of_app; right; by left|..].
  { fold cv in Hinv. rewrite Hinv, N.eqb_refl. by simpl. }
  fold cv in Hlt. destruct IHb as [Hlen Hbits].
  destruct (N.eqb_spec cv kInvalidHypernode) as [Heq|Hne]; simpl.
  { rewrite bool_decide_eq_true_2 by (by left). done. }
  destruct (vget false bits cv) eqn:Hb; simpl.
  - apply Hbits in Hb. rewrite bool_decide_eq_true_2 by (by right). done.
  - assert (cv ∉ coarse_pins cl l) as Hnin.
    { intros Hin. apply Hbits in Hin. congruence. }
    rewrite bool_decide_eq_false_2 by tauto.
    split; [done|]. split; [by rewrite length_vset|].
    intros c. rewrite elem_of_app, list_elem_of_singleton, <-Hbits.
    destruct (decide (c = cv)) as [->|Hc].
    + rewrite vget_vset_eq by lia. tauto.
    + rewrite vget_vset_ne by done. split; [tauto|]. by intros [?|?].
Qed.

Lemma filter_ids_S (P : N → Prop) `{!∀ x, Decision (P x)} (j : nat) :
  filter P (ids (N.of_nat (S j)))
  = filter P (ids (N.of_nat j)) ++ (if decide (P (N.of_nat j)) then [N.of_nat j] else []).
Proof.
  rewrite ids_S, filter_app. f_equal.
Qed.

Lemma vset_lookup {A} (l : list A) (e : N) (x : A) (i : nat) :
  N.to_nat e < length l →
  vset l e x !! i = if decide (i = N.to_nat e) then Some x else l !! i.
Proof.
  intros He. unfold vset. case_decide as Hi.
  - subst i. by apply list_lookup_insert_eq.
  - by apply list_lookup_insert_ne.
Qed.

Lemma list_eq_fmap_ids {A} (f : N → A) (l : list A) (m : N) :
  length l = N.to_nat m →
  (∀ i, i < N.to_nat m → l !! i = Some (f (N.of_nat i))) →
  l = f <$> ids m.
Proof.
  intros Hl Hi. apply list_eq_same_length with (N.to_nat m);
    [by rewrite length_fmap, length_ids|done|].
  intros i x y Hlt Hx Hy. rewrite Hi in Hx by done.
  unfold ids in Hy. rewrite <-list_fmap_compose, list_lookup_fmap in Hy.
  rewrite lookup_seq_lt in Hy by done. simpl in Hy. congruence.
Qed.

Lemma lookup_fmap_ids {A} (f : N → A) (m : N) (i : nat) :
  i < N.to_nat m → (f <$> ids m) !! i = Some (f (N.of_nat i)).
Proof.
  intros Hi. unfold ids. rewrite <-list_fmap_compose, list_lookup_fmap.
  by rewrite lookup_seq_lt.
Qed.

(** *** The first pass over the nets *)

Lemma pin_lists_spec (kEdgeHashSeed : N) (H : StaticHypergraph)
    (cl : list HypernodeID) (nc : nat) :
  (∀ e v, e ∈ edges H → v ∈ pins H e →
     vget 0%N cl v = kInvalidHypernode ∨ N.to_nat (vget 0%N cl v) < nc) →
  let m := N.to_nat (initialNumEdges H) in
  let pl :=
    foldl (map_pin_list H cl)
      {| pl_pin_lists := replicate m [];
         pl_permutation :=
           replicate m {| info_he := kInvalidHyperedge; info_hash := kEdgeHashSeed;
                          info_size := SIZE_MAX; info_valid := false |};
         pl_contained := replicate nc false |}
      (edges H) in
  pl_pin_lists pl = L0 H cl <$> ids (initialNumEdges H) ∧
  pl_permutation pl = P0 kEdgeHashSeed H cl <$> ids (initialNumEdges H) ∧
  pl_contained pl = replicate nc false.
Proof.
  intros Hr m. unfold edges.
  set (dflt := {| info_he := kInvalidHyperedge; info_hash := kEdgeHashSeed;
                  info_size := SIZE_MAX; info_valid := false |}).
  set (st0 := {| pl_pin_lists := replicate m []; pl_permutation := replicate m dflt;
                 pl_contained := replicate nc false |}).
  assert (∀ j, j ≤ m →
    let pl := foldl (map_pin_list H cl) st0
                (filter (λ e, edgeIsEnabled H e = true) (ids (N.of_nat j))) in
    length (pl_pin_lists pl) = m ∧ length (pl_permutation pl) = m ∧
    pl_contained pl = replicate nc false ∧
    ∀ i, i < m →
      pl_pin_lists pl !! i
      = Some (if decide (i < j) then L0 H cl (N.of_nat i) else []) ∧
      pl_permutation pl !! i
      = Some (if decide (i < j) then P0 kEdgeHashSeed H cl (N.of_nat i) else dflt))
    as Hind.
  { induction j as [|j IH]; intros Hj.
    { cbv zeta. change (ids (N.of_nat 0)) with (@nil N). rewrite filter_nil.
      simpl. rewrite !length_replicate. split_and!; [done..|].
      intros i Hi. rewrite !lookup_replicate_2 by done. done. }
    destruct IH as (Hl1 & Hl2 & Hc & Hlook); [lia|].
    cbv zeta. rewrite filter_ids_S, foldl_app.
    set (st := foldl (map_pin_list H cl) st0 _) in *.
    assert (∀ i, i < m → (if decide (i < S j)
                          then L0 H cl (N.of_nat i) else [])
                         = if decide (i = j) then L0 H cl (N.of_nat j)
                           else if decide (i < j) then L0 H cl (N.of_nat i) else [])
      as HL.
    { intros i Hi. repeat case_decide; try lia; by subst. }
    assert (∀ i, i < m → (if decide (i < S j)
                          then P0 kEdgeHashSeed H cl (N.of_nat i) else dflt)
                         = if decide (i = j) then P0 kEdgeHashSeed H cl (N.of_nat j)
                           else if decide (i < j)
                                then P0 kEdgeHashSeed H cl (N.of_nat i) else dflt)
      as HP.
    { intros i Hi. repeat case_decide; try lia; by subst. }
    destruct (Hlook j ltac:(lia)) as [Hlj Hpj].
    rewrite decide_False in Hlj by lia. rewrite decide_False in Hpj by lia.
    case_decide as Hen; cbn [foldl].
    - (* an enabled net *)
      assert (N.of_nat j ∈ filter (λ e, edgeIsEnabled H e = true)
                             (ids (initialNumEdges H))) as Hin.
      { apply list_elem_of_filter. split; [done|]. apply elem_of_ids. lia. }
      destruct (add_pins_spec nc cl (pins H (N.of_nat j))) as [Hcp Hbits].
      { intros v Hv. by eapply Hr. }
      unfold map_pin_list. rewrite Hc.
      destruct (foldl (add_pin cl) (replicate nc false, []) (pins H (N.of_nat j)))
        as [bits pin_list].
      simpl in Hcp, Hbits. subst pin_list.
      rewrite (bits_reset_spec nc) by done.
      unfold L0, P0 in HL, HP. rewrite Hen in HL, HP. simpl in HL, HP.
      destruct (1 <? length (coarse_pins cl (pins H (N.of_nat j)))) eqn:Hlen;
        simpl; rewrite !length_vset; (split_and!; [done..|]);
        intros i Hi; rewrite !vset_lookup, Nat2N.id, HL, HP by lia;
        destruct (Hlook i Hi) as [-> ->]; by repeat case_decide.
    - (* a disabled net is not visited *)
      split_and!; [done..|]. intros i Hi. rewrite HL, HP by done.
      destruct (Hlook i Hi) as [-> ->].
      destruct (decide (i = j)) as [->|Hij]; [|done].
      rewrite !decide_False by lia.
      unfold L0, P0. apply not_true_is_false in Hen. by rewrite Hen. }
  destruct (Hind m ltac:(lia)) as (Hl1 & Hl2 & Hc & Hlook).
  unfold m in Hind, Hl1, Hl2, Hc, Hlook. rewrite N2Nat.id in Hl1, Hl2, Hc, Hlook.
  cbv zeta. split_and!; [| |done].
  - apply list_eq_fmap_ids; [done|]. intros i Hi.
    destruct (Hlook i Hi) as [-> _]. by rewrite decide_True by lia.
  - apply list_eq_fmap_ids; [done|]. intros i Hi.
    destruct (Hlook i Hi) as [_ ->]. by rewrite decide_True by lia.
Qed.

(** *** Identical-net detection *)

Lemma perm_le_refl perm : perm_le perm perm.
Proof. split; [done|]. intros q i Hq. by left. Qed.

Lemma invalidate_idemp i : invalidate (invalidate i) = invalidate i.
Proof. done. Qed.

Lemma invalidate_valid i : info_valid i = false → invalidate i = i.
Proof. destruct i as [? ? ? []]; [done|]. by intros _. Qed.

Lemma invalidate_ne i : info_valid i = true → i ≠ invalidate i.
Proof. intros Hv Heq. rewrite Heq in Hv. done. Qed.

Lemma perm_le_trans p1 p2 p3 : perm_le p1 p2 → perm_le p2 p3 → perm_le p1 p3.
Proof.
  intros [Hl1 H1] [Hl2 H2]. split; [congruence|].
  intros q i Hq. destruct (H1 q i Hq) as [Hq2|[Hv Hq2]].
  - by apply H2.
  - destruct (H2 q _ Hq2) as [Hq3|[Hv3 Hq3]]; [right; by split|done].
Qed.

Lemma perm_le_insert perm j i :
  perm !! j = Some i → info_valid i = true →
  perm_le perm (<[j := invalidate i]> perm).
Proof.
  intros Hj Hv. split; [by rewrite length_insert|].
  intros q i' Hq. destruct (decide (q = j)) as [->|Hne].
  - right. simplify_eq. split; [done|].
    apply list_lookup_insert_eq. by eapply lookup_lt_Some.
  - left. by rewrite list_lookup_insert_ne.
Qed.

(** A valid entry of the current permutation is the entry of the sorted
    one. *)
Lemma perm_le_valid P perm q i :
  perm_le P perm → perm !! q = Some i → info_valid i = true → P !! q = Some i.
Proof.
  intros [Hl Hle] Hq Hv.
  destruct (lookup_lt_is_Some_2 P q) as [i0 Hi0].
  { rewrite <-Hl. by eapply lookup_lt_Some. }
  destruct (Hle q i0 Hi0) as [Hq'|[_ Hq']]; by simplify_eq.
Qed.

Lemma perm_le_hash P perm q i0 i :
  perm_le P perm → P !! q = Some i0 → perm !! q = Some i →
  info_hash i = info_hash i0 ∧ info_size i = info_size i0 ∧ info_he i = info_he i0.
Proof.
  intros [_ Hle] H0 Hq. destruct (Hle q i0 H0) as [?|[_ ?]]; by simplify_eq.
Qed.

Lemma he_inj_le P perm : perm_le P perm → he_inj P → he_inj perm.
Proof.
  intros Hle Hinj q q' i i' Hq Hq' Hv Hv' Hhe.
  eapply Hinj; [by eapply perm_le_valid|by eapply perm_le_valid|done..].
Qed.

Lemma info_at_lookup seed perm q i : perm !! q = Some i → info_at seed perm q = i.
Proof. intros Hq. unfold info_at. by rewrite Hq. Qed.

Lemma vget_vset_nil {A} (lists : list (list A)) (e e' : N) :
  vget [] (vset lists e []) e' = if decide (e' = e) then [] else vget [] lists e'.
Proof.
  case_decide as He.
  - subst e'. unfold vget, vset.
    destruct (decide (N.to_nat e < length lists)).
    + by rewrite list_lookup_insert_eq.
    + rewrite list_insert_ge by lia. by rewrite lookup_ge_None_2 by lia.
  - by apply vget_vset_ne.
Qed.

(** The candidate loop of one representative: [Mc] are the nets it merges. *)
Lemma cand_loop_spec seed H h sz bits rem j perm lists w :
  rem = length perm - j →
  he_inj perm →
  ∃ perm' lists' w' Mc,
    cand_loop seed H h sz bits rem j perm lists w = (perm', lists', w') ∧
    w' = add_weights w (edgeWeight H <$> Mc) ∧
    length lists' = length lists ∧
    (∀ e, vget [] lists' e = if decide (e ∈ Mc) then [] else vget [] lists e) ∧
    length perm' = length perm ∧
    (∀ q i, perm !! q = Some i →
       ((info_valid i = true → info_he i ∉ Mc) ∧ perm' !! q = Some i) ∨
       (j ≤ q ∧ info_valid i = true ∧ info_he i ∈ Mc ∧ info_size i = sz ∧
        forallb (λ v, vget false bits v) (vget [] lists (info_he i)) = true ∧
        perm' !! q = Some (invalidate i))) ∧
    NoDup Mc ∧
    (∀ e, e ∈ Mc → ∃ q i, j ≤ q ∧ perm !! q = Some i ∧
                          info_valid i = true ∧ info_he i = e).
Proof.
  revert j perm lists w.
  induction rem as [|rem IH]; intros j perm lists w Hrem Hinj; simpl.
  { exists perm, lists, w, []. split_and!; try done.
    - intros q i Hq. left. split; [|done]. intros _ Hin. by apply elem_of_nil in Hin.
    - apply NoDup_nil_2.
    - intros e He. by apply elem_of_nil in He. }
  destruct (lookup_lt_is_Some_2 perm j) as [cand Hcand]; [lia|].
  rewrite (info_at_lookup _ _ _ _ Hcand).
  destruct ((h =? info_hash cand)%N && (sz =? info_size cand)%N) eqn:Hkey; cycle 1.
  { exists perm, lists, w, []. split_and!; try done.
    - intros q i Hq. left. split; [|done]. intros _ Hin. by apply elem_of_nil in Hin.
    - apply NoDup_nil_2.
    - intros e He. by apply elem_of_nil in He. }
  apply andb_true_iff in Hkey as [Hh Hsz]. apply N.eqb_eq in Hh, Hsz.
  destruct (info_valid cand
            && forallb (λ v, vget false bits v) (vget [] lists (info_he cand)))
    eqn:Hmerge.
  - (* the candidate is merged *)
    apply andb_true_iff in Hmerge as [Hv Hall].
    destruct (IH (j + 1) (<[j := invalidate cand]> perm)
                 (vset lists (info_he cand) [])
                 (add_weight w (edgeWeight H (info_he cand))))
      as (perm' & lists' & w' & Mc & -> & Hw & Hll & Hlists & Hpl & Hperm & Hnd & Hmc).
    { rewrite length_insert. lia. }
    { eapply he_inj_le; [|done]. by apply perm_le_insert. }
    assert (∀ q i, q ≠ j → perm !! q = Some i → info_valid i = true →
                   info_he i ≠ info_he cand) as Hother.
    { intros q i Hqj Hq Hvi Hhe. apply Hqj. by eapply Hinj. }
    assert (info_he cand ∉ Mc) as Hnin.
    { intros Hin. destruct (Hmc _ Hin) as (q & i & Hjq & Hq & Hvi & Hhe).
      rewrite list_lookup_insert_ne in Hq by lia.
      eapply (Hother q i); [lia|done..]. }
    exists perm', lists', w', (info_he cand :: Mc). split_and!.
    + done.
    + by rewrite Hw.
    + by rewrite Hll, length_vset.
    + intros e. rewrite Hlists, vget_vset_nil.
      destruct (decide (e = info_he cand)) as [->|Hne].
      * rewrite (decide_True (P := _ ∈ _ :: _)) by left. by case_decide.
      * destruct (decide (e ∈ Mc)).
        -- rewrite decide_True; [done|]. by right.
        -- rewrite decide_False; [done|]. by intros [?|?]%elem_of_cons.
    + by rewrite Hpl, length_insert.
    + intros q i Hq. destruct (decide (q = j)) as [->|Hqj].
      * simplify_eq. right.
        destruct (Hperm j (invalidate cand)) as [[_ Hq']|(Hle & _)];
          [apply list_lookup_insert_eq; lia| |lia].
        split_and!; [lia|done|left|done|done|done].
      * destruct (Hperm q i) as [[Hn Hq']|(Hle & Hvi & Hin & Hsi & Hfa & Hq')].
        { by rewrite list_lookup_insert_ne. }
        -- left. split; [|done]. intros Hvi [Heq|Hin]%elem_of_cons.
           ++ by eapply Hother.
           ++ by apply Hn.
        -- right. split_and!; [lia|done|by right|done| |done].
           rewrite vget_vset_nil, decide_False in Hfa; [done|].
           by eapply Hother.
    + apply NoDup_cons. by split.
    + intros e [->|He]%elem_of_cons.
      * exists j, cand. split_and!; [lia|done..].
      * destruct (Hmc e He) as (q & i & Hjq & Hq & Hvi & Hhe).
        rewrite list_lookup_insert_ne in Hq by lia.
        exists q, i. split_and!; [lia|done..].
  - (* the candidate stays *)
    destruct (IH (j + 1) perm lists w)
      as (perm' & lists' & w' & Mc & -> & Hw & Hll & Hlists & Hpl & Hperm & Hnd & Hmc);
      [lia|done|].
    exists perm', lists', w', Mc. split_and!; try done.
    + intros q i Hq.
      destruct (Hperm q i Hq) as [?|(Hle & Hvi & Hin & Hsi & Hfa & Hq')]; [by left|].
      right. split_and!; try done. lia.
    + intros e He. destruct (Hmc e He) as (q & i & Hjq & Hq & Hvi & Hhe).
      exists q, i. split_and!; [lia|done..].
Qed.

Lemma run_loop_valid seed H h rem pos st rep :
  permutation st !! pos = Some rep →
  S rem = length (permutation st) - pos →
  info_hash rep = h → info_valid rep = true →
  run_loop seed H h (S rem) pos st
  = run_loop seed H h rem (pos + 1) (process_rep seed H h pos st).
Proof.
  intros Hrep Hrem Hh Hv. cbn [run_loop]. unfold process_rep.
  rewrite (info_at_lookup _ _ _ _ Hrep), Hh, N.eqb_refl, Hv.
  replace (length (permutation st) - (pos + 1)) with rem by lia.
  by destruct (cand_loop _ _ _ _ _ _ _ _ _ _) as [[??]?].
Qed.

Lemma forallb_bits nc bits l l' :
  bits_of nc bits l →
  forallb (λ v, vget false bits v) l' = true → ∀ c, c ∈ l' → c ∈ l.
Proof.
  intros [_ Hb] Hall c Hc. apply Hb.
  rewrite forallb_forall in Hall. apply Hall. by apply list_elem_of_In.
Qed.

Lemma NoDup_same_length_Permutation {A} (l k : list A) :
  NoDup l → (∀ x, x ∈ l → x ∈ k) → length k ≤ length l → l ≡ₚ k.
Proof.
  intros Hnd Hsub Hlen. apply submseteq_length_Permutation; [|done].
  by apply NoDup_submseteq.
Qed.

(** One representative: the candidate loop and the bookkeeping after it. *)
Lemma process_rep_spec seed H cl nc P h p st reps Ms rep :
  perm_facts H cl nc P →
  det_inv H cl nc P st reps Ms →
  permutation st !! p = Some rep → info_valid rep = true →
  (∀ r, r ∈ reps → r < p) →
  ∃ M, det_inv H cl nc P (process_rep seed H h p st) (reps ++ [p])
                (Ms_update Ms p M) ∧
       ∀ q, q ≤ p → permutation (process_rep seed H h p st) !! q
                    = permutation st !! q.
Proof.
  intros pf inv Hp Hv Hlt. unfold process_rep.
  rewrite (info_at_lookup _ _ _ _ Hp).
  pose proof (he_inj_le _ _ (di_perm _ _ _ _ _ _ _ inv) (pf_inj _ _ _ _ pf)) as Hinj.
  pose proof (perm_le_valid _ _ _ _ (di_perm _ _ _ _ _ _ _ inv) Hp Hv) as HpP.
  destruct (pf_valid _ _ _ _ pf p rep HpP Hv) as (Hedge & Hsize & Hlen2).
  pose proof (di_valid _ _ _ _ _ _ _ inv p rep Hp Hv) as Hrep_pins.
  rewrite Hrep_pins, (di_bits _ _ _ _ _ _ _ inv).
  pose proof (bits_set_spec nc (L0 H cl (info_he rep)) (pf_range _ _ _ _ pf _ Hedge))
    as Hbits.
  destruct (cand_loop_spec seed H h (info_size rep)
              (bits_set (replicate nc false) (L0 H cl (info_he rep)))
              (length (permutation st) - (p + 1)) (p + 1)
              (permutation st) (coarse_pin_lists st) (edgeWeight H (info_he rep)))
    as (perm' & lists' & w' & Mc & -> & Hw & Hll & Hlists & Hpl & Hperm & Hnd & Hmc);
    [done|done|].
  (* entries up to [p] stay, and the representative is not merged *)
  assert (∀ q i, q ≤ p → permutation st !! q = Some i →
                 (info_valid i = true → info_he i ∉ Mc) ∧ perm' !! q = Some i)
    as Hlow.
  { intros q i Hq Hi. destruct (Hperm q i Hi) as [?|(? & _)]; [done|lia]. }
  destruct (Hlow p rep (le_n _) Hp) as [Hrep_nin Hp']. specialize (Hrep_nin Hv).
  assert (vget [] lists' (info_he rep) = L0 H cl (info_he rep)) as Hrep_pins'.
  { by rewrite Hlists, decide_False. }
  assert (perm_le (permutation st) perm') as Hle.
  { split; [done|]. intros q i Hi.
    destruct (Hperm q i Hi) as [[_ ?]|(_ & ? & _ & _ & _ & ?)]; [by left|by right]. }
  (* what a merged net looks like *)
  assert (∀ e, e ∈ Mc → e ∈ edges H ∧ L0 H cl e ≠ [] ∧
                         L0 H cl e ≡ₚ L0 H cl (info_he rep)) as HMc.
  { intros e He. destruct (Hmc e He) as (q & i & _ & Hi & Hvi & <-).
    destruct (Hperm q i Hi) as [[Hn _]|(_ & _ & _ & Hsz & Hall & _)];
      [by destruct (Hn Hvi)|].
    pose proof (perm_le_valid _ _ _ _ (di_perm _ _ _ _ _ _ _ inv) Hi Hvi) as HiP.
    destruct (pf_valid _ _ _ _ pf q i HiP Hvi) as (Hedge' & Hsize' & Hlen2').
    rewrite (di_valid _ _ _ _ _ _ _ inv q i Hi Hvi) in Hall.
    split_and!; [done|intros Hnil; rewrite Hnil in Hlen2'; simpl in Hlen2'; lia|].
    apply NoDup_same_length_Permutation; [apply (pf_nodup _ _ _ _ pf)| |lia].
    by eapply forallb_bits. }
  exists (info_he rep :: Mc). split; [|intros q Hq; simpl].
  2:{ destruct (permutation st !! q) as [i|] eqn:Hi.
      - by destruct (Hlow q i Hq Hi) as [_ ->].
      - apply lookup_ge_None. rewrite Hpl. by apply lookup_ge_None. }
  constructor; simpl.
  - eapply perm_le_trans; [apply inv|done].
  - rewrite Hll. apply inv.
  - rewrite length_vset. apply inv.
  - rewrite Hrep_pins'. by apply (bits_reset_spec nc).
  - intros e. rewrite Hlists. case_decide; [by left|apply inv].
  - intros q i Hq Hvi.
    pose proof (perm_le_valid _ _ _ _ Hle Hq Hvi) as Hq0.
    destruct (Hperm q i Hq0) as [[Hn _]|(_ & _ & _ & _ & _ & Hq')].
    + rewrite Hlists, decide_False by auto.
      by eapply (di_valid _ _ _ _ _ _ _ inv).
    + destruct (invalidate_ne i Hvi). congruence.
  - intros q i HqP Hvi Hq'.
    destruct (proj2 (di_perm _ _ _ _ _ _ _ inv) q i HqP) as [Hq|[_ Hq]].
    + (* invalidated by this representative *)
      destruct (Hperm q i Hq) as [[_ Hq2]|(_ & _ & Hin & _ & _ & _)].
      { destruct (invalidate_ne i Hvi). congruence. }
      split; [by rewrite Hlists, decide_True|].
      exists p. split; [apply elem_of_app; right; by left|].
      unfold Ms_update. rewrite decide_True by done. by right.
    + (* invalidated earlier *)
      destruct (di_merged _ _ _ _ _ _ _ inv q i HqP Hvi Hq) as [Hnil (r & Hr & HMs)].
      split.
      * rewrite Hlists. by case_decide.
      * exists r. split; [apply elem_of_app; by left|].
        unfold Ms_update. rewrite decide_False; [done|].
        specialize (Hlt r Hr). lia.
  - apply NoDup_app. split_and!; [apply inv| |apply NoDup_singleton].
    intros r Hr ->%list_elem_of_singleton. specialize (Hlt p Hr). lia.
  - intros r [Hr| ->%list_elem_of_singleton]%elem_of_app.
    + destruct (di_rep _ _ _ _ _ _ _ inv r Hr) as (i & Hi & Hvi & Hwi & HM).
      specialize (Hlt r Hr).
      destruct (Hlow r i ltac:(lia) Hi) as [_ Hi'].
      exists i. unfold Ms_update. rewrite decide_False by lia.
      split_and!; [done|done| |apply HM..].
      rewrite vget_vset_ne; [done|].
      intros Heq. assert (p = r) by (by eapply Hinj). lia.
    + exists rep. unfold Ms_update. rewrite decide_True by done.
      split_and!; [done|done| | | |].
      * rewrite vget_vset_eq.
        -- by rewrite Hw.
        -- rewrite (di_weights_len _ _ _ _ _ _ _ inv), (pf_len _ _ _ _ pf).
           unfold edges in Hedge. apply list_elem_of_filter in Hedge as [_ Hedge].
           apply elem_of_ids in Hedge. lia.
      * apply NoDup_cons. by split.
      * left.
      * intros e [->|He]%elem_of_cons; [|by apply HMc].
        split_and!; [done|intros Hnil; rewrite Hnil in Hlen2; simpl in Hlen2; lia|done].
  - intros r e [Hr| ->%list_elem_of_singleton]%elem_of_app; unfold Ms_update.
    + specialize (Hlt r Hr). rewrite decide_False by lia. intros He.
      destruct (di_members _ _ _ _ _ _ _ inv r e Hr He) as [Hnil| ->]; [|by right].
      left. rewrite Hlists. by case_decide.
    + rewrite decide_True by done. intros [->|He]%elem_of_cons.
      * right. by rewrite (info_at_lookup _ _ _ _ HpP).
      * left. by rewrite Hlists, decide_True.
  - assert (∀ r e, r ∈ reps → e ∈ Ms r → e ∈ info_he rep :: Mc → False) as Hfresh.
    { intros r e Hr He HeM. specialize (Hlt r Hr).
      assert (∃ q i, p ≤ q ∧ permutation st !! q = Some i ∧
                     info_valid i = true ∧ info_he i = e) as (q & i & Hpq & Hi & Hvi & <-).
      { apply elem_of_cons in HeM as [->|HeM]; [by exists p, rep|].
        destruct (Hmc e HeM) as (q & i & Hq & ?). exists q, i. split; [lia|done]. }
      pose proof (perm_le_valid _ _ _ _ (di_perm _ _ _ _ _ _ _ inv) Hi Hvi) as HiP.
      destruct (pf_valid _ _ _ _ pf q i HiP Hvi) as (_ & _ & Hl2).
      destruct (di_members _ _ _ _ _ _ _ inv r _ Hr He) as [Hnil|Heq].
      - rewrite (di_valid _ _ _ _ _ _ _ inv q i Hi Hvi) in Hnil.
        rewrite Hnil in Hl2. simpl in Hl2. lia.
      - destruct (di_rep _ _ _ _ _ _ _ inv r Hr) as (ir & Hir & Hvir & _).
        pose proof (perm_le_valid _ _ _ _ (di_perm _ _ _ _ _ _ _ inv) Hir Hvir) as HirP.
        rewrite (info_at_lookup _ _ _ _ HirP) in Heq.
        assert (q = r) by (by eapply (pf_inj _ _ _ _ pf)). lia. }
    intros r r' e [Hr| ->%list_elem_of_singleton]%elem_of_app
      [Hr'| ->%list_elem_of_singleton]%elem_of_app; unfold Ms_update.
    + specialize (Hlt r Hr) as Hrp. specialize (Hlt r' Hr') as Hrp'.
      rewrite !decide_False by lia. by apply (di_disj _ _ _ _ _ _ _ inv).
    + specialize (Hlt r Hr) as Hrp.
      rewrite decide_False by lia. rewrite decide_True by done.
      intros He HeM. destruct (Hfresh r e Hr He HeM).
    + specialize (Hlt r' Hr') as Hrp'.
      rewrite decide_True by done. rewrite decide_False by lia.
      intros HeM He. destruct (Hfresh r' e Hr' He HeM).
    + done.
  - rewrite length_app. simpl. by rewrite (di_nets _ _ _ _ _ _ _ inv).
  - rewrite fmap_app, foldr_app. simpl.
    rewrite (info_at_lookup _ _ _ _ HpP), Hrep_pins', Nat.add_0_r.
    rewrite (di_pins _ _ _ _ _ _ _ inv).
    generalize (length (L0 H cl (info_he rep))).
    generalize ((λ r, length (L0 H cl (info_he (info_at 0 P r)))) <$> reps).
    clear. intros l n. induction l as [|x l IH]; simpl; lia.
Qed.

(** One run of equal hashes, from [pos] to the first position [E] with another
    hash: the valid entries in between become representatives. *)
Lemma run_loop_spec seed H cl nc P h :
  perm_facts H cl nc P →
  ∀ rem pos st reps Ms,
  rem = length P - pos → pos ≤ length P →
  det_inv H cl nc P st reps Ms →
  (∀ r, r ∈ reps → r < pos) →
  ∃ E reps' Ms',
    pos ≤ E ≤ length P ∧
    (∀ q i, pos ≤ q < E → P !! q = Some i → info_hash i = h) ∧
    (∀ i, P !! E = Some i → info_hash i ≠ h) ∧
    det_inv H cl nc P (run_loop seed H h rem pos st) reps' Ms' ∧
    (∀ r, r ∈ reps' → r < E) ∧
    (∀ r, r ∈ reps → r ∈ reps') ∧
    (∀ q i, pos ≤ q < E →
       permutation (run_loop seed H h rem pos st) !! q = Some i →
       info_valid i = true → q ∈ reps') ∧
    (∀ q, q < pos → permutation (run_loop seed H h rem pos st) !! q
                    = permutation st !! q).
Proof.
  intros pf. induction rem as [|rem IH]; intros pos st reps Ms Hrem Hpos inv Hlt.
  { exists pos, reps, Ms. simpl.
    split_and!; [lia|lia|intros q i Hq; lia| |done|done|done|intros q i Hq; lia|done].
    intros i Hi. apply lookup_lt_Some in Hi. lia. }
  pose proof (di_perm _ _ _ _ _ _ _ inv) as Hle.
  destruct (lookup_lt_is_Some_2 P pos) as [rep0 Hrep0]; [lia|].
  destruct (lookup_lt_is_Some_2 (permutation st) pos) as [rep Hrep].
  { destruct Hle as [-> _]. lia. }
  destruct (perm_le_hash _ _ _ _ _ Hle Hrep0 Hrep) as (Hhash & _ & _).
  destruct (N.eqb_spec h (info_hash rep)) as [Hh|Hh]; cycle 1.
  { (* the run ends here *)
    exists pos, reps, Ms.
    assert (run_loop seed H h (S rem) pos st = st) as ->.
    { cbn [run_loop]. rewrite (info_at_lookup _ _ _ _ Hrep).
      by destruct (N.eqb_spec h (info_hash rep)). }
    split_and!; [lia|lia|intros q i Hq; lia| |done|done|done|intros q i Hq; lia|done].
    intros i Hi. simplify_eq. congruence. }
  destruct (info_valid rep) eqn:Hv.
  - (* a representative *)
    rewrite (run_loop_valid _ _ _ _ _ _ rep) by
      (done || (destruct Hle as [-> _]; lia)).
    destruct (process_rep_spec seed H cl nc P h pos st reps Ms rep pf inv Hrep Hv Hlt)
      as (M & inv1 & Hframe1).
    destruct (IH (pos + 1) (process_rep seed H h pos st) (reps ++ [pos])
                 (Ms_update Ms pos M))
      as (E & reps' & Ms' & HE & Hhs & HhE & inv' & Hlt' & Hsub & Hcov & Hframe);
      [lia|lia|done| |].
    { intros r [Hr| ->%list_elem_of_singleton]%elem_of_app; [|lia].
      specialize (Hlt r Hr). lia. }
    exists E, reps', Ms'. split_and!; [lia|lia| |done|done|done| | |].
    + intros q i Hq Hi. destruct (decide (q = pos)) as [->|Hne].
      * simplify_eq. congruence.
      * apply (Hhs q); [lia|done].
    + intros r Hr. apply Hsub, elem_of_app. by left.
    + intros q i Hq Hi Hvi. destruct (decide (q = pos)) as [->|Hne].
      * apply Hsub, elem_of_app. right. by left.
      * apply (Hcov q i); [lia|done..].
    + intros q Hq. rewrite Hframe by lia. apply Hframe1. lia.
  - (* an entry that was removed before *)
    assert (run_loop seed H h (S rem) pos st = run_loop seed H h rem (pos + 1) st)
      as ->.
    { cbn [run_loop]. rewrite (info_at_lookup _ _ _ _ Hrep), Hv.
      by destruct (N.eqb_spec h (info_hash rep)). }
    destruct (IH (pos + 1) st reps Ms)
      as (E & reps' & Ms' & HE & Hhs & HhE & inv' & Hlt' & Hsub & Hcov & Hframe);
      [lia|lia|done| |].
    { intros r Hr. specialize (Hlt r Hr). lia. }
    exists E, reps', Ms'. split_and!; [lia|lia| |done|done|done|done| |].
    + intros q i Hq Hi. destruct (decide (q = pos)) as [->|Hne].
      * simplify_eq. congruence.
      * apply (Hhs q); [lia|done].
    + intros q i Hq Hi Hvi. destruct (decide (q = pos)) as [->|Hne].
      * rewrite Hframe in Hi by lia. simplify_eq. congruence.
      * apply (Hcov q i); [lia|done..].
    + intros q Hq. apply Hframe. lia.
Qed.

(** Where no two nets have the same coarse pins, no entry is invalidated. *)
Lemma det_inv_distinct H cl nc P st reps Ms q i :
  perm_facts H cl nc P → det_inv H cl nc P st reps Ms → distinct_nets H cl →
  P !! q = Some i → info_valid i = true → permutation st !! q = Some i.
Proof.
  intros pf inv Hdist Hq Hv.
  destruct (proj2 (di_perm _ _ _ _ _ _ _ inv) q i Hq) as [?|[_ Hq']]; [done|].
  destruct (di_merged _ _ _ _ _ _ _ inv q i Hq Hv Hq') as [_ (r & Hr & HM)].
  destruct (di_rep _ _ _ _ _ _ _ inv r Hr) as (i' & Hi' & Hvi' & _ & _ & _ & HMs).
  destruct (HMs _ HM) as (He & Hne & Hperm).
  pose proof (perm_le_valid _ _ _ _ (di_perm _ _ _ _ _ _ _ inv) Hi' Hvi') as Hi'P.
  destruct (pf_valid _ _ _ _ pf r i' Hi'P Hvi') as (He' & _ & _).
  assert (info_he i = info_he i') as Hhe by (by apply Hdist).
  assert (q = r) as -> by (by eapply (pf_inj _ _ _ _ pf)).
  destruct (invalidate_ne i Hv). congruence.
Qed.

(** Entries with another hash are out of reach of the loops of a run. *)
Lemma cand_loop_frame seed H h sz bits rem j perm lists w q :
  (∀ i, perm !! q = Some i → info_hash i ≠ h) →
  (cand_loop seed H h sz bits rem j perm lists w).1.1 !! q = perm !! q.
Proof.
  revert j perm lists w. induction rem as [|rem IH]; intros j perm lists w Hq;
    cbn [cand_loop]; [done|].
  destruct ((h =? info_hash (info_at seed perm j))%N
            && (sz =? info_size (info_at seed perm j))%N) eqn:Hkey; [|done].
  apply andb_true_iff in Hkey as [Hh%N.eqb_eq _].
  destruct (info_valid (info_at seed perm j) && forallb _ _); [|by apply IH].
  assert (<[j := invalidate (info_at seed perm j)]> perm !! q = perm !! q) as Hsame.
  { destruct (decide (j = q)) as [->|Hne]; [|by apply list_lookup_insert_ne].
    destruct (perm !! q) as [c|] eqn:Hc.
    - destruct (Hq c eq_refl). by rewrite (info_at_lookup _ _ _ _ Hc) in Hh.
    - rewrite list_insert_ge; [done|]. by apply lookup_ge_None. }
  rewrite IH; [done|]. intros i. rewrite Hsame. apply Hq.
Qed.

Lemma run_loop_frame seed H h rem pos st q :
  (∀ i, permutation st !! q = Some i → info_hash i ≠ h) →
  permutation (run_loop seed H h rem pos st) !! q = permutation st !! q.
Proof.
  revert pos st. induction rem as [|rem IH]; intros pos st Hq;
    cbn [run_loop]; [done|].
  destruct (h =? info_hash (info_at seed (permutation st) pos))%N; [|done].
  destruct (info_valid (info_at seed (permutation st) pos)); [|by apply IH].
  pose proof (cand_loop_frame seed H h
                (info_size (info_at seed (permutation st) pos))
                (bits_set (contained st)
                   (vget [] (coarse_pin_lists st)
                      (info_he (info_at seed (permutation st) pos))))
                rem (pos + 1) (permutation st) (coarse_pin_lists st)
                (edgeWeight H (info_he (info_at seed (permutation st) pos)))
                q Hq) as Hframe.
  destruct (cand_loop _ _ _ _ _ _ _ _ _ _) as [[perm lists] w].
  cbn [fst] in Hframe. rewrite IH; cbn [permutation]; [done|].
  intros i. rewrite Hframe. apply Hq.
Qed.

(** The second pass over the nets, run by run. *)
Lemma detect_spec seed H cl nc P st0 :
  perm_facts H cl nc P →
  det_inv H cl nc P st0 [] (λ _, []) →
  ∃ reps Ms,
    det_inv H cl nc P (foldl (detect_at seed H) st0 (edges H)) reps Ms ∧
    (no_merge H cl P → ∀ q, q < length P → q ∈ reps) ∧
    (valid_first H P →
     ∀ q i, permutation (foldl (detect_at seed H) st0 (edges H)) !! q = Some i →
            info_valid i = true → q ∈ reps).
Proof.
  intros pf inv0. unfold edges.
  pose proof (pf_len _ _ _ _ pf) as HlenP.
  assert (∀ j, j ≤ length P →
    ∃ f reps Ms,
      det_inv H cl nc P
        (foldl (detect_at seed H) st0
               (filter (λ e, edgeIsEnabled H e = true) (ids (N.of_nat j))))
        reps Ms ∧
      (∀ r, r ∈ reps → r < f) ∧ f ≤ length P ∧
      (f = 0 ∨ ∃ pos0 h0, pos0 < j ∧ pos0 < f ∧
          (∀ q i, pos0 ≤ q < f → P !! q = Some i → info_hash i = h0) ∧
          (∀ i, P !! f = Some i → info_hash i ≠ h0)) ∧
      (no_merge H cl P → j ≤ f ∧ ∀ q, q < f → q ∈ reps) ∧
      (valid_first H P →
       (j ≤ f ∨ ∀ q i, f ≤ q → P !! q = Some i → info_valid i = false) ∧
       (∀ q, f ≤ q →
          permutation
            (foldl (detect_at seed H) st0
               (filter (λ e, edgeIsEnabled H e = true) (ids (N.of_nat j)))) !! q
          = P !! q) ∧
       (∀ q i, q < f →
          permutation
            (foldl (detect_at seed H) st0
               (filter (λ e, edgeIsEnabled H e = true) (ids (N.of_nat j)))) !! q
          = Some i →
          info_valid i = true → q ∈ reps))) as Hind.
  { induction j as [|j IH]; intros Hj.
    { exists 0, [], (λ _, []). change (ids (N.of_nat 0)) with (@nil N).
      rewrite filter_nil. simpl. split_and!; [done| |lia|by left| |].
      - intros r Hr. by apply elem_of_nil in Hr.
      - intros _. split; [lia|]. intros q Hq. lia.
      - intros _. split_and!; [left; lia| |intros q i Hq; lia].
        intros q _. pose proof (proj1 (di_perm _ _ _ _ _ _ _ inv0)) as Hlen0.
        destruct (P !! q) as [i|] eqn:Hi.
        + destruct (proj2 (di_perm _ _ _ _ _ _ _ inv0) q i Hi) as [?|[Hvi Hq']];
            [done|].
          destruct (di_merged _ _ _ _ _ _ _ inv0 q i Hi Hvi Hq') as [_ (r & Hr & _)].
          by apply elem_of_nil in Hr.
        + apply lookup_ge_None. rewrite Hlen0. by apply lookup_ge_None. }
    destruct IH as (f & reps & Ms & inv & Hlt & Hf & Hfront & Hfull & Htidy); [lia|].
    rewrite filter_ids_S, foldl_app.
    set (st := foldl (detect_at seed H) st0 _) in *.
    pose proof (di_perm _ _ _ _ _ _ _ inv) as Hle.
    destruct (lookup_lt_is_Some_2 P j) as [here0 Hhere0]; [lia|].
    destruct (lookup_lt_is_Some_2 (permutation st) j) as [here Hhere].
    { destruct Hle as [-> _]. lia. }
    destruct (perm_le_hash _ _ _ _ _ Hle Hhere0 Hhere) as (Hhash & _ & _).
    (* the hash before position [j] *)
    assert (∀ prev0, j ≠ 0 → P !! (j - 1) = Some prev0 →
              info_hash (info_at seed (permutation st) (j - 1)) = info_hash prev0)
      as Hprev.
    { intros prev0 Hj0 Hp0.
      destruct (lookup_lt_is_Some_2 (permutation st) (j - 1)) as [prev Hprev].
      { destruct Hle as [-> _]. lia. }
      rewrite (info_at_lookup _ _ _ _ Hprev).
      by destruct (perm_le_hash _ _ _ _ _ Hle Hp0 Hprev) as (? & _ & _). }
    (* leaving the state as it is keeps the invariant unless nothing may be
       skipped *)
    assert ((no_merge H cl P →
             j ≠ 0 ∧ ∀ prev0, P !! (j - 1) = Some prev0 →
                              info_hash here0 = info_hash prev0) →
            (valid_first H P →
             S j ≤ f ∨ ∀ q i, f ≤ q → P !! q = Some i → info_valid i = false) →
            ∃ f reps Ms,
              det_inv H cl nc P st reps Ms ∧
              (∀ r, r ∈ reps → r < f) ∧ f ≤ length P ∧
              (f = 0 ∨ ∃ pos0 h0, pos0 < S j ∧ pos0 < f ∧
                 (∀ q i, pos0 ≤ q < f → P !! q = Some i → info_hash i = h0) ∧
                 (∀ i, P !! f = Some i → info_hash i ≠ h0)) ∧
              (no_merge H cl P → S j ≤ f ∧ ∀ q, q < f → q ∈ reps) ∧
              (valid_first H P →
               (S j ≤ f ∨ ∀ q i, f ≤ q → P !! q = Some i → info_valid i = false) ∧
               (∀ q, f ≤ q → permutation st !! q = P !! q) ∧
               (∀ q i, q < f → permutation st !! q = Some i →
                       info_valid i = true → q ∈ reps))) as Hskip.
    { intros Hcase Hcase'. exists f, reps, Ms. split_and!; [done|done|done| | |].
      3:{ intros Hvf. destruct (Htidy Hvf) as (_ & Hunt & Hcovr).
          split_and!; [by apply Hcase'|done|done]. }
      - destruct Hfront as [->|(pos0 & h0 & ? & ? & ? & ?)]; [by left|].
        right. exists pos0, h0. split_and!; [lia|done..].
      - intros Hnm. destruct (Hcase Hnm) as [Hj0 Hsame].
        destruct (Hfull Hnm) as [Hjf Hcov]. split; [|done].
        destruct Hfront as [->|(pos0 & h0 & Hp0 & Hp0f & Hconst & Hend)]; [lia|].
        destruct (decide (f = j)) as [->|?]; [|lia].
        destruct (lookup_lt_is_Some_2 P (j - 1)) as [prev0 Hprev0]; [lia|].
        destruct (Hend here0 Hhere0).
        rewrite (Hsame prev0 Hprev0). apply (Hconst (j - 1)); [lia|done]. }
    case_decide as Hen; cbn [foldl]; cycle 1.
    { apply Hskip; intros (Hall & _); destruct Hen; apply Hall; lia. }
    unfold detect_at. rewrite Nat2N.id, (info_at_lookup _ _ _ _ Hhere).
    destruct (((j =? 0)
               || negb (info_hash here
                        =? info_hash (info_at seed (permutation st) (j - 1)))%N)
              && info_valid here) eqn:Hcond; cycle 1.
    { apply Hskip.
      - intros Hnm.
        apply andb_false_iff in Hcond as [Hcond|Hcond].
        + apply orb_false_iff in Hcond as [Hj0 Hsame].
          apply Nat.eqb_neq in Hj0. split; [done|]. intros prev0 Hprev0.
          apply negb_false_iff, N.eqb_eq in Hsame.
          rewrite (Hprev prev0 Hj0 Hprev0) in Hsame. congruence.
        + destruct Hnm as (_ & Hvalid & Hdist).
          assert (info_valid here0 = true) as Hv0.
          { apply Hvalid. by eapply list_elem_of_lookup_2. }
          pose proof (det_inv_distinct _ _ _ _ _ _ _ _ _ pf inv Hdist Hhere0 Hv0).
          simplify_eq. congruence.
      - intros Hvf. destruct (Htidy Hvf) as (Hjf & Hunt & _).
        destruct Hjf as [Hjf|Htail]; [|by right].
        destruct (decide (j = f)) as [->|]; [|left; lia].
        assert (here = here0) as -> by (rewrite Hunt in Hhere by done; congruence).
        apply andb_false_iff in Hcond as [Hcond|Hcond].
        + apply orb_false_iff in Hcond as [Hj0 Hsame].
          apply Nat.eqb_neq in Hj0.
          apply negb_false_iff, N.eqb_eq in Hsame.
          destruct Hfront as [->|(pos0 & h0 & Hp0 & Hp0f & Hconst & Hend)]; [done|].
          destruct (lookup_lt_is_Some_2 P (f - 1)) as [prev0 Hprev0]; [lia|].
          rewrite (Hprev prev0 Hj0 Hprev0) in Hsame.
          destruct (Hend here0 Hhere0). rewrite Hsame.
          apply (Hconst (f - 1)); [lia|done].
        + right. destruct Hvf as (_ & Hkeys & Hmono).
          assert (info_hash here0 = SIZE_MAX) as Hmax.
          { destruct (Hkeys here0) as [_ [_ Hk]];
              [by eapply list_elem_of_lookup_2|].
            destruct (decide (info_hash here0 = SIZE_MAX)) as [|Hdiff]; [done|].
            rewrite (Hk Hdiff) in Hcond. done. }
          intros q i Hq Hi.
          destruct (Hkeys i) as [Hbound [Hk _]]; [by eapply list_elem_of_lookup_2|].
          pose proof (Hmono f q here0 i Hq Hhere0 Hi) as Hge.
          destruct (info_valid i); [|done].
          destruct (Hk eq_refl). lia. }
    apply andb_true_iff in Hcond as [Hstart Hv].
    (* a run starts at [j], behind the frontier *)
    assert (f ≤ j) as Hfj.
    { destruct Hfront as [->|(pos0 & h0 & Hp0 & Hp0f & Hconst & Hend)]; [lia|].
      destruct (decide (f ≤ j)) as [|Hjf]; [done|].
      apply orb_true_iff in Hstart as [Hj0|Hdiff].
      { apply Nat.eqb_eq in Hj0. lia. }
      destruct (lookup_lt_is_Some_2 P (j - 1)) as [prev0 Hprev0]; [lia|].
      apply negb_true_iff, N.eqb_neq in Hdiff.
      rewrite (Hprev prev0 ltac:(lia) Hprev0) in Hdiff.
      destruct Hdiff. rewrite Hhash.
      rewrite (Hconst j here0), (Hconst (j - 1) prev0); [done|lia|done|lia|done]. }
    destruct (run_loop_spec seed H cl nc P (info_hash here) pf
                (length (permutation st) - j) j st reps Ms)
      as (E & reps' & Ms' & HE & Hhs & HhE & inv' & Hlt' & Hsub & Hcov & Hframe).
    { by destruct Hle as [-> _]. }
    { lia. }
    { done. }
    { intros r Hr. specialize (Hlt r Hr). lia. }
    assert (j < E) as HjE.
    { destruct (decide (E = j)) as [->|]; [|lia].
      destruct (HhE here0 Hhere0). done. }
    exists E, reps', Ms'. split_and!; [done|done|lia| | |].
    3:{ intros Hvf. destruct (Htidy Hvf) as (Hjf & Hunt & Hcovr).
        assert (j = f) as ->.
        { destruct Hjf as [Hjf|Htail]; [lia|].
          pose proof (perm_le_valid _ _ _ _ Hle Hhere Hv) as HjP.
          rewrite (Htail j here Hfj HjP) in Hv. done. }
        destruct Hvf as (_ & Hkeys & Hmono).
        split_and!; [left; lia| |].
        - intros q Hq. rewrite run_loop_frame; [apply Hunt; lia|].
          intros i Hi. rewrite Hunt in Hi by lia.
          destruct (lookup_lt_is_Some_2 P E) as [iE HiE].
          { apply lookup_lt_Some in Hi. lia. }
          pose proof (HhE iE HiE) as HneE.
          pose proof (Hmono f E here0 iE ltac:(lia) Hhere0 HiE) as Hge1.
          pose proof (Hmono E q iE i Hq HiE Hi) as Hge2.
          rewrite Hhash. lia.
        - intros q i Hq Hi Hvi. destruct (decide (q < f)) as [Hqf|Hqf].
          + apply Hsub, (Hcovr q i); [done| |done]. by rewrite <-Hframe.
          + apply (Hcov q i); [lia|done|done]. }
    - right. exists j, (info_hash here). split_and!; [lia|lia|done|done].
    - intros Hnm. split; [lia|]. intros q Hq.
      destruct (Hfull Hnm) as [Hjf Hcovf].
      destruct (decide (q < f)) as [|Hqf]; [by apply Hsub, Hcovf|].
      destruct (lookup_lt_is_Some_2 P q) as [i Hi]; [lia|].
      destruct Hnm as (_ & Hvalid & Hdist).
      assert (info_valid i = true) as Hvi.
      { apply Hvalid. by eapply list_elem_of_lookup_2. }
      apply (Hcov q i); [lia| |done].
      by eapply det_inv_distinct. }
  destruct (Hind (length P) (le_n _))
    as (f & reps & Ms & inv & _ & Hf & _ & Hfull & Htidy).
  rewrite HlenP, N2Nat.id in inv, Htidy.
  exists reps, Ms. split_and!; [done| |].
  - intros Hnm q Hq. destruct (Hfull Hnm) as [Hlen Hcov]. apply Hcov. lia.
  - intros Hvf q i Hi Hvi. destruct (Htidy Hvf) as (Hjf & Hunt & Hcovr).
    destruct (decide (q < f)) as [Hqf|Hqf]; [by apply (Hcovr q i)|].
    rewrite Hunt in Hi by lia.
    destruct Hjf as [Hjf|Htail].
    + apply lookup_lt_Some in Hi. lia.
    + rewrite (Htail q i) in Hvi; [done|lia|done].
Qed.

(** *** The sorted permutation *)

Lemma info_le_lex a b :
  info_le a b ↔
  (info_hash a ≤ info_hash b)%N ∧
  (info_hash b ≠ info_hash a ∨
   (info_size a ≤ info_size b)%N ∧
   (info_size b ≠ info_size a ∨ (info_he a ≤ info_he b)%N)).
Proof.
  unfold info_le, info_ltb.
  rewrite orb_false_iff, andb_false_iff, orb_false_iff, andb_false_iff.
  by rewrite !N.ltb_ge, !N.eqb_neq.
Qed.

#[export] Instance info_le_total : Total info_le.
Proof. intros a b. rewrite !info_le_lex. lia. Qed.

#[export] Instance info_le_trans : Transitive info_le.
Proof. intros a b c. rewrite !info_le_lex. lia. Qed.

Lemma info_le_hash a b : info_le a b → (info_hash a ≤ info_hash b)%N.
Proof. rewrite info_le_lex. lia. Qed.

(** Sorting by [operator<] puts the hashes in ascending order. *)
Lemma sorted_hash_mono (l : list ContractedHyperedgeInformation) q q' i i' :
  q ≤ q' →
  merge_sort info_le l !! q = Some i → merge_sort info_le l !! q' = Some i' →
  (info_hash i ≤ info_hash i')%N.
Proof.
  intros Hle Hq Hq'.
  destruct (decide (q = q')) as [->|Hne]; [simplify_eq; lia|].
  apply info_le_hash.
  pose proof (StronglySorted_merge_sort info_le l) as Hs.
  rewrite <-(take_drop q' (merge_sort info_le l)) in Hs.
  apply (StronglySorted_app_1_elem_of _ _ _ _ _ Hs).
  - apply list_elem_of_lookup. exists q. rewrite lookup_take_lt by lia. done.
  - apply list_elem_of_lookup. exists 0. rewrite lookup_drop, Nat.add_0_r. done.
Qed.

Lemma edge_hash_bound (l : list HypernodeID) : (edge_hash l ≤ SIZE_MAX)%N.
Proof.
  unfold edge_hash, SIZE_MAX.
  assert (∀ h, (h < 2 ^ 64)%N →
            (foldl (λ h v, wrap64 (h + cs2 v)) h l < 2 ^ 64)%N) as Hgen.
  { induction l as [|v l IH]; intros h Hh; [done|]. cbn [foldl]. apply IH.
    unfold wrap64. apply N.mod_lt. pow_lia. }
  specialize (Hgen 420%N ltac:(pow_lia)). pow_lia.
Qed.

Lemma sorted_valid_first seed H cl :
  (∀ e, (e < initialNumEdges H)%N → edgeIsEnabled H e = true) →
  (∀ e, (e < initialNumEdges H)%N →
        2 ≤ length (coarse_pins cl (pins H e)) →
        edge_hash (coarse_pins cl (pins H e)) ≠ SIZE_MAX) →
  valid_first H (merge_sort info_le (P0 seed H cl <$> ids (initialNumEdges H))).
Proof.
  intros Hen Hhash. split_and!; [done| |].
  - intros i Hi. rewrite merge_sort_Permutation in Hi.
    apply list_elem_of_fmap in Hi as (e & -> & He%elem_of_ids).
    unfold P0. rewrite Hen by done.
    destruct (1 <? length (coarse_pins cl (pins H e))) eqn:Hlen; simpl.
    + apply Nat.ltb_lt in Hlen. split; [apply edge_hash_bound|].
      split; [intros _; apply Hhash; [done|lia]|done].
    + split; [done|]. split; [done|]. by intros [].
  - intros q q' i i'. apply sorted_hash_mono.
Qed.

Lemma NoDup_filter_lookup_inj {A} (Q : A → Prop) `{!∀ x, Decision (Q x)}
    (l : list A) (q q' : nat) (x : A) :
  NoDup (filter Q l) → l !! q = Some x → l !! q' = Some x → Q x → q = q'.
Proof.
  revert q q'. induction l as [|y l IH]; intros q q' Hnd Hq Hq' HQ; [done|].
  rewrite filter_cons in Hnd.
  assert (∀ k, l !! k = Some x → x ∈ filter Q l) as Hin.
  { intros k Hk. apply list_elem_of_filter. split; [done|].
    by eapply list_elem_of_lookup_2. }
  destruct q as [|q], q' as [|q']; simplify_eq/=; [done|..].
  - rewrite decide_True in Hnd by done. apply NoDup_cons in Hnd as [Hn _].
    destruct Hn. by eapply Hin.
  - rewrite decide_True in Hnd by done. apply NoDup_cons in Hnd as [Hn _].
    destruct Hn. by eapply Hin.
  - f_equal. apply IH; [|done..].
    case_decide; [by apply NoDup_cons in Hnd as [_ ?]|done].
Qed.

Lemma P0_valid seed H cl e :
  info_valid (P0 seed H cl e) = true →
  edgeIsEnabled H e = true ∧ info_he (P0 seed H cl e) = e ∧
  L0 H cl e = coarse_pins cl (pins H e) ∧ 2 ≤ length (L0 H cl e) ∧
  info_size (P0 seed H cl e) = N.of_nat (length (L0 H cl e)).
Proof.
  unfold P0, L0. destruct (edgeIsEnabled H e); [|done].
  destruct (1 <? length (coarse_pins cl (pins H e))) eqn:Hlen; [|done].
  apply Nat.ltb_lt in Hlen. simpl. intros _. split_and!; [done..|lia|done].
Qed.

Lemma L0_nonempty seed H cl e :
  L0 H cl e ≠ [] → info_valid (P0 seed H cl e) = true.
Proof.
  unfold P0, L0. destruct (edgeIsEnabled H e); [|done].
  by destruct (1 <? length (coarse_pins cl (pins H e))).
Qed.

Lemma sorted_perm_facts seed H cl nc :
  (∀ e v, e ∈ edges H → v ∈ pins H e →
     vget 0%N cl v = kInvalidHypernode ∨ N.to_nat (vget 0%N cl v) < nc) →
  perm_facts H cl nc (merge_sort info_le (P0 seed H cl <$> ids (initialNumEdges H))).
Proof.
  intros Hr.
  set (P := merge_sort info_le (P0 seed H cl <$> ids (initialNumEdges H))).
  assert (P ≡ₚ P0 seed H cl <$> ids (initialNumEdges H)) as HP
    by apply merge_sort_Permutation.
  assert (∀ i, i ∈ P → info_valid i = true →
               ∃ e, (e < initialNumEdges H)%N ∧ i = P0 seed H cl e) as Hentry.
  { intros i Hi _. rewrite HP in Hi.
    apply list_elem_of_fmap in Hi as (e & -> & He). apply elem_of_ids in He.
    by exists e. }
  constructor.
  - rewrite (Permutation_length HP). by rewrite length_fmap, length_ids.
  - intros q i Hq Hv.
    destruct (Hentry i (list_elem_of_lookup_2 _ _ _ Hq) Hv) as (e & He & ->).
    destruct (P0_valid _ _ _ _ Hv) as (Hen & -> & _ & Hlen & Hsz).
    split_and!; [|done..].
    apply list_elem_of_filter. split; [done|]. by apply elem_of_ids.
  - intros q q' i i' Hq Hq' Hv Hv' Hhe.
    destruct (Hentry i (list_elem_of_lookup_2 _ _ _ Hq) Hv) as (e & He & ->).
    destruct (Hentry i' (list_elem_of_lookup_2 _ _ _ Hq') Hv') as (e' & He' & ->).
    destruct (P0_valid _ _ _ _ Hv) as (_ & Heq & _).
    destruct (P0_valid _ _ _ _ Hv') as (_ & Heq' & _).
    rewrite Heq, Heq' in Hhe. subst e'.
    apply (NoDup_filter_lookup_inj (λ i, info_valid i = true) P q q'
             (P0 seed H cl e)); [|done..].
    rewrite HP. apply (NoDup_fmap_1 info_he).
    assert (∀ l, NoDup l →
              NoDup (info_he <$> filter (λ i, info_valid i = true)
                                        (P0 seed H cl <$> l))) as Hgen;
      [|apply Hgen, NoDup_fmap_2, NoDup_seq; intros ???; lia].
    clear. induction 1 as [|e l Hn Hnd IH]; [apply NoDup_nil_2|].
    rewrite fmap_cons, filter_cons. case_decide as Hv; [|done].
    rewrite fmap_cons. apply NoDup_cons. split; [|done].
    destruct (P0_valid _ _ _ _ Hv) as (_ & -> & _).
    intros (i & Hi & Hin)%list_elem_of_fmap.
    apply list_elem_of_filter in Hin as [Hvi (e' & -> & He')%list_elem_of_fmap].
    destruct (P0_valid _ _ _ _ Hvi) as (_ & Heq & _). congruence.
  - intros e He Hne.
    assert (P0 seed H cl e ∈ P) as Hin.
    { rewrite HP. apply list_elem_of_fmap. exists e. split; [done|].
      by apply elem_of_ids. }
    apply list_elem_of_lookup in Hin as [q Hq].
    exists q, (P0 seed H cl e). split_and!; [done|by apply L0_nonempty|].
    by destruct (P0_valid _ _ _ _ (L0_nonempty seed _ _ _ Hne)) as (_ & ? & _).
  - intros e. unfold L0.
    destruct (_ && _); [apply coarse_pins_spec|apply NoDup_nil_2].
  - intros e He. unfold L0.
    destruct (_ && _); [|by apply Forall_nil_2].
    apply Forall_forall. intros c Hc.
    apply coarse_pins_spec in Hc as (Hninv & v & Hv & <-).
    by destruct (Hr e v).
Qed.

(** The state that [detect_identical_nets] returns. *)
Lemma detect_identical_nets_spec seed H cl (num_coarse_nodes : N) :
  (∀ e v, e ∈ edges H → v ∈ pins H e →
     vget 0%N cl v = kInvalidHypernode
     ∨ N.to_nat (vget 0%N cl v) < N.to_nat num_coarse_nodes) →
  let P := merge_sort info_le (P0 seed H cl <$> ids (initialNumEdges H)) in
  perm_facts H cl (N.to_nat num_coarse_nodes) P ∧
  ∃ reps Ms,
    det_inv H cl (N.to_nat num_coarse_nodes) P
            (detect_identical_nets seed H num_coarse_nodes cl) reps Ms ∧
    (no_merge H cl P → ∀ q, q < length P → q ∈ reps) ∧
    (valid_first H P →
     ∀ q i, permutation (detect_identical_nets seed H num_coarse_nodes cl) !! q
            = Some i →
            info_valid i = true → q ∈ reps).
Proof.
  intros Hr P. pose proof (sorted_perm_facts seed H cl _ Hr) as pf. fold P in pf.
  split; [done|]. unfold detect_identical_nets.
  destruct (pin_lists_spec seed H cl _ Hr) as (-> & -> & ->). fold P.
  apply detect_spec; [done|].
  pose proof (pf_len _ _ _ _ pf) as HlenP.
  constructor; simpl.
  - apply perm_le_refl.
  - by rewrite length_fmap, length_ids.
  - by rewrite length_replicate.
  - done.
  - intros e. unfold vget. destruct (decide (e < initialNumEdges H)%N) as [He|He].
    + right. rewrite lookup_fmap_ids by lia. simpl. by rewrite N2Nat.id.
    + left. rewrite lookup_ge_None_2; [done|]. rewrite length_fmap, length_ids. lia.
  - intros q i Hq Hv. destruct (pf_valid _ _ _ _ pf q i Hq Hv) as (He & _).
    apply list_elem_of_filter in He as [_ He%elem_of_ids].
    unfold vget. rewrite lookup_fmap_ids by lia. simpl. by rewrite N2Nat.id.
  - intros q i Hq Hv Hq'. destruct (invalidate_ne i Hv). congruence.
  - apply NoDup_nil_2.
  - intros r Hr'. by apply elem_of_nil in Hr'.
  - intros r e Hr'. by apply elem_of_nil in Hr'.
  - intros r r' e Hr'. by apply elem_of_nil in Hr'.
  - done.
  - done.
Qed.

(** *** Writing the nets *)

Lemma foldl_opt_app {S B} (f : S → B → option S) (st : S) (l k : list B) :
  foldl_opt f st (l ++ k) = foldl_opt f st l ≫= λ st', foldl_opt f st' k.
Proof.
  revert st. induction l as [|x l IH]; intros st; [done|]. simpl.
  destruct (f st x); simpl; [apply IH|done].
Qed.

Lemma write_checked_Some {A} (l : list A) i x l' :
  write_checked l i x = Some l' ↔ i < length l ∧ l' = <[i := x]> l.
Proof. unfold write_checked. case_decide; naive_solver. Qed.

Lemma nonempty_nets_S lists (j : nat) :
  nonempty_nets lists (N.of_nat (S j))
  = nonempty_nets lists (N.of_nat j)
    ++ (if is_empty (vget [] lists (N.of_nat j)) then [] else [N.of_nat j]).
Proof.
  unfold nonempty_nets. rewrite filter_ids_S. f_equal.
  destruct (is_empty _); by case_decide.
Qed.

Lemma emitted_pins_snoc lists nets e :
  emitted_pins lists (nets ++ [e]) = emitted_pins lists nets ++ vget [] lists e.
Proof.
  unfold emitted_pins. rewrite fmap_app, join_app. simpl. by rewrite app_nil_r.
Qed.

(** The record written for the net at index [k] of [nets]. *)
Lemma emit_spec lists weights cap offs0 (j : nat) em :
  j ≤ length offs0 →
  foldl_opt (emit_net lists weights)
    {| em_hyperedges := replicate cap he_default; em_offsets := offs0;
       net_size_sum := 0; coarse_net_id := 0 |}
    (ids (N.of_nat j)) = Some em →
  let nets := nonempty_nets lists (N.of_nat j) in
  coarse_net_id em = length nets ∧ length nets ≤ cap ∧
  net_size_sum em = length (emitted_pins lists nets) ∧
  length (em_hyperedges em) = cap ∧ length (em_offsets em) = length offs0 ∧
  ∀ k e, nets !! k = Some e →
    em_hyperedges em !! k
    = Some {| he_begin := N.of_nat (length (emitted_pins lists (take k nets)));
              he_size := N.of_nat (length (vget [] lists e));
              he_weight := vget 0%Z weights e;
              he_valid := true |} ∧
    vget 0 (em_offsets em) e = length (emitted_pins lists (take k nets)).
Proof.
  revert em. induction j as [|j IH]; intros em Hj Hem.
  { change (ids (N.of_nat 0)) with (@nil N) in Hem. simpl in Hem. simplify_eq.
    simpl. rewrite length_replicate. split_and!; [done|lia|done|done|done|].
    intros k e Hk. done. }
  rewrite ids_S, foldl_opt_app in Hem.
  destruct (foldl_opt _ _ (ids (N.of_nat j))) as [em1|] eqn:Hem1; [|done].
  destruct (IH em1 ltac:(lia) eq_refl) as (Hid & Hcap & Hsum & Hhl & Hol & Hent).
  simpl in Hem. cbv zeta. rewrite nonempty_nets_S.
  unfold emit_net in Hem.
  destruct (is_empty (vget [] lists (N.of_nat j))) eqn:Hemp; simpl in Hem.
  { simplify_eq. rewrite app_nil_r. done. }
  destruct (write_checked _ _ _) as [hes|] eqn:Hw; simpl in Hem; [|done].
  simplify_eq. simpl. apply write_checked_Some in Hw as [Hlt ->].
  set (nets := nonempty_nets lists (N.of_nat j)) in *.
  rewrite length_app, emitted_pins_snoc, length_app, length_insert, length_vset.
  simpl. split_and!; [lia|lia|lia|done|done|].
  intros k e Hk. destruct (decide (k = length nets)) as [->|Hne].
  - rewrite lookup_app_r, Nat.sub_diag in Hk by lia. simplify_eq/=.
    rewrite take_app_length, <-Hid, <-Hsum.
    rewrite list_lookup_insert_eq by lia.
    rewrite vget_vset_eq by lia. done.
  - assert (k < length nets) as Hk'.
    { apply lookup_lt_Some in Hk. rewrite length_app in Hk. simpl in Hk. lia. }
    rewrite lookup_app_l in Hk by done.
    rewrite take_app_le by lia.
    destruct (Hent k e Hk) as [He Ho].
    rewrite list_lookup_insert_ne by lia. split; [done|].
    rewrite vget_vset_ne; [done|].
    intros <-. apply list_elem_of_lookup_2, list_elem_of_filter in Hk as [_ Hk].
    apply elem_of_ids in Hk. lia.
Qed.

(** The writes stay inside [chg._hyperedges] when it has room for every net
    with a pin list. *)
Lemma emit_total lists weights cap offs0 (j : nat) :
  j ≤ length offs0 →
  length (nonempty_nets lists (N.of_nat j)) ≤ cap →
  is_Some (foldl_opt (emit_net lists weights)
    {| em_hyperedges := replicate cap he_default; em_offsets := offs0;
       net_size_sum := 0; coarse_net_id := 0 |}
    (ids (N.of_nat j))).
Proof.
  induction j as [|j IH]; intros Hj Hcap; [by eexists|].
  rewrite nonempty_nets_S, length_app in Hcap.
  destruct IH as [em1 Hem1]; [lia..|].
  rewrite ids_S, foldl_opt_app, Hem1. simpl.
  assert (j ≤ length offs0) as Hj' by lia.
  destruct (emit_spec _ _ _ _ _ _ Hj' Hem1) as (Hid & _ & _ & Hhl & _).
  unfold emit_net.
  destruct (is_empty (vget [] lists (N.of_nat j))) eqn:Hemp; simpl; [by eexists|].
  simpl in Hcap. unfold write_checked. rewrite decide_True by lia. by eexists.
Qed.

Lemma emitted_pins_app lists k1 k2 :
  emitted_pins lists (k1 ++ k2) = emitted_pins lists k1 ++ emitted_pins lists k2.
Proof. unfold emitted_pins. by rewrite fmap_app, join_app. Qed.

Lemma emitted_pins_take_le lists nets k :
  length (emitted_pins lists (take k nets)) ≤ length (emitted_pins lists nets).
Proof.
  rewrite <-(take_drop k nets) at 2. rewrite emitted_pins_app, length_app. lia.
Qed.

(** The ranges of two nets in the incidence array do not overlap. *)
Lemma emitted_pins_range lists nets k k' e :
  nets !! k = Some e → k < k' →
  length (emitted_pins lists (take k nets)) + length (vget [] lists e)
  ≤ length (emitted_pins lists (take k' nets)).
Proof.
  intros Hk Hlt.
  pose proof (emitted_pins_take_le lists (take k' nets) (S k)) as Hle.
  rewrite take_take, Nat.min_l in Hle by lia.
  rewrite (take_S_r _ _ _ Hk), emitted_pins_snoc, length_app in Hle. done.
Qed.

Lemma emitted_pins_range_total lists nets k e :
  nets !! k = Some e →
  length (emitted_pins lists (take k nets)) + length (vget [] lists e)
  ≤ length (emitted_pins lists nets).
Proof.
  intros Hk.
  pose proof (emitted_pins_take_le lists nets (S k)) as Hle.
  rewrite (take_S_r _ _ _ Hk), emitted_pins_snoc, length_app in Hle. done.
Qed.

(** *** Copying the pin lists *)

Lemma copy_pins_spec (l : list HypernodeID) inc hns pos :
  pos + length l ≤ length inc →
  ∃ inc' hns',
    foldl_opt copy_pin (inc, hns, pos) l = Some (inc', hns', pos + length l) ∧
    length inc' = length inc ∧ length hns' = length hns ∧
    (∀ i x, l !! i = Some x → inc' !! (pos + i) = Some x) ∧
    (∀ p, p < pos ∨ pos + length l ≤ p → inc' !! p = inc !! p).
Proof.
  revert inc hns pos. induction l as [|x l IH]; intros inc hns pos Hle.
  { exists inc, hns. simpl. rewrite Nat.add_0_r. split_and!; done. }
  simpl in Hle. simpl. unfold write_checked. rewrite decide_True by lia. simpl.
  destruct (IH (<[pos := x]> inc) (vset hns x (incr_size (vget hn_default hns x)))
              (pos + 1)) as (inc' & hns' & Hrun & Hli & Hlh & Hin & Hout).
  { rewrite length_insert. lia. }
  exists inc', hns'. rewrite Hrun. split_and!.
  - do 2 f_equal. lia.
  - by rewrite Hli, length_insert.
  - by rewrite Hlh, length_vset.
  - intros [|i] y Hy; simpl in Hy.
    + simplify_eq. rewrite Nat.add_0_r, Hout by lia.
      apply list_lookup_insert_eq. lia.
    + replace (pos + S i) with (pos + 1 + i) by lia. by apply Hin.
  - intros p Hp. rewrite Hout by lia. apply list_lookup_insert_ne. lia.
Qed.

Lemma copy_spec (lists : list (list HypernodeID)) (offs : list nat)
    (E : list HyperedgeID) inc hns :
  (∀ e, e ∈ E → vget [] lists e ≠ [] →
        vget 0 offs e + length (vget [] lists e) ≤ length inc) →
  (∀ e e', e ∈ E → e' ∈ E → e ≠ e' →
           vget [] lists e ≠ [] → vget [] lists e' ≠ [] →
           vget 0 offs e + length (vget [] lists e) ≤ vget 0 offs e'
           ∨ vget 0 offs e' + length (vget [] lists e') ≤ vget 0 offs e) →
  ∃ cp,
    foldl_opt (copy_pin_list lists offs) (inc, hns) E = Some cp ∧
    length cp.1 = length inc ∧ length cp.2 = length hns ∧
    (∀ e i x, e ∈ E → vget [] lists e !! i = Some x →
              cp.1 !! (vget 0 offs e + i) = Some x) ∧
    (∀ p, (∀ e, e ∈ E → vget [] lists e ≠ [] →
                ¬ (vget 0 offs e ≤ p < vget 0 offs e + length (vget [] lists e))) →
          cp.1 !! p = inc !! p).
Proof.
  revert inc hns. induction E as [|e E IH]; intros inc hns Hin Hdis.
  { exists (inc, hns). split_and!; try done. intros e i x He. by apply elem_of_nil in He. }
  simpl. unfold copy_pin_list at 2.
  destruct (is_empty (vget [] lists e)) eqn:Hemp; simpl.
  - destruct (IH inc hns) as (cp & Hrun & Hli & Hlh & Hw & Hout).
    { intros e' He'. apply Hin. by right. }
    { intros e1 e2 H1 H2. apply Hdis; by right. }
    exists cp. split_and!; [done..| |].
    + intros e' i x [->|He']%elem_of_cons Hx; [|by apply Hw].
      destruct (vget [] lists e); [done|discriminate].
    + intros p Hp. apply Hout. intros e' He'. apply Hp. by right.
  - assert (vget [] lists e ≠ []) as Hne by (by intros Heq; rewrite Heq in Hemp).
    destruct (copy_pins_spec (vget [] lists e) inc hns (vget 0 offs e))
      as (inc1 & hns1 & Hrun1 & Hli1 & Hlh1 & Hin1 & Hout1).
    { apply Hin; [by left|done]. }
    rewrite Hrun1. simpl.
    destruct (IH inc1 hns1) as (cp & Hrun & Hli & Hlh & Hw & Hout).
    { intros e' He' Hne'. rewrite Hli1. apply Hin; [by right|done]. }
    { intros e1 e2 H1 H2. apply Hdis; by right. }
    exists cp. split_and!; [done|congruence|congruence| |].
    + intros e' i x He' Hx.
      destruct (decide (e' ∈ E)) as [HE|HE]; [by apply Hw|].
      apply elem_of_cons in He' as [->|?]; [|done].
      rewrite Hout; [by apply Hin1|].
      intros e2 He2 Hne2 Hp. apply lookup_lt_Some in Hx.
      destruct (Hdis e e2) as [?|?]; [by left|by right|by intros ->|done|done|lia|lia].
    + intros p Hp. rewrite Hout.
      * apply Hout1.
        specialize (Hp e ltac:(by left) Hne). lia.
      * intros e' He'. apply Hp. by right.
Qed.

Lemma window_lookup {A} (l inc : list A) (b : nat) :
  (∀ i x, l !! i = Some x → inc !! (b + i) = Some x) →
  window inc (N.of_nat b) (N.of_nat (length l)) = l.
Proof.
  intros Hl. unfold window. rewrite !Nat2N.id. apply list_eq. intros i.
  destruct (l !! i) as [x|] eqn:Hi.
  - rewrite lookup_take_lt by (by apply lookup_lt_Some in Hi).
    rewrite lookup_drop. by apply Hl.
  - apply lookup_ge_None in Hi. by rewrite lookup_take_ge.
Qed.

(** *** The coarse vertices *)

Lemma place_nodes_length l hns sum :
  length (foldl place_node (hns, sum) l).1 = length hns.
Proof.
  revert hns sum. induction l as [|u l IH]; intros hns sum; [done|].
  simpl. rewrite IH. apply length_vset.
Qed.

Lemma scatter_pins_length e l hns nets :
  length (foldl (scatter_pin e) (hns, nets) l).1 = length hns.
Proof.
  revert hns nets. induction l as [|v l IH]; intros hns nets; [done|].
  simpl. rewrite IH. apply length_vset.
Qed.

Lemma scatter_length (f : HyperedgeID → list HypernodeID) l hns nets :
  length (foldl (λ st e, foldl (scatter_pin e) st (f e)) (hns, nets) l).1
  = length hns.
Proof.
  revert hns nets. induction l as [|e l IH]; intros hns nets; [done|].
  simpl. destruct (foldl (scatter_pin e) (hns, nets) (f e)) as [hns1 nets1] eqn:Hs.
  rewrite IH. pose proof (scatter_pins_length e (f e) hns nets) as Hl.
  by rewrite Hs in Hl.
Qed.

(** The loop that resets the cursors leaves every coarse vertex with weight
    zero. *)
Lemma reset_nodes_spec (j : nat) hns nets :
  j ≤ length hns →
  let r := foldl reset_node (hns, nets) (ids (N.of_nat j)) in
  length r.1 = length hns ∧
  ∀ u, (u < N.of_nat j)%N → hn_weight (vget hn_default r.1 u) = 0%Z.
Proof.
  induction j as [|j IH]; intros Hj; cbv zeta.
  { change (ids (N.of_nat 0)) with (@nil N). simpl. split; [done|]. intros u Hu. lia. }
  destruct IH as [Hlen Hw]; [lia|].
  rewrite ids_S, foldl_app. cbn [foldl].
  destruct (foldl reset_node (hns, nets) (ids (N.of_nat j))) as [hns1 nets1].
  simpl in *. rewrite length_vset. split; [done|].
  intros u Hu. destruct (decide (u = N.of_nat j)) as [->|Hne].
  - rewrite vget_vset_eq by lia. done.
  - rewrite vget_vset_ne by done. apply Hw. lia.
Qed.

(** The last loop adds the weight of every enabled vertex to its cluster. *)
Lemma aggregate_spec H cl (l : list HypernodeID) hns comm :
  (∀ u, u ∈ l → N.to_nat (vget 0%N cl u) < length hns) →
  let r := foldl (aggregate_node H cl) (hns, comm) l in
  length r.1 = length hns ∧
  ∀ c, hn_weight (vget hn_default r.1 c)
       = add_weights (hn_weight (vget hn_default hns c))
           (nodeWeight H <$> filter (λ u, vget 0%N cl u = c) l).
Proof.
  revert hns comm. induction l as [|u l IH]; intros hns comm Hin; cbv zeta.
  { simpl. split; [done|]. intros c. done. }
  cbn [foldl]. unfold aggregate_node at 2.
  set (hns1 := vset hns _ _). set (comm1 := vset comm _ _).
  destruct (IH hns1 comm1) as [Hlen Hw].
  { intros u' Hu'. unfold hns1. rewrite length_vset. apply Hin. by right. }
  cbv zeta in Hlen, Hw. rewrite Hlen. unfold hns1 at 1. rewrite length_vset.
  split; [done|]. intros c. rewrite Hw, filter_cons.
  assert (N.to_nat (vget 0%N cl u) < length hns) as Hu by (apply Hin; by left).
  case_decide as Hc.
  - subst c. unfold hns1. rewrite vget_vset_eq by done.
    rewrite fmap_cons. by cbn [hn_weight].
  - unfold hns1. rewrite vget_vset_ne by done. done.
Qed.

Lemma emitted_pins_Permutation lists (l k : list HyperedgeID) :
  l ≡ₚ k → length (emitted_pins lists l) = length (emitted_pins lists k).
Proof.
  induction 1 as [|x l k _ IH|x y l|l k1 k2 _ IH1 _ IH2]; [done| | |congruence].
  - change (x :: l) with ([x] ++ l). change (x :: k) with ([x] ++ k).
    rewrite !emitted_pins_app, !length_app. lia.
  - change (y :: x :: l) with ([y] ++ [x] ++ l).
    change (x :: y :: l) with ([x] ++ [y] ++ l).
    rewrite !emitted_pins_app, !length_app. lia.
Qed.

(** *** The contraction as a whole *)

Lemma bind_Some_eq {A B} (f : A → option B) (mx : option A) x :
  mx = Some x → mx ≫= f = f x.
Proof. by intros ->. Qed.

(** The coarse hypergraph in terms of the state that the detection of
    identical nets leaves: the nets of the result are the fine nets that kept
    their pin list, in the order of their ids; these are the representatives
    as soon as [chg._hyperedges] has room for all of them. *)
Lemma contract_spec seed H clusters :
  wf_hypergraph H → wf_clusters H clusters →
  let n := initialNumNodes H in
  let mapping := parallel_prefix_sum 0 (mark_clusters n clusters) in
  let nc := vget 0%N mapping (n - 1)%N in
  let cl := relabel H mapping clusters in
  let d := detect_identical_nets seed H nc cl in
  let P := merge_sort info_le (P0 seed H cl <$> ids (initialNumEdges H)) in
  let nets := nonempty_nets (coarse_pin_lists d) (initialNumEdges H) in
  ∃ reps Ms,
    perm_facts H cl (N.to_nat nc) P ∧
    det_inv H cl (N.to_nat nc) P d reps Ms ∧
    (no_merge H cl P → ∀ q, q < length P → q ∈ reps) ∧
    (valid_first H P → length nets ≤ length reps) ∧
    (∀ r, contract seed H clusters = Some r → length nets ≤ length reps) ∧
    (length nets ≤ length reps →
       (λ r, info_he (info_at 0%N P r)) <$> reps ≡ₚ nets ∧
       ∃ chg, contract seed H clusters = Some (chg, cl) ∧
         initialNumNodes chg = nc ∧
         initialNumEdges chg = N.of_nat (length nets) ∧
         (∀ c, (c < nc)%N → nodeWeight chg c = aggregated_weight H cl c) ∧
         ∀ k e, nets !! k = Some e →
           pins chg (N.of_nat k) = L0 H cl e ∧
           edgeWeight chg (N.of_nat k) = vget 0%Z (coarse_edge_weights d) e ∧
           edgeIsEnabled chg (N.of_nat k) = true).
Proof.
  intros Hwf Hcl n mapping nc cl d P nets.
  destruct Hwf as (Hn & Hm & Hhn & Hhe & Hpins).
  destruct (compactify_spec H clusters Hn Hcl) as (Hlen & Hnc & Hen & Hdis).
  fold n mapping nc cl in Hlen, Hnc, Hen, Hdis.
  assert (∀ e v, e ∈ edges H → v ∈ pins H e →
            vget 0%N cl v = kInvalidHypernode
            ∨ N.to_nat (vget 0%N cl v) < N.to_nat nc) as Hr.
  { intros e v He Hv. specialize (Hpins e v He Hv).
    destruct (nodeIsEnabled H v) eqn:Hv'.
    - right. specialize (Hen v Hpins Hv'). lia.
    - left. by apply Hdis. }
  destruct (detect_identical_nets_spec seed H cl nc Hr)
    as (pf & reps & Ms & inv & Hfull & Hcover).
  fold P d in pf, inv, Hfull, Hcover.
  pose proof (di_nets _ _ _ _ _ _ _ inv) as Hnets_len.
  exists reps, Ms. split_and!; [done|done|done| | |].
  - intros Hvf.
    rewrite <-(length_fmap (λ r, info_he (info_at 0%N P r)) reps).
    apply submseteq_length, NoDup_submseteq.
    { apply NoDup_filter. unfold ids. apply NoDup_fmap_2; [apply _|apply NoDup_seq]. }
    intros e [Hne He%elem_of_ids]%list_elem_of_filter.
    assert (L0 H cl e ≠ []) as HL0.
    { destruct (di_lists _ _ _ _ _ _ _ inv e) as [Hnil|<-].
      - by rewrite Hnil in Hne.
      - intros Hnil. by rewrite Hnil in Hne. }
    destruct (pf_all _ _ _ _ pf e He HL0) as (q & i & Hq & Hvi & <-).
    apply list_elem_of_fmap. exists q.
    rewrite (info_at_lookup _ _ _ _ Hq). split; [done|].
    destruct (proj2 (di_perm _ _ _ _ _ _ _ inv) q i Hq) as [Hq'|[_ Hq']].
    + by apply (Hcover Hvf q i).
    + destruct (di_merged _ _ _ _ _ _ _ inv q i Hq Hvi Hq') as [Hnil _].
      by rewrite Hnil in Hne.
  - intros r Hsome. unfold contract, contract_v2 in Hsome. cbv zeta in Hsome.
    fold n mapping nc cl in Hsome. fold d in Hsome.
    destruct (foldl_opt (emit_net _ _) _ _) as [em|] eqn:Hem in Hsome; [|done].
    rewrite <-(N2Nat.id (initialNumEdges H)) in Hem.
    apply emit_spec in Hem as (_ & Hcap & _); [|rewrite length_replicate; lia].
    rewrite N2Nat.id in Hcap. fold nets in Hcap. lia.
  - intros Hle.
    set (heof := λ r, info_he (info_at 0%N P r)).
    set (lists := coarse_pin_lists d) in *.
    assert (∀ r, r ∈ reps →
              heof r ∈ edges H ∧ vget [] lists (heof r) = L0 H cl (heof r) ∧
              2 ≤ length (L0 H cl (heof r)) ∧
              ∃ i, P !! r = Some i ∧ info_valid i = true ∧ info_he i = heof r)
      as Hrep.
    { intros r Hr'. destruct (di_rep _ _ _ _ _ _ _ inv r Hr') as (i & Hi & Hv & _).
      pose proof (perm_le_valid _ _ _ _ (di_perm _ _ _ _ _ _ _ inv) Hi Hv) as HiP.
      destruct (pf_valid _ _ _ _ pf r i HiP Hv) as (He & _ & Hl2).
      unfold heof. rewrite (info_at_lookup _ _ _ _ HiP).
      split_and!; [done| |done|by exists i].
      apply (di_valid _ _ _ _ _ _ _ inv r i Hi Hv). }
    assert (∀ e, e ∈ heof <$> reps → e ∈ nets) as Hsub.
    { intros e (r & -> & Hr')%list_elem_of_fmap.
      destruct (Hrep r Hr') as (He & Hl & Hl2 & _).
      apply list_elem_of_filter. split.
      - rewrite Hl. destruct (L0 H cl (heof r)); [simpl in Hl2; lia|done].
      - by apply list_elem_of_filter in He as [_ He]. }
    assert (NoDup (heof <$> reps)) as Hnd.
    { apply NoDup_fmap_2_strong; [|apply (di_reps _ _ _ _ _ _ _ inv)].
      intros r r' Hr1 Hr2 Heq.
      destruct (Hrep r Hr1) as (_ & _ & _ & i & Hi & Hv & Hi_he).
      destruct (Hrep r' Hr2) as (_ & _ & _ & i' & Hi' & Hv' & Hi_he').
      apply (pf_inj _ _ _ _ pf r r' i i'); [done..|congruence]. }
    assert (heof <$> reps ≡ₚ nets) as Hperm.
    { apply NoDup_same_length_Permutation; [done|done|]. by rewrite length_fmap. }
    split; [done|].
    assert (num_coarse_pins d = length (emitted_pins lists nets)) as Hpinsum.
    { rewrite (di_pins _ _ _ _ _ _ _ inv), <-(emitted_pins_Permutation _ _ _ Hperm).
      clear -Hrep. induction reps as [|r reps IH]; [done|].
      rewrite !fmap_cons. cbn [foldr].
      change (heof r :: (heof <$> reps)) with ([heof r] ++ (heof <$> reps)).
      rewrite emitted_pins_app, length_app, IH.
      - change (emitted_pins lists [heof r]) with (vget [] lists (heof r) ++ []).
        rewrite app_nil_r.
        destruct (Hrep r) as (_ & -> & _); [by left|done].
      - intros r' Hr'. apply Hrep. by right. }
    assert (∀ e, e ∈ edges H → vget [] lists e ≠ [] → e ∈ nets) as Hin_nets.
    { intros e He Hne. apply list_elem_of_filter. split.
      - by destruct (vget [] lists e).
      - by apply list_elem_of_filter in He as [_ He]. }
    destruct (emit_total lists (coarse_edge_weights d) (num_coarse_nets d)
                (replicate (N.to_nat (initialNumEdges H)) 0)
                (N.to_nat (initialNumEdges H))) as [em Hem].
    { by rewrite length_replicate. }
    { rewrite N2Nat.id. fold nets. lia. }
    pose proof Hem as Hem'.
    apply emit_spec in Hem' as (Hid & _ & Hsum & Hhl & Hol & Hent);
      [|by rewrite length_replicate].
    rewrite N2Nat.id in Hem, Hid, Hsum, Hent. fold nets in Hid, Hsum, Hent.
    destruct (copy_spec lists (em_offsets em) (edges H)
                (replicate (num_coarse_pins d) 0%N)
                (replicate (N.to_nat nc) hn_default))
      as (cp & Hcp & Hcl1 & Hcl2 & Hw & _).
    { intros e He Hne.
      destruct (list_elem_of_lookup_1 _ _ (Hin_nets e He Hne)) as [k Hk].
      destruct (Hent k e Hk) as [_ ->]. rewrite length_replicate, Hpinsum.
      by apply emitted_pins_range_total. }
    { intros e e' He He' Hne Hn1 Hn2.
      destruct (list_elem_of_lookup_1 _ _ (Hin_nets e He Hn1)) as [k Hk].
      destruct (list_elem_of_lookup_1 _ _ (Hin_nets e' He' Hn2)) as [k' Hk'].
      destruct (Hent k e Hk) as [_ ->]. destruct (Hent k' e' Hk') as [_ ->].
      assert (k ≠ k') as Hkk by (intros ->; congruence).
      destruct (decide (k < k')).
      - left. by apply emitted_pins_range.
      - right. apply emitted_pins_range; [done|lia]. }
    unfold contract, contract_v2. cbv zeta.
    fold n mapping nc cl. fold d. fold lists.
    erewrite bind_Some_eq by exact Hem.
    erewrite bind_Some_eq by exact Hcp.
    rewrite length_replicate in Hcl1. rewrite length_replicate in Hcl2.
    match goal with
    | |- context [foldl (λ st e, foldl (scatter_pin e) st (?f e)) (?a, ?b) ?l] =>
        pose proof (scatter_length f l a b) as Hl2;
        destruct (foldl (λ st e, foldl (scatter_pin e) st (f e)) (a, b) l)
          as [hns2 nets2]
    end.
    rewrite place_nodes_length in Hl2. simpl in Hl2.
    pose proof (reset_nodes_spec (N.to_nat nc) hns2 nets2 ltac:(lia)) as Hreset.
    cbv zeta in Hreset. rewrite N2Nat.id in Hreset.
    destruct (foldl reset_node (hns2, nets2) (ids nc)) as [hns3 nets3].
    destruct Hreset as [Hl3 Hw3]. simpl in Hl3, Hw3.
    pose proof (aggregate_spec H cl (nodes H) hns3
                  (replicate (N.to_nat nc) 0%Z)) as Hagg.
    cbv zeta in Hagg.
    destruct (foldl (aggregate_node H cl) _ (nodes H)) as [hns4 comm].
    destruct Hagg as [Hl4 Hw4].
    { intros u [Hu Hu']%list_elem_of_filter. apply elem_of_ids in Hu'.
      specialize (Hen u Hu' Hu). lia. }
    eexists. split; [reflexivity|].
    unfold initialNumNodes, initialNumEdges, nodeWeight, edgeWeight,
      edgeIsEnabled, pins, hypernode, hyperedge.
    cbn [_num_hypernodes _num_hyperedges _hypernodes _hyperedges _incidence_array].
    apply Permutation_length in Hperm as Hplen. rewrite length_fmap in Hplen.
    split_and!; [done|by rewrite Hnets_len, Hplen| |].
    + intros c Hc. simpl in Hw4. rewrite Hw4, Hw3 by done. done.
    + intros k e Hk. destruct (Hent k e Hk) as [Hhe_k Hoff].
      rewrite (vget_lookup _ _ _ _ ltac:(rewrite Nat2N.id; exact Hhe_k)).
      cbn [he_begin he_size he_weight he_valid].
      assert (e ∈ nets) as He by (by eapply list_elem_of_lookup_2).
      apply list_elem_of_filter in He as [Hne He].
      assert (vget [] lists e = L0 H cl e) as HL.
      { destruct (di_lists _ _ _ _ _ _ _ inv e) as [Hnil|?]; [|done].
        fold lists in Hnil. by rewrite Hnil in Hne. }
      split_and!; [|done|done].
      rewrite <-Hoff, <-HL. apply window_lookup. intros i x Hx.
      apply Hw; [|done]. apply list_elem_of_filter. split; [|done].
      assert (L0 H cl e ≠ []) as HL0.
      { rewrite <-HL. intros Hnil. by rewrite Hnil in Hne. }
      revert HL0. unfold L0. by destruct (edgeIsEnabled H e).
Qed.

Lemma head_filter_spec {A} (Q : A → Prop) `{!∀ x, Decision (Q x)}
    (l : list A) (d x : A) :
  x ∈ l → Q x →
  default d (head (filter Q l)) ∈ l ∧ Q (default d (head (filter Q l))).
Proof.
  induction l as [|y l IH]; intros Hin HQ; [by apply elem_of_nil in Hin|].
  rewrite filter_cons. case_decide as Hy; simpl.
  - split; [by left|done].
  - apply elem_of_cons in Hin as [->|Hin]; [done|].
    destruct (IH Hin HQ) as [? ?]. split; [by right|done].
Qed.

Lemma NoDup_join_fmap {A B} (f : A → list B) (l : list A) :
  NoDup l → (∀ x, x ∈ l → NoDup (f x)) →
  (∀ x y b, x ∈ l → y ∈ l → b ∈ f x → b ∈ f y → x = y) →
  NoDup (mjoin (f <$> l)).
Proof.
  induction l as [|x l IH]; intros Hnd Hf Hdis; [apply NoDup_nil_2|].
  apply NoDup_cons in Hnd as [Hx Hnd]. rewrite fmap_cons. simpl.
  apply NoDup_app. split_and!.
  - apply Hf. by left.
  - intros b Hb (k & Hbk & (y & -> & Hy)%list_elem_of_fmap)%list_elem_of_join.
    assert (x = y) as -> by (apply (Hdis x y b); [by left|by right|done..]).
    done.
  - apply IH; [done| |].
    + intros y Hy. apply Hf. by right.
    + intros y z b Hy Hz. apply Hdis; by right.
Qed.

Lemma L0_cases H cl e :
  L0 H cl e = []
  ∨ (edgeIsEnabled H e = true ∧ L0 H cl e = coarse_pins cl (pins H e) ∧
     2 ≤ length (coarse_pins cl (pins H e))).
Proof.
  unfold L0. destruct (edgeIsEnabled H e); [|by left].
  destruct (1 <? length (coarse_pins cl (pins H e))) eqn:Hl; [|by left].
  apply Nat.ltb_lt in Hl. right. split_and!; [done|done|lia].
Qed.

Lemma L0_short H cl e :
  length (coarse_pins cl (pins H e)) ≤ 1 → L0 H cl e = [].
Proof. intros Hl. destruct (L0_cases H cl e) as [?|(_ & _ & ?)]; [done|lia]. Qed.

(** The nets of the coarse hypergraph and the fine nets merged into them:
    the classes [merged] split the fine nets that keep two coarse pins. *)
Lemma contract_merged seed H clusters chg clusters' :
  wf_hypergraph H → wf_clusters H clusters →
  contract seed H clusters = Some (chg, clusters') →
  let d := detect_identical_nets seed H (initialNumNodes chg) clusters' in
  clusters'
  = relabel H (parallel_prefix_sum 0 (mark_clusters (initialNumNodes H) clusters))
      clusters ∧
  (∀ c, (c < initialNumNodes chg)%N →
        nodeWeight chg c = aggregated_weight H clusters' c) ∧
  (∀ e, vget [] (coarse_pin_lists d) e = []
        ∨ vget [] (coarse_pin_lists d) e = L0 H clusters' e) ∧
  ∃ merged : list (list HyperedgeID),
    length merged = N.to_nat (initialNumEdges chg) ∧
    mjoin merged
    ≡ₚ filter (λ e, 2 ≤ length (coarse_pins clusters' (pins H e))) (edges H) ∧
    ∀ k M, merged !! k = Some M →
      edgeIsEnabled chg (N.of_nat k) = true ∧
      (∃ e, e ∈ M ∧ pins chg (N.of_nat k) = coarse_pins clusters' (pins H e)) ∧
      (∀ e, e ∈ M → pins chg (N.of_nat k) ≡ₚ coarse_pins clusters' (pins H e)) ∧
      edgeWeight chg (N.of_nat k) = merged_weight H M.
Proof.
  intros Hwf Hcl Hsome.
  pose proof (contract_spec seed H clusters Hwf Hcl) as Hspec. cbv zeta in Hspec.
  set (cl := relabel H _ clusters) in *.
  set (nc := vget 0%N (parallel_prefix_sum 0 _) _) in *.
  set (P := merge_sort info_le _) in *.
  destruct Hspec as (reps & Ms & pf & inv & _ & _ & Hb & Hmain).
  destruct (Hmain (Hb _ Hsome)) as (Hperm & chg0 & Hsome0 & Hnn & Hne & Hnw & Hnets).
  assert (chg0 = chg ∧ cl = clusters') as [-> Hcl'] by (split; congruence).
  clear Hsome0 Hb Hmain. rewrite Hnn. cbv zeta.
  set (d := detect_identical_nets seed H nc cl) in *.
  set (nets := nonempty_nets (coarse_pin_lists d) (initialNumEdges H)) in *.
  set (heof := λ r, info_he (info_at 0%N P r)) in *.
  rewrite <-Hcl'. split_and!; [done|done|apply inv|].
  (* the representative of a net that was written *)
  set (rof := λ e, default 0 (head (filter (λ r, heof r = e) reps))).
  assert (∀ e, e ∈ nets → rof e ∈ reps ∧ heof (rof e) = e) as Hrof.
  { intros e He. rewrite <-Hperm in He.
    apply list_elem_of_fmap in He as (r & -> & Hr).
    by apply (head_filter_spec (λ r', heof r' = heof r) reps 0 r). }
  assert (∀ r, r ∈ reps →
            ∃ i, P !! r = Some i ∧ info_valid i = true ∧ info_he i = heof r ∧
                 permutation d !! r = Some i) as Hrep.
  { intros r Hr. destruct (di_rep _ _ _ _ _ _ _ inv r Hr) as (i & Hi & Hv & _).
    pose proof (perm_le_valid _ _ _ _ (di_perm _ _ _ _ _ _ _ inv) Hi Hv) as HiP.
    exists i. unfold heof. by rewrite (info_at_lookup _ _ _ _ HiP). }
  assert (∀ r r', r ∈ reps → r' ∈ reps → heof r = heof r' → r = r') as Hinj.
  { intros r r' Hr Hr' Heq.
    destruct (Hrep r Hr) as (i & Hi & Hv & Hi_he & _).
    destruct (Hrep r' Hr') as (i' & Hi' & Hv' & Hi_he' & _).
    apply (pf_inj _ _ _ _ pf r r' i i'); [done..|congruence]. }
  assert (NoDup nets) as Hnd_nets.
  { apply NoDup_filter. unfold ids. apply NoDup_fmap_2; [apply _|apply NoDup_seq]. }
  exists ((λ e, Ms (rof e)) <$> nets). split_and!.
  - by rewrite length_fmap, Hne, Nat2N.id.
  - apply NoDup_Permutation.
    + apply NoDup_join_fmap; [done| |].
      * intros e He. destruct (Hrof e He) as [Hr _].
        destruct (di_rep _ _ _ _ _ _ _ inv _ Hr) as (i & _ & _ & _ & Hnd & _). done.
      * intros e e' b He He' Hb Hb'.
        destruct (Hrof e He) as [Hr Hhe]. destruct (Hrof e' He') as [Hr' Hhe'].
        assert (rof e = rof e') by (by eapply (di_disj _ _ _ _ _ _ _ inv)).
        congruence.
    + apply NoDup_filter, NoDup_filter.
      unfold ids. apply NoDup_fmap_2; [apply _|apply NoDup_seq].
    + intros e. rewrite list_elem_of_join, list_elem_of_filter. split.
      * intros (M & HeM & (e0 & -> & He0)%list_elem_of_fmap).
        destruct (Hrof e0 He0) as [Hr _].
        destruct (di_rep _ _ _ _ _ _ _ inv _ Hr) as (i & _ & _ & _ & _ & _ & HM).
        destruct (HM e HeM) as (Hedge & Hnnil & _).
        split; [|done].
        destruct (L0_cases H cl e) as [?|(_ & _ & ?)]; done.
      * intros [Hl2 Hedge].
        assert (L0 H cl e ≠ []) as Hnnil.
        { unfold L0. apply list_elem_of_filter in Hedge as [-> _].
          replace (1 <? _) with true by (symmetry; apply Nat.ltb_lt; lia).
          simpl. intros Hnil. rewrite Hnil in Hl2. simpl in Hl2. lia. }
        assert (e < initialNumEdges H)%N as Hem.
        { apply list_elem_of_filter in Hedge as [_ ?]. by apply elem_of_ids. }
        destruct (pf_all _ _ _ _ pf e Hem Hnnil) as (q & i & Hq & Hv & <-).
        assert (∃ r, r ∈ reps ∧ info_he i ∈ Ms r) as (r & Hr & HinM).
        { destruct (proj2 (di_perm _ _ _ _ _ _ _ inv) q i Hq) as [Hq'|[_ Hq']].
          - pose proof (di_valid _ _ _ _ _ _ _ inv q i Hq' Hv) as Hlist.
            assert (info_he i ∈ nets) as Hin.
            { apply list_elem_of_filter. split; [|by apply elem_of_ids].
              rewrite Hlist. by destruct (L0 H cl (info_he i)). }
            destruct (Hrof _ Hin) as [Hr Hhe]. exists (rof (info_he i)).
            split; [done|].
            destruct (di_rep _ _ _ _ _ _ _ inv _ Hr)
              as (i' & Hi' & Hv' & _ & _ & Hself & _).
            destruct (Hrep _ Hr) as (i2 & _ & _ & Hi2 & Hi2').
            assert (i2 = i') as -> by congruence.
            assert (info_he i' = info_he i) as Heq by congruence.
            by rewrite Heq in Hself.
          - by destruct (di_merged _ _ _ _ _ _ _ inv q i Hq Hv Hq') as [_ ?]. }
        exists (Ms r). split; [done|]. apply list_elem_of_fmap.
        exists (heof r). 
        assert (heof r ∈ nets) as Hin.
        { rewrite <-Hperm. apply list_elem_of_fmap. by exists r. }
        destruct (Hrof _ Hin) as [Hr' Hhe'].
        rewrite (Hinj _ _ Hr' Hr Hhe'). done.
  - intros k M (e0 & -> & Hk)%list_lookup_fmap_Some.
    destruct (Hnets k e0 Hk) as (Hp & Hw & Hv).
    assert (e0 ∈ nets) as He0 by (by eapply list_elem_of_lookup_2).
    destruct (Hrof e0 He0) as [Hr Hhe].
    destruct (di_rep _ _ _ _ _ _ _ inv _ Hr)
      as (i & Hi & Hvi & Hwi & _ & Hself & HM).
    destruct (Hrep _ Hr) as (i2 & _ & _ & Hi2 & Hi2').
    assert (i2 = i) as -> by congruence. rewrite Hhe in Hi2.
    rewrite Hi2 in Hwi, Hself, HM.
    assert (∀ e, e ∈ Ms (rof e0) → L0 H cl e = coarse_pins cl (pins H e)) as HL.
    { intros e He. destruct (HM e He) as (_ & Hnnil & _).
      destruct (L0_cases H cl e) as [?|(_ & ? & _)]; done. }
    split_and!; [done| | |congruence].
    + exists e0. split; [done|]. rewrite Hp. by apply HL.
    + intros e He. rewrite Hp, <-(HL e He). symmetry. by apply HM.
Qed.

(** [contract] returns when every net is enabled and no net that keeps two
    coarse pins has the hash of the removed nets. *)
Lemma contract_returns seed H clusters :
  wf_hypergraph H → wf_clusters H clusters →
  (∀ e, (e < initialNumEdges H)%N → edgeIsEnabled H e = true) →
  let cl := relabel H (parallel_prefix_sum 0
                         (mark_clusters (initialNumNodes H) clusters)) clusters in
  (∀ e, (e < initialNumEdges H)%N →
        2 ≤ length (coarse_pins cl (pins H e)) →
        edge_hash (coarse_pins cl (pins H e)) ≠ SIZE_MAX) →
  ∃ chg, contract seed H clusters = Some (chg, cl).
Proof.
  intros Hwf Hcl Hen cl Hhash.
  pose proof (contract_spec seed H clusters Hwf Hcl) as Hspec. cbv zeta in Hspec.
  fold cl in Hspec.
  destruct Hspec as (reps & Ms & _ & _ & _ & Hvf & _ & Hmain).
  destruct Hmain as (_ & chg & Hsome & _).
  { apply Hvf. by apply sorted_valid_first. }
  by exists chg.
Qed.

(** Decidable forms of the conditions on the input. *)
Lemma wf_hypergraph_intro H :
  (0 < initialNumNodes H < 2 ^ 32 - 1)%N →
  (initialNumEdges H < 2 ^ 32 - 1)%N →
  length (_hypernodes H) = N.to_nat (initialNumNodes H) →
  length (_hyperedges H) = N.to_nat (initialNumEdges H) →
  Forall (λ e, Forall (λ v, (v < initialNumNodes H)%N) (pins H e)) (edges H) →
  wf_hypergraph H.
Proof.
  intros Hn Hm Hhn Hhe Hall. split_and!; [apply Hn|apply Hn|done..|].
  intros e v He Hv. rewrite Forall_forall in Hall.
  specialize (Hall e He). rewrite Forall_forall in Hall. by apply Hall.
Qed.

Lemma wf_clusters_intro H clusters :
  length clusters = N.to_nat (initialNumNodes H) →
  Forall (λ c, (c < initialNumNodes H)%N) clusters →
  wf_clusters H clusters.
Proof.
  intros Hlen Hall. split; [done|]. intros u Hu.
  destruct (lookup_lt_is_Some_2 clusters (N.to_nat u)) as [c Hc]; [lia|].
  rewrite (vget_lookup _ _ _ _ Hc). rewrite Forall_forall in Hall.
  apply Hall. by eapply list_elem_of_lookup_2.
Qed.

Lemma wf_H_merge : wf_hypergraph H_merge ∧ wf_clusters H_merge clusters_merge.
Proof.
  split.
  - apply wf_hypergraph_intro; [by vm_compute|by vm_compute|done|done|].
    by apply (bool_decide_unpack _).
  - apply wf_clusters_intro; [done|]. by apply (bool_decide_unpack _).
Defined.

Lemma merged_weight_fits H (M : list HyperedgeID) :
  Forall (λ e, fits_weight (edgeWeight H e)) M →
  merged_weight H M = wrap_weight (sum_weights H M).
Proof.
  intros HM. destruct M as [|rep cands]; [done|].
  apply Forall_cons in HM as [Hrep Hcands].
  unfold merged_weight, sum_weights. rewrite add_weights_fits; [done|done|].
  by apply Forall_fmap.
Qed.

Lemma sum_weights_nonneg H (M : list HyperedgeID) :
  Forall (λ e, 0 ≤ edgeWeight H e)%Z M → (0 ≤ sum_weights H M)%Z.
Proof.
  unfold sum_weights. induction 1 as [|e M He _ IH]; [done|].
  rewrite fmap_cons. cbn [foldr]. lia.
Qed.

(** C1, as the code has it. On a well-formed input whose net weights are
    values of [HyperedgeWeight], [contract] returns a coarse hypergraph when
    all nets are enabled and no net that keeps two coarse pins has the hash
    that marks removed nets. Whenever it returns one, its nets stand, one by
    one, for classes of fine nets that split the enabled fine nets keeping
    two coarse pins: the pins of a coarse net are pairwise distinct and are
    exactly the valid coarse ids of the pins of the fine nets of its class,
    and its weight is the sum of the weights of these fine nets in the
    arithmetic of [HyperedgeWeight], that is, the sum wrapped to 32 bits. *)
Theorem contract_pins_and_weights seed H clusters :
  wf_hypergraph H → wf_clusters H clusters →
  Forall (λ e, fits_weight (edgeWeight H e)) (edges H) →
  let cl := relabel H (parallel_prefix_sum 0
                         (mark_clusters (initialNumNodes H) clusters)) clusters in
  ((∀ e, (e < initialNumEdges H)%N → edgeIsEnabled H e = true) →
   (∀ e, (e < initialNumEdges H)%N →
         2 ≤ length (coarse_pins cl (pins H e)) →
         edge_hash (coarse_pins cl (pins H e)) ≠ SIZE_MAX) →
   ∃ chg, contract seed H clusters = Some (chg, cl)) ∧
  ∀ chg clusters', contract seed H clusters = Some (chg, clusters') →
    ∃ merged : list (list HyperedgeID),
      length merged = N.to_nat (initialNumEdges chg) ∧
      mjoin merged
      ≡ₚ filter (λ e, 2 ≤ length (coarse_pins clusters' (pins H e))) (edges H) ∧
      ∀ e', (e' < initialNumEdges chg)%N →
        ∃ M, merged !! N.to_nat e' = Some M ∧ M ≠ [] ∧
          NoDup (pins chg e') ∧
          (∀ c, c ∈ pins chg e' ↔
                c ≠ kInvalidHypernode ∧
                ∃ e v, e ∈ M ∧ v ∈ pins H e ∧ vget 0%N clusters' v = c) ∧
          edgeWeight chg e' = wrap_weight (sum_weights H M) ∧
          (fits_weight (sum_weights H M) → edgeWeight chg e' = sum_weights H M).
Proof.
  intros Hwf Hcl Hfits cl. split; [by apply contract_returns|].
  intros chg clusters' Hsome.
  destruct (contract_merged seed H clusters chg clusters' Hwf Hcl Hsome)
    as (_ & _ & _ & merged & Hlen & Hsplit & Hnets).
  exists merged. split_and!; [done|done|]. intros e' He'.
  destruct (lookup_lt_is_Some_2 merged (N.to_nat e')) as [M HM]; [lia|].
  destruct (Hnets _ _ HM) as (_ & (e0 & He0 & Hpins) & Hall & Hw).
  rewrite N2Nat.id in Hpins, Hall, Hw.
  assert (edgeWeight chg e' = wrap_weight (sum_weights H M)) as Hw'.
  { rewrite Hw. apply merged_weight_fits. apply Forall_forall. intros e He.
    rewrite Forall_forall in Hfits. apply Hfits.
    assert (e ∈ mjoin merged) as Hin.
    { apply list_elem_of_join. exists M. split; [done|].
      by eapply list_elem_of_lookup_2. }
    rewrite Hsplit in Hin. by apply list_elem_of_filter in Hin as [_ Hin]. }
  exists M. split_and!; [done| | | |done|].
  - intros ->. by apply elem_of_nil in He0.
  - rewrite Hpins. apply coarse_pins_spec.
  - intros c. split.
    + rewrite Hpins. intros (Hc & v & Hv & Hcv)%coarse_pins_spec.
      split; [done|]. by exists e0, v.
    + intros (Hc & e & v & He & Hv & Hcv). rewrite (Hall e He).
      apply coarse_pins_spec. split; [done|]. by exists v.
  - intros Hsum. by rewrite Hw', wrap_weight_small.
Qed.

Lemma contract_pins_and_weights_witness :
  let cl := relabel H_merge
              (parallel_prefix_sum 0
                 (mark_clusters (initialNumNodes H_merge) clusters_merge))
              clusters_merge in
  ((∀ e, (e < initialNumEdges H_merge)%N → edgeIsEnabled H_merge e = true) →
   (∀ e, (e < initialNumEdges H_merge)%N →
         2 ≤ length (coarse_pins cl (pins H_merge e)) →
         edge_hash (coarse_pins cl (pins H_merge e)) ≠ SIZE_MAX) →
   ∃ chg, contract 42 H_merge clusters_merge = Some (chg, cl)) ∧
  ∀ chg clusters', contract 42 H_merge clusters_merge = Some (chg, clusters') →
    ∃ merged : list (list HyperedgeID),
      length merged = N.to_nat (initialNumEdges chg) ∧
      mjoin merged
      ≡ₚ filter (λ e, 2 ≤ length (coarse_pins clusters' (pins H_merge e)))
           (edges H_merge) ∧
      ∀ e', (e' < initialNumEdges chg)%N →
        ∃ M, merged !! N.to_nat e' = Some M ∧ M ≠ [] ∧
          NoDup (pins chg e') ∧
          (∀ c, c ∈ pins chg e' ↔
                c ≠ kInvalidHypernode ∧
                ∃ e v, e ∈ M ∧ v ∈ pins H_merge e ∧ vget 0%N clusters' v = c) ∧
          edgeWeight chg e' = wrap_weight (sum_weights H_merge M) ∧
          (fits_weight (sum_weights H_merge M) →
           edgeWeight chg e' = sum_weights H_merge M).
Proof.
  apply (contract_pins_and_weights 42 H_merge clusters_merge).
  - apply wf_H_merge.
  - apply wf_H_merge.
  - by apply (bool_decide_unpack _).
Defined.

Lemma wf_H_heavy : wf_hypergraph H_heavy ∧ wf_clusters H_heavy [0; 1]%N.
Proof.
  split.
  - apply wf_hypergraph_intro; [by vm_compute|by vm_compute|done|done|].
    by apply (bool_decide_unpack _).
  - apply wf_clusters_intro; [done|]. by apply (bool_decide_unpack _).
Qed.

(** C1, as the specification words it, fails: the two nets of [H_heavy]
    have the same pins and are merged, and the sum [2^31] of their weights is
    not a value of [HyperedgeWeight]; the coarse net gets the weight
    [- 2^31]. *)
Lemma contract_weight_overflows :
  ¬ (∀ seed (H : StaticHypergraph) (clusters : list HypernodeID),
       wf_hypergraph H → wf_clusters H clusters →
       ∃ chg clusters',
         contract seed H clusters = Some (chg, clusters') ∧
         ∃ merged : list (list HyperedgeID),
           length merged = N.to_nat (initialNumEdges chg) ∧
           mjoin merged
           ≡ₚ filter (λ e, 2 ≤ length (coarse_pins clusters' (pins H e)))
                (edges H) ∧
           ∀ e', (e' < initialNumEdges chg)%N →
             ∃ M, merged !! N.to_nat e' = Some M ∧ M ≠ [] ∧
               NoDup (pins chg e') ∧
               (∀ c, c ∈ pins chg e' ↔
                     c ≠ kInvalidHypernode ∧
                     ∃ e v, e ∈ M ∧ v ∈ pins H e ∧ vget 0%N clusters' v = c) ∧
               edgeWeight chg e' = sum_weights H M).
Proof.
  intros Hclaim.
  destruct (Hclaim 42%N H_heavy [0; 1]%N (proj1 wf_H_heavy) (proj2 wf_H_heavy))
    as (chg & clusters' & Hsome & merged & Hlen & Hsplit & Hnets).
  vm_compute in Hsome. injection Hsome as <- <-.
  destruct (Hnets 0%N ltac:(by vm_compute)) as (M & HM & _ & _ & _ & Hw).
  assert (0 ≤ sum_weights H_heavy M)%Z as Hpos.
  { apply sum_weights_nonneg, Forall_forall. intros e He.
    assert (e ∈ mjoin merged) as Hin.
    { apply list_elem_of_join. exists M. split; [done|].
      by eapply list_elem_of_lookup_2. }
    rewrite Hsplit in Hin. apply list_elem_of_filter in Hin as [_ Hin].
    apply list_elem_of_filter in Hin as [_ Hin]. apply elem_of_ids in Hin.
    change (initialNumEdges H_heavy) with 2%N in Hin.
    assert (e = 0 ∨ e = 1)%N as [-> | ->] by lia; by vm_compute. }
  rewrite <-Hw in Hpos. vm_compute in Hpos. by apply Hpos.
Qed.

(** C4. Every net of a hypergraph that [contract] returns has at least two
    pins, and they are pairwise distinct; a fine net with at most one distinct
    coarse pin has an empty pin list after the detection of identical nets,
    and the loop that writes the nets passes over it. *)
Theorem contract_nets_have_two_pins seed H clusters chg clusters' :
  wf_hypergraph H → wf_clusters H clusters →
  contract seed H clusters = Some (chg, clusters') →
  (∀ e', (e' < initialNumEdges chg)%N →
         2 ≤ length (pins chg e') ∧ NoDup (pins chg e')) ∧
  let d := detect_identical_nets seed H (initialNumNodes chg) clusters' in
  ∀ e, length (coarse_pins clusters' (pins H e)) ≤ 1 →
       vget [] (coarse_pin_lists d) e = [] ∧
       ∀ st, emit_net (coarse_pin_lists d) (coarse_edge_weights d) st e = Some st.
Proof.
  intros Hwf Hcl Hsome.
  destruct (contract_merged seed H clusters chg clusters' Hwf Hcl Hsome)
    as (_ & _ & Hlists & merged & Hlen & Hsplit & Hnets).
  split.
  - intros e' He'.
    destruct (lookup_lt_is_Some_2 merged (N.to_nat e')) as [M HM]; [lia|].
    destruct (Hnets _ _ HM) as (_ & (e0 & He0 & Hpins) & _).
    rewrite N2Nat.id in Hpins. rewrite Hpins.
    split; [|apply coarse_pins_spec].
    assert (e0 ∈ mjoin merged) as Hin.
    { apply list_elem_of_join. exists M. split; [done|].
      by eapply list_elem_of_lookup_2. }
    rewrite Hsplit in Hin. by apply list_elem_of_filter in Hin as [? _].
  - intros d e Hshort.
    assert (vget [] (coarse_pin_lists d) e = []) as Hnil.
    { destruct (Hlists e) as [?|Heq]; [done|].
      fold d in Heq. rewrite Heq. by apply L0_short. }
    split; [done|]. intros st. unfold emit_net. by rewrite Hnil.
Qed.

Lemma contract_nets_have_two_pins_witness :
  (∀ e', (e' < initialNumEdges chg_merge)%N →
         2 ≤ length (pins chg_merge e') ∧ NoDup (pins chg_merge e')) ∧
  let d := detect_identical_nets 42 H_merge (initialNumNodes chg_merge)
             [0; 1; 1; 2]%N in
  ∀ e, length (coarse_pins [0; 1; 1; 2]%N (pins H_merge e)) ≤ 1 →
       vget [] (coarse_pin_lists d) e = [] ∧
       ∀ st, emit_net (coarse_pin_lists d) (coarse_edge_weights d) st e = Some st.
Proof.
  apply (contract_nets_have_two_pins 42 H_merge clusters_merge).
  - apply wf_H_merge.
  - apply wf_H_merge.
  - vm_compute. reflexivity.
Defined.

(** *** The identity clustering *)

Lemma lookup_ids (m : N) (i : nat) :
  i < N.to_nat m → ids m !! i = Some (N.of_nat i).
Proof. intros Hi. unfold ids. rewrite list_lookup_fmap, lookup_seq_lt; done. Qed.

Lemma vget_ids (m u : N) : (u < m)%N → vget 0%N (ids m) u = u.
Proof.
  intros Hu. unfold vget. rewrite lookup_ids by lia. simpl. lia.
Qed.

Lemma foldr_add_replicate (k : nat) : foldr N.add 0%N (replicate k 1%N) = N.of_nat k.
Proof. induction k as [|k IH]; [done|]. simpl replicate. cbn [foldr]. lia. Qed.

(** With every vertex in its own cluster the compactification changes
    nothing. *)
Lemma compactify_identity (H : StaticHypergraph) :
  let n := initialNumNodes H in
  (0 < n < 2 ^ 32 - 1)%N →
  (∀ u, (u < n)%N → nodeIsEnabled H u = true) →
  let mapping := parallel_prefix_sum 0 (mark_clusters n (ids n)) in
  vget 0%N mapping (n - 1)%N = n ∧ relabel H mapping (ids n) = ids n.
Proof.
  intros n Hn Hen mapping.
  destruct (mark_clusters_spec n (ids n)) as [Hml Hmark].
  { intros u Hu. by rewrite vget_ids. }
  set (marks := mark_clusters n (ids n)) in *.
  assert (marks = replicate (N.to_nat n) 1%N) as Hmarks.
  { apply list_eq_same_length with (N.to_nat n); [by rewrite length_replicate|done|].
    intros i x y Hi Hx Hy. apply lookup_replicate in Hy as [-> _].
    destruct (Hmark (N.of_nat i)) as [[H1 _]|[_ Hno]]; [lia| |].
    - unfold vget in H1. rewrite Nat2N.id, Hx in H1. done.
    - destruct (Hno (N.of_nat i)); [lia|]. apply vget_ids. lia. }
  destruct (parallel_prefix_sum_spec marks 0) as [Hsl Hsum].
  { rewrite Hmarks, foldr_add_replicate. pow_lia. }
  fold mapping in Hsl, Hsum.
  assert (∀ c, (c < n)%N → vget 0%N mapping c = (c + 1)%N) as Hmap.
  { intros c Hc. unfold vget. rewrite Hsum by lia. simpl default.
    rewrite Hmarks, take_replicate, foldr_add_replicate. lia. }
  split; [rewrite Hmap; lia|].
  destruct (foldl_vset_ids 0%N
              (λ u c, if nodeIsEnabled H u
                      then sub32 (vget 0%N mapping c) 1 else kInvalidHypernode)
              (ids n) (N.to_nat n)) as (Hrl & Hrlt & _).
  { by rewrite length_ids. }
  rewrite N2Nat.id in Hrl, Hrlt.
  assert (relabel H mapping (ids n) = foldl (λ l u, vset l u
            (if nodeIsEnabled H u then sub32 (vget 0%N mapping (vget 0%N l u)) 1
             else kInvalidHypernode)) (ids n) (ids n)) as Hcl' by done.
  rewrite <-Hcl' in Hrl, Hrlt. clear Hcl'.
  apply list_eq_same_length with (N.to_nat n); [by rewrite length_ids|
    by rewrite Hrl, length_ids|].
  intros i x y Hi Hx Hy. rewrite lookup_ids in Hy by done. simplify_eq.
  specialize (Hrlt (N.of_nat i) ltac:(lia)).
  unfold vget at 1 in Hrlt. rewrite Nat2N.id, Hx in Hrlt. simpl in Hrlt.
  rewrite Hrlt, Hen, vget_ids, Hmap by lia.
  unfold sub32, wrap32.
  replace (N.of_nat i + 1 + 2 ^ 32 - 1)%N with (N.of_nat i + 1 * 2 ^ 32)%N by pow_lia.
  rewrite N.Div0.mod_add, N.mod_small by pow_lia. done.
Qed.

Lemma coarse_pins_identity (n : N) (l : list HypernodeID) :
  (n ≤ kInvalidHypernode)%N → Forall (λ v, (v < n)%N) l → NoDup l →
  coarse_pins (ids n) l = l.
Proof.
  intros Hn. induction l as [|v l IH] using rev_ind; intros Hall Hnd; [done|].
  apply Forall_app in Hall as [Hall Hv]. rewrite Forall_singleton in Hv.
  apply NoDup_app in Hnd as (Hnd & Hdis & _).
  rewrite coarse_pins_snoc. cbv zeta.
  rewrite IH by done. rewrite vget_ids by done.
  rewrite bool_decide_eq_false_2; [done|].
  intros [->|Hin]; [lia|]. apply (Hdis v Hin). by left.
Qed.

Lemma filter_all {A} (Q : A → Prop) `{!∀ x, Decision (Q x)} (l : list A) :
  Forall Q l → filter Q l = l.
Proof.
  induction 1 as [|x l Hx _ IH]; [done|].
  by rewrite filter_cons, decide_True, IH.
Qed.

Lemma filter_ids_unique (Q : N → Prop) `{!∀ x, Decision (Q x)} (m c : N) :
  (∀ u, (u < m)%N → Q u ↔ u = c) →
  filter Q (ids m) = if decide (c < m)%N then [c] else [].
Proof.
  rewrite <-(N2Nat.id m). generalize (N.to_nat m). clear m. intros j.
  induction j as [|j IH]; intros HQ.
  { change (ids (N.of_nat 0)) with (@nil N). rewrite decide_False by lia. done. }
  rewrite filter_ids_S, IH by (intros u Hu; apply HQ; lia).
  destruct (decide (c = N.of_nat j)) as [->|Hne].
  - rewrite decide_False by lia. rewrite decide_True by (apply HQ; [lia|done]).
    rewrite decide_True by lia. done.
  - rewrite (decide_False (P := Q _)) by (rewrite HQ by lia; done).
    rewrite app_nil_r. do 2 case_decide; done || lia.
Qed.

Lemma NoDup_all_equal {A} (l : list A) (x : A) :
  NoDup l → x ∈ l → (∀ y, y ∈ l → y = x) → l = [x].
Proof.
  intros Hnd Hx Hall. destruct l as [|y l]; [by apply elem_of_nil in Hx|].
  rewrite (Hall y) by left. f_equal.
  destruct l as [|z l]; [done|].
  apply NoDup_cons in Hnd as [Hy _]. destruct Hy.
  rewrite (Hall y), <-(Hall z); [left|right; left|left].
Qed.

(** C2, with the conditions under which it holds: every vertex and net is
    enabled, every net has two or more pairwise distinct pins and no two nets
    have the same pins. Under the identity clustering [contract] then returns
    a hypergraph with the same numbers of vertices and nets, the same vertex
    and net weights and, net by net, the same pin lists. *)
Theorem contract_identity seed H :
  wf_hypergraph H →
  (∀ u, (u < initialNumNodes H)%N → nodeIsEnabled H u = true) →
  (∀ e, (e < initialNumEdges H)%N →
        edgeIsEnabled H e = true ∧ 2 ≤ length (pins H e) ∧ NoDup (pins H e)) →
  (∀ e e', (e < initialNumEdges H)%N → (e' < initialNumEdges H)%N →
           pins H e ≡ₚ pins H e' → e = e') →
  ∃ chg,
    contract seed H (ids (initialNumNodes H))
    = Some (chg, ids (initialNumNodes H)) ∧
    initialNumNodes chg = initialNumNodes H ∧
    initialNumEdges chg = initialNumEdges H ∧
    (∀ u, (u < initialNumNodes H)%N → nodeWeight chg u = nodeWeight H u) ∧
    (∀ e, (e < initialNumEdges H)%N →
          edgeWeight chg e = edgeWeight H e ∧ pins chg e = pins H e).
Proof.
  intros Hwf Hen Hnets Hdist.
  assert (wf_clusters H (ids (initialNumNodes H))) as Hcl.
  { split; [apply length_ids|]. intros u Hu. by rewrite vget_ids. }
  pose proof (contract_spec seed H _ Hwf Hcl) as Hspec. cbv zeta in Hspec.
  destruct Hwf as (Hn & Hm & Hhn & Hhe & Hpins).
  destruct (compactify_identity H Hn Hen) as [Hnc Hrel].
  rewrite Hrel, Hnc in Hspec.
  set (n := initialNumNodes H) in *. set (m := initialNumEdges H) in *.
  set (cl := ids n) in *.
  set (d := detect_identical_nets seed H n cl) in *.
  set (P := merge_sort info_le _) in *.
  set (nets := nonempty_nets (coarse_pin_lists d) m) in *.
  destruct Hspec as (reps & Ms & pf & inv & Hfull & _ & _ & Hmain).
  assert (∀ e, (e < m)%N → e ∈ edges H) as Hedges.
  { intros e He. apply list_elem_of_filter. split; [by apply Hnets|by apply elem_of_ids]. }
  assert (∀ e, (e < m)%N → L0 H cl e = pins H e) as HL0.
  { intros e He. destruct (Hnets e He) as (Hv & Hl2 & Hnd).
    unfold L0, cl. cbv zeta.
    rewrite Hv, coarse_pins_identity; [|unfold kInvalidHypernode; pow_lia| |done].
    - by replace (1 <? _) with true by (symmetry; apply Nat.ltb_lt; lia).
    - apply Forall_forall. intros v Hv'. apply (Hpins e v); [by apply Hedges|done]. }
  assert (∀ e, (e < m)%N → L0 H cl e ≠ []) as HL0ne.
  { intros e He. rewrite HL0 by done. destruct (Hnets e He) as (_ & Hl2 & _).
    intros Hnil. rewrite Hnil in Hl2. simpl in Hl2. lia. }
  assert (distinct_nets H cl) as Hdn.
  { intros e e' [_ He%elem_of_ids]%list_elem_of_filter
      [_ He'%elem_of_ids]%list_elem_of_filter _.
    rewrite !HL0 by done. by apply Hdist. }
  assert (no_merge H cl P) as Hnm.
  { split_and!; [intros e He; by apply Hnets| |done].
    intros i Hi. unfold P in Hi. rewrite merge_sort_Permutation in Hi.
    apply list_elem_of_fmap in Hi as (e & -> & He%elem_of_ids).
    by apply L0_nonempty, HL0ne. }
  pose proof (pf_len _ _ _ _ pf) as HlenP. fold m in HlenP.
  assert (∀ e, (e < m)%N → vget [] (coarse_pin_lists d) e = pins H e) as Hlists.
  { intros e He. destruct (pf_all _ _ _ _ pf e He (HL0ne e He)) as (q & i & Hq & Hv & <-).
    pose proof (det_inv_distinct _ _ _ _ _ _ _ _ _ pf inv Hdn Hq Hv) as Hq'.
    rewrite (di_valid _ _ _ _ _ _ _ inv q i Hq' Hv). by apply HL0. }
  assert (nets = ids m) as Hnets_eq.
  { apply filter_all, Forall_forall. intros e He%elem_of_ids.
    rewrite Hlists by done. destruct (Hnets e He) as (_ & Hl2 & _).
    destruct (pins H e); [simpl in Hl2; lia|done]. }
  assert (length nets ≤ length reps) as Hle.
  { assert (length (seq 0 (length P)) ≤ length reps) as Hs.
    { apply submseteq_length, NoDup_submseteq; [apply NoDup_seq|].
      intros q Hq%elem_of_seq. apply (Hfull Hnm). lia. }
    rewrite length_seq in Hs. rewrite Hnets_eq, length_ids. lia. }
  destruct (Hmain Hle) as (Hperm & chg & Hsome & Hnn & Hne & Hnw & Hk).
  exists chg. split_and!; [done|done|by rewrite Hne, Hnets_eq, length_ids, N2Nat.id| |].
  - intros u Hu. rewrite Hnw by done. unfold aggregated_weight, nodes.
    rewrite (filter_all _ (ids (initialNumNodes H))).
    2:{ apply Forall_forall. intros v Hv%elem_of_ids. by apply Hen. }
    rewrite (filter_ids_unique _ _ u).
    + rewrite decide_True by done. apply add_weight_0_l.
    + intros v Hv. unfold cl. rewrite vget_ids by done. done.
  - intros e He.
    assert (nets !! N.to_nat e = Some e) as Hlook.
    { rewrite Hnets_eq, lookup_ids by lia. by rewrite N2Nat.id. }
    destruct (Hk _ _ Hlook) as (Hp & Hw & _). rewrite N2Nat.id in Hp, Hw.
    split; [|by rewrite Hp, HL0].
    assert (e ∈ nets) as Hin by (by eapply list_elem_of_lookup_2).
    rewrite <-Hperm in Hin. apply list_elem_of_fmap in Hin as (r & Hhe_r & Hr).
    destruct (di_rep _ _ _ _ _ _ _ inv r Hr)
      as (i & Hi & Hvi & Hwi & Hnd & Hself & HM).
    pose proof (perm_le_valid _ _ _ _ (di_perm _ _ _ _ _ _ _ inv) Hi Hvi) as HiP.
    rewrite (info_at_lookup _ _ _ _ HiP) in Hhe_r. subst e.
    rewrite Hw, Hwi.
    rewrite (NoDup_all_equal (Ms r) (info_he i) Hnd Hself).
    + done.
    + intros e' He'. destruct (HM e' He') as (Hedge' & Hne' & Heq).
      apply Hdn; [done|by apply Hedges|done|done].
Qed.

Lemma contract_identity_witness :
  ∃ chg,
    contract 42 H_path (ids (initialNumNodes H_path))
    = Some (chg, ids (initialNumNodes H_path)) ∧
    initialNumNodes chg = initialNumNodes H_path ∧
    initialNumEdges chg = initialNumEdges H_path ∧
    (∀ u, (u < initialNumNodes H_path)%N → nodeWeight chg u = nodeWeight H_path u) ∧
    (∀ e, (e < initialNumEdges H_path)%N →
          edgeWeight chg e = edgeWeight H_path e ∧ pins chg e = pins H_path e).
Proof.
  apply (contract_identity 42 H_path).
  - apply wf_hypergraph_intro; [by vm_compute|by vm_compute|done|done|].
    by apply (bool_decide_unpack _).
  - intros u Hu. change (initialNumNodes H_path) with 3%N in Hu.
    destruct (decide (u = 0%N)) as [->|?]; [done|].
    destruct (decide (u = 1%N)) as [->|?]; [done|].
    destruct (decide (u = 2%N)) as [->|?]; [done|lia].
  - intros e He. change (initialNumEdges H_path) with 2%N in He.
    destruct (decide (e = 0%N)) as [->|?];
      [split_and!; [done|vm_compute; lia|vm_compute; repeat constructor;
                    set_solver]|].
    destruct (decide (e = 1%N)) as [->|?]; [|lia].
    split_and!; [done|vm_compute; lia|vm_compute; repeat constructor; set_solver].
  - intros e e' He He'. change (initialNumEdges H_path) with 2%N in He, He'.
    destruct (decide (e = 0%N)) as [->|?]; destruct (decide (e' = 0%N)) as [->|?];
      [done| | |].
    + assert (e' = 1%N) as -> by lia. intros Hp.
      assert (0%N ∈ pins H_path 1%N) as Hin by (rewrite <-Hp; vm_compute; left).
      vm_compute in Hin. set_solver.
    + assert (e = 1%N) as -> by lia. intros Hp.
      assert (0%N ∈ pins H_path 1%N) as Hin by (rewrite Hp; vm_compute; left).
      vm_compute in Hin. set_solver.
    + intros _. lia.
Defined.

(** C2 as the specification words it, for every hypergraph, fails: three nets
    with the same pins are one net after the contraction with the identity
    clustering. *)
Lemma contract_identity_merges_parallel_nets :
  ¬ (∀ seed H chg clusters',
       wf_hypergraph H →
       contract seed H (ids (initialNumNodes H)) = Some (chg, clusters') →
       initialNumEdges chg = initialNumEdges H).
Proof.
  intros Hall.
  assert (wf_hypergraph H_parallel) as Hwf.
  { apply wf_hypergraph_intro; [by vm_compute|by vm_compute|done|done|].
    by apply (bool_decide_unpack _). }
  specialize (Hall 42%N H_parallel chg_parallel (ids 3) Hwf eq_refl).
  vm_compute in Hall. discriminate.
Qed.

(** C5, at the failing input. Vertex 2 is disabled and no enabled vertex lies
    in cluster 2, yet the presence bitmap has [mapping[2] = 1] and the coarse
    hypergraph gets three vertices: the first loop of [contract_v2] runs over
    all vertices, enabled or not. *)
Theorem mark_clusters_counts_disabled :
  let H := H_disabled_vertex in
  let clusters := [0; 1; 2]%N in
  let present := mark_clusters (initialNumNodes H) clusters in
  let mapping := parallel_prefix_sum 0 present in
  nodeIsEnabled H 2%N = false ∧
  (∀ v, v ∈ nodes H → vget 0%N clusters v ≠ 2%N) ∧
  vget 0%N present 2%N = 1%N ∧
  vget 0%N mapping (initialNumNodes H - 1)%N = 3%N ∧
  relabel H mapping clusters = [0%N; 1%N; kInvalidHypernode].
Proof.
  split_and!; try reflexivity.
  intros v Hv. vm_compute in Hv.
  repeat (apply elem_of_cons in Hv as [->|Hv]; [discriminate|]).
  by apply elem_of_nil in Hv.
Qed.

End ContractionSpec.

(** ** Localized k-way FM *)

Module FMSpec.
Import Hypergraph FM.
Import GraphFactorySpec.

(** *** Counting blocks and pins *)

Lemma count_blocks_insert (flags : list bool) (i : nat) (x y : bool) :
  flags !! i = Some y →
  count_blocks (<[i := x]> flags) + flag y = count_blocks flags + flag x.
Proof.
  unfold count_blocks. revert i.
  induction flags as [|z flags IH]; intros [|i] Hi; simplify_eq/=.
  - rewrite !filter_cons. destruct x, y; simpl; lia.
  - specialize (IH i Hi). rewrite !filter_cons. destruct z; simpl; lia.
Qed.

Lemma pins_in_part_notin parts v to (l : list HypernodeID) b :
  v ∉ l → pins_in_part (vset parts v to) l b = pins_in_part parts l b.
Proof.
  unfold pins_in_part. induction l as [|u l IH]; intros Hv; [done|].
  apply not_elem_of_cons in Hv as [Hne Hv].
  rewrite !filter_cons, vget_vset_ne by done.
  case_decide; simpl; rewrite IH; done.
Qed.

Lemma pins_in_part_in parts v to (l : list HypernodeID) b :
  N.to_nat v < length parts → NoDup l → v ∈ l →
  pins_in_part (vset parts v to) l b + (if decide (vget 0 parts v = b) then 1 else 0)
  = pins_in_part parts l b + (if decide (to = b) then 1 else 0).
Proof.
  intros Hlen. induction l as [|u l IH]; intros Hnd Hv; [by apply elem_of_nil in Hv|].
  apply NoDup_cons in Hnd as [Hu Hnd].
  destruct (decide (u = v)) as [->|Hne].
  - pose proof (pins_in_part_notin parts v to l b Hu) as Hrest.
    unfold pins_in_part in *. rewrite !filter_cons, vget_vset_eq by done.
    repeat case_decide; simpl; lia.
  - apply elem_of_cons in Hv as [?|Hv]; [done|]. specialize (IH Hnd Hv).
    unfold pins_in_part in *. rewrite !filter_cons, vget_vset_ne by done.
    repeat case_decide; simpl; lia.
Qed.

(** *** One net *)

Section row.
Context (k from to : nat) (counts : list nat) (flags : list bool).
Context (Hfrom : from < k) (Hto : to < k) (Hne : to ≠ from).
Context (Hlc : length counts = k) (Hlf : length flags = k).
Context (Hpos : 0 < default 0 (counts !! from)).
Context (Hflags : ∀ b, b < k →
           flags !! b = Some (bool_decide (0 < default 0 (counts !! b)))).

Lemma update_row_eq :
  update_row from to (counts, flags)
  = (<[to := default 0 (counts !! to) + 1]>
       (<[from := default 0 (counts !! from) - 1]> counts),
     <[to := true]>
       (<[from := bool_decide (0 < default 0 (counts !! from) - 1)]> flags)).
Proof using Hfrom Hto Hne Hlc Hlf Hpos Hflags.
  unfold update_row. set (count_from := default 0 (counts !! from)) in *.
  rewrite list_lookup_insert_ne by done.
  set (count_to := default 0 (counts !! to)) in *. f_equal.
  assert ((if decide (count_from - 1 = 0) then <[from := false]> flags else flags)
          = <[from := bool_decide (0 < count_from - 1)]> flags) as ->.
  { case_decide as Hz.
    - by rewrite Hz, bool_decide_eq_false_2 by lia.
    - rewrite bool_decide_eq_true_2 by lia. symmetry. apply list_insert_id.
      rewrite Hflags by done. fold count_from. by rewrite bool_decide_eq_true_2. }
  case_decide as Hz; [done|]. symmetry. apply list_insert_id.
  rewrite list_lookup_insert_ne by done. rewrite Hflags by done. fold count_to.
  by rewrite bool_decide_eq_true_2 by lia.
Qed.

Lemma update_row_blocks :
  (Z.of_nat (count_blocks (update_row from to (counts, flags)).2)
   = Z.of_nat (count_blocks flags)
     - (if decide (default 0%nat (counts !! from) = 1%nat) then 1 else 0)
     + (if decide (default 0%nat (counts !! to) = 0%nat) then 1 else 0))%Z.
Proof using Hfrom Hto Hne Hlc Hlf Hpos Hflags.
  rewrite update_row_eq. cbn [snd].
  set (count_from := default 0 (counts !! from)) in *.
  set (count_to := default 0 (counts !! to)) in *.
  pose proof (count_blocks_insert flags from (bool_decide (0 < count_from - 1))
                _ (Hflags from Hfrom)) as H1.
  pose proof (count_blocks_insert
                (<[from := bool_decide (0 < count_from - 1)]> flags) to true
                (bool_decide (0 < count_to))) as H2.
  rewrite list_lookup_insert_ne in H2 by done. specialize (H2 (Hflags to Hto)).
  fold count_from in H1.
  rewrite (bool_decide_eq_true_2 (0 < count_from)) in H1 by done.
  unfold flag in *.
  repeat case_decide; repeat case_bool_decide; simpl in *; lia.
Qed.

Lemma update_row_length :
  length (update_row from to (counts, flags)).1 = k ∧
  length (update_row from to (counts, flags)).2 = k.
Proof using Hfrom Hto Hne Hlc Hlf Hpos Hflags.
  rewrite update_row_eq. simpl. by rewrite !length_insert.
Qed.

Lemma update_row_counts b :
  b < k →
  (update_row from to (counts, flags)).1 !! b
  = Some (if decide (b = to) then default 0 (counts !! to) + 1
          else if decide (b = from) then default 0 (counts !! from) - 1
          else default 0 (counts !! b)).
Proof using Hfrom Hto Hne Hlc Hlf Hpos Hflags.
  intros Hb. rewrite update_row_eq. cbn [fst].
  case_decide as Hbt.
  { subst b. apply list_lookup_insert_eq. rewrite length_insert. lia. }
  rewrite list_lookup_insert_ne by done.
  case_decide as Hbf.
  { subst b. apply list_lookup_insert_eq. lia. }
  rewrite list_lookup_insert_ne by done.
  destruct (lookup_lt_is_Some_2 counts b) as [c Hc]; [lia|]. by rewrite Hc.
Qed.

Lemma update_row_flags b :
  b < k →
  (update_row from to (counts, flags)).2 !! b
  = Some (bool_decide
            (0 < default 0 ((update_row from to (counts, flags)).1 !! b))).
Proof using Hfrom Hto Hne Hlc Hlf Hpos Hflags.
  intros Hb. rewrite update_row_counts by done. cbn [default from_option id].
  rewrite update_row_eq. cbn [snd].
  case_decide as Hbt.
  { subst b. rewrite list_lookup_insert_eq by (rewrite length_insert; lia).
    by rewrite bool_decide_eq_true_2 by lia. }
  rewrite list_lookup_insert_ne by done.
  case_decide as Hbf.
  { subst b. by rewrite list_lookup_insert_eq by lia. }
  rewrite list_lookup_insert_ne by done. by apply Hflags.
Qed.

End row.

(** The inverse transition restores the row. *)
Lemma update_row_inverse k from to counts flags :
  from < k → to < k → to ≠ from →
  length counts = k → length flags = k →
  0 < default 0 (counts !! from) →
  (∀ b, b < k → flags !! b = Some (bool_decide (0 < default 0 (counts !! b)))) →
  update_row to from (update_row from to (counts, flags)) = (counts, flags).
Proof.
  intros Hfrom Hto Hne Hlc Hlf Hpos Hflags.
  pose proof (update_row_length k from to counts flags Hfrom Hto Hne Hlc Hlf Hpos Hflags)
    as [Hlc' Hlf'].
  pose proof (update_row_counts k from to counts flags Hfrom Hto Hne Hlc Hlf Hpos Hflags)
    as Hc'.
  pose proof (update_row_flags k from to counts flags Hfrom Hto Hne Hlc Hlf Hpos Hflags)
    as Hf'.
  destruct (update_row from to (counts, flags)) as [counts' flags'].
  cbn [fst snd] in *.
  assert (0 < default 0 (counts' !! to)) as Hpos'.
  { rewrite Hc' by done. rewrite decide_True by done. simpl. lia. }
  rewrite (update_row_eq k to from counts' flags') by done.
  rewrite (Hc' to Hto), (Hc' from Hfrom).
  rewrite (decide_True (P := to = to)) by done.
  rewrite (decide_False (P := from = to)) by done.
  rewrite (decide_True (P := from = from)) by done. cbn [default from_option id].
  f_equal; apply list_eq; intros b.
  - destruct (decide (b = from)) as [->|Hbf].
    { rewrite list_lookup_insert_eq by (rewrite length_insert; lia).
      destruct (lookup_lt_is_Some_2 counts from) as [c Hc]; [lia|].
      rewrite Hc in *. simpl in *. f_equal. lia. }
    rewrite list_lookup_insert_ne by done.
    destruct (decide (b = to)) as [->|Hbt].
    { rewrite list_lookup_insert_eq by lia.
      destruct (lookup_lt_is_Some_2 counts to) as [c Hc]; [lia|].
      rewrite Hc. simpl. f_equal. lia. }
    rewrite list_lookup_insert_ne by done.
    destruct (decide (b < k)) as [Hb|Hb].
    + rewrite Hc' by done. rewrite !decide_False by done.
      destruct (lookup_lt_is_Some_2 counts b) as [c Hc]; [lia|]. by rewrite Hc.
    + rewrite !lookup_ge_None_2 by lia. done.
  - destruct (decide (b = from)) as [->|Hbf].
    { rewrite list_lookup_insert_eq by (rewrite length_insert; lia).
      rewrite Hflags by done. by rewrite bool_decide_eq_true_2. }
    rewrite list_lookup_insert_ne by done.
    destruct (decide (b = to)) as [->|Hbt].
    { rewrite list_lookup_insert_eq by lia. rewrite Hflags by done.
      f_equal. apply bool_decide_ext. lia. }
    rewrite list_lookup_insert_ne by done.
    destruct (decide (b < k)) as [Hb|Hb].
    + rewrite Hf', Hc' by done. rewrite !decide_False by done.
      cbn [default from_option id]. by rewrite Hflags.
    + rewrite !lookup_ge_None_2 by lia. done.
Qed.

(** *** The nets of the moved vertex *)

Lemma vget_ext {A} (d : A) (l1 l2 : list A) :
  length l1 = length l2 → (∀ e, vget d l1 e = vget d l2 e) → l1 = l2.
Proof.
  intros Hlen Hext. apply list_eq_same_length with (length l1); [done..|].
  intros i x y Hi Hx Hy. specialize (Hext (N.of_nat i)).
  unfold vget in Hext. rewrite Nat2N.id, Hx, Hy in Hext. done.
Qed.

Lemma update_edges_spec from to (I : list HyperedgeID) pc cs :
  NoDup I → length pc = length cs →
  (∀ e, e ∈ I → N.to_nat e < length pc) →
  let st := foldl (update_edge from to) (pc, cs) I in
  length st.1 = length pc ∧ length st.2 = length cs ∧
  ∀ e, (vget [] st.1 e, vget [] st.2 e)
       = if decide (e ∈ I) then update_row from to (vget [] pc e, vget [] cs e)
         else (vget [] pc e, vget [] cs e).
Proof.
  revert pc cs. induction I as [|e0 I IH]; intros pc cs Hnd Hlen Hin; cbv zeta.
  { cbn [foldl fst snd]. split_and!; [done..|]. intros e.
    rewrite decide_False; [done|]. apply not_elem_of_nil. }
  apply NoDup_cons in Hnd as [He0 Hnd]. cbn [foldl].
  set (row := update_row from to (vget [] pc e0, vget [] cs e0)).
  change (update_edge from to (pc, cs) e0)
    with (vset pc e0 row.1, vset cs e0 row.2).
  destruct (IH (vset pc e0 row.1) (vset cs e0 row.2)) as (Hl1 & Hl2 & Hrows).
  { done. }
  { by rewrite !length_vset. }
  { intros e He. rewrite length_vset. apply Hin. by right. }
  cbv zeta in Hl1, Hl2, Hrows.
  rewrite Hl1, Hl2, !length_vset. split_and!; [done..|].
  intros e. rewrite Hrows.
  assert (N.to_nat e0 < length pc) as Hlt by (apply Hin; by left).
  destruct (decide (e = e0)) as [->|Hne].
  - rewrite decide_False by done. rewrite decide_True by left.
    rewrite !vget_vset_eq by lia. symmetry. apply surjective_pairing.
  - rewrite !vget_vset_ne by done.
    destruct (decide (e ∈ I)).
    + rewrite decide_True; [done|]. by right.
    + rewrite decide_False; [done|]. by intros [?|?]%elem_of_cons.
Qed.

Lemma sum_Permutation (l k : list Z) :
  l ≡ₚ k → foldr Z.add 0%Z l = foldr Z.add 0%Z k.
Proof.
  induction 1 as [|x l k _ IH|x y l|l k1 k2 _ IH1 _ IH2]; simpl; lia.
Qed.

Lemma sum_filter {A} (Q : A → Prop) `{!∀ x, Decision (Q x)} (g : A → Z) (l : list A) :
  foldr Z.add 0%Z ((λ x, if decide (Q x) then g x else 0%Z) <$> l)
  = foldr Z.add 0%Z (g <$> filter Q l).
Proof.
  induction l as [|x l IH]; [done|].
  rewrite fmap_cons, filter_cons. cbn [foldr]. case_decide.
  - rewrite fmap_cons. cbn [foldr]. lia.
  - lia.
Qed.

Lemma sum_sub {A} (f g : A → Z) (l : list A) :
  foldr Z.add 0%Z ((λ x, f x - g x)%Z <$> l)
  = (foldr Z.add 0%Z (f <$> l) - foldr Z.add 0%Z (g <$> l))%Z.
Proof. induction l as [|x l IH]; [done|]. rewrite !fmap_cons. cbn [foldr]. lia. Qed.

Lemma sum_ext {A} (f g : A → Z) (l : list A) :
  (∀ x, x ∈ l → f x = g x) →
  foldr Z.add 0%Z (f <$> l) = foldr Z.add 0%Z (g <$> l).
Proof.
  induction l as [|x l IH]; intros Hfg; [done|].
  rewrite !fmap_cons. cbn [foldr]. rewrite IH, (Hfg x) by set_solver. done.
Qed.

(** *** One move *)

Lemma phg_eq (p q : PartitionedHypergraph) :
  phg_hg p = phg_hg q → phg_k p = phg_k q → part_of p = part_of q →
  pin_count_in_part p = pin_count_in_part q →
  connectivity_set p = connectivity_set q → part_weight p = part_weight q →
  p = q.
Proof. destruct p, q. simpl. by intros -> -> -> -> -> ->. Qed.

Lemma wf_pins_nodup_aux (H : StaticHypergraph) :
  wf_incidence H → ∀ e, e ∈ edges H → NoDup (pins H e).
Proof. by intros [_ ?]. Qed.

Section move.
Context (phg : PartitionedHypergraph) (v : HypernodeID) (to : PartitionID).
Context (Hwf : wf_incidence (phg_hg phg)) (Hc : consistent phg).
Context (Hv : (v < initialNumNodes (phg_hg phg))%N).
Context (Hto : to < phg_k phg) (Hne : to ≠ partID phg v).

Lemma incident_facts :
  NoDup (incidentEdges (phg_hg phg) v) ∧
  ∀ e, e ∈ incidentEdges (phg_hg phg) v
       ↔ e ∈ edges (phg_hg phg) ∧ v ∈ pins (phg_hg phg) e.
Proof using All.
  destruct Hwf as [Hinc _]. specialize (Hinc v Hv). split.
  - rewrite Hinc. apply NoDup_filter, NoDup_filter.
    unfold ids. apply NoDup_fmap_2; [apply _|apply NoDup_seq].
  - intros e. rewrite Hinc, list_elem_of_filter. tauto.
Qed.

Lemma part_lookup : part_of phg !! N.to_nat v = Some (partID phg v).
Proof using All.
  destruct Hc as (Hlen & _).
  destruct (lookup_lt_is_Some_2 (part_of phg) (N.to_nat v)) as [b Hb]; [lia|].
  unfold partID, vget. by rewrite Hb.
Qed.

Lemma partID_lt : partID phg v < phg_k phg.
Proof using All.
  destruct Hc as (_ & Hall & _). rewrite Forall_forall in Hall.
  apply Hall. eapply list_elem_of_lookup_2, part_lookup.
Qed.

(** The rows of a net of [v] before the move. *)
Lemma row_facts e :
  e ∈ incidentEdges (phg_hg phg) v →
  length (vget [] (pin_count_in_part phg) e) = phg_k phg ∧
  length (vget [] (connectivity_set phg) e) = phg_k phg ∧
  0 < default 0 (vget [] (pin_count_in_part phg) e !! partID phg v) ∧
  ∀ b, b < phg_k phg →
    vget [] (connectivity_set phg) e !! b
    = Some (bool_decide (0 < default 0 (vget [] (pin_count_in_part phg) e !! b))).
Proof using All.
  intros [He Hin]%incident_facts.
  destruct Hc as (_ & _ & _ & _ & _ & Hrows).
  destruct (Hrows e He) as (Hl1 & Hl2 & Hb). split_and!; [done..| |].
  - destruct (Hb _ partID_lt) as [Hcount _]. unfold pin_count in Hcount.
    rewrite Hcount. unfold pins_in_part.
    assert (v ∈ filter (λ u, vget 0 (part_of phg) u = partID phg v)
                       (pins (phg_hg phg) e)) as Hf.
    { apply list_elem_of_filter. split; [done|done]. }
    destruct (filter _ _); [by apply elem_of_nil in Hf|simpl; lia].
  - intros b Hlt. destruct (Hb b Hlt) as [Hcount Hflag]. unfold pin_count in Hcount.
    by rewrite Hflag, Hcount.
Qed.

Lemma move_node_consistent : consistent (move_node phg v (partID phg v) to).
Proof using All.
  pose proof incident_facts as [Hnd Hinc].
  pose proof Hc as (Hlp & Hall & Hlc & Hls & Hlw & Hrows).
  destruct (update_edges_spec (partID phg v) to (incidentEdges (phg_hg phg) v)
              (pin_count_in_part phg) (connectivity_set phg))
    as (Hl1 & Hl2 & Hnew); [done|congruence| |].
  { intros e [He _]%Hinc. apply list_elem_of_filter in He as [_ He%elem_of_ids].
    rewrite Hlc. lia. }
  cbv zeta in Hl1, Hl2, Hnew.
  unfold consistent, move_node. cbn [phg_hg phg_k part_of pin_count_in_part
    connectivity_set part_weight].
  split_and!.
  - by rewrite length_vset.
  - apply Forall_insert; done.
  - by rewrite Hl1.
  - by rewrite Hl2.
  - by rewrite !length_insert.
  - intros e He. specialize (Hnew e).
    destruct (Hrows e He) as (Hr1 & Hr2 & Hb).
    pose proof (wf_pins_nodup_aux _ Hwf e He) as Hndp.
    set (st := foldl (update_edge (partID phg v) to)
                 (pin_count_in_part phg, connectivity_set phg)
                 (incidentEdges (phg_hg phg) v)) in *.
    case_decide as Hin.
    + destruct (row_facts e Hin) as (_ & _ & Hpos & Hflags).
      pose proof (update_row_length _ _ _ _ _ partID_lt Hto Hne Hr1 Hr2 Hpos Hflags)
        as [Hrl1 Hrl2].
      pose proof (update_row_counts _ _ _ _ _ partID_lt Hto Hne Hr1 Hr2 Hpos Hflags)
        as Hcounts.
      pose proof (update_row_flags _ _ _ _ _ partID_lt Hto Hne Hr1 Hr2 Hpos Hflags)
        as Hfl.
      rewrite <-Hnew in Hrl1, Hrl2, Hcounts, Hfl. cbn [fst snd] in *.
      split_and!; [done|done|].
      intros b Hlt.
      assert (default 0 (vget [] st.1 e !! b)
              = pins_in_part (vset (part_of phg) v to) (pins (phg_hg phg) e) b)
        as Hcount.
      { rewrite Hcounts by done. cbn [default from_option id].
        apply Hinc in Hin as [_ Hin].
        pose proof (pins_in_part_in (part_of phg) v to (pins (phg_hg phg) e) b
                      ltac:(lia) Hndp Hin) as Hpp.
        fold (partID phg v) in Hpp.
        destruct (Hb b Hlt) as [Hcb _]. unfold pin_count in Hcb.
        destruct (Hb _ Hto) as [Hct _]. unfold pin_count in Hct.
        destruct (Hb _ partID_lt) as [Hcf _]. unfold pin_count in Hcf.
        repeat case_decide; subst; lia. }
      unfold pin_count. cbn [pin_count_in_part]. split; [done|].
      rewrite Hfl by done. by rewrite Hcount.
    + assert (v ∉ pins (phg_hg phg) e) as Hnin.
      { intros Hvin. apply Hin, Hinc. done. }
      injection Hnew as Hn1 Hn2. rewrite Hn1, Hn2.
      split_and!; [done|done|].
      intros b Hlt. unfold pin_count. cbn [pin_count_in_part].
      rewrite Hn1, pins_in_part_notin by done. apply (Hb b Hlt).
Qed.

(** The objective drops by the gain of the move. *)
Lemma move_node_km1 :
  km1 (move_node phg v (partID phg v) to)
  = (km1 phg - km1_gain phg v (partID phg v) to)%Z.
Proof using All.
  pose proof incident_facts as [Hnd Hinc].
  pose proof Hc as (_ & _ & Hlc & Hls & _ & Hrows).
  destruct (update_edges_spec (partID phg v) to (incidentEdges (phg_hg phg) v)
              (pin_count_in_part phg) (connectivity_set phg))
    as (_ & _ & Hnew); [done|congruence| |].
  { intros e [He _]%Hinc. apply list_elem_of_filter in He as [_ He%elem_of_ids].
    rewrite Hlc. lia. }
  cbv zeta in Hnew.
  unfold km1, km1_gain.
  change (phg_hg (move_node phg v (partID phg v) to)) with (phg_hg phg).
  set (delta := λ e, ((if decide (pin_count phg e (partID phg v) = 1%nat)
                       then edgeWeight (phg_hg phg) e else 0)
                      - (if decide (pin_count phg e to = 0%nat)
                         then edgeWeight (phg_hg phg) e else 0))%Z).
  rewrite (sum_Permutation (delta <$> incidentEdges (phg_hg phg) v)
             (delta <$> filter (λ e, v ∈ pins (phg_hg phg) e) (edges (phg_hg phg)))).
  2:{ apply fmap_Permutation. destruct Hwf as [Hinc' _]. by apply Hinc'. }
  rewrite <-sum_filter, <-sum_sub. apply sum_ext. intros e He.
  unfold connectivity. cbn [connectivity_set move_node].
  specialize (Hnew e). destruct (Hrows e He) as (Hr1 & Hr2 & _).
  destruct (decide (v ∈ pins (phg_hg phg) e)) as [Hin|Hin].
  - assert (e ∈ incidentEdges (phg_hg phg) v) as Hin' by (by apply Hinc).
    rewrite decide_True in Hnew by done.
    destruct (row_facts e Hin') as (_ & _ & Hpos & Hflags).
    pose proof (update_row_blocks _ _ _ _ _ partID_lt Hto Hne Hr1 Hr2 Hpos Hflags)
      as Hblocks.
    rewrite <-Hnew in Hblocks. cbn [snd] in Hblocks. rewrite Hblocks.
    unfold delta, pin_count. repeat case_decide; lia.
  - rewrite decide_False in Hnew by (intros [_ ?]%Hinc; done).
    injection Hnew as _ ->. lia.
Qed.

(** The inverse transition restores the overlay. *)
Lemma move_node_inverse :
  move_node (move_node phg v (partID phg v) to) v to (partID phg v) = phg.
Proof using All.
  pose proof incident_facts as [Hnd Hinc].
  pose proof Hc as (Hlp & _ & Hlc & Hls & Hlw & Hrows).
  pose proof partID_lt as Hfrom.
  assert (∀ e, e ∈ incidentEdges (phg_hg phg) v →
               N.to_nat e < length (pin_count_in_part phg)) as Hrange.
  { intros e [He _]%Hinc. apply list_elem_of_filter in He as [_ He%elem_of_ids].
    rewrite Hlc. lia. }
  destruct (update_edges_spec (partID phg v) to (incidentEdges (phg_hg phg) v)
              (pin_count_in_part phg) (connectivity_set phg))
    as (Hl1 & Hl2 & Hnew); [done|congruence|done|].
  cbv zeta in Hl1, Hl2, Hnew.
  set (st := foldl (update_edge (partID phg v) to)
               (pin_count_in_part phg, connectivity_set phg)
               (incidentEdges (phg_hg phg) v)) in *.
  destruct (update_edges_spec to (partID phg v) (incidentEdges (phg_hg phg) v)
              st.1 st.2) as (Hl1' & Hl2' & Hback); [done|congruence| |].
  { intros e He. rewrite Hl1. by apply Hrange. }
  cbv zeta in Hl1', Hl2', Hback.
  assert (∀ e, (vget [] (foldl (update_edge to (partID phg v)) (st.1, st.2)
                           (incidentEdges (phg_hg phg) v)).1 e,
                vget [] (foldl (update_edge to (partID phg v)) (st.1, st.2)
                           (incidentEdges (phg_hg phg) v)).2 e)
               = (vget [] (pin_count_in_part phg) e,
                  vget [] (connectivity_set phg) e)) as Hrows'.
  { intros e. rewrite Hback, Hnew. case_decide as Hin; [|done].
    destruct (row_facts e Hin) as (Hr1 & Hr2 & Hpos & Hflags).
    by apply (update_row_inverse (phg_k phg)). }
  apply phg_eq; unfold move_node;
    cbn [phg_hg phg_k part_of pin_count_in_part connectivity_set part_weight].
  - done.
  - done.
  - unfold vset. rewrite list_insert_insert_eq. apply list_insert_id, part_lookup.
  - fold st. apply (vget_ext []); [congruence|]. intros e.
    specialize (Hrows' e). by injection Hrows'.
  - fold st. apply (vget_ext []); [congruence|]. intros e.
    specialize (Hrows' e). by injection Hrows'.
  - set (w := nodeWeight (phg_hg phg) v). set (pw := part_weight phg) in *.
    destruct (lookup_lt_is_Some_2 pw (partID phg v)) as [wf Hwf']; [lia|].
    destruct (lookup_lt_is_Some_2 pw to) as [wt Hwt]; [lia|].
    rewrite Hwf'. cbn [default from_option id].
    rewrite (list_lookup_insert_ne pw) by done. rewrite Hwt.
    cbn [default from_option id].
    rewrite list_lookup_insert_eq by (rewrite length_insert; lia).
    cbn [default from_option id].
    rewrite list_lookup_insert_ne by done.
    rewrite list_lookup_insert_ne by done.
    rewrite list_lookup_insert_eq by lia. cbn [default from_option id].
    apply list_eq. intros b.
    destruct (decide (b = partID phg v)) as [->|Hbf].
    { rewrite list_lookup_insert_eq by (rewrite !length_insert; lia).
      rewrite Hwf'. f_equal. lia. }
    rewrite list_lookup_insert_ne by done.
    destruct (decide (b = to)) as [->|Hbt].
    { rewrite list_lookup_insert_eq by (rewrite !length_insert; lia).
      rewrite Hwt. f_equal. lia. }
    by rewrite !list_lookup_insert_ne by done.
Qed.

End move.

(** *** Sequences of moves *)

Lemma km1_gain_lower phg v from to :
  (- incident_weight (phg_hg phg) v ≤ km1_gain phg v from to)%Z.
Proof.
  unfold incident_weight, km1_gain.
  induction (incidentEdges (phg_hg phg) v) as [|e l IH]; [done|].
  rewrite !fmap_cons. cbn [foldr]. repeat case_decide; lia.
Qed.

Lemma replay_app phg ms ms' : replay phg (ms ++ ms') = replay (replay phg ms) ms'.
Proof. apply foldl_app. Qed.

Lemma valid_moves_app phg ms ms' :
  valid_moves phg (ms ++ ms') ↔ valid_moves phg ms ∧ valid_moves (replay phg ms) ms'.
Proof.
  revert phg. induction ms as [|m ms IH]; intros phg; simpl; [tauto|].
  rewrite IH. tauto.
Qed.

Lemma replay_facts phg ms :
  wf_incidence (phg_hg phg) → consistent phg → valid_moves phg ms →
  consistent (replay phg ms) ∧
  phg_hg (replay phg ms) = phg_hg phg ∧ phg_k (replay phg ms) = phg_k phg ∧
  km1 (replay phg ms) = (km1 phg - foldr Z.add 0 (gain <$> ms))%Z.
Proof.
  revert phg. induction ms as [|m ms IH]; intros phg Hwf Hc Hval.
  { simpl. split_and!; [done..|lia]. }
  destruct Hval as (Hv & Hfrom & Hne & Hto & Hgain & Hval).
  rewrite Hfrom in Hne, Hgain, Hval.
  destruct (IH (move_node phg (mv_node m) (partID phg (mv_node m)) (mv_to m)))
    as (Hc' & Hhg & Hk & Hkm1); [done|by apply move_node_consistent|done|].
  cbn [replay foldl]. fold (replay (move_node phg (mv_node m) (mv_from m) (mv_to m)) ms).
  rewrite Hfrom. split_and!; [done..|].
  rewrite Hkm1, move_node_km1 by done. rewrite fmap_cons. cbn [foldr]. lia.
Qed.

(** Reverting the moves after the first [b], last move first, gives the
    overlay after the first [b] moves. *)
Lemma rollback_replay phg ms b :
  wf_incidence (phg_hg phg) → consistent phg → valid_moves phg ms →
  foldl revert (replay phg ms) (reverse (drop b ms)) = replay phg (take b ms).
Proof.
  intros Hwf Hc. induction ms as [|m ms IH] using rev_ind; intros Hval.
  { by rewrite drop_nil, take_nil. }
  apply valid_moves_app in Hval as [Hval Hm].
  destruct (decide (b ≤ length ms)) as [Hb|Hb].
  - rewrite drop_app_le, reverse_snoc, take_app_le by done. cbn [foldl].
    rewrite <-IH by done. f_equal.
    destruct (replay_facts phg ms Hwf Hc Hval) as (Hc' & Hhg & Hk & _).
    destruct Hm as (Hv & Hfrom & Hne & Hto & _ & _).
    rewrite replay_app. cbn [replay foldl]. unfold revert.
    rewrite Hfrom in *. apply move_node_inverse; [by rewrite Hhg|done..].
  - rewrite drop_ge, take_ge by (rewrite length_app; simpl; lia). done.
Qed.

Lemma expand_spec max_part_weight phg order popped :
  wf_incidence (phg_hg phg) → consistent phg →
  Forall (λ c, (c.1 < initialNumNodes (phg_hg phg))%N ∧ c.2 < phg_k phg) popped →
  ∃ ms, foldl (expand max_part_weight) (phg, order) popped
        = (replay phg ms, order ++ ms) ∧
        valid_moves phg ms.
Proof.
  intros Hwf Hc Hpop.
  assert (∀ ms, valid_moves phg ms →
            ∃ ms', foldl (expand max_part_weight) (replay phg ms, order ++ ms) popped
                   = (replay phg ms', order ++ ms') ∧
                   valid_moves phg ms') as Hgen.
  { induction popped as [|[v to] popped IH]; intros ms Hval; [by exists ms|].
    apply Forall_cons in Hpop as [[Hv Hto] Hpop]. simpl in Hv, Hto.
    cbn [foldl]. unfold expand at 2.
    case_decide as Heq; [by apply IH|].
    unfold change_part. case_decide; cbn [fst snd]; [|by apply IH].
    set (m := {| mv_node := v; mv_from := partID (replay phg ms) v; mv_to := to;
                 gain := km1_gain (replay phg ms) v (partID (replay phg ms) v) to |}).
    change (move_node (replay phg ms) v (partID (replay phg ms) v) to)
      with (replay (replay phg ms) [m]).
    rewrite <-replay_app, <-app_assoc. apply IH; [done|].
    apply valid_moves_app. split; [done|].
    destruct (replay_facts phg ms Hwf Hc Hval) as (_ & Hhg & Hk & _).
    simpl. rewrite Hhg, Hk. done. }
  destruct (Hgen [] I) as (ms & Hrun & Hval). rewrite app_nil_r in Hrun.
  by exists ms.
Qed.

Lemma valid_moves_gain invalidGain phg ms :
  (∀ v, (v < initialNumNodes (phg_hg phg))%N →
        (invalidGain < - incident_weight (phg_hg phg) v)%Z) →
  valid_moves phg ms → ∀ m, m ∈ ms → gain m ≠ invalidGain.
Proof.
  intros Hinv. revert phg Hinv.
  induction ms as [|m0 ms IH]; intros phg Hinv Hval m Hm;
    [by apply elem_of_nil in Hm|].
  destruct Hval as (Hv & _ & _ & _ & Hgain & Hval).
  apply elem_of_cons in Hm as [->|Hm].
  - rewrite Hgain. pose proof (km1_gain_lower phg (mv_node m0) (mv_from m0) (mv_to m0)).
    specialize (Hinv _ Hv). lia.
  - by apply (IH (move_node phg (mv_node m0) (mv_from m0) (mv_to m0)) Hinv Hval).
Qed.

Lemma accumulated_gain_valid invalidGain (ms : list Move) (acc : Z) :
  (∀ m, m ∈ ms → gain m ≠ invalidGain) →
  foldl (λ acc m, if decide (gain m ≠ invalidGain) then (acc + gain m)%Z else acc)
        acc ms
  = (acc + foldr Z.add 0 (gain <$> ms))%Z.
Proof.
  revert acc. induction ms as [|m ms IH]; intros acc Hall; [simpl; lia|].
  rewrite fmap_cons. cbn [foldl foldr].
  rewrite decide_True by (apply Hall; left). rewrite IH; [lia|].
  intros m' Hm'. apply Hall. by right.
Qed.

Lemma accumulated_gain_invalid invalidGain (ms : list Move) (acc : Z) :
  foldl (λ acc m, if decide (gain m ≠ invalidGain) then (acc + gain m)%Z else acc)
        acc (mark_invalid invalidGain <$> ms)
  = acc.
Proof.
  induction ms as [|m ms IH]; [done|]. rewrite fmap_cons. cbn [foldl].
  rewrite decide_False; [done|]. simpl. by intros ?.
Qed.

Lemma best_prefix_le (gains : list Z) : best_prefix gains ≤ length gains.
Proof.
  unfold best_prefix.
  assert (∀ i s bs b, b ≤ i →
            (foldl (λ (st : nat * Z * Z * nat) g,
                      let '(i, sum, best_sum, best) := st in
                      let sum' := (sum + g)%Z in
                      if decide (best_sum ≤ sum')%Z
                      then (i + 1, sum', sum', i + 1)
                      else (i + 1, sum', best_sum, best))
                   (i, s, bs, b) gains).2 ≤ i + length gains) as Hgen.
  { induction gains as [|g gains IH]; intros i s bs b Hb; simpl; [lia|].
    case_decide.
    - etrans; [apply IH; lia|]. lia.
    - etrans; [apply IH; lia|]. lia. }
  apply (Hgen 0 0%Z 0%Z 0). lia.
Qed.

(** The rollback scenario of the spec: the first four moves are kept. *)
Lemma best_prefix_scenario : best_prefix [3; 1; -2; 2; -5]%Z = 4.
Proof. reflexivity. Qed.

(** An overlay after [initialize_partition] agrees with its partition. *)
Lemma initialize_consistent phg :
  length (part_of phg) = N.to_nat (initialNumNodes (phg_hg phg)) →
  Forall (λ b, b < phg_k phg) (part_of phg) →
  consistent (initialize_partition phg).
Proof.
  intros Hlen Hall. unfold consistent, initialize_partition.
  cbn [phg_hg phg_k part_of pin_count_in_part connectivity_set part_weight].
  split_and!; [done|done|by rewrite length_fmap, length_ids..|
               by rewrite length_fmap, length_seq|].
  intros e [_ He%elem_of_ids]%list_elem_of_filter.
  unfold pin_count. cbn [pin_count_in_part]. unfold vget.
  rewrite !list_lookup_fmap.
  assert (ids (initialNumEdges (phg_hg phg)) !! N.to_nat e = Some e) as ->.
  { unfold ids. rewrite list_lookup_fmap, lookup_seq_lt by lia. simpl. f_equal. lia. }
  cbn [fmap option_fmap option_map default from_option id].
  rewrite !length_fmap, length_seq. split_and!; [done..|].
  intros b Hb. rewrite !list_lookup_fmap, lookup_seq_lt by done. done.
Qed.

Lemma forall_ids (Q : N → Prop) (m : N) :
  Forall Q (ids m) → ∀ v, (v < m)%N → Q v.
Proof. intros Hall v Hv. rewrite Forall_forall in Hall. by apply Hall, elem_of_ids. Qed.

(** A hypergraph built with stable construction lists the incident nets of
    every vertex in the order of their ids. *)
Lemma wf_incidence_sorted (H : StaticHypergraph) :
  Forall (λ v, incidentEdges H v = filter (λ e, v ∈ pins H e) (edges H))
         (ids (initialNumNodes H)) →
  Forall (λ e, NoDup (pins H e)) (edges H) →
  wf_incidence H.
Proof.
  intros Hinc Hnd. split.
  - intros v Hv. by rewrite (forall_ids _ _ Hinc v Hv).
  - by apply Forall_forall.
Qed.

(** C8. One localized search, started on an overlay that agrees with its
    partition and with an empty move tracker: afterwards the km1 objective is
    its value before the search minus the sum of the gains in the tracker that
    are not marked invalid. The tracker holds the moves of the search in
    order; those after the best prefix, and only those, have their gain marked
    invalid, and the overlay is the one that the moves of the best prefix
    alone produce. *)
Theorem findMoves_km1 invalidGain max_part_weight phg popped :
  wf_incidence (phg_hg phg) → consistent phg →
  Forall (λ c, (c.1 < initialNumNodes (phg_hg phg))%N ∧ c.2 < phg_k phg) popped →
  (∀ v, (v < initialNumNodes (phg_hg phg))%N →
        (invalidGain < - incident_weight (phg_hg phg) v)%Z) →
  let r := findMoves invalidGain max_part_weight phg [] popped in
  km1 r.1 = (km1 phg - accumulated_gain invalidGain r.2)%Z ∧
  ∃ moves, valid_moves phg moves ∧
    let best := best_prefix (gain <$> moves) in
    r.1 = replay phg (take best moves) ∧
    r.2 = take best moves ++ (mark_invalid invalidGain <$> drop best moves) ∧
    ∀ i m, r.2 !! i = Some m → (gain m = invalidGain ↔ best ≤ i).
Proof.
  intros Hwf Hc Hpop Hinv r.
  destruct (expand_spec max_part_weight phg [] popped Hwf Hc Hpop)
    as (moves & Hrun & Hval).
  set (best := best_prefix (gain <$> moves)).
  assert (best ≤ length moves) as Hbest.
  { unfold best. etrans; [apply best_prefix_le|]. by rewrite length_fmap. }
  assert (r = (replay phg (take best moves),
               take best moves ++ (mark_invalid invalidGain <$> drop best moves)))
    as Hr.
  { unfold r, findMoves. cbv zeta. rewrite Hrun. cbn [fst snd length].
    rewrite drop_0, Nat.add_0_l. fold best. unfold rollback. f_equal.
    by apply rollback_replay. }
  assert (valid_moves phg (take best moves)) as Hval'.
  { rewrite <-(take_drop best moves) in Hval. by apply valid_moves_app in Hval as [? _]. }
  pose proof (valid_moves_gain invalidGain phg _ Hinv Hval') as Hne.
  rewrite Hr. cbn [fst snd]. split.
  - destruct (replay_facts phg _ Hwf Hc Hval') as (_ & _ & _ & ->).
    unfold accumulated_gain. rewrite foldl_app, accumulated_gain_invalid.
    rewrite accumulated_gain_valid by done. lia.
  - exists moves. split; [done|]. cbv zeta. fold best. split_and!; [done..|].
    intros i m Hi. destruct (decide (best ≤ i)) as [Hle|Hlt].
    + rewrite lookup_app_r in Hi by (rewrite length_take; lia).
      apply list_lookup_fmap_Some in Hi as (m' & -> & _). done.
    + rewrite lookup_app_l in Hi by (rewrite length_take; lia).
      split; [|lia]. intros Hg. destruct (Hne m); [|done].
      by eapply list_elem_of_lookup_2.
Qed.

Lemma findMoves_km1_witness :
  let r := findMoves (-2147483648) [3; 3]%Z phg_merge []
             [(1%N, 0); (3%N, 0); (2%N, 1); (0%N, 1)] in
  km1 r.1 = (km1 phg_merge - accumulated_gain (-2147483648) r.2)%Z ∧
  ∃ moves, valid_moves phg_merge moves ∧
    let best := best_prefix (gain <$> moves) in
    r.1 = replay phg_merge (take best moves) ∧
    r.2 = take best moves ++ (mark_invalid (-2147483648) <$> drop best moves) ∧
    ∀ i m, r.2 !! i = Some m → (gain m = (-2147483648)%Z ↔ best ≤ i).
Proof.
  apply (findMoves_km1 (-2147483648) [3; 3]%Z phg_merge).
  - apply wf_incidence_sorted; by apply (bool_decide_unpack _).
  - apply initialize_consistent; [done|]. by apply (bool_decide_unpack _).
  - by apply (bool_decide_unpack _).
  - apply forall_ids. by apply (bool_decide_unpack _).
Defined.

End FMSpec.

(** ** Partition metrics *)

Module MetricsSpec.
Import Metrics.

Lemma filter_none {A} (Q : A → Prop) `{!∀ x, Decision (Q x)} (l : list A) :
  Forall (λ x, ¬ Q x) l → filter Q l = [].
Proof.
  induction 1 as [|x l Hx _ IH]; [done|].
  by rewrite filter_cons, decide_False.
Qed.

Section metrics.
Context {G : Type} `{HyperGraph G}.
Implicit Types hypergraph : G.

Lemma add_weight_0_r a : Hypergraph.add_weight a 0 = a.
Proof.
  unfold Hypergraph.add_weight. rewrite Z.add_0_r. case_decide as Hd; [|done].
  destruct Hd as [Ha _]. by apply wrap_weight_small.
Qed.

(** Wrapping the summands does not change the wrapped sum. *)
Lemma wrap_weight_terms {A} (f : A → Z) (l : list A) :
  Hypergraph.wrap_weight
    (foldr Z.add 0%Z ((λ x, Hypergraph.wrap_weight (f x)) <$> l))
  = Hypergraph.wrap_weight (foldr Z.add 0%Z (f <$> l)).
Proof.
  induction l as [|x l IH]; [done|].
  rewrite !fmap_cons. cbn [foldr].
  rewrite wrap_weight_add_l.
  rewrite <-wrap_weight_add_r, IH, wrap_weight_add_r. done.
Qed.

(** A loop that adds one term per hyperedge returns the wrapped sum of the
    terms. *)
Lemma accumulate_terms (step : Z → N → Z) (g : N → Z) (l : list N) :
  (∀ acc he, he ∈ l →
     step acc he = Hypergraph.add_weight acc (Hypergraph.wrap_weight (g he))) →
  foldl step 0%Z l = Hypergraph.wrap_weight (foldr Z.add 0%Z (g <$> l)).
Proof.
  intros Hf.
  transitivity
    (Hypergraph.add_weights 0 ((λ he, Hypergraph.wrap_weight (g he)) <$> l)).
  { unfold Hypergraph.add_weights. generalize 0%Z.
    induction l as [|he l IH]; intros a; [done|].
    rewrite fmap_cons. cbn [foldl]. rewrite Hf by left.
    apply IH. intros acc he' Hhe'. apply Hf. by right. }
  rewrite add_weights_fits; [|done|].
  - by rewrite Z.add_0_l, wrap_weight_terms.
  - rewrite Forall_fmap, Forall_forall. intros he Hhe. cbn.
    apply wrap_weight_fits.
Qed.

Lemma hyperedgeCut_wraps hypergraph :
  fits_metrics hypergraph →
  hyperedgeCut hypergraph = Hypergraph.wrap_weight (cut_sum hypergraph).
Proof.
  intros Hfit. unfold hyperedgeCut, cut_sum.
  apply (accumulate_terms _
           (λ he, if (1 <? connectivity hypergraph he)%Z
                  then edgeWeight hypergraph he else 0%Z)).
  intros cut he Hhe. destruct (Hfit he Hhe) as [Hw _].
  destruct (1 <? connectivity hypergraph he)%Z.
  - by rewrite wrap_weight_small.
  - by rewrite wrap_weight_small, add_weight_0_r.
Qed.

Lemma km1_wraps hypergraph :
  fits_metrics hypergraph →
  km1 hypergraph = Hypergraph.wrap_weight (km1_sum hypergraph).
Proof.
  intros Hfit. unfold km1, km1_sum.
  apply (accumulate_terms _
           (λ he, (Z.max (connectivity hypergraph he - 1) 0
                   * edgeWeight hypergraph he)%Z)).
  intros acc he Hhe. destruct (Hfit he Hhe) as [Hw Hc]. f_equal.
  assert (Hypergraph.add_weight (connectivity hypergraph he) (-1)
          = (connectivity hypergraph he - 1)%Z) as ->.
  { rewrite add_weight_fits; [|unfold Hypergraph.fits_weight; lia..].
    apply wrap_weight_small. unfold Hypergraph.fits_weight. lia. }
  apply mul_weight_fits; [|done]. unfold Hypergraph.fits_weight. lia.
Qed.

Lemma soed_wraps hypergraph :
  fits_metrics hypergraph →
  soed hypergraph = Hypergraph.wrap_weight (soed_sum hypergraph).
Proof.
  intros Hfit. unfold soed, soed_sum.
  apply (accumulate_terms _
           (λ he, if (1 <? connectivity hypergraph he)%Z
                  then (connectivity hypergraph he * edgeWeight hypergraph he)%Z
                  else 0%Z)).
  intros acc he Hhe. destruct (Hfit he Hhe) as [Hw Hc]. cbn zeta.
  destruct (1 <? connectivity hypergraph he)%Z.
  - f_equal. apply mul_weight_fits; [|done]. unfold Hypergraph.fits_weight. lia.
  - by rewrite wrap_weight_small, add_weight_0_r.
Qed.

Lemma soed_sum_split hypergraph :
  soed_sum hypergraph = (km1_sum hypergraph + cut_sum hypergraph)%Z.
Proof.
  unfold soed_sum, km1_sum, cut_sum.
  induction (edges hypergraph) as [|he l IH]; [done|].
  rewrite !fmap_cons. cbn [foldr]. rewrite IH.
  destruct (Z.ltb_spec 1 (connectivity hypergraph he)) as [Hc|Hc];
    [rewrite Z.max_l by lia|rewrite Z.max_r by lia]; lia.
Qed.

(** X9. On a hypergraph whose weights and connectivities are values of
    their 32-bit types, [soed] returns [km1 + hyperedgeCut] computed in
    [HyperedgeWeight]: the sum of the two results, wrapped to 32 bits, and so
    the sum itself when that is a value of the type. *)
Theorem soed_is_km1_plus_cut hypergraph :
  fits_metrics hypergraph →
  soed hypergraph
  = Hypergraph.add_weight (km1 hypergraph) (hyperedgeCut hypergraph) ∧
  (Hypergraph.fits_weight (km1 hypergraph + hyperedgeCut hypergraph) →
   soed hypergraph = (km1 hypergraph + hyperedgeCut hypergraph)%Z).
Proof.
  intros Hfit.
  assert (soed hypergraph
          = Hypergraph.wrap_weight (km1 hypergraph + hyperedgeCut hypergraph))
    as Heq.
  { rewrite soed_wraps, km1_wraps, hyperedgeCut_wraps by done.
    by rewrite wrap_weight_add_l, wrap_weight_add_r, soed_sum_split. }
  split.
  - rewrite Heq, add_weight_fits; [done|..].
    + rewrite km1_wraps by done. apply wrap_weight_fits.
    + rewrite hyperedgeCut_wraps by done. apply wrap_weight_fits.
  - intros Hsum. by rewrite Heq, wrap_weight_small.
Qed.

Lemma metrics_bounds hypergraph (kk : Z) (l : list N) :
  (∀ he, he ∈ l → (0 ≤ edgeWeight hypergraph he)%Z ∧
                  (connectivity hypergraph he ≤ kk)%Z) →
  let k' := foldr Z.add 0%Z
              ((λ he, (Z.max (connectivity hypergraph he - 1) 0
                       * edgeWeight hypergraph he)%Z) <$> l) in
  let c' := foldr Z.add 0%Z
              ((λ he, if (1 <? connectivity hypergraph he)%Z
                      then edgeWeight hypergraph he else 0%Z) <$> l) in
  (0 ≤ c' ≤ k')%Z ∧ (k' ≤ (kk - 1) * c')%Z.
Proof.
  induction l as [|he l IH]; intros Hl; cbn zeta; [cbn; lia|].
  rewrite !fmap_cons. cbn [foldr].
  destruct (Hl he) as [Hw Hcon]; [left|].
  destruct IH as [IH1 IH2]; [intros he' Hin; apply Hl; by right|].
  cbn zeta in IH1, IH2.
  destruct (Z.ltb_spec 1 (connectivity hypergraph he));
    [rewrite Z.max_l by lia|rewrite Z.max_r by lia]; nia.
Qed.

(** X10. When every weight is a non-negative value of the 32-bit type, no
    hyperedge connects more than [k] blocks and the connectivity metric, as
    an integer, is a value of the type, then the cut is at most the
    connectivity metric and the connectivity metric at most [k - 1] times the
    cut; both are 0 or more, and both are the integer sums. *)
Theorem cut_le_km1 hypergraph (k : Z) :
  (∀ he, he ∈ edges hypergraph →
         (0 ≤ edgeWeight hypergraph he < 2 ^ 31)%Z ∧
         (0 ≤ connectivity hypergraph he ≤ k)%Z) →
  (k < 2 ^ 31)%Z →
  Hypergraph.fits_weight (km1_sum hypergraph) →
  (0 ≤ hyperedgeCut hypergraph ≤ km1 hypergraph)%Z ∧
  (km1 hypergraph ≤ (k - 1) * hyperedgeCut hypergraph)%Z ∧
  hyperedgeCut hypergraph = cut_sum hypergraph ∧
  km1 hypergraph = km1_sum hypergraph.
Proof.
  intros Hl Hk Hsum.
  assert (fits_metrics hypergraph) as Hfit.
  { intros he Hhe. destruct (Hl he Hhe) as [Hw Hc].
    unfold Hypergraph.fits_weight. lia. }
  destruct (metrics_bounds hypergraph k (edges hypergraph)) as [Hb1 Hb2].
  { intros he Hhe. destruct (Hl he Hhe). lia. }
  cbn zeta in Hb1, Hb2. fold (km1_sum hypergraph) in Hb1, Hb2.
  fold (cut_sum hypergraph) in Hb1, Hb2.
  rewrite km1_wraps, hyperedgeCut_wraps by done.
  rewrite !wrap_weight_small; [lia|..]; unfold Hypergraph.fits_weight in *; lia.
Qed.

(** X11. [hypernodeDegreeRank] with a rank below the number of vertices
    returns the degree of a vertex such that at most [rank] vertices have a
    smaller degree and more than [rank] vertices have this degree or a
    smaller one; rank 0 gives the smallest degree of the hypergraph. *)
Theorem hypernodeDegreeRank_spec hypergraph (rank : nat) :
  rank < length (nodes hypergraph) →
  ∃ d, hypernodeDegreeRank hypergraph rank = Some d ∧
       (∃ hn, hn ∈ nodes hypergraph ∧ nodeDegree hypergraph hn = d) ∧
       length (filter (λ hn, nodeDegree hypergraph hn < d)%N (nodes hypergraph))
         ≤ rank ∧
       rank < length (filter (λ hn, nodeDegree hypergraph hn ≤ d)%N
                             (nodes hypergraph)).
Proof.
  intros Hrank. unfold hypernodeDegreeRank.
  set (degs := nodeDegree hypergraph <$> nodes hypergraph).
  pose proof (merge_sort_Permutation N.le degs) as Hperm.
  assert (StronglySorted N.le (merge_sort N.le degs)) as Hsort.
  { apply StronglySorted_merge_sort; [intros x y z; apply N.le_trans|].
    intros x y. lia. }
  destruct (lookup_lt_is_Some_2 (merge_sort N.le degs) rank) as [d Hd].
  { rewrite Hperm. unfold degs. by rewrite length_fmap. }
  exists d. split; [done|].
  assert (∀ (P : N → Prop) (Hdec : ∀ x, Decision (P x)),
            length (filter (λ hn, P (nodeDegree hypergraph hn)) (nodes hypergraph))
            = length (filter P (merge_sort N.le degs))) as Hcount.
  { intros P Hdec. rewrite Hperm. unfold degs. clear.
    induction (nodes hypergraph) as [|hn l IH]; [done|].
    rewrite fmap_cons, !filter_cons. destruct (decide (P _)); cbn; lia. }
  pose proof (Hcount (λ x, x < d)%N _) as Hlt.
  pose proof (Hcount (λ x, x ≤ d)%N _) as Hle.
  cbn beta in Hlt, Hle. rewrite Hlt, Hle. clear Hcount Hlt Hle.
  rewrite <-(take_drop_middle _ _ _ Hd) in Hsort.
  apply StronglySorted_app in Hsort as (Hx & _ & Hs2).
  apply StronglySorted_inv in Hs2 as [_ Hge].
  pose proof (lookup_lt_Some _ _ _ Hd) as Hlen.
  split_and!.
  - apply list_elem_of_lookup_2 in Hd. rewrite Hperm in Hd.
    apply list_elem_of_fmap in Hd as (hn & -> & Hhn). by exists hn.
  - rewrite <-(take_drop_middle _ _ _ Hd).
    rewrite filter_app, filter_cons, decide_False by lia.
    assert (filter (λ x, x < d)%N (drop (S rank) (merge_sort N.le degs)) = [])
      as ->.
    { apply filter_none. rewrite Forall_forall in Hge |- *.
      intros x Hx'. specialize (Hge x Hx'). lia. }
    rewrite app_nil_r. etrans; [apply length_filter|].
    rewrite length_take. lia.
  - rewrite <-(take_drop_middle _ _ _ Hd).
    rewrite filter_app, filter_cons, decide_True by lia.
    rewrite length_app. cbn [length].
    assert (filter (λ x, x ≤ d)%N (take rank (merge_sort N.le degs))
            = take rank (merge_sort N.le degs)) as ->.
    { apply ContractionSpec.filter_all. rewrite Forall_forall. intros x Hx'.
      apply (Hx x d Hx'). left. }
    rewrite length_take. lia.
Qed.

End metrics.

Lemma hypernodeDegreeRank_spec_witness :
  ∃ d, hypernodeDegreeRank table_example 0 = Some d ∧
       (∃ hn, hn ∈ nodes table_example ∧ nodeDegree table_example hn = d) ∧
       length (filter (λ hn, nodeDegree table_example hn < d)%N
                      (nodes table_example)) ≤ 0 ∧
       0 < length (filter (λ hn, nodeDegree table_example hn ≤ d)%N
                          (nodes table_example)).
Proof. apply (hypernodeDegreeRank_spec table_example 0). simpl. lia. Defined.

Lemma soed_is_km1_plus_cut_witness :
  soed table_example
  = Hypergraph.add_weight (km1 table_example) (hyperedgeCut table_example) ∧
  (Hypergraph.fits_weight (km1 table_example + hyperedgeCut table_example) →
   soed table_example = (km1 table_example + hyperedgeCut table_example)%Z).
Proof.
  apply (soed_is_km1_plus_cut table_example).
  intros he Hhe. cbv in Hhe.
  repeat (apply elem_of_cons in Hhe as [->|Hhe];
          [cbv; repeat split; congruence|]).
  by apply elem_of_nil in Hhe.
Defined.

Lemma cut_le_km1_witness :
  (0 ≤ hyperedgeCut table_example ≤ km1 table_example)%Z ∧
  (km1 table_example ≤ (3 - 1) * hyperedgeCut table_example)%Z ∧
  hyperedgeCut table_example = cut_sum table_example ∧
  km1 table_example = km1_sum table_example.
Proof.
  apply (cut_le_km1 table_example 3).
  - intros he Hhe. cbv in Hhe.
    repeat (apply elem_of_cons in Hhe as [->|Hhe];
            [cbv; repeat split; congruence|]).
    by apply elem_of_nil in Hhe.
  - lia.
  - vm_compute. split; congruence.
Defined.

(** The accumulation overflows: one hyperedge of weight [2^30] that connects
    four blocks has the connectivity metric [3 * 2^30], which [km1] returns
    as a negative number, below the cut. *)
Remark km1_overflows :
  km1 table_heavy = (-1073741824)%Z ∧ hyperedgeCut table_heavy = 1073741824%Z ∧
  km1_sum table_heavy = 3221225472%Z.
Proof. by vm_compute. Qed.

(** X12. On a partitioned hypergraph in which every hyperedge connects at
    least one block and fewer than [2^31], with weights of the 32-bit type,
    [km1] of [metrics.h] is the connectivity metric of the glossary, the sum
    of [(connectivity - 1) * weight], wrapped to 32 bits; it is that sum when
    the sum is a value of the type. *)
Theorem km1_is_glossary_km1 (phg : FM.PartitionedHypergraph) :
  (∀ e, e ∈ Hypergraph.edges (FM.phg_hg phg) →
        1 ≤ FM.connectivity phg e ∧
        (Z.of_nat (FM.connectivity phg e) < 2 ^ 31)%Z ∧
        Hypergraph.fits_weight (Hypergraph.edgeWeight (FM.phg_hg phg) e)) →
  km1 phg = Hypergraph.wrap_weight (FM.km1 phg) ∧
  (Hypergraph.fits_weight (FM.km1 phg) → km1 phg = FM.km1 phg).
Proof.
  intros Hcon.
  assert (km1 phg = Hypergraph.wrap_weight (FM.km1 phg)) as Heq.
  { rewrite km1_wraps.
    - f_equal. unfold km1_sum, FM.km1.
      cbn [edges connectivity edgeWeight FM_HyperGraph].
      f_equal. apply list_fmap_ext. intros i e He.
      apply list_elem_of_lookup_2 in He. destruct (Hcon e He) as (H1 & _ & _).
      rewrite Z.max_l; lia.
    - intros e He. cbn [edges connectivity edgeWeight FM_HyperGraph] in *.
      destruct (Hcon e He) as (H1 & H2 & H3). split; [done|lia]. }
  split; [done|]. intros Hfit. by rewrite Heq, wrap_weight_small.
Qed.

Lemma km1_is_glossary_km1_witness :
  km1 FM.phg_merge = Hypergraph.wrap_weight (FM.km1 FM.phg_merge) ∧
  (Hypergraph.fits_weight (FM.km1 FM.phg_merge) →
   km1 FM.phg_merge = FM.km1 FM.phg_merge).
Proof.
  apply (km1_is_glossary_km1 FM.phg_merge). intros e He.
  cbv in He.
  repeat (apply elem_of_cons in He as [->|He];
          [vm_compute; repeat split; (lia || congruence)|]).
  by apply elem_of_nil in He.
Defined.

End MetricsSpec.

(** ** More on the contraction *)

Module CoarseningSpec.
Import Hypergraph Contraction Coarsening GraphFactorySpec ContractionSpec.

Local Abbreviation sum := (foldr Z.add 0%Z) (only parsing).

Lemma sum_app (l k : list Z) : sum (l ++ k) = (sum l + sum k)%Z.
Proof. induction l as [|x l IH]; cbn [app foldr]; lia. Qed.

Lemma sum_join (ls : list (list Z)) : sum (mjoin ls) = sum (sum <$> ls).
Proof.
  induction ls as [|l ls IH]; [done|].
  rewrite fmap_cons. change (mjoin (l :: ls)) with (l ++ mjoin ls).
  cbn [foldr]. by rewrite sum_app, IH.
Qed.

Lemma sum_join' {A} (f : A → Z) (ls : list (list A)) :
  sum ((λ l, sum (f <$> l)) <$> ls) = sum (f <$> mjoin ls).
Proof.
  induction ls as [|l ls IH]; [done|].
  rewrite fmap_cons. change (mjoin (l :: ls)) with (l ++ mjoin ls).
  cbn [foldr]. by rewrite fmap_app, sum_app, IH.
Qed.

Lemma sum_zero {A} (l : list A) : sum ((λ _, 0%Z) <$> l) = 0%Z.
Proof. induction l as [|x l IH]; [done|]. rewrite fmap_cons. cbn [foldr]. lia. Qed.

Lemma sum_add {A} (f g : A → Z) (l : list A) :
  sum ((λ x, f x + g x)%Z <$> l) = (sum (f <$> l) + sum (g <$> l))%Z.
Proof.
  induction l as [|x l IH]; [done|]. rewrite !fmap_cons. cbn [foldr]. lia.
Qed.

Lemma NoDup_ids (m : N) : NoDup (ids m).
Proof.
  unfold ids. apply NoDup_fmap_2; [|apply NoDup_seq].
  intros x y Hxy. lia.
Qed.

Lemma forall_ids' (Q : N → Prop) (m : N) :
  Forall Q (ids m) → ∀ v, (v < m)%N → Q v.
Proof.
  intros Hall v Hv. rewrite Forall_forall in Hall. by apply Hall, elem_of_ids.
Qed.

(** A value counted at one id. *)
Lemma sum_indicator (m c : N) (x : Z) :
  (c < m)%N → sum ((λ c', if decide (c = c') then x else 0%Z) <$> ids m) = x.
Proof.
  intros Hc. rewrite (FMSpec.sum_filter (λ c', c = c') (λ _, x)).
  rewrite (filter_ids_unique _ m c); [|intros; split; congruence].
  rewrite decide_True by done. cbn. lia.
Qed.

(** The weights of the clusters add up to the weights of the vertices. *)
Lemma sum_by_cluster (w : N → Z) (f : N → N) (m : N) (l : list N) :
  (∀ u, u ∈ l → (f u < m)%N) →
  sum ((λ c, sum (w <$> filter (λ u, f u = c) l)) <$> ids m) = sum (w <$> l).
Proof.
  induction l as [|u l IH]; intros Hl.
  { cbn [filter list_filter fmap list_fmap foldr]. apply sum_zero. }
  rewrite fmap_cons. cbn [foldr]. rewrite <-IH by (intros; apply Hl; by right).
  rewrite <-(sum_indicator m (f u) (w u)) by (apply Hl; left).
  rewrite <-sum_add. apply FMSpec.sum_ext. intros c _.
  rewrite filter_cons. case_decide; [done|]. lia.
Qed.

(** Wrapping the summands does not change the wrapped sum. *)
Lemma wrap_weight_sum {A} (f : A → Z) (l : list A) :
  wrap_weight (sum ((λ x, wrap_weight (f x)) <$> l)) = wrap_weight (sum (f <$> l)).
Proof.
  induction l as [|x l IH]; [done|].
  rewrite !fmap_cons. cbn [foldr].
  rewrite wrap_weight_add_l.
  rewrite <-wrap_weight_add_r, IH, wrap_weight_add_r. done.
Qed.

Lemma sum_nonneg {A} (f : A → Z) (l : list A) :
  Forall (λ x, 0 ≤ f x)%Z l → (0 ≤ sum (f <$> l))%Z.
Proof.
  induction 1 as [|x l Hx _ IH]; [done|]. rewrite fmap_cons. cbn [foldr]. lia.
Qed.

Lemma sum_filter_le {A} (Q : A → Prop) `{!∀ x, Decision (Q x)} (f : A → Z)
    (l : list A) :
  Forall (λ x, 0 ≤ f x)%Z l → (sum (f <$> filter Q l) ≤ sum (f <$> l))%Z.
Proof.
  induction 1 as [|x l Hx _ IH]; [done|].
  rewrite filter_cons. case_decide; rewrite ?fmap_cons; cbn [foldr]; lia.
Qed.

Lemma sum_part_le {A} (f : A → Z) (ls : list (list A)) (l : list A) :
  Forall (λ x, 0 ≤ f x)%Z (mjoin ls) → l ∈ ls →
  (sum (f <$> l) ≤ sum (f <$> mjoin ls))%Z.
Proof.
  induction ls as [|l' ls IH]; intros Hall Hl; [by apply elem_of_nil in Hl|].
  change (mjoin (l' :: ls)) with (l' ++ mjoin ls) in *.
  apply Forall_app in Hall as [Hl' Hls].
  rewrite fmap_app, sum_app.
  pose proof (sum_nonneg f l' Hl'). pose proof (sum_nonneg f (mjoin ls) Hls).
  apply elem_of_cons in Hl as [->|Hl]; [lia|].
  specialize (IH Hls Hl). lia.
Qed.

(** X13. When the vertex weights of the input are values of
    [HypernodeWeight], the weight of every vertex of the hypergraph that
    [contract] returns is the summed weight of the enabled vertices of its
    cluster, wrapped to 32 bits, and the coarse vertices together weigh as
    much as the enabled vertices of the input modulo [2^32]. When no weight
    is negative and the total weight of the enabled vertices is a value of
    the type, nothing wraps: both are the sums themselves. *)
Theorem contract_node_weights seed H clusters chg clusters' :
  wf_hypergraph H → wf_clusters H clusters →
  Forall (λ u, fits_weight (nodeWeight H u)) (nodes H) →
  contract seed H clusters = Some (chg, clusters') →
  (∀ c, (c < initialNumNodes chg)%N →
        nodeWeight chg c = wrap_weight (cluster_weight H clusters' c)) ∧
  wrap_weight (sum (nodeWeight chg <$> ids (initialNumNodes chg)))
  = wrap_weight (sum (nodeWeight H <$> nodes H)) ∧
  (Forall (λ u, 0 ≤ nodeWeight H u)%Z (nodes H) →
   fits_weight (sum (nodeWeight H <$> nodes H)) →
   (∀ c, (c < initialNumNodes chg)%N →
         nodeWeight chg c = cluster_weight H clusters' c) ∧
   sum (nodeWeight chg <$> ids (initialNumNodes chg))
   = sum (nodeWeight H <$> nodes H)).
Proof.
  intros Hwf Hcl Hfits Hsome.
  destruct (contract_merged seed H clusters chg clusters' Hwf Hcl Hsome)
    as (Hcl' & Hw & _).
  assert (∀ c, (c < initialNumNodes chg)%N →
            nodeWeight chg c = wrap_weight (cluster_weight H clusters' c)) as Hw'.
  { intros c Hc. rewrite (Hw c Hc). unfold aggregated_weight, cluster_weight.
    rewrite add_weights_fits; [done|done|].
    apply Forall_fmap, Forall_forall. intros u [_ Hu]%list_elem_of_filter.
    rewrite Forall_forall in Hfits. by apply Hfits. }
  assert (sum (cluster_weight H clusters' <$> ids (initialNumNodes chg))
          = sum (nodeWeight H <$> nodes H)) as Htotal.
  { unfold cluster_weight. apply sum_by_cluster.
    intros u [Hen Hu%elem_of_ids]%list_elem_of_filter.
    destruct (contract_spec seed H clusters Hwf Hcl)
      as (reps & Ms & _ & _ & _ & _ & Hle & Hout).
    destruct (Hout (Hle _ Hsome)) as (_ & chg0 & Hsome0 & Hnc & _).
    rewrite Hsome in Hsome0. injection Hsome0 as <- _.
    destruct Hwf as (Hn & _).
    destruct (compactify_spec H clusters Hn Hcl) as (_ & _ & Hlt & _).
    rewrite Hcl', Hnc. by apply Hlt. }
  split_and!; [done| |].
  - rewrite (FMSpec.sum_ext _ (λ c, wrap_weight (cluster_weight H clusters' c)))
      by (intros c Hc%elem_of_ids; by apply Hw').
    by rewrite wrap_weight_sum, Htotal.
  - intros Hpos [_ Hmax].
    assert (∀ c, (c < initialNumNodes chg)%N →
              nodeWeight chg c = cluster_weight H clusters' c) as Hexact.
    { intros c Hc. rewrite (Hw' c Hc). apply wrap_weight_small.
      unfold cluster_weight.
      pose proof (sum_filter_le (λ u, vget 0%N clusters' u = c) (nodeWeight H)
                    (nodes H) Hpos) as Hle.
      assert (0 ≤ sum (nodeWeight H
                         <$> filter (λ u, vget 0%N clusters' u = c) (nodes H)))%Z
        as Hge.
      { apply sum_nonneg, Forall_forall. intros u [_ Hu]%list_elem_of_filter.
        rewrite Forall_forall in Hpos. by apply Hpos. }
      unfold fits_weight. lia. }
    split; [done|]. rewrite <-Htotal. apply FMSpec.sum_ext.
    intros c Hc%elem_of_ids. by apply Hexact.
Qed.

Lemma contract_node_weights_witness :
  (∀ c, (c < initialNumNodes chg_merge)%N →
        nodeWeight chg_merge c
        = wrap_weight (cluster_weight H_merge [0; 1; 1; 2]%N c)) ∧
  wrap_weight (sum (nodeWeight chg_merge <$> ids (initialNumNodes chg_merge)))
  = wrap_weight (sum (nodeWeight H_merge <$> nodes H_merge)) ∧
  (Forall (λ u, 0 ≤ nodeWeight H_merge u)%Z (nodes H_merge) →
   fits_weight (sum (nodeWeight H_merge <$> nodes H_merge)) →
   (∀ c, (c < initialNumNodes chg_merge)%N →
         nodeWeight chg_merge c = cluster_weight H_merge [0; 1; 1; 2]%N c) ∧
   sum (nodeWeight chg_merge <$> ids (initialNumNodes chg_merge))
   = sum (nodeWeight H_merge <$> nodes H_merge)).
Proof.
  apply (contract_node_weights 42 H_merge clusters_merge).
  - apply wf_H_merge.
  - apply wf_H_merge.
  - by apply (bool_decide_unpack _).
  - vm_compute. reflexivity.
Defined.

(** X14. When the net weights of the input are values of [HyperedgeWeight],
    the nets of the hypergraph that [contract] returns weigh together as
    much as the enabled nets of the input that keep two or more coarse pins,
    modulo [2^32]: merging identical nets adds their weights up, and only
    nets with fewer than two coarse pins are dropped. When none of these
    weights is negative and their sum is a value of the type, the two totals
    are equal. *)
Theorem contract_net_weights seed H clusters chg clusters' :
  wf_hypergraph H → wf_clusters H clusters →
  Forall (λ e, fits_weight (edgeWeight H e)) (edges H) →
  contract seed H clusters = Some (chg, clusters') →
  let kept := filter (λ e, 2 ≤ length (coarse_pins clusters' (pins H e)))
                     (edges H) in
  wrap_weight (sum (edgeWeight chg <$> ids (initialNumEdges chg)))
  = wrap_weight (sum (edgeWeight H <$> kept)) ∧
  (Forall (λ e, 0 ≤ edgeWeight H e)%Z kept →
   fits_weight (sum (edgeWeight H <$> kept)) →
   sum (edgeWeight chg <$> ids (initialNumEdges chg))
   = sum (edgeWeight H <$> kept)).
Proof.
  intros Hwf Hcl Hfits Hsome kept.
  destruct (contract_merged seed H clusters chg clusters' Hwf Hcl Hsome)
    as (_ & _ & _ & merged & Hlen & Hsplit & Hnets).
  fold kept in Hsplit.
  assert (∀ M, M ∈ merged → Forall (λ e, fits_weight (edgeWeight H e)) M)
    as HfitM.
  { intros M HM. apply Forall_forall. intros e He.
    assert (e ∈ mjoin merged) as Hin
      by (apply list_elem_of_join; by exists M).
    rewrite Hsplit in Hin. apply list_elem_of_filter in Hin as [_ Hin].
    rewrite Forall_forall in Hfits. by apply Hfits. }
  assert (edgeWeight chg <$> ids (initialNumEdges chg)
          = (λ M, wrap_weight (sum (edgeWeight H <$> M))) <$> merged) as Hws.
  { apply list_eq. intros k.
    destruct (decide (k < length merged)) as [Hk|Hk].
    - rewrite lookup_fmap_ids by lia.
      destruct (lookup_lt_is_Some_2 merged k Hk) as [M HM].
      rewrite list_lookup_fmap, HM. cbn. f_equal.
      destruct (Hnets _ _ HM) as (_ & _ & _ & ->).
      apply merged_weight_fits, HfitM. by eapply list_elem_of_lookup_2.
    - rewrite (lookup_ge_None_2 (_ <$> merged)) by (rewrite length_fmap; lia).
      apply lookup_ge_None_2. rewrite length_fmap, length_ids. lia. }
  assert (sum ((λ M, sum (edgeWeight H <$> M)) <$> merged)
          = sum (edgeWeight H <$> kept)) as Htotal.
  { rewrite (sum_join' (edgeWeight H)).
    apply FMSpec.sum_Permutation. by rewrite Hsplit. }
  rewrite Hws. split.
  - by rewrite wrap_weight_sum, Htotal.
  - intros Hpos [_ Hmax]. rewrite <-Htotal. apply FMSpec.sum_ext.
    intros M HM. apply wrap_weight_small.
    assert (Forall (λ e, 0 ≤ edgeWeight H e)%Z (mjoin merged)) as Hpos'.
    { apply Forall_forall. intros e He. rewrite Hsplit in He.
      rewrite Forall_forall in Hpos. by apply Hpos. }
    pose proof (sum_part_le (edgeWeight H) merged M Hpos' HM) as Hle.
    assert (0 ≤ sum (edgeWeight H <$> M))%Z as Hge.
    { apply sum_nonneg, Forall_forall. intros e He.
      rewrite Forall_forall in Hpos'. apply Hpos'.
      apply list_elem_of_join. by exists M. }
    rewrite (sum_join' (edgeWeight H)) in Htotal.
    unfold fits_weight. lia.
Qed.

Lemma contract_net_weights_witness :
  let kept := filter (λ e, 2 ≤ length (coarse_pins [0; 1; 1; 2]%N (pins H_merge e)))
                     (edges H_merge) in
  wrap_weight (sum (edgeWeight chg_merge <$> ids (initialNumEdges chg_merge)))
  = wrap_weight (sum (edgeWeight H_merge <$> kept)) ∧
  (Forall (λ e, 0 ≤ edgeWeight H_merge e)%Z kept →
   fits_weight (sum (edgeWeight H_merge <$> kept)) →
   sum (edgeWeight chg_merge <$> ids (initialNumEdges chg_merge))
   = sum (edgeWeight H_merge <$> kept)).
Proof.
  apply (contract_net_weights 42 H_merge clusters_merge).
  - apply wf_H_merge.
  - apply wf_H_merge.
  - by apply (bool_decide_unpack _).
  - vm_compute. reflexivity.
Defined.

(** The new id of an enabled vertex is the number of marked cluster ids up
    to its own, less one. *)
Lemma compactify_value (H : StaticHypergraph) (clusters : list HypernodeID) :
  let n := initialNumNodes H in
  (0 < n < 2 ^ 32 - 1)%N →
  wf_clusters H clusters →
  let marks := mark_clusters n clusters in
  let clusters' := relabel H (parallel_prefix_sum 0 marks) clusters in
  ∀ u, (u < n)%N → nodeIsEnabled H u = true →
    marks !! N.to_nat (vget 0%N clusters u) = Some 1%N ∧
    (vget 0%N clusters' u + 1)%N
    = foldr N.add 0%N (take (S (N.to_nat (vget 0%N clusters u))) marks).
Proof.
  intros n Hn [Hcl Hcr] marks clusters' u Hu Hen.
  destruct (mark_clusters_spec n clusters Hcr) as [Hml Hmark].
  fold marks in Hml, Hmark.
  assert (Forall (λ x, x ≤ 1)%N marks) as Hle1.
  { apply Forall_lookup_2. intros i x Hix.
    assert (i < length marks) as Hi by (by eapply lookup_lt_Some).
    destruct (Hmark (N.of_nat i)) as [[Hx _]|[Hx _]]; [pow_lia|..];
      unfold vget in Hx; rewrite Nat2N.id, Hix in Hx; simpl in Hx; pow_lia. }
  pose proof (foldr_add_bounded marks Hle1) as Hbound.
  destruct (parallel_prefix_sum_spec marks 0) as [Hsl Hsum]; [pow_lia|].
  set (mapping := parallel_prefix_sum 0 marks) in *.
  destruct (foldl_vset_ids 0%N
              (λ u c, if nodeIsEnabled H u
                      then sub32 (vget 0%N mapping c) 1 else kInvalidHypernode)
              clusters (N.to_nat n)) as (_ & Hrlt & _); [pow_lia|].
  rewrite N2Nat.id in Hrlt.
  assert (clusters' = foldl (λ l u, vset l u
            (if nodeIsEnabled H u then sub32 (vget 0%N mapping (vget 0%N l u)) 1
             else kInvalidHypernode)) clusters (ids n)) as Hcl' by done.
  rewrite <-Hcl' in Hrlt. clear Hcl'.
  set (c := vget 0%N clusters u).
  assert (c < n)%N as Hc by (by apply Hcr).
  assert (marks !! N.to_nat c = Some 1%N) as Hmc.
  { destruct (Hmark c Hc) as [[H1 _]|[_ Hno]]; [|by destruct (Hno u Hu)].
    unfold vget in H1.
    destruct (marks !! N.to_nat c) as [x|] eqn:Hx; simpl in H1; [by subst|].
    apply lookup_ge_None in Hx. pow_lia. }
  split; [done|].
  rewrite Hrlt, Hen by done. fold c.
  assert (vget 0%N mapping c = foldr N.add 0%N (take (S (N.to_nat c)) marks)) as ->.
  { unfold vget. rewrite Hsum by pow_lia. simpl. pow_lia. }
  pose proof (foldr_add_lookup _ _ _ Hmc) as Hge1.
  assert (foldr N.add 0%N (take (S (N.to_nat c)) marks) ≤ foldr N.add 0%N marks)%N
    as Hlec.
  { rewrite <-(take_ge marks (length marks)) at 2 by pow_lia.
    apply foldr_add_take_le. pow_lia. }
  unfold sub32, wrap32.
  replace (foldr N.add 0%N (take (S (N.to_nat c)) marks) + 2 ^ 32 - 1)%N
    with (foldr N.add 0%N (take (S (N.to_nat c)) marks) - 1 + 1 * 2 ^ 32)%N
    by pow_lia.
  rewrite N.Div0.mod_add, N.mod_small by pow_lia. pow_lia.
Qed.

(** X15. The cluster ids that [contract] writes back keep the clusters and
    their order: two enabled vertices get the same new id exactly if they
    had the same cluster id, and the smaller new id exactly if they had the
    smaller cluster id. *)
Theorem contract_keeps_cluster_order seed H clusters chg clusters' u u' :
  wf_hypergraph H → wf_clusters H clusters →
  contract seed H clusters = Some (chg, clusters') →
  (u < initialNumNodes H)%N → (u' < initialNumNodes H)%N →
  nodeIsEnabled H u = true → nodeIsEnabled H u' = true →
  (vget 0%N clusters' u = vget 0%N clusters' u'
   ↔ vget 0%N clusters u = vget 0%N clusters u') ∧
  (vget 0%N clusters' u < vget 0%N clusters' u'
   ↔ vget 0%N clusters u < vget 0%N clusters u')%N.
Proof.
  intros Hwf Hcl Hsome Hu Hu' Hen Hen'.
  destruct (contract_merged seed H clusters chg clusters' Hwf Hcl Hsome)
    as (-> & _).
  destruct Hwf as (Hn & _).
  destruct (compactify_value H clusters Hn Hcl u Hu Hen) as [Hm Hv].
  destruct (compactify_value H clusters Hn Hcl u' Hu' Hen') as [Hm' Hv'].
  set (marks := mark_clusters (initialNumNodes H) clusters) in *.
  set (c := vget 0%N clusters u) in *. set (c' := vget 0%N clusters u') in *.
  assert (∀ a b, (a < b)%N → marks !! N.to_nat b = Some 1%N →
            (foldr N.add 0%N (take (S (N.to_nat a)) marks)
             < foldr N.add 0%N (take (S (N.to_nat b)) marks))%N) as Hstrict.
  { intros a b Hab Hb. rewrite (take_S_r _ (N.to_nat b) _ Hb), foldr_app.
    pose proof (foldr_add_take_le marks (S (N.to_nat a)) (N.to_nat b) ltac:(lia))
      as Hle.
    assert (∀ l, foldr N.add (foldr N.add 0 [1]) l = foldr N.add 0 l + 1)%N as ->.
    { intros l. induction l as [|x l IH]; cbn [foldr] in *; lia. }
    lia. }
  destruct (N.lt_trichotomy c c') as [Hlt|[Heq|Hgt]].
  - specialize (Hstrict c c' Hlt Hm'). split; split; lia.
  - rewrite Heq in Hv. split; split; lia.
  - specialize (Hstrict c' c Hgt Hm). split; split; lia.
Qed.

Lemma contract_keeps_cluster_order_witness :
  (vget 0%N [0; 1; 1; 2]%N 1%N = vget 0%N [0; 1; 1; 2]%N 3%N
   ↔ vget 0%N clusters_merge 1%N = vget 0%N clusters_merge 3%N) ∧
  (vget 0%N [0; 1; 1; 2]%N 1%N < vget 0%N [0; 1; 1; 2]%N 3%N
   ↔ vget 0%N clusters_merge 1%N < vget 0%N clusters_merge 3%N)%N.
Proof.
  apply (contract_keeps_cluster_order 42 H_merge clusters_merge chg_merge).
  - apply wf_H_merge.
  - apply wf_H_merge.
  - vm_compute. reflexivity.
  - by vm_compute.
  - by vm_compute.
  - reflexivity.
  - reflexivity.
Defined.

(** X16. [contract] returns a hypergraph, with every write inside the
    vector it is meant for, whenever all nets of the input are enabled and
    no net that keeps two coarse pins has the hash [SIZE_MAX], the hash that
    marks removed nets. The cluster vector it returns holds the new ids. *)
Theorem contract_returns_if_enabled seed H clusters :
  wf_hypergraph H → wf_clusters H clusters →
  (∀ e, (e < initialNumEdges H)%N → edgeIsEnabled H e = true) →
  let cl := relabel H (parallel_prefix_sum 0
                         (mark_clusters (initialNumNodes H) clusters)) clusters in
  (∀ e, (e < initialNumEdges H)%N →
        2 ≤ length (coarse_pins cl (pins H e)) →
        edge_hash (coarse_pins cl (pins H e)) ≠ SIZE_MAX) →
  ∃ chg, contract seed H clusters = Some (chg, cl).
Proof. apply contract_returns. Qed.

Lemma contract_returns_if_enabled_witness :
  ∃ chg, contract 42 H_merge clusters_merge
         = Some (chg, relabel H_merge
                        (parallel_prefix_sum 0
                           (mark_clusters (initialNumNodes H_merge) clusters_merge))
                        clusters_merge).
Proof.
  apply (contract_returns_if_enabled 42 H_merge clusters_merge).
  - apply wf_H_merge.
  - apply wf_H_merge.
  - apply forall_ids'. by apply (bool_decide_unpack _).
  - apply (forall_ids' (λ e, _ ≤ _ → _ ≠ _)). by apply (bool_decide_unpack _).
Defined.

(** *** No two nets of the result have the same pins *)

(** An entry that the candidate loop passes and leaves valid failed the
    test against the bitmap of the representative. *)
Lemma cand_loop_complete seed H h sz bits rem j perm lists w q i :
  rem = length perm - j →
  he_inj perm →
  j ≤ q →
  (∀ q0 i0, j ≤ q0 ≤ q → perm !! q0 = Some i0 →
            info_hash i0 = h ∧ info_size i0 = sz) →
  (cand_loop seed H h sz bits rem j perm lists w).1.1 !! q = Some i →
  info_valid i = true →
  perm !! q = Some i ∧
  forallb (λ v, vget false bits v) (vget [] lists (info_he i)) = false.
Proof.
  revert j perm lists w.
  induction rem as [|rem IH]; intros j perm lists w Hrem Hinj Hjq Hkeys Hq Hv.
  { cbn in Hq. apply lookup_lt_Some in Hq. lia. }
  cbn [cand_loop] in Hq.
  destruct (lookup_lt_is_Some_2 perm j) as [cand Hcand]; [lia|].
  rewrite (info_at_lookup _ _ _ _ Hcand) in Hq.
  destruct (Hkeys j cand ltac:(lia) Hcand) as [Hh Hsz].
  rewrite <-Hh, <-Hsz, !N.eqb_refl in Hq. cbn [andb] in Hq.
  rewrite Hh, Hsz in Hq.
  destruct (info_valid cand
            && forallb (λ v, vget false bits v) (vget [] lists (info_he cand)))
    eqn:Hmerge.
  - apply andb_true_iff in Hmerge as [Hvc Hall].
    destruct (cand_loop_spec seed H h sz bits rem (j + 1)
                (<[j := invalidate cand]> perm) (vset lists (info_he cand) [])
                (add_weight w (edgeWeight H (info_he cand))))
      as (perm' & lists' & w' & Mc & Heq & _ & _ & _ & _ & Hperm & _).
    { rewrite length_insert. lia. }
    { eapply he_inj_le; [|done]. by apply perm_le_insert. }
    destruct (decide (q = j)) as [->|Hne].
    + rewrite Heq in Hq. cbn [fst] in Hq.
      destruct (Hperm j (invalidate cand)) as [[_ Hq']|(Hle & _)];
        [apply list_lookup_insert_eq; lia| |lia].
      rewrite Hq' in Hq. injection Hq as <-. done.
    + destruct (IH (j + 1) (<[j := invalidate cand]> perm)
                  (vset lists (info_he cand) [])
                  (add_weight w (edgeWeight H (info_he cand)))) as [Hq1 Hfalse];
        [rewrite length_insert; lia| |lia| |done|done|].
      { eapply he_inj_le; [|done]. by apply perm_le_insert. }
      { intros q0 i0 Hq0 Hi0. rewrite list_lookup_insert_ne in Hi0 by lia.
        apply (Hkeys q0); [lia|done]. }
      rewrite list_lookup_insert_ne in Hq1 by lia. split; [done|].
      rewrite vget_vset_nil, decide_False in Hfalse; [done|].
      intros Hhe. apply Hne. by eapply (Hinj q j i cand).
  - destruct (cand_loop_spec seed H h sz bits rem (j + 1) perm lists w)
      as (perm' & lists' & w' & Mc & Heq & _ & _ & _ & _ & Hperm & _);
      [lia|done|].
    destruct (decide (q = j)) as [->|Hne].
    + rewrite Heq in Hq. cbn [fst] in Hq.
      destruct (Hperm j cand Hcand) as [[_ Hq']|(Hle & _)]; [|lia].
      rewrite Hq' in Hq. injection Hq as <-. split; [done|].
      rewrite Hv in Hmerge. done.
    + apply (IH (j + 1) perm lists w); [lia|done|lia| |done|done].
      intros q0 i0 Hq0 Hi0. apply (Hkeys q0); [lia|done].
Qed.

Lemma forallb_false_bits nc bits l l' :
  bits_of nc bits l →
  forallb (λ v, vget false bits v) l' = false → ∃ v, v ∈ l' ∧ v ∉ l.
Proof.
  intros [_ Hbits] Hfalse. induction l' as [|v l' IH]; [done|].
  cbn [forallb] in Hfalse. apply andb_false_iff in Hfalse as [Hv|Hrest].
  - exists v. split; [left|]. intros Hin. apply Hbits in Hin. congruence.
  - destruct (IH Hrest) as (v' & Hin & Hnin). exists v'. split; [by right|done].
Qed.

(** Entries of a sorted list between two entries of one hash and size have
    that hash and size. *)
Lemma sorted_between (P : list ContractedHyperedgeInformation) p q0 q ip i0 iq :
  StronglySorted info_le P →
  p ≤ q0 ≤ q →
  P !! p = Some ip → P !! q0 = Some i0 → P !! q = Some iq →
  info_hash iq = info_hash ip → info_size iq = info_size ip →
  info_hash i0 = info_hash ip ∧ info_size i0 = info_size ip.
Proof.
  intros Hs Hpq Hp Hq0 Hq Hh Hsz.
  assert (∀ a b ia ib, a ≤ b → P !! a = Some ia → P !! b = Some ib →
            info_le ia ib) as Hmono.
  { intros a b ia ib Hab Ha Hb. destruct (decide (a = b)) as [->|Hne].
    - rewrite Ha in Hb. injection Hb as ->. destruct (total info_le ib ib); done.
    - rewrite <-(take_drop_middle _ _ _ Ha) in Hs, Hb.
      apply StronglySorted_app in Hs as (_ & _ & Hs2).
      apply StronglySorted_inv in Hs2 as [_ Hall].
      rewrite Forall_forall in Hall. apply Hall.
      pose proof (lookup_lt_Some _ _ _ Ha) as Hlen.
      rewrite lookup_app_r in Hb by (rewrite length_take; lia).
      rewrite length_take in Hb.
      replace (b - a `min` length P) with (S (b - S a)) in Hb by lia.
      cbn in Hb. by eapply list_elem_of_lookup_2. }
  pose proof (Hmono p q0 ip i0 ltac:(lia) Hp Hq0) as H1.
  pose proof (Hmono q0 q i0 iq ltac:(lia) Hq0 Hq) as H2.
  apply info_le_lex in H1, H2. lia.
Qed.

(** Handling the representative at [p] keeps the earlier representatives
    apart from what follows, and sets [p] apart as well. *)
Lemma process_rep_apart seed H cl nc P h p st reps Ms rep :
  perm_facts H cl nc P →
  StronglySorted info_le P →
  det_inv H cl nc P st reps Ms →
  permutation st !! p = Some rep → info_valid rep = true →
  info_hash rep = h →
  apart H cl P st reps →
  apart H cl P (process_rep seed H h p st) (reps ++ [p]).
Proof.
  intros pf Hsorted inv Hp Hv Hh Hap. unfold process_rep.
  rewrite (info_at_lookup _ _ _ _ Hp).
  pose proof (di_perm _ _ _ _ _ _ _ inv) as HleP.
  pose proof (he_inj_le _ _ HleP (pf_inj _ _ _ _ pf)) as Hinj.
  pose proof (perm_le_valid _ _ _ _ HleP Hp Hv) as HpP.
  destruct (pf_valid _ _ _ _ pf p rep HpP Hv) as (Hedge & Hsize & Hlen2).
  pose proof (di_valid _ _ _ _ _ _ _ inv p rep Hp Hv) as Hrep_pins.
  rewrite Hrep_pins, (di_bits _ _ _ _ _ _ _ inv).
  pose proof (bits_set_spec nc (L0 H cl (info_he rep)) (pf_range _ _ _ _ pf _ Hedge))
    as Hbits.
  set (bits := bits_set (replicate nc false) (L0 H cl (info_he rep))) in *.
  pose proof (cand_loop_complete seed H h (info_size rep) bits
                (length (permutation st) - (p + 1)) (p + 1)
                (permutation st) (coarse_pin_lists st) (edgeWeight H (info_he rep)))
    as Hcomplete.
  destruct (cand_loop_spec seed H h (info_size rep) bits
              (length (permutation st) - (p + 1)) (p + 1)
              (permutation st) (coarse_pin_lists st) (edgeWeight H (info_he rep)))
    as (perm' & lists' & w' & Mc & Heq & _ & _ & _ & _ & Hperm & _); [done|done|].
  rewrite Heq in Hcomplete |- *. cbn [fst] in Hcomplete.
  assert (∀ q iq, perm' !! q = Some iq → info_valid iq = true →
                  permutation st !! q = Some iq) as Hback.
  { intros q iq Hq Hvq.
    destruct (lookup_lt_is_Some_2 (permutation st) q) as [i Hi].
    { apply lookup_lt_Some in Hq.
      destruct (cand_loop_spec seed H h (info_size rep) bits
                  (length (permutation st) - (p + 1)) (p + 1)
                  (permutation st) (coarse_pin_lists st)
                  (edgeWeight H (info_he rep)))
        as (perm2 & ? & ? & ? & Heq2 & _ & _ & _ & Hlen & _); [done|done|].
      rewrite Heq in Heq2. injection Heq2 as <- _ _. lia. }
    destruct (Hperm q i Hi) as [[_ Hq']|(_ & _ & _ & _ & _ & Hq')].
    - congruence.
    - rewrite Hq' in Hq. injection Hq as <-. done. }
  intros r q ir iq Hr Hrq Hir Hq Hvq Hhq Hszq. cbn [permutation] in Hq.
  apply elem_of_app in Hr as [Hr| ->%list_elem_of_singleton].
  { apply (Hap r q ir iq); try done. by apply Hback. }
  assert (ir = rep) as -> by congruence.
  destruct (Hcomplete q iq) as [Hq0 Hfalse]; [done|done|lia| |done|done|].
  { intros q0 i0 Hq0 Hi0.
    destruct (lookup_lt_is_Some_2 P q0) as [j0 Hj0].
    { apply lookup_lt_Some in Hi0. destruct HleP as [<- _]. done. }
    destruct (perm_le_hash _ _ _ _ _ HleP Hj0 Hi0) as (-> & -> & _).
    rewrite <-Hh.
    apply (sorted_between P p q0 q rep j0 iq); [done|lia|done|done| |done|done].
    apply (perm_le_valid _ _ _ _ HleP); [|done]. by apply Hback. }
  rewrite (di_valid _ _ _ _ _ _ _ inv q iq Hq0 Hvq) in Hfalse.
  by eapply forallb_false_bits.
Qed.

Lemma run_loop_apart seed H cl nc P h :
  perm_facts H cl nc P →
  StronglySorted info_le P →
  ∀ rem pos st reps Ms,
  rem = length P - pos → pos ≤ length P →
  det_inv H cl nc P st reps Ms →
  (∀ r, r ∈ reps → r < pos) →
  apart H cl P st reps →
  ∃ E reps' Ms',
    pos ≤ E ≤ length P ∧
    (∀ q i, pos ≤ q < E → P !! q = Some i → info_hash i = h) ∧
    (∀ i, P !! E = Some i → info_hash i ≠ h) ∧
    det_inv H cl nc P (run_loop seed H h rem pos st) reps' Ms' ∧
    (∀ r, r ∈ reps' → r < E) ∧
    apart H cl P (run_loop seed H h rem pos st) reps'.
Proof.
  intros pf Hsorted.
  induction rem as [|rem IH]; intros pos st reps Ms Hrem Hpos inv Hlt Hap.
  { exists pos, reps, Ms. simpl.
    split_and!; [lia|lia|intros q i Hq; lia| |done|done|done].
    intros i Hi. apply lookup_lt_Some in Hi. lia. }
  pose proof (di_perm _ _ _ _ _ _ _ inv) as Hle.
  destruct (lookup_lt_is_Some_2 P pos) as [rep0 Hrep0]; [lia|].
  destruct (lookup_lt_is_Some_2 (permutation st) pos) as [rep Hrep].
  { destruct Hle as [-> _]. lia. }
  destruct (perm_le_hash _ _ _ _ _ Hle Hrep0 Hrep) as (Hhash & _ & _).
  destruct (N.eqb_spec h (info_hash rep)) as [Hh|Hh]; cycle 1.
  { exists pos, reps, Ms.
    assert (run_loop seed H h (S rem) pos st = st) as ->.
    { cbn [run_loop]. rewrite (info_at_lookup _ _ _ _ Hrep).
      by destruct (N.eqb_spec h (info_hash rep)). }
    split_and!; [lia|lia|intros q i Hq; lia| |done|done|done].
    intros i Hi. rewrite Hrep0 in Hi. injection Hi as <-. congruence. }
  destruct (info_valid rep) eqn:Hv.
  - rewrite (run_loop_valid _ _ _ _ _ _ rep) by
      (done || (destruct Hle as [-> _]; lia)).
    destruct (process_rep_spec seed H cl nc P h pos st reps Ms rep pf inv Hrep Hv Hlt)
      as (M & inv1 & _).
    pose proof (process_rep_apart seed H cl nc P h pos st reps Ms rep pf Hsorted
                  inv Hrep Hv (eq_sym Hh) Hap) as Hap1.
    destruct (IH (pos + 1) (process_rep seed H h pos st) (reps ++ [pos])
                 (Ms_update Ms pos M))
      as (E & reps' & Ms' & HE & Hhs & HhE & inv' & Hlt' & Hap');
      [lia|lia|done| |done|].
    { intros r [Hr| ->%list_elem_of_singleton]%elem_of_app; [|lia].
      specialize (Hlt r Hr). lia. }
    exists E, reps', Ms'. split_and!; [lia|lia| |done|done|done|done].
    intros q i Hq Hi. destruct (decide (q = pos)) as [->|Hne].
    + rewrite Hrep0 in Hi. injection Hi as <-. congruence.
    + apply (Hhs q); [lia|done].
  - assert (run_loop seed H h (S rem) pos st = run_loop seed H h rem (pos + 1) st)
      as ->.
    { cbn [run_loop]. rewrite (info_at_lookup _ _ _ _ Hrep), Hv.
      by destruct (N.eqb_spec h (info_hash rep)). }
    destruct (IH (pos + 1) st reps Ms)
      as (E & reps' & Ms' & HE & Hhs & HhE & inv' & Hlt' & Hap');
      [lia|lia|done| |done|].
    { intros r Hr. specialize (Hlt r Hr). lia. }
    exists E, reps', Ms'. split_and!; [lia|lia| |done|done|done|done].
    intros q i Hq Hi. destruct (decide (q = pos)) as [->|Hne].
    + rewrite Hrep0 in Hi. injection Hi as <-. congruence.
    + apply (Hhs q); [lia|done].
Qed.

Lemma detect_apart seed H cl nc P st0 :
  perm_facts H cl nc P →
  StronglySorted info_le P →
  det_inv H cl nc P st0 [] (λ _, []) →
  ∃ reps Ms,
    det_inv H cl nc P (foldl (detect_at seed H) st0 (edges H)) reps Ms ∧
    apart H cl P (foldl (detect_at seed H) st0 (edges H)) reps.
Proof.
  intros pf Hsorted inv0. unfold edges.
  pose proof (pf_len _ _ _ _ pf) as HlenP.
  assert (∀ j, j ≤ length P →
    ∃ f reps Ms,
      det_inv H cl nc P
        (foldl (detect_at seed H) st0
               (filter (λ e, edgeIsEnabled H e = true) (ids (N.of_nat j))))
        reps Ms ∧
      (∀ r, r ∈ reps → r < f) ∧ f ≤ length P ∧
      (f = 0 ∨ ∃ pos0 h0, pos0 < j ∧ pos0 < f ∧
          (∀ q i, pos0 ≤ q < f → P !! q = Some i → info_hash i = h0) ∧
          (∀ i, P !! f = Some i → info_hash i ≠ h0)) ∧
      apart H cl P
        (foldl (detect_at seed H) st0
               (filter (λ e, edgeIsEnabled H e = true) (ids (N.of_nat j))))
        reps) as Hind.
  { induction j as [|j IH]; intros Hj.
    { exists 0, [], (λ _, []). change (ids (N.of_nat 0)) with (@nil N).
      rewrite filter_nil. simpl. split_and!; [done| |lia|by left|].
      - intros r Hr. by apply elem_of_nil in Hr.
      - intros r q ir iq Hr. by apply elem_of_nil in Hr. }
    destruct IH as (f & reps & Ms & inv & Hlt & Hf & Hfront & Hap); [lia|].
    rewrite filter_ids_S, foldl_app.
    set (st := foldl (detect_at seed H) st0 _) in *.
    pose proof (di_perm _ _ _ _ _ _ _ inv) as Hle.
    destruct (lookup_lt_is_Some_2 P j) as [here0 Hhere0]; [lia|].
    destruct (lookup_lt_is_Some_2 (permutation st) j) as [here Hhere].
    { destruct Hle as [-> _]. lia. }
    destruct (perm_le_hash _ _ _ _ _ Hle Hhere0 Hhere) as (Hhash & _ & _).
    assert (∃ f reps Ms,
              det_inv H cl nc P st reps Ms ∧
              (∀ r, r ∈ reps → r < f) ∧ f ≤ length P ∧
              (f = 0 ∨ ∃ pos0 h0, pos0 < S j ∧ pos0 < f ∧
                 (∀ q i, pos0 ≤ q < f → P !! q = Some i → info_hash i = h0) ∧
                 (∀ i, P !! f = Some i → info_hash i ≠ h0)) ∧
              apart H cl P st reps) as Hskip.
    { exists f, reps, Ms. split_and!; [done|done|done| |done].
      destruct Hfront as [->|(pos0 & h0 & ? & ? & ? & ?)]; [by left|].
      right. exists pos0, h0. split_and!; [lia|done..]. }
    case_decide as Hen; cbn [foldl]; [|done].
    unfold detect_at. rewrite Nat2N.id, (info_at_lookup _ _ _ _ Hhere).
    destruct (((j =? 0)
               || negb (info_hash here
                        =? info_hash (info_at seed (permutation st) (j - 1)))%N)
              && info_valid here) eqn:Hcond; [|done].
    apply andb_true_iff in Hcond as [Hstart Hv].
    assert (f ≤ j) as Hfj.
    { destruct Hfront as [->|(pos0 & h0 & Hp0 & Hp0f & Hconst & Hend)]; [lia|].
      destruct (decide (f ≤ j)) as [|Hjf]; [done|].
      apply orb_true_iff in Hstart as [Hj0|Hdiff].
      { apply Nat.eqb_eq in Hj0. lia. }
      destruct (lookup_lt_is_Some_2 P (j - 1)) as [prev0 Hprev0]; [lia|].
      destruct (lookup_lt_is_Some_2 (permutation st) (j - 1)) as [prev Hprev].
      { destruct Hle as [-> _]. lia. }
      rewrite (info_at_lookup _ _ _ _ Hprev) in Hdiff.
      destruct (perm_le_hash _ _ _ _ _ Hle Hprev0 Hprev) as (Hhp & _ & _).
      apply negb_true_iff, N.eqb_neq in Hdiff.
      destruct Hdiff. rewrite Hhash, Hhp.
      rewrite (Hconst j here0), (Hconst (j - 1) prev0); [done|lia|done|lia|done]. }
    destruct (run_loop_apart seed H cl nc P (info_hash here) pf Hsorted
                (length (permutation st) - j) j st reps Ms)
      as (E & reps' & Ms' & HE & Hhs & HhE & inv' & Hlt' & Hap').
    { by destruct Hle as [-> _]. }
    { lia. }
    { done. }
    { intros r Hr. specialize (Hlt r Hr). lia. }
    { done. }
    assert (j < E) as HjE.
    { destruct (decide (E = j)) as [->|]; [|lia].
      destruct (HhE here0 Hhere0). done. }
    exists E, reps', Ms'. split_and!; [done|done|lia| |done].
    right. exists j, (info_hash here). split_and!; [lia|lia|done|done]. }
  destruct (Hind (length P) (le_n _)) as (f & reps & Ms & inv & _ & _ & _ & Hap).
  rewrite HlenP, N2Nat.id in inv, Hap.
  by exists reps, Ms.
Qed.

(** The hash of a pin list does not depend on the order of the pins. *)
Lemma edge_hash_sum (l : list HypernodeID) :
  edge_hash l = wrap64 (420 + foldr N.add 0%N (cs2 <$> l)).
Proof.
  unfold edge_hash.
  assert (∀ a, foldl (λ h v, wrap64 (h + cs2 v)) (wrap64 a) l
               = wrap64 (a + foldr N.add 0%N (cs2 <$> l))) as Hgen.
  { induction l as [|v l IH]; intros a; cbn [foldl foldr fmap list_fmap].
    - by rewrite N.add_0_r.
    - assert (wrap64 (wrap64 a + cs2 v) = wrap64 (a + cs2 v)) as ->
        by (unfold wrap64; apply N.Div0.add_mod_idemp_l).
      rewrite IH. f_equal. lia. }
  by rewrite <-Hgen.
Qed.

Lemma edge_hash_Permutation (l k : list HypernodeID) :
  l ≡ₚ k → edge_hash l = edge_hash k.
Proof.
  intros Hperm. rewrite !edge_hash_sum. f_equal. f_equal.
  induction Hperm as [|x l k _ IH|x y l|l k m _ IH1 _ IH2];
    cbn [foldr fmap list_fmap]; [done|by rewrite IH|lia|congruence].
Qed.

Lemma P0_hash seed H cl e :
  info_valid (P0 seed H cl e) = true →
  info_hash (P0 seed H cl e) = edge_hash (L0 H cl e).
Proof.
  unfold P0, L0. destruct (edgeIsEnabled H e); [|done].
  destruct (1 <? length (coarse_pins cl (pins H e))); done.
Qed.

Lemma sorted_P0_hash seed H cl q i :
  merge_sort info_le (P0 seed H cl <$> ids (initialNumEdges H)) !! q = Some i →
  info_valid i = true →
  info_hash i = edge_hash (L0 H cl (info_he i)).
Proof.
  intros Hq Hv. apply list_elem_of_lookup_2 in Hq.
  rewrite merge_sort_Permutation in Hq.
  apply list_elem_of_fmap in Hq as (e & -> & _).
  destruct (P0_valid seed H cl e Hv) as (_ & -> & _). by apply P0_hash.
Qed.

(** X17. No two nets of the hypergraph that [contract] returns have the
    same pins: nets whose pins agree up to their order are one net. *)
Theorem contract_no_parallel_nets seed H clusters chg clusters' e1 e2 :
  wf_hypergraph H → wf_clusters H clusters →
  contract seed H clusters = Some (chg, clusters') →
  (e1 < initialNumEdges chg)%N → (e2 < initialNumEdges chg)%N →
  pins chg e1 ≡ₚ pins chg e2 →
  e1 = e2.
Proof.
  intros Hwf Hcl Hsome.
  destruct (contract_spec seed H clusters Hwf Hcl)
    as (reps0 & Ms0 & pf & inv0 & _ & _ & Hle & Hout).
  destruct (Hout (Hle _ Hsome)) as (Hperm0 & chg0 & Hsome0 & Hnc & Hm & _ & Hnets).
  rewrite Hsome in Hsome0. injection Hsome0 as <- ->.
  clear Hle Hout.
  set (n := initialNumNodes H) in *.
  set (mapping := parallel_prefix_sum 0 (mark_clusters n clusters)) in *.
  set (nc := vget 0%N mapping (n - 1)%N) in *.
  set (cl := relabel H mapping clusters) in *.
  set (d := detect_identical_nets seed H nc cl) in *.
  set (P := merge_sort info_le (P0 seed H cl <$> ids (initialNumEdges H))) in *.
  set (nets := nonempty_nets (coarse_pin_lists d) (initialNumEdges H)) in *.
  set (heof := λ r, info_he (info_at 0%N P r)) in *.
  (* the detection keeps the representatives apart *)
  assert (∃ reps Ms, det_inv H cl (N.to_nat nc) P d reps Ms ∧ apart H cl P d reps)
    as (reps & Ms & inv & Hap).
  { destruct Hwf as (Hn & Hm' & Hhn & Hhe & Hpins).
    destruct (compactify_spec H clusters Hn Hcl) as (Hlen & Hncn & Hen & Hdis).
    fold n mapping nc cl in Hlen, Hncn, Hen, Hdis.
    assert (∀ e v, e ∈ edges H → v ∈ pins H e →
              vget 0%N cl v = kInvalidHypernode
              ∨ N.to_nat (vget 0%N cl v) < N.to_nat nc) as Hr.
    { intros e v He Hv. specialize (Hpins e v He Hv).
      destruct (nodeIsEnabled H v) eqn:Hv'.
      - right. specialize (Hen v Hpins Hv'). lia.
      - left. by apply Hdis. }
    unfold d, detect_identical_nets.
    destruct (pin_lists_spec seed H cl _ Hr) as (-> & -> & ->). fold P.
    apply detect_apart; [done| |].
    { apply StronglySorted_merge_sort; apply _. }
    pose proof (pf_len _ _ _ _ pf) as HlenP.
    constructor; simpl.
    - apply perm_le_refl.
    - by rewrite length_fmap, length_ids.
    - by rewrite length_replicate.
    - done.
    - intros e. unfold vget. destruct (decide (e < initialNumEdges H)%N) as [He|He].
      + right. rewrite lookup_fmap_ids by lia. simpl. by rewrite N2Nat.id.
      + left. rewrite lookup_ge_None_2; [done|]. rewrite length_fmap, length_ids. lia.
    - intros q i Hq Hv. destruct (pf_valid _ _ _ _ pf q i Hq Hv) as (He & _).
      apply list_elem_of_filter in He as [_ He%elem_of_ids].
      unfold vget. rewrite lookup_fmap_ids by lia. simpl. by rewrite N2Nat.id.
    - intros q i Hq Hv Hq'. destruct (invalidate_ne i Hv). congruence.
    - apply NoDup_nil_2.
    - intros r Hr'. by apply elem_of_nil in Hr'.
    - intros r e Hr'. by apply elem_of_nil in Hr'.
    - intros r r' e Hr'. by apply elem_of_nil in Hr'.
    - done.
    - done. }
  (* the representatives are the nets that are written *)
  assert (∀ r, r ∈ reps →
            ∃ i, P !! r = Some i ∧ permutation d !! r = Some i ∧
                 info_valid i = true ∧ heof r = info_he i ∧ heof r ∈ nets) as Hrep.
  { intros r Hr'. destruct (di_rep _ _ _ _ _ _ _ inv r Hr') as (i & Hi & Hv & _).
    pose proof (perm_le_valid _ _ _ _ (di_perm _ _ _ _ _ _ _ inv) Hi Hv) as HiP.
    destruct (pf_valid _ _ _ _ pf r i HiP Hv) as (He & _ & Hl2).
    exists i. unfold heof. rewrite (info_at_lookup _ _ _ _ HiP).
    split_and!; [done..|].
    apply list_elem_of_filter. split.
    - rewrite (di_valid _ _ _ _ _ _ _ inv r i Hi Hv).
      destruct (L0 H cl (info_he i)); [simpl in Hl2; lia|done].
    - by apply list_elem_of_filter in He as [_ He]. }
  assert (NoDup (heof <$> reps)) as Hnd.
  { apply NoDup_fmap_2_strong; [|apply (di_reps _ _ _ _ _ _ _ inv)].
    intros r r' Hr1 Hr2 Heq.
    destruct (Hrep r Hr1) as (i & Hi & _ & Hv & Hhe & _).
    destruct (Hrep r' Hr2) as (i' & Hi' & _ & Hv' & Hhe' & _).
    apply (pf_inj _ _ _ _ pf r r' i i'); [done..|congruence]. }
  assert (heof <$> reps ≡ₚ nets) as Hperm.
  { apply NoDup_same_length_Permutation; [done| |].
    - intros e (r & -> & Hr')%list_elem_of_fmap.
      by destruct (Hrep r Hr') as (i & _ & _ & _ & _ & ?).
    - rewrite length_fmap, <-(di_nets _ _ _ _ _ _ _ inv).
      rewrite (di_nets _ _ _ _ _ _ _ inv0), <-Hperm0. by rewrite length_fmap. }
  (* two different representatives differ in a pin *)
  assert (∀ r r', r ∈ reps → r' ∈ reps → r < r' →
            ¬ (L0 H cl (heof r) ≡ₚ L0 H cl (heof r'))) as Hdiff.
  { intros r r' Hr1 Hr2 Hlt Heq.
    destruct (Hrep r Hr1) as (i & Hi & _ & Hv & Hhe & _).
    destruct (Hrep r' Hr2) as (i' & Hi' & Hd' & Hv' & Hhe' & _).
    rewrite Hhe, Hhe' in Heq.
    destruct (Hap r r' i i' Hr1 Hlt Hi Hd' Hv') as (v & Hv1 & Hv2).
    - rewrite (sorted_P0_hash seed H cl r' i' Hi' Hv').
      rewrite (sorted_P0_hash seed H cl r i Hi Hv).
      by apply edge_hash_Permutation.
    - destruct (pf_valid _ _ _ _ pf r i Hi Hv) as (_ & -> & _).
      destruct (pf_valid _ _ _ _ pf r' i' Hi' Hv') as (_ & -> & _).
      by rewrite Heq.
    - apply Hv2. by rewrite Heq. }
  intros He1 He2 Hpins.
  destruct (lookup_lt_is_Some_2 nets (N.to_nat e1)) as [f1 Hf1]; [lia|].
  destruct (lookup_lt_is_Some_2 nets (N.to_nat e2)) as [f2 Hf2]; [lia|].
  destruct (Hnets _ _ Hf1) as (Hp1 & _). destruct (Hnets _ _ Hf2) as (Hp2 & _).
  rewrite N2Nat.id in Hp1, Hp2. rewrite Hp1, Hp2 in Hpins.
  assert (f1 ∈ heof <$> reps) as (r1 & -> & Hr1)%list_elem_of_fmap
    by (rewrite Hperm; by eapply list_elem_of_lookup_2).
  assert (f2 ∈ heof <$> reps) as (r2 & -> & Hr2)%list_elem_of_fmap
    by (rewrite Hperm; by eapply list_elem_of_lookup_2).
  assert (r1 = r2) as Heq.
  { destruct (Nat.lt_trichotomy r1 r2) as [Hlt|[?|Hgt]]; [|done|].
    - by destruct (Hdiff r1 r2 Hr1 Hr2 Hlt).
    - by destruct (Hdiff r2 r1 Hr2 Hr1 Hgt). }
  subst r2.
  assert (NoDup nets) as Hndn by (apply NoDup_filter, NoDup_ids).
  pose proof (NoDup_lookup _ _ _ _ Hndn Hf1 Hf2). lia.
Qed.

Lemma contract_no_parallel_nets_witness :
  (1 < initialNumEdges chg_merge)%N ∧ (1%N : HyperedgeID) = 1%N.
Proof.
  split; [by vm_compute|].
  apply (contract_no_parallel_nets 42 H_merge clusters_merge chg_merge
           [0; 1; 1; 2]%N 1%N 1%N).
  - apply wf_H_merge.
  - apply wf_H_merge.
  - vm_compute. reflexivity.
  - by vm_compute.
  - by vm_compute.
  - reflexivity.
Defined.

(** *** The incident nets of the coarse vertices *)

Lemma grow_0 hn : grow hn 0 = hn.
Proof. destruct hn. unfold grow. cbn. f_equal. lia. Qed.

Lemma grow_grow hn a b : grow (grow hn a) b = grow hn (a + b).
Proof. unfold grow. cbn. f_equal. lia. Qed.

Lemma copy_pins_sizes (l : list HypernodeID) inc hns pos r :
  foldl_opt copy_pin (inc, hns, pos) l = Some r →
  Forall (λ v, N.to_nat v < length hns) l →
  length r.1.2 = length hns ∧
  ∀ c, vget hn_default r.1.2 c
       = grow (vget hn_default hns c) (N.of_nat (length (filter (λ v, v = c) l))).
Proof.
  revert inc hns pos. induction l as [|x l IH]; intros inc hns pos Hrun Hl.
  { injection Hrun as <-. split; [done|]. intros c. by rewrite grow_0. }
  cbn [foldl_opt] in Hrun. apply bind_Some in Hrun as ([[inc1 hns1] pos1] & H1 & Hrun).
  unfold copy_pin in H1. apply bind_Some in H1 as (inc' & _ & [= <- <- <-]).
  apply Forall_cons in Hl as [Hx Hl].
  destruct (IH _ _ _ Hrun) as [Hlen Hc].
  { by rewrite length_vset. }
  rewrite length_vset in Hlen. split; [done|]. intros c. rewrite Hc.
  rewrite filter_cons. destruct (decide (x = c)) as [->|Hne].
  - rewrite vget_vset_eq by done. unfold incr_size. cbn [length].
    fold (grow (vget hn_default hns c) 1). rewrite grow_grow. f_equal. lia.
  - by rewrite vget_vset_ne.
Qed.

Lemma copy_sizes (lists : list (list HypernodeID)) (offs : list nat)
    (E : list HyperedgeID) inc hns cp :
  foldl_opt (copy_pin_list lists offs) (inc, hns) E = Some cp →
  (∀ e, e ∈ E → Forall (λ v, N.to_nat v < length hns) (vget [] lists e)) →
  length cp.2 = length hns ∧
  ∀ c, vget hn_default cp.2 c
       = grow (vget hn_default hns c)
              (N.of_nat (length (filter (λ v, v = c) (emitted_pins lists E)))).
Proof.
  revert inc hns. induction E as [|e E IH]; intros inc hns Hrun HE.
  { injection Hrun as <-. split; [done|]. intros c. by rewrite grow_0. }
  cbn [foldl_opt] in Hrun. apply bind_Some in Hrun as ([inc1 hns1] & H1 & Hrun).
  change (e :: E) with ([e] ++ E). rewrite emitted_pins_app.
  change (emitted_pins lists [e]) with (vget [] lists e ++ []). rewrite app_nil_r.
  unfold copy_pin_list in H1. cbn [fst snd] in H1.
  destruct (is_empty (vget [] lists e)) eqn:Hemp; cbn [negb] in H1.
  - injection H1 as <- <-. destruct (vget [] lists e); [|done].
    apply (IH _ _ Hrun). intros e' He'. apply HE. by right.
  - apply bind_Some in H1 as (r & Hr & [= <- <-]).
    destruct (copy_pins_sizes _ _ _ _ _ Hr) as [Hlen1 Hc1]; [apply HE; left|].
    destruct (IH _ _ Hrun) as [Hlen Hc].
    { intros e' He'. rewrite Hlen1. apply HE. by right. }
    split; [congruence|]. intros c.
    rewrite Hc, Hc1, grow_grow, filter_app, length_app. f_equal. lia.
Qed.

Lemma first_entry_S (sizes : HypernodeID → N) (j : nat) :
  first_entry sizes (N.of_nat (S j))
  = (first_entry sizes (N.of_nat j) + sizes (N.of_nat j))%N.
Proof.
  unfold first_entry. rewrite ids_S, fmap_app, foldr_app. cbn [fmap list_fmap foldr].
  generalize (sizes <$> ids (N.of_nat j)). intros l.
  induction l as [|x l IH]; cbn [foldr]; lia.
Qed.

Lemma first_entry_mono (sizes : HypernodeID → N) (c c' : N) :
  (c ≤ c')%N → (first_entry sizes c ≤ first_entry sizes c')%N.
Proof.
  intros Hle. rewrite <-(N2Nat.id c), <-(N2Nat.id c').
  assert (N.to_nat c ≤ N.to_nat c') as Hle' by lia.
  induction Hle' as [|k _ IH]; [lia|]. rewrite first_entry_S. lia.
Qed.

Lemma first_entry_next (sizes : HypernodeID → N) (c c' : N) :
  (c < c')%N → (first_entry sizes c + sizes c ≤ first_entry sizes c')%N.
Proof.
  intros Hlt. etrans; [|apply (first_entry_mono sizes (c + 1) c'); lia].
  rewrite <-(N2Nat.id c) at 3.
  replace (N.of_nat (N.to_nat c) + 1)%N with (N.of_nat (S (N.to_nat c))) by lia.
  rewrite first_entry_S, N2Nat.id. lia.
Qed.

(** The final pass of [degree_prefix_sum]: every vertex is enabled and gets
    the sum of the degrees before it as first entry. *)
Lemma place_spec (j : nat) hns :
  j ≤ length hns →
  let sizes c := hn_size (vget hn_default hns c) in
  let r := foldl place_node (hns, 0%N) (ids (N.of_nat j)) in
  length r.1 = length hns ∧
  r.2 = first_entry sizes (N.of_nat j) ∧
  (∀ c, (c < N.of_nat j)%N →
        vget hn_default r.1 c
        = {| hn_begin := first_entry sizes c; hn_size := sizes c;
             hn_weight := hn_weight (vget hn_default hns c); hn_valid := true |}) ∧
  (∀ c, (N.of_nat j ≤ c)%N → vget hn_default r.1 c = vget hn_default hns c).
Proof.
  intros Hj sizes. induction j as [|j IH]; cbn zeta.
  { change (ids (N.of_nat 0)) with (@nil N). cbn [foldl fst snd].
    split_and!; [done|done|intros c Hc; lia|done]. }
  destruct IH as (Hlen & Hsum & Hlow & Hhigh); [lia|].
  rewrite ids_S, foldl_app. cbn [foldl].
  destruct (foldl place_node (hns, 0%N) (ids (N.of_nat j))) as [hns1 sum1].
  cbn [fst snd] in *. unfold place_node.
  rewrite (Hhigh (N.of_nat j)) by lia. cbn [fst snd].
  split_and!.
  - by rewrite length_vset.
  - rewrite first_entry_S. by rewrite Hsum.
  - intros c Hc. destruct (decide (c = N.of_nat j)) as [->|Hne].
    + rewrite vget_vset_eq by lia. by rewrite Hsum.
    + rewrite vget_vset_ne by done. apply Hlow. lia.
  - intros c Hc. rewrite vget_vset_ne by lia. apply Hhigh. lia.
Qed.

(** Writing the net [k] into the range of its pin [v]. *)
Lemma scatter_pin_step deg nc k hns arr W v :
  scatter_inv deg nc hns arr W →
  (v < N.of_nat nc)%N →
  (N.of_nat (length (W v)) < deg v)%N →
  scatter_inv deg nc (scatter_pin k (hns, arr) v).1 (scatter_pin k (hns, arr) v).2
    (λ c, if decide (c = v) then W v ++ [k] else W c).
Proof.
  intros (Hlen & Harr & Hinv) Hv Hroom. unfold scatter_pin. cbn [fst snd].
  destruct (Hinv v Hv) as (Hbv & _ & Hwv). rewrite Hbv.
  pose proof (first_entry_next deg v (N.of_nat nc) Hv) as Htot.
  split_and!.
  - by rewrite length_vset.
  - by rewrite length_vset.
  - intros c Hc. destruct (Hinv c Hc) as (Hbc & Hlec & Hwc).
    destruct (decide (c = v)) as [->|Hne].
    + rewrite vget_vset_eq by lia. cbn [hn_begin]. rewrite length_app. cbn [length].
      split_and!; [lia|lia|].
      intros t x Ht. unfold vset.
      apply lookup_app_Some in Ht as [Ht|[Hge Ht]].
      * rewrite list_lookup_insert_ne; [by apply Hwv|].
        apply lookup_lt_Some in Ht. lia.
      * destruct (t - length (W v)) as [|?] eqn:Hd; [|done].
        injection Ht as <-. assert (t = length (W v)) as -> by lia.
        replace (N.to_nat (first_entry deg v + N.of_nat (length (W v))))
          with (N.to_nat (first_entry deg v) + length (W v)) by lia.
        apply list_lookup_insert_eq. lia.
    + rewrite vget_vset_ne by done. split_and!; [done|done|].
      intros t x Ht. unfold vset. rewrite list_lookup_insert_ne; [by apply Hwc|].
      apply lookup_lt_Some in Ht.
      destruct (N.lt_trichotomy c v) as [Hlt|[?|Hgt]]; [|done|].
      * pose proof (first_entry_next deg c v Hlt). lia.
      * pose proof (first_entry_next deg v c Hgt). lia.
Qed.

Lemma scatter_inv_ext deg nc hns arr W W' :
  (∀ c, W c = W' c) → scatter_inv deg nc hns arr W → scatter_inv deg nc hns arr W'.
Proof.
  intros Hext (Hlen & Harr & Hinv). split_and!; [done|done|].
  intros c Hc. rewrite <-Hext. by apply Hinv.
Qed.

(** Writing the net [k] into the ranges of its pins. *)
Lemma scatter_net_spec deg nc k (l : list HypernodeID) hns arr W :
  scatter_inv deg nc hns arr W →
  NoDup l → Forall (λ v, v < N.of_nat nc)%N l →
  (∀ v, v ∈ l → (N.of_nat (length (W v)) < deg v)%N) →
  let r := foldl (scatter_pin k) (hns, arr) l in
  scatter_inv deg nc r.1 r.2 (λ c, if decide (c ∈ l) then W c ++ [k] else W c).
Proof.
  revert hns arr W. induction l as [|v l IH]; intros hns arr W Hinv Hnd Hl Hroom.
  { cbn. eapply scatter_inv_ext; [|done]. intros c.
    rewrite decide_False; [done|]. apply not_elem_of_nil. }
  apply NoDup_cons in Hnd as [Hvl Hnd]. apply Forall_cons in Hl as [Hv Hl].
  cbn [foldl].
  pose proof (scatter_pin_step deg nc k hns arr W v Hinv Hv (Hroom v ltac:(left)))
    as Hstep.
  destruct (scatter_pin k (hns, arr) v) as [hns1 arr1]. cbn [fst snd] in Hstep.
  eapply scatter_inv_ext; [|apply (IH hns1 arr1 _ Hstep Hnd Hl)].
  - intros c. cbn beta. destruct (decide (c = v)) as [->|Hne].
    + rewrite (decide_False (P := v ∈ l)) by done.
      rewrite (decide_True (P := v ∈ v :: l)) by left. done.
    + destruct (decide (c ∈ l)) as [Hin|Hnin].
      * rewrite (decide_True (P := c ∈ v :: l)) by (by right). done.
      * rewrite (decide_False (P := c ∈ v :: l)); [done|].
        by intros [?|?]%elem_of_cons.
  - intros v' Hv'. cbn beta. rewrite decide_False by (by intros ->).
    apply Hroom. by right.
Qed.

Lemma nets_of_S pinsof (j : nat) c :
  nets_of pinsof (N.of_nat (S j)) c
  = nets_of pinsof (N.of_nat j) c
    ++ (if decide (c ∈ pinsof (N.of_nat j)) then [N.of_nat j] else []).
Proof. unfold nets_of. apply filter_ids_S. Qed.

Lemma nets_of_mono pinsof (j m : nat) c :
  j ≤ m →
  length (nets_of pinsof (N.of_nat j) c) ≤ length (nets_of pinsof (N.of_nat m) c).
Proof.
  induction 1 as [|m _ IH]; [done|]. rewrite nets_of_S, length_app. lia.
Qed.

(** The loop that writes the incident nets. *)
Lemma scatter_spec pinsof (m nc : nat) hns arr :
  let deg c := N.of_nat (length (nets_of pinsof (N.of_nat m) c)) in
  (∀ k, (k < N.of_nat m)%N →
        NoDup (pinsof k) ∧ Forall (λ v, v < N.of_nat nc)%N (pinsof k)) →
  scatter_inv deg nc hns arr (λ _, []) →
  let r := foldl (λ st k, foldl (scatter_pin k) st (pinsof k)) (hns, arr)
                 (ids (N.of_nat m)) in
  scatter_inv deg nc r.1 r.2 (nets_of pinsof (N.of_nat m)).
Proof.
  intros deg Hp Hinv0.
  assert (∀ j, j ≤ m →
    let r := foldl (λ st k, foldl (scatter_pin k) st (pinsof k)) (hns, arr)
                   (ids (N.of_nat j)) in
    scatter_inv deg nc r.1 r.2 (nets_of pinsof (N.of_nat j))) as Hind.
  { induction j as [|j IH]; intros Hj; cbn zeta.
    { change (ids (N.of_nat 0)) with (@nil N). cbn [foldl fst snd].
      eapply scatter_inv_ext; [|done]. done. }
    specialize (IH ltac:(lia)). cbn zeta in IH.
    rewrite ids_S, foldl_app. cbn [foldl].
    destruct (foldl _ (hns, arr) (ids (N.of_nat j))) as [hns1 arr1].
    cbn [fst snd] in IH.
    destruct (Hp (N.of_nat j) ltac:(lia)) as [Hnd Hrange].
    eapply scatter_inv_ext;
      [|apply (scatter_net_spec deg nc (N.of_nat j) _ hns1 arr1 _ IH Hnd Hrange)].
    - intros c. cbn beta. rewrite nets_of_S. case_decide; [done|].
      by rewrite app_nil_r.
    - intros v Hv. unfold deg.
      pose proof (nets_of_mono pinsof (S j) m v Hj) as Hle.
      rewrite nets_of_S, decide_True, length_app in Hle by done.
      cbn [length] in Hle. lia. }
  apply (Hind m). lia.
Qed.

(** The loop changes [_begin] only. *)
Lemma scatter_fields (f : HyperedgeID → list HypernodeID) (l : list HyperedgeID)
    hns arr c :
  let r := foldl (λ st k, foldl (scatter_pin k) st (f k)) (hns, arr) l in
  hn_size (vget hn_default r.1 c) = hn_size (vget hn_default hns c) ∧
  hn_weight (vget hn_default r.1 c) = hn_weight (vget hn_default hns c) ∧
  hn_valid (vget hn_default r.1 c) = hn_valid (vget hn_default hns c).
Proof.
  assert (∀ k (p : list HypernodeID) hns arr,
    let r := foldl (scatter_pin k) (hns, arr) p in
    hn_size (vget hn_default r.1 c) = hn_size (vget hn_default hns c) ∧
    hn_weight (vget hn_default r.1 c) = hn_weight (vget hn_default hns c) ∧
    hn_valid (vget hn_default r.1 c) = hn_valid (vget hn_default hns c)) as Hpins.
  { intros k p. induction p as [|v p IH]; intros hns0 arr0; [done|].
    cbn [foldl]. cbn zeta in IH |- *.
    destruct (scatter_pin k (hns0, arr0) v) as [hnsx arrx] eqn:Hs.
    unfold scatter_pin in Hs. injection Hs as <- <-.
    destruct (IH (vset hns0 v
                    {| hn_begin := hn_begin (vget hn_default hns0 v) + 1;
                       hn_size := hn_size (vget hn_default hns0 v);
                       hn_weight := hn_weight (vget hn_default hns0 v);
                       hn_valid := hn_valid (vget hn_default hns0 v) |})
                 (vset arr0 (hn_begin (vget hn_default hns0 v)) k))
      as (H1 & H2 & H3).
    rewrite H1, H2, H3. clear H1 H2 H3.
    destruct (decide (v = c)) as [->|Hne]; [|by rewrite vget_vset_ne].
    destruct (decide (N.to_nat c < length hns0)) as [Hc|Hc].
    - by rewrite vget_vset_eq.
    - unfold vset. by rewrite list_insert_ge by lia. }
  revert hns arr. induction l as [|k l IH]; intros hns arr; [done|].
  cbn [foldl]. cbn zeta in IH, Hpins.
  specialize (Hpins k (f k) hns arr).
  destruct (foldl (scatter_pin k) (hns, arr) (f k)) as [hns1 arr1].
  destruct (IH hns1 arr1) as (H1 & H2 & H3).
  cbn zeta. rewrite H1, H2, H3. done.
Qed.

Lemma lookup_window {A} (l : list A) (b s : N) (i : nat) :
  window l b s !! i
  = if decide (i < N.to_nat s) then l !! (N.to_nat b + i) else None.
Proof.
  unfold window. case_decide.
  - by rewrite lookup_take_lt, lookup_drop.
  - by rewrite lookup_take_ge by lia.
Qed.

(** Replacing the entries of one range leaves the other ranges as they
    are. *)
Lemma window_splice {A} (l mid : list A) (b s : N) :
  N.to_nat b + N.to_nat s ≤ length l →
  length mid = N.to_nat s →
  let l' := take (N.to_nat b) l ++ mid ++ drop (N.to_nat b + N.to_nat s) l in
  length l' = length l ∧
  window l' b s = mid ∧
  ∀ b' s', (b' + s' ≤ b ∨ b + s ≤ b')%N → window l' b' s' = window l b' s'.
Proof.
  intros Hle Hmid l'.
  assert (length (take (N.to_nat b) l) = N.to_nat b) as Htake
    by (rewrite length_take; lia).
  split_and!.
  - unfold l'. rewrite !length_app, Htake, length_drop. lia.
  - unfold l', window. rewrite drop_app_length' by done.
    rewrite take_app_length' by done. done.
  - intros b' s' Hout. apply list_eq. intros i. rewrite !lookup_window.
    case_decide as Hi; [|done]. unfold l'.
    destruct Hout as [Hbefore|Hafter].
    + rewrite lookup_app_l by lia. rewrite lookup_take_lt by lia. done.
    + rewrite lookup_app_r by lia. rewrite lookup_app_r by lia.
      rewrite lookup_drop. f_equal. lia.
Qed.

(** The loop that resets the cursors: [_begin] is the first entry again,
    the weight is 0 and the nets of every range are sorted. *)
Lemma reset_spec deg (nc : nat) hns arr (W : HypernodeID → list HyperedgeID) :
  length hns = nc →
  length arr = N.to_nat (first_entry deg (N.of_nat nc)) →
  (first_entry deg (N.of_nat nc) < 2 ^ 64)%N →
  (∀ c, (c < N.of_nat nc)%N →
        hn_begin (vget hn_default hns c) = (first_entry deg c + deg c)%N ∧
        hn_size (vget hn_default hns c) = deg c ∧
        window arr (first_entry deg c) (deg c) = W c ∧
        N.of_nat (length (W c)) = deg c) →
  let r := foldl reset_node (hns, arr) (ids (N.of_nat nc)) in
  length r.1 = nc ∧
  ∀ c, (c < N.of_nat nc)%N →
       hn_begin (vget hn_default r.1 c) = first_entry deg c ∧
       hn_size (vget hn_default r.1 c) = deg c ∧
       hn_valid (vget hn_default r.1 c) = hn_valid (vget hn_default hns c) ∧
       window r.2 (first_entry deg c) (deg c) = merge_sort N.le (W c).
Proof.
  intros Hlen Harr Htot Hin.
  assert (∀ j, j ≤ nc →
    let r := foldl reset_node (hns, arr) (ids (N.of_nat j)) in
    length r.1 = nc ∧ length r.2 = length arr ∧
    (∀ c, (c < N.of_nat j)%N →
          hn_begin (vget hn_default r.1 c) = first_entry deg c ∧
          hn_size (vget hn_default r.1 c) = deg c ∧
          hn_valid (vget hn_default r.1 c) = hn_valid (vget hn_default hns c) ∧
          window r.2 (first_entry deg c) (deg c) = merge_sort N.le (W c)) ∧
    (∀ c, (N.of_nat j ≤ c < N.of_nat nc)%N →
          vget hn_default r.1 c = vget hn_default hns c ∧
          window r.2 (first_entry deg c) (deg c) = W c)) as Hind.
  { induction j as [|j IH]; intros Hj; cbn zeta.
    { change (ids (N.of_nat 0)) with (@nil N). cbn [foldl fst snd].
      split_and!; [done|done|intros c Hc; lia|].
      intros c Hc. split; [done|]. apply Hin. lia. }
    destruct IH as (Hl1 & Hl2 & Hlow & Hhigh); [lia|].
    rewrite ids_S, foldl_app. cbn [foldl].
    destruct (foldl reset_node (hns, arr) (ids (N.of_nat j))) as [hns1 arr1].
    cbn [fst snd] in *.
    destruct (Hhigh (N.of_nat j) ltac:(lia)) as [Hsame Hwin].
    destruct (Hin (N.of_nat j) ltac:(lia)) as (Hb & Hs & _ & HW).
    pose proof (first_entry_next deg (N.of_nat j) (N.of_nat nc) ltac:(lia)) as Hnext.
    assert (wrap64 (first_entry deg (N.of_nat j) + deg (N.of_nat j) + 2 ^ 64
                    - deg (N.of_nat j)) = first_entry deg (N.of_nat j)) as Hwrap.
    { unfold wrap64.
      replace (first_entry deg (N.of_nat j) + deg (N.of_nat j) + 2 ^ 64
               - deg (N.of_nat j))%N
        with (first_entry deg (N.of_nat j) + 1 * 2 ^ 64)%N by lia.
      rewrite N.Div0.mod_add. apply N.mod_small. lia. }
    destruct (reset_node (hns1, arr1) (N.of_nat j)) as [hnsx arrx] eqn:Hstep.
    unfold reset_node in Hstep. rewrite Hsame, Hb, Hs, Hwrap, Hwin in Hstep.
    injection Hstep as <- <-.
    destruct (window_splice arr1 (merge_sort N.le (W (N.of_nat j)))
                (first_entry deg (N.of_nat j)) (deg (N.of_nat j)))
      as (Hl3 & Hmid & Hother).
    { rewrite Hl2, Harr. lia. }
    { rewrite merge_sort_Permutation. lia. }
    cbn [fst snd]. split_and!.
    - by rewrite length_vset.
    - by rewrite Hl3.
    - intros c Hc. destruct (decide (c = N.of_nat j)) as [->|Hne].
      + rewrite vget_vset_eq by lia. cbn [hn_begin hn_size hn_valid].
        split_and!; done.
      + rewrite vget_vset_ne by done.
        destruct (Hlow c ltac:(lia)) as (? & ? & ? & Hw).
        split_and!; [done..|].
        rewrite Hother; [done|]. left.
        apply (first_entry_next deg c (N.of_nat j)). lia.
    - intros c Hc. rewrite vget_vset_ne by lia.
      destruct (Hhigh c ltac:(lia)) as [? Hw]. split; [done|].
      rewrite Hother; [done|]. right.
      apply (first_entry_next deg (N.of_nat j) c). lia. }
  destruct (Hind nc (le_n _)) as (Hl1 & _ & Hlow & _). done.
Qed.

(** Adding the weights up changes neither the ranges nor the flags. *)
Lemma aggregate_fields H cl (l : list HypernodeID) hns comm c :
  let r := foldl (aggregate_node H cl) (hns, comm) l in
  hn_begin (vget hn_default r.1 c) = hn_begin (vget hn_default hns c) ∧
  hn_size (vget hn_default r.1 c) = hn_size (vget hn_default hns c) ∧
  hn_valid (vget hn_default r.1 c) = hn_valid (vget hn_default hns c).
Proof.
  revert hns comm. induction l as [|u l IH]; intros hns comm; [done|].
  cbn [foldl]. cbn zeta in IH |- *.
  destruct (aggregate_node H cl (hns, comm) u) as [hnsx commx] eqn:Hs.
  unfold aggregate_node in Hs. injection Hs as <- <-.
  destruct (IH (vset hns (vget 0%N cl u)
                  {| hn_begin := hn_begin (vget hn_default hns (vget 0%N cl u));
                     hn_size := hn_size (vget hn_default hns (vget 0%N cl u));
                     hn_weight :=
                       add_weight (hn_weight (vget hn_default hns (vget 0%N cl u)))
                         (nodeWeight H u);
                     hn_valid := hn_valid (vget hn_default hns (vget 0%N cl u)) |})
               (vset comm (vget 0%N cl u) (communityID H u)))
    as (H1 & H2 & H3).
  rewrite H1, H2, H3. clear H1 H2 H3.
  destruct (decide (vget 0%N cl u = c)) as [->|Hne]; [|by rewrite vget_vset_ne].
  destruct (decide (N.to_nat c < length hns)) as [Hc|Hc].
  - by rewrite vget_vset_eq.
  - unfold vset. by rewrite list_insert_ge by lia.
Qed.

Lemma first_entry_ext (f g : HypernodeID → N) (c : N) :
  (∀ c', (c' < c)%N → f c' = g c') → first_entry f c = first_entry g c.
Proof.
  intros Hext. unfold first_entry. f_equal. apply list_fmap_ext.
  intros i c' Hc'. apply Hext. apply elem_of_ids. by eapply list_elem_of_lookup_2.
Qed.

(** Empty pin lists add nothing to the pins that are written. *)
Lemma emitted_pins_nonempty lists (l : list HyperedgeID) :
  emitted_pins lists l
  = emitted_pins lists (filter (λ e, is_empty (vget [] lists e) = false) l).
Proof.
  induction l as [|e l IH]; [done|].
  rewrite filter_cons. change (e :: l) with ([e] ++ l).
  rewrite emitted_pins_app, IH.
  change (emitted_pins lists [e]) with (vget [] lists e ++ []). rewrite app_nil_r.
  case_decide as He.
  - change (e :: ?k) with ([e] ++ k). rewrite emitted_pins_app.
    change (emitted_pins lists [e]) with (vget [] lists e ++ []).
    by rewrite app_nil_r.
  - destruct (vget [] lists e); [done|]. by destruct He.
Qed.

Lemma filter_filter_impl {A} (P Q : A → Prop) `{!∀ x, Decision (P x)}
    `{!∀ x, Decision (Q x)} (l : list A) :
  (∀ x, P x → Q x) → filter P (filter Q l) = filter P l.
Proof.
  intros Himpl. induction l as [|x l IH]; [done|].
  rewrite (filter_cons Q). destruct (decide (Q x)) as [Hq|Hq].
  - rewrite !filter_cons. by rewrite IH.
  - rewrite filter_cons, decide_False; [done|]. intros Hp. by apply Hq, Himpl.
Qed.

(** How often a vertex occurs among the pins of nets without repeated pins:
    once for every net that has it. *)
Lemma count_join (pinsof : HyperedgeID → list HypernodeID)
    (ks : list HyperedgeID) (c : HypernodeID) :
  (∀ k, k ∈ ks → NoDup (pinsof k)) →
  length (filter (λ v, v = c) (mjoin (pinsof <$> ks)))
  = length (filter (λ k, c ∈ pinsof k) ks).
Proof.
  intros Hnd. induction ks as [|k ks IH]; [done|].
  rewrite fmap_cons. change (mjoin (?x :: ?l)) with (x ++ mjoin l).
  rewrite filter_app, length_app, IH by (intros; apply Hnd; by right).
  rewrite (filter_cons (λ k, c ∈ pinsof k)).
  assert (length (filter (λ v, v = c) (pinsof k))
          = if decide (c ∈ pinsof k) then 1 else 0) as ->.
  { specialize (Hnd k ltac:(left)).
    induction (pinsof k) as [|v l IHl]; [done|].
    apply NoDup_cons in Hnd as [Hv Hnd]. rewrite filter_cons.
    destruct (decide (v = c)) as [->|Hne]; cbn [length]; rewrite (IHl Hnd).
    - rewrite (decide_True (P := c ∈ c :: l)) by left.
      by rewrite decide_False.
    - destruct (decide (c ∈ l)) as [Hin|Hnin].
      + by rewrite (decide_True (P := c ∈ v :: l)) by (by right).
      + rewrite (decide_False (P := c ∈ v :: l)); [done|].
        intros [?|?]%elem_of_cons; congruence. }
  destruct (decide (c ∈ pinsof k)); cbn [length]; lia.
Qed.

(** The occurrences of all vertices add up to the number of pins. *)
Lemma count_total (nc : N) (E : list HypernodeID) :
  Forall (λ v, v < nc)%N E →
  foldr N.add 0%N ((λ c, N.of_nat (length (filter (λ v, v = c) E))) <$> ids nc)
  = N.of_nat (length E).
Proof.
  induction 1 as [|v E Hv _ IH]; cbn [length].
  { induction (ids nc) as [|c l IHl]; [done|]. rewrite fmap_cons. cbn [foldr].
    rewrite IHl. done. }
  assert (foldr N.add 0%N ((λ c, if decide (v = c) then 1 else 0)%N <$> ids nc)
          = 1%N) as Hone.
  { clear -Hv. rewrite <-(N2Nat.id nc) in *.
    induction (N.to_nat nc) as [|j IH]; [lia|].
    rewrite ids_S, fmap_app, foldr_app. cbn [fmap list_fmap foldr].
    destruct (decide (v = N.of_nat j)) as [->|Hne].
    - assert (∀ l : list N, Forall (λ c, N.of_nat j ≠ c) l →
                foldr N.add (1 + 0)%N
                  ((λ c, if decide (N.of_nat j = c) then 1 else 0)%N <$> l) = 1%N)
        as Hz.
      { induction 1 as [|c l Hc _ IHl]; [done|]. rewrite fmap_cons. cbn [foldr].
        rewrite IHl. by rewrite decide_False. }
      apply Hz. apply Forall_forall. intros c Hc%elem_of_ids. lia.
    - rewrite N.add_0_r. apply IH. lia. }
  assert (∀ l : list N,
            foldr N.add 0%N
              ((λ c, N.of_nat (length (filter (λ v, v = c) (v :: E)))) <$> l)
            = (foldr N.add 0%N ((λ c, if decide (v = c) then 1 else 0)%N <$> l)
               + foldr N.add 0%N
                   ((λ c, N.of_nat (length (filter (λ v, v = c) E))) <$> l))%N)
    as Hsplit.
  { intros l. induction l as [|c l IHl]; [done|]. rewrite !fmap_cons. cbn [foldr].
    rewrite IHl, filter_cons. destruct (decide (v = c)); cbn [length]; lia. }
  rewrite Hsplit, Hone, IH. lia.
Qed.

Lemma first_entry_bound (sizes : HypernodeID → N) (b : N) (j : nat) :
  (∀ c, (sizes c ≤ b)%N) → (first_entry sizes (N.of_nat j) ≤ N.of_nat j * b)%N.
Proof.
  intros Hb. induction j as [|j IH]; [done|].
  rewrite first_entry_S. specialize (Hb (N.of_nat j)). lia.
Qed.

Lemma nets_of_sorted pinsof (j : nat) c :
  StronglySorted N.le (nets_of pinsof (N.of_nat j) c) ∧
  Forall (λ k, k < N.of_nat j)%N (nets_of pinsof (N.of_nat j) c).
Proof.
  induction j as [|j [IH1 IH2]]; [split; constructor|].
  rewrite nets_of_S. split.
  - apply StronglySorted_app_2; [|done|case_decide; repeat constructor].
    intros x y Hx Hy. rewrite Forall_forall in IH2. specialize (IH2 x Hx).
    case_decide; [|by apply elem_of_nil in Hy].
    apply list_elem_of_singleton in Hy as ->. lia.
  - apply Forall_app. split.
    + eapply Forall_impl; [done|]. intros; cbn beta in *; lia.
    + case_decide; repeat constructor. lia.
Qed.

Lemma merge_sort_sorted (l : list N) :
  StronglySorted N.le l → merge_sort N.le l = l.
Proof.
  intros Hl. apply (StronglySorted_unique N.le); [|done|apply merge_sort_Permutation].
  apply (StronglySorted_merge_sort N.le).
Qed.

Lemma vget_replicate {A} (x : A) (k : nat) (i : N) : vget x (replicate k x) i = x.
Proof.
  unfold vget. destruct (replicate k x !! N.to_nat i) as [y|] eqn:Hy; [|done].
  by apply lookup_replicate in Hy as [-> _].
Qed.

(** The vertex records and the incident nets of the hypergraph that
    [contract] returns. *)
Lemma contract_incident seed H clusters chg clusters' :
  wf_hypergraph H → wf_clusters H clusters →
  contract seed H clusters = Some (chg, clusters') →
  let nc := initialNumNodes chg in
  let m' := initialNumEdges chg in
  let deg c := N.of_nat (length (nets_of (pins chg) m' c)) in
  (∀ k, (k < m')%N →
        NoDup (pins chg k) ∧ Forall (λ v, v < nc)%N (pins chg k)) ∧
  (∀ k, (k < m')%N → edgeSize chg k = N.of_nat (length (pins chg k))) ∧
  length (_hyperedges chg) = N.to_nat m' ∧
  _max_edge_size chg
  = foldl (λ mx e, N.max mx (edgeSize chg e)) 0%N (ids m') ∧
  length (_hypernodes chg) = N.to_nat nc ∧
  _num_pins chg = first_entry deg nc ∧
  ∀ c, (c < nc)%N →
       hn_begin (hypernode chg c) = first_entry deg c ∧
       hn_size (hypernode chg c) = deg c ∧
       hn_valid (hypernode chg c) = true ∧
       incidentEdges chg c = nets_of (pins chg) m' c.
Proof.
  intros Hwf Hcl Hsome nc m' deg.
  destruct (contract_spec seed H clusters Hwf Hcl)
    as (reps & Ms & pf & inv & _ & _ & Hle & Hout).
  destruct (Hout (Hle _ Hsome)) as (Hperm & chg0 & Hsome0 & Hnc & Hm & _ & Hnets).
  rewrite Hsome in Hsome0. injection Hsome0 as <- ->.
  clear Hle Hout.
  set (n := initialNumNodes H) in *.
  set (mapping := parallel_prefix_sum 0 (mark_clusters n clusters)) in *.
  set (ncs := vget 0%N mapping (n - 1)%N) in *.
  set (cl := relabel H mapping clusters) in *.
  set (d := detect_identical_nets seed H ncs cl) in *.
  set (P := merge_sort info_le (P0 seed H cl <$> ids (initialNumEdges H))) in *.
  set (lists := coarse_pin_lists d) in *.
  set (nets := nonempty_nets lists (initialNumEdges H)) in *.
  fold nc in Hnc. fold m' in Hm.
  (* the pins of the coarse nets *)
  assert (∀ e, e ∈ nets → e ∈ edges H ∧ vget [] lists e = L0 H cl e) as Hnet.
  { intros e [Hne He]%list_elem_of_filter.
    destruct (di_lists _ _ _ _ _ _ _ inv e) as [Hnil|HL].
    { fold lists in Hnil. by rewrite Hnil in Hne. }
    split; [|done]. apply list_elem_of_filter. split; [|done].
    fold lists in HL. rewrite HL in Hne. unfold L0 in Hne.
    by destruct (edgeIsEnabled H e). }
  assert (∀ k, (k < m')%N → ∃ e, nets !! N.to_nat k = Some e ∧
                                 pins chg k = vget [] lists e) as Hpk.
  { intros k Hk. destruct (lookup_lt_is_Some_2 nets (N.to_nat k)) as [e He]; [lia|].
    exists e. split; [done|]. destruct (Hnets _ _ He) as (Hp & _).
    rewrite N2Nat.id in Hp. rewrite Hp.
    symmetry. apply Hnet. by eapply list_elem_of_lookup_2. }
  assert (∀ k, (k < m')%N →
            NoDup (pins chg k) ∧ Forall (λ v, v < nc)%N (pins chg k)) as Hpins.
  { intros k Hk. destruct (Hpk k Hk) as (e & He & ->).
    destruct (Hnet e) as [Hedge ->]; [by eapply list_elem_of_lookup_2|].
    split; [apply (pf_nodup _ _ _ _ pf)|].
    eapply Forall_impl; [apply (pf_range _ _ _ _ pf e Hedge)|].
    intros v Hv. cbn beta in Hv. lia. }
  split; [done|].
  (* the stages of the construction *)
  unfold contract, contract_v2 in Hsome. cbv zeta in Hsome.
  fold n mapping ncs cl in Hsome. fold d in Hsome. fold lists in Hsome.
  apply bind_Some in Hsome as (em & Hem & Hsome).
  apply bind_Some in Hsome as (cp & Hcp & Hsome).
  match type of Hsome with
  | context [foldl (λ st e, foldl (scatter_pin e) st (pins ?c e)) ?a ?l] =>
      destruct (foldl (λ st e, foldl (scatter_pin e) st (pins c e)) a l)
        as [hns2 nets2] eqn:Hscatter
  end.
  cbv beta iota in Hsome.
  destruct (foldl reset_node (hns2, nets2) (ids ncs)) as [hns3 nets3] eqn:Hreset.
  cbv beta iota in Hsome.
  match type of Hsome with
  | context [foldl (aggregate_node H cl) ?a (nodes H)] =>
      destruct (foldl (aggregate_node H cl) a (nodes H)) as [hns4 comm] eqn:Hagg
  end.
  cbv beta iota in Hsome.
  injection Hsome as Hchg.
  set (pinsof := λ k, window cp.1 (he_begin (vget he_default (em_hyperedges em) k))
                        (he_size (vget he_default (em_hyperedges em) k))).
  assert (pins chg = pinsof) as Hpinsof by (by rewrite <-Hchg).
  assert (m' = N.of_nat (num_coarse_nets d)) as Hm' by (unfold m'; by rewrite <-Hchg).
  assert (hypernode chg = vget hn_default hns4) as Hhn by (by rewrite <-Hchg).
  assert (_incident_nets chg = nets3) as Hinc by (by rewrite <-Hchg).
  assert (_num_pins chg = N.of_nat (num_coarse_pins d)) as Hnp by (by rewrite <-Hchg).
  assert (_hypernodes chg = hns4) as Hhns by (by rewrite <-Hchg).
  assert (_hyperedges chg = em_hyperedges em) as Hhes by (by rewrite <-Hchg).
  assert (edgeSize chg = λ k, he_size (vget he_default (em_hyperedges em) k))
    as Hes by (by rewrite <-Hchg).
  assert (_max_edge_size chg
          = foldl (λ mx e, N.max mx (edgeSize chg e)) 0%N (ids m')) as Hmx.
  { rewrite Hes, Hm'. by rewrite <-Hchg. }
  pose proof Hem as Hem'. rewrite <-(N2Nat.id (initialNumEdges H)) in Hem'.
  apply emit_spec in Hem' as (_ & _ & _ & Hhl & _ & Hent);
    [|rewrite length_replicate; lia].
  rewrite N2Nat.id in Hent. fold nets in Hent.
  assert (∀ k, (k < m')%N → edgeSize chg k = N.of_nat (length (pins chg k)))
    as Hsizes.
  { intros k Hk. destruct (Hpk k Hk) as (e & He & ->).
    destruct (Hent _ _ He) as [Hk' _]. rewrite Hes.
    by rewrite (vget_lookup _ _ _ _ Hk'). }
  split; [exact Hsizes|]. split; [rewrite Hhes, Hhl; lia|]. split; [exact Hmx|].
  clear Hmx Hsizes Hes Hhes.
  change (foldl (λ st k, foldl (scatter_pin k) st (pinsof k))
            ((foldl place_node (cp.2, 0%N) (ids ncs)).1,
             replicate (num_coarse_pins d) 0%N)
            (ids (N.of_nat (num_coarse_nets d))) = (hns2, nets2)) in Hscatter.
  rewrite <-Hm' in Hscatter. clear Hchg.
  unfold incidentEdges. rewrite Hhn, Hinc, Hnp, Hhns.
  unfold deg. rewrite Hpinsof in Hpins, Hpk |- *. clear deg.
  set (deg := λ c, N.of_nat (length (nets_of pinsof m' c))).
  clearbody nc m'. subst nc.
  destruct Hwf as (Hn & HmH & _). fold n in Hn.
  destruct (compactify_spec H clusters Hn Hcl) as (_ & Hncn & Hen & _).
  fold n mapping ncs cl in Hncn, Hen.
  (* the pins in the order in which they are copied *)
  set (E := emitted_pins lists (edges H)).
  assert (E = emitted_pins lists nets) as HEnets.
  { unfold E. rewrite emitted_pins_nonempty. unfold edges.
    rewrite filter_filter_impl; [done|].
    intros e He. destruct (di_lists _ _ _ _ _ _ _ inv e) as [Hnil|HL].
    - fold lists in Hnil. by rewrite Hnil in He.
    - fold lists in HL. rewrite HL in He. unfold L0 in He.
      by destruct (edgeIsEnabled H e). }
  assert (E = mjoin (pinsof <$> ids m')) as HE.
  { rewrite HEnets. unfold emitted_pins. f_equal. apply list_eq. intros k.
    rewrite !list_lookup_fmap.
    destruct (decide (k < length nets)) as [Hk|Hk].
    - destruct (Hpk (N.of_nat k)) as (e & He & Hp); [lia|].
      rewrite Nat2N.id in He. rewrite He. unfold ids.
      rewrite list_lookup_fmap, lookup_seq_lt by lia. simpl. by rewrite Hp.
    - rewrite !lookup_ge_None_2; [done|rewrite length_ids; lia|lia]. }
  assert (num_coarse_pins d = length E) as HlenE.
  { rewrite HEnets, (di_pins _ _ _ _ _ _ _ inv),
      <-(emitted_pins_Permutation _ _ _ Hperm).
    set (heof := λ r, info_he (info_at 0%N P r)).
    assert (∀ r, r ∈ reps → vget [] lists (heof r) = L0 H cl (heof r)) as Hrep.
    { intros r Hr. apply Hnet. rewrite <-Hperm. apply list_elem_of_fmap.
      by exists r. }
    clear -Hrep. induction reps as [|r reps IH]; [done|].
    rewrite !fmap_cons. cbn [foldr].
    change (heof r :: (heof <$> reps)) with ([heof r] ++ (heof <$> reps)).
    rewrite emitted_pins_app, length_app, IH.
    - change (emitted_pins lists [heof r]) with (vget [] lists (heof r) ++ []).
      rewrite app_nil_r, Hrep; [done|by left].
    - intros r' Hr'. apply Hrep. by right. }
  assert (Forall (λ v, v < ncs)%N E) as HEr.
  { rewrite HE. apply Forall_forall. intros v (l & Hv & Hl)%list_elem_of_join.
    apply list_elem_of_fmap in Hl as (k & -> & Hk%elem_of_ids).
    destruct (Hpins k Hk) as [_ Hr]. rewrite Forall_forall in Hr. by apply Hr. }
  assert (∀ c, N.of_nat (length (filter (λ v, v = c) E)) = deg c) as Hcount.
  { intros c. rewrite HE, count_join; [done|].
    intros k Hk%elem_of_ids. by apply Hpins. }
  assert (first_entry deg ncs = N.of_nat (length E)) as Htot.
  { rewrite <-(count_total ncs E HEr). apply first_entry_ext.
    intros c _. by rewrite Hcount. }
  assert (first_entry deg ncs < 2 ^ 64)%N as Hfits.
  { pose proof (first_entry_bound deg m' (N.to_nat ncs)) as Hb.
    rewrite N2Nat.id in Hb.
    assert (m' ≤ initialNumEdges H)%N as Hmm.
    { rewrite Hm. unfold nets, nonempty_nets.
      pose proof (length_filter (λ e, is_empty (vget [] lists e) = false)
                    (ids (initialNumEdges H))) as Hf.
      rewrite length_ids in Hf. lia. }
    assert (first_entry deg ncs ≤ ncs * m')%N as Hb'.
    { apply Hb. intros c. unfold deg, nets_of.
      pose proof (length_filter (λ k, c ∈ pinsof k) (ids m')) as Hf.
      rewrite length_ids in Hf. lia. }
    assert (ncs * m' ≤ (2 ^ 32) * (2 ^ 32))%N as Hmul
      by (apply N.mul_le_mono; lia).
    change (2 ^ 32 * 2 ^ 32)%N with (2 ^ 64)%N in Hmul.
    assert (ncs * m' ≠ 2 ^ 64)%N; [|lia].
    intros Heq. assert (ncs * m' ≤ (2 ^ 32 - 2) * (2 ^ 32 - 2))%N
      by (apply N.mul_le_mono; lia). lia. }
  (* the degrees counted while the pins are copied *)
  destruct (copy_sizes _ _ _ _ _ _ Hcp) as [Hcl2 Hsz].
  { intros e He. rewrite length_replicate.
    destruct (di_lists _ _ _ _ _ _ _ inv e) as [Hnil|HL].
    - fold lists in Hnil. rewrite Hnil. constructor.
    - fold lists in HL. rewrite HL. apply (pf_range _ _ _ _ pf e He). }
  rewrite length_replicate in Hcl2. fold E in Hsz.
  assert (∀ c, hn_size (vget hn_default cp.2 c) = deg c) as Hsize.
  { intros c. rewrite Hsz, vget_replicate. cbn [grow hn_size hn_default].
    by rewrite Hcount. }
  (* the prefix sum *)
  pose proof (place_spec (N.to_nat ncs) cp.2 ltac:(lia)) as Hplace.
  cbv zeta in Hplace. rewrite N2Nat.id in Hplace.
  destruct Hplace as (Hl1 & _ & Hp1 & _).
  set (hns1 := (foldl place_node (cp.2, 0%N) (ids ncs)).1) in *.
  assert (∀ c, (c < ncs)%N →
            vget hn_default hns1 c
            = {| hn_begin := first_entry deg c; hn_size := deg c;
                 hn_weight := hn_weight (vget hn_default cp.2 c);
                 hn_valid := true |}) as Hv1.
  { intros c Hc. rewrite (Hp1 c Hc). f_equal; [|apply Hsize].
    apply first_entry_ext. intros c' _. apply Hsize. }
  (* the incident nets are written *)
  pose proof (scatter_spec pinsof (N.to_nat m') (N.to_nat ncs) hns1
                (replicate (num_coarse_pins d) 0%N)) as Hsc.
  cbv zeta in Hsc. rewrite !N2Nat.id in Hsc. rewrite Hscatter in Hsc.
  cbn [fst snd] in Hsc. fold deg in Hsc.
  destruct (Hsc Hpins) as (Hl2 & Hla2 & Hs2); [|clear Hsc; rewrite N2Nat.id in Hla2, Hs2].
  { unfold scatter_inv. rewrite N2Nat.id.
    split_and!; [lia|rewrite length_replicate, Htot; lia|].
    intros c Hc. rewrite (Hv1 c Hc). cbn [hn_begin length].
    split_and!; [lia|lia|done]. }
  assert (∀ c, hn_size (vget hn_default hns2 c) = hn_size (vget hn_default hns1 c) ∧
               hn_valid (vget hn_default hns2 c) = hn_valid (vget hn_default hns1 c))
    as Hf2.
  { intros c.
    pose proof (scatter_fields pinsof (ids m') hns1
                  (replicate (num_coarse_pins d) 0%N) c) as Hf.
    cbv zeta in Hf. rewrite Hscatter in Hf. cbn [fst] in Hf. tauto. }
  (* the cursors are reset and the ranges sorted *)
  pose proof (reset_spec deg (N.to_nat ncs) hns2 nets2 (nets_of pinsof m')
                Hl2) as Hrs.
  cbv zeta in Hrs. rewrite !N2Nat.id in Hrs. rewrite Hreset in Hrs.
  cbn [fst snd] in Hrs.
  destruct (Hrs Hla2 Hfits) as (Hl3 & Hr3); [|clear Hrs].
  { intros c Hc. destruct (Hs2 c Hc) as (Hb & _ & Hw).
    destruct (Hf2 c) as [Hsz2 _]. rewrite (Hv1 c Hc) in Hsz2.
    split_and!; [done|done| |done].
    rewrite <-(N2Nat.id (first_entry deg c)). unfold deg at 1.
    by apply window_lookup. }
  (* the weights are aggregated *)
  match type of Hagg with
  | foldl _ (_, ?cm) _ = _ =>
      pose proof (aggregate_spec H cl (nodes H) hns3 cm) as Hl4;
      pose proof (aggregate_fields H cl (nodes H) hns3 cm) as Hf4
  end.
  cbv zeta in Hl4, Hf4. rewrite Hagg in Hl4, Hf4. cbn [fst] in Hl4, Hf4.
  destruct Hl4 as [Hl4 _].
  { intros u [Hu Hu']%list_elem_of_filter. apply elem_of_ids in Hu'.
    specialize (Hen u Hu' Hu). lia. }
  split_and!; [lia|rewrite Htot; lia|].
  intros c Hc. destruct (Hf4 c) as (-> & -> & ->).
  destruct (Hr3 c Hc) as (-> & -> & -> & ->).
  destruct (Hf2 c) as [_ ->]. rewrite (Hv1 c Hc).
  split_and!; [done|done|done|].
  apply merge_sort_sorted.
  rewrite <-(N2Nat.id m'). apply nets_of_sorted.
Qed.

(** X18. In the hypergraph that [contract] returns, the incident nets of
    every vertex are exactly the nets that have the vertex as a pin, each
    once and in increasing order of their ids. *)
Theorem contract_incident_nets seed H clusters chg clusters' c :
  wf_hypergraph H → wf_clusters H clusters →
  contract seed H clusters = Some (chg, clusters') →
  (c < initialNumNodes chg)%N →
  incidentEdges chg c = nets_of (pins chg) (initialNumEdges chg) c.
Proof.
  intros Hwf Hcl Hsome Hc.
  pose proof (contract_incident _ _ _ _ _ Hwf Hcl Hsome) as Hci.
  cbv zeta in Hci. destruct Hci as (_ & _ & _ & _ & _ & _ & Hv).
  by destruct (Hv c Hc) as (_ & _ & _ & ->).
Qed.

Lemma contract_incident_nets_witness :
  incidentEdges chg_merge 1
  = nets_of (pins chg_merge) (initialNumEdges chg_merge) 1.
Proof.
  apply (contract_incident_nets 42 H_merge clusters_merge chg_merge
           [0; 1; 1; 2]%N 1%N).
  - apply wf_H_merge.
  - apply wf_H_merge.
  - vm_compute. reflexivity.
  - by vm_compute.
Defined.

Lemma length_join_sum {A} (f : N → list A) (l : list N) :
  N.of_nat (length (mjoin (f <$> l)))
  = foldr N.add 0%N ((λ k, N.of_nat (length (f k))) <$> l).
Proof.
  induction l as [|k l IH]; [done|].
  rewrite !fmap_cons. change (mjoin (f k :: (f <$> l))) with (f k ++ mjoin (f <$> l)).
  cbn [foldr]. rewrite length_app, <-IH. lia.
Qed.

(** X19. The number of pins that [contract] records for the coarse
    hypergraph is the sum of the sizes of its nets and also the sum of the
    degrees of its vertices. *)
Theorem contract_pin_counts seed H clusters chg clusters' :
  wf_hypergraph H → wf_clusters H clusters →
  contract seed H clusters = Some (chg, clusters') →
  _num_pins chg
  = foldr N.add 0%N (edgeSize chg <$> ids (initialNumEdges chg)) ∧
  _num_pins chg
  = foldr N.add 0%N ((λ c, hn_size (hypernode chg c)) <$> ids (initialNumNodes chg)).
Proof.
  intros Hwf Hcl Hsome.
  pose proof (contract_incident _ _ _ _ _ Hwf Hcl Hsome) as Hci.
  cbv zeta in Hci. destruct Hci as (Hpins & Hsizes & _ & _ & _ & Hnp & Hv).
  set (nc := initialNumNodes chg) in *. set (m' := initialNumEdges chg) in *.
  split.
  - set (E := mjoin (pins chg <$> ids m')).
    assert (Forall (λ v, v < nc)%N E) as HEr.
    { apply Forall_forall. intros v (l & Hv' & Hl)%list_elem_of_join.
      apply list_elem_of_fmap in Hl as (k & -> & Hk%elem_of_ids).
      destruct (Hpins k Hk) as [_ Hr]. rewrite Forall_forall in Hr. by apply Hr. }
    rewrite Hnp. etrans; [|etrans; [apply (count_total nc E HEr)|]].
    + apply first_entry_ext. intros c _. unfold E. rewrite count_join; [done|].
      intros k Hk%elem_of_ids. by apply Hpins.
    + unfold E. rewrite length_join_sum. symmetry.
      apply (first_entry_ext (edgeSize chg)). intros k Hk. by apply Hsizes.
  - rewrite Hnp. apply first_entry_ext. intros c Hc.
    by destruct (Hv c Hc) as (_ & -> & _).
Qed.

Lemma contract_pin_counts_witness :
  _num_pins chg_merge
  = foldr N.add 0%N (edgeSize chg_merge <$> ids (initialNumEdges chg_merge)) ∧
  _num_pins chg_merge
  = foldr N.add 0%N ((λ c, hn_size (hypernode chg_merge c))
                       <$> ids (initialNumNodes chg_merge)).
Proof.
  apply (contract_pin_counts 42 H_merge clusters_merge chg_merge [0; 1; 1; 2]%N).
  - apply wf_H_merge.
  - apply wf_H_merge.
  - vm_compute. reflexivity.
Defined.

(** X20. When the input has an enabled vertex, the hypergraph that
    [contract] returns meets the conditions that [contract] asks of its
    input, so that it can be contracted again, and all its vertices and nets
    are enabled. *)
Theorem contract_result_wf seed H clusters chg clusters' :
  wf_hypergraph H → wf_clusters H clusters →
  contract seed H clusters = Some (chg, clusters') →
  nodes H ≠ [] →
  wf_hypergraph chg ∧
  nodes chg = ids (initialNumNodes chg) ∧
  edges chg = ids (initialNumEdges chg).
Proof.
  intros Hwf Hcl Hsome Hne.
  pose proof (contract_incident _ _ _ _ _ Hwf Hcl Hsome) as Hci.
  cbv zeta in Hci. destruct Hci as (Hpins & _ & Hhes & _ & Hhns & _ & Hv).
  destruct (contract_spec seed H clusters Hwf Hcl)
    as (reps & Ms & _ & _ & _ & _ & Hle & Hout).
  destruct (Hout (Hle _ Hsome)) as (_ & chg0 & Hsome0 & Hnc & Hm & _ & Hnets).
  rewrite Hsome in Hsome0. injection Hsome0 as <- _. clear Hle Hout.
  destruct Hwf as (Hn & HmH & _).
  destruct (compactify_spec H clusters Hn Hcl) as (_ & Hncn & Hen & _).
  cbv zeta in Hncn, Hen. rewrite <-Hnc in Hncn, Hen.
  assert (nodes chg = ids (initialNumNodes chg)) as Hnodes.
  { apply filter_all, Forall_forall. intros c Hc%elem_of_ids.
    unfold nodeIsEnabled. by destruct (Hv c Hc) as (_ & _ & -> & _). }
  assert (edges chg = ids (initialNumEdges chg)) as Hedges.
  { apply filter_all, Forall_forall. intros k Hk%elem_of_ids.
    destruct (lookup_lt_is_Some_2
                (nonempty_nets
                   (coarse_pin_lists
                      (detect_identical_nets seed H (initialNumNodes chg)
                         (relabel H (parallel_prefix_sum 0
                            (mark_clusters (initialNumNodes H) clusters)) clusters)))
                   (initialNumEdges H)) (N.to_nat k)) as [e He].
    { rewrite Hnc. lia. }
    rewrite Hnc in He. destruct (Hnets _ _ He) as (_ & _ & Hen').
    by rewrite N2Nat.id in Hen'. }
  split; [|done].
  apply wf_hypergraph_intro; [| |done|done|].
  - destruct (nodes H) as [|u l] eqn:Hnodes'; [done|].
    assert (u ∈ nodes H) as [Hu Hu'%elem_of_ids]%list_elem_of_filter
      by (rewrite Hnodes'; by left).
    specialize (Hen u Hu' Hu). lia.
  - rewrite Hm.
    pose proof (length_filter
                  (λ e, is_empty
                          (vget [] (coarse_pin_lists
                             (detect_identical_nets seed H
                                (vget 0%N (parallel_prefix_sum 0
                                   (mark_clusters (initialNumNodes H) clusters))
                                   (initialNumNodes H - 1))
                                (relabel H (parallel_prefix_sum 0
                                   (mark_clusters (initialNumNodes H) clusters))
                                   clusters))) e) = false)
                  (ids (initialNumEdges H))) as Hf.
    rewrite length_ids in Hf. unfold nonempty_nets. lia.
  - rewrite Hedges. apply Forall_forall. intros k Hk%elem_of_ids.
    by apply Hpins.
Qed.

Lemma contract_result_wf_witness :
  wf_hypergraph chg_merge ∧
  nodes chg_merge = ids (initialNumNodes chg_merge) ∧
  edges chg_merge = ids (initialNumEdges chg_merge).
Proof.
  apply (contract_result_wf 42 H_merge clusters_merge chg_merge [0; 1; 1; 2]%N).
  - apply wf_H_merge.
  - apply wf_H_merge.
  - vm_compute. reflexivity.
  - by vm_compute.
Defined.

Lemma foldl_max_spec (f : N → N) (l : list N) (a : N) :
  let r := foldl (λ mx e, N.max mx (f e)) a l in
  (a ≤ r)%N ∧ (∀ e, e ∈ l → (f e ≤ r)%N) ∧ (r = a ∨ ∃ e, e ∈ l ∧ f e = r).
Proof.
  revert a. induction l as [|x l IH]; intros a; cbn [foldl].
  { split_and!; [done| |by left]. intros e He. by apply elem_of_nil in He. }
  destruct (IH (N.max a (f x))) as (Hge & Hall & Hatt). cbv zeta.
  split_and!; [lia| |].
  - intros e [->|He]%elem_of_cons; [lia|by apply Hall].
  - destruct Hatt as [Heq|(e & He & Hfe)].
    + destruct (N.max_spec a (f x)) as [[_ Hmax]|[_ Hmax]].
      * right. exists x. split; [by left|]. by rewrite Heq, Hmax.
      * left. by rewrite Heq, Hmax.
    + right. exists e. split; [by right|done].
Qed.

(** X21. The maximum net size that [contract] stores in the coarse
    hypergraph bounds the size of every coarse net, is the size of one of
    them when there is a net, and is 0 when there is none. *)
Theorem contract_max_edge_size seed H clusters chg clusters' :
  wf_hypergraph H → wf_clusters H clusters →
  contract seed H clusters = Some (chg, clusters') →
  (∀ e, (e < initialNumEdges chg)%N → (edgeSize chg e ≤ _max_edge_size chg)%N) ∧
  (_max_edge_size chg = 0%N ∨
   ∃ e, (e < initialNumEdges chg)%N ∧ edgeSize chg e = _max_edge_size chg) ∧
  (initialNumEdges chg = 0%N → _max_edge_size chg = 0%N).
Proof.
  intros Hwf Hcl Hsome.
  pose proof (contract_incident _ _ _ _ _ Hwf Hcl Hsome) as Hci.
  cbv zeta in Hci. destruct Hci as (_ & _ & _ & -> & _).
  pose proof (foldl_max_spec (edgeSize chg) (ids (initialNumEdges chg)) 0%N)
    as Hmax.
  cbv zeta in Hmax. destruct Hmax as (_ & Hall & Hatt). split_and!.
  - intros e He. by apply Hall, elem_of_ids.
  - destruct Hatt as [Heq|(e & He%elem_of_ids & Hfe)]; [by left|].
    right. by exists e.
  - intros ->. done.
Qed.

Lemma contract_max_edge_size_witness :
  (∀ e, (e < initialNumEdges chg_merge)%N →
        (edgeSize chg_merge e ≤ _max_edge_size chg_merge)%N) ∧
  (_max_edge_size chg_merge = 0%N ∨
   ∃ e, (e < initialNumEdges chg_merge)%N ∧
        edgeSize chg_merge e = _max_edge_size chg_merge) ∧
  (initialNumEdges chg_merge = 0%N → _max_edge_size chg_merge = 0%N).
Proof.
  apply (contract_max_edge_size 42 H_merge clusters_merge chg_merge
           [0; 1; 1; 2]%N).
  - apply wf_H_merge.
  - apply wf_H_merge.
  - vm_compute. reflexivity.
Defined.

End CoarseningSpec.

(** ** The adjacency array of a static graph *)

Module AdjacencySpec.
Import Hypergraph GraphFactory Adjacency GraphFactorySpec.

Lemma pin_count_nil v : pin_count [] v = 0%N.
Proof. done. Qed.

Lemma pin_count_snoc ev (p0 p1 v : HypernodeID) :
  pin_count (ev ++ [[p0; p1]]) v
  = (pin_count ev v + N.b2n (bool_decide (p0 = v)) + N.b2n (bool_decide (p1 = v)))%N.
Proof.
  unfold pin_count. rewrite join_app, filter_app, length_app.
  cbn [mjoin list_join app]. rewrite !filter_cons, filter_nil.
  repeat case_decide; repeat case_bool_decide; try done; cbn [length N.b2n]; lia.
Qed.

Lemma pin_count_app ev e v :
  pin_count (ev ++ [e]) v
  = (pin_count ev v + N.of_nat (length (filter (λ p, p = v) e)))%N.
Proof.
  unfold pin_count. rewrite join_app, filter_app, length_app.
  cbn [mjoin list_join]. rewrite !app_nil_r. lia.
Qed.

(** The counters of [count_degrees]. *)
Lemma count_pins_spec (c : list N) (e : list HypernodeID) (v : HypernodeID) :
  Forall (λ pin, N.to_nat pin < length c) e →
  let c' := foldl (λ c pin, vset c pin (vget 0 c pin + 1)%N) c e in
  length c' = length c ∧
  vget 0%N c' v = (vget 0%N c v + N.of_nat (length (filter (λ p, p = v) e)))%N.
Proof.
  revert c. induction e as [|p e IH]; intros c Hr; cbn [foldl].
  { split; [done|]. cbn. lia. }
  apply Forall_cons in Hr as [Hp Hr].
  destruct (IH (vset c p (vget 0 c p + 1)%N)) as [Hl Hv].
  { by rewrite length_vset. }
  cbv zeta. rewrite length_vset in Hl. split; [done|].
  rewrite Hv, filter_cons. case_decide as Hd.
  - subst p. rewrite vget_vset_eq by done. cbn [length]. lia.
  - rewrite vget_vset_ne by done. lia.
Qed.

Lemma count_degrees_spec num_nodes num_edges ev v :
  wf_edge_vector num_nodes num_edges ev →
  length (count_degrees num_nodes ev) = N.to_nat num_nodes ∧
  vget 0%N (count_degrees num_nodes ev) v = pin_count ev v.
Proof.
  intros [_ Hpins]. unfold count_degrees.
  induction ev as [|e ev IH] using rev_ind.
  { cbn [foldl]. rewrite length_replicate. split; [done|].
    unfold vget. by destruct (replicate _ _ !! _) as [x|] eqn:Hx;
      [apply lookup_replicate in Hx as [-> _]|]. }
  apply Forall_app in Hpins as [Hpins [He _]%Forall_cons].
  destruct (IH Hpins) as [Hl Hv]. rewrite foldl_app. cbn [foldl].
  destruct (count_pins_spec
              (foldl (λ c e, foldl (λ c pin, vset c pin (vget 0 c pin + 1)%N) c e)
                     (replicate (N.to_nat num_nodes) 0%N) ev) e v) as [Hl' Hv'].
  { eapply Forall_impl; [exact He|]. intros p Hp. cbn beta in Hp. lia. }
  cbv zeta in Hl', Hv'. split; [congruence|].
  by rewrite Hv', Hv, pin_count_app.
Qed.

Lemma prefix_sum_S (c : list N) (v : N) :
  N.to_nat v < length c →
  prefix_sum c (v + 1) = (prefix_sum c v + vget 0%N c v)%N.
Proof.
  intros Hv. unfold prefix_sum, vget.
  destruct (lookup_lt_is_Some_2 c (N.to_nat v) Hv) as [x Hx]. rewrite Hx.
  replace (N.to_nat (v + 1)) with (S (N.to_nat v)) by lia.
  rewrite (take_S_r _ _ _ Hx), foldr_app. cbn [foldr default].
  generalize (take (N.to_nat v) c). intros l. unfold id.
  induction l as [|y l IH]; cbn [foldr]; lia.
Qed.

(** *** The entries written by [setup_edges] *)

Local Ltac b2n_cases :=
  repeat case_bool_decide; simplify_eq; cbn [N.b2n] in *.

Lemma setup_edge_step prefix ew n cap ev es position p0 p1 :
  (∀ u v, (u ≤ v)%N → (prefix u ≤ prefix v)%N) →
  (prefix (N.of_nat n) ≤ N.of_nat cap)%N →
  length es = cap →
  (p0 < N.of_nat n)%N → (p1 < N.of_nat n)%N →
  (∀ v, (v < N.of_nat n)%N →
        (prefix v + pin_count (ev ++ [[p0; p1]]) v ≤ prefix (v + 1))%N) →
  setup_inv prefix ew n ev es position →
  let r := setup_edge prefix ew (es, position) (length ev, [p0; p1]) in
  length r.1 = cap ∧ setup_inv prefix ew n (ev ++ [[p0; p1]]) r.1 r.2.
Proof.
  intros Hmono Hcap Hes Hp0 Hp1 Hroom (Hpl & Hpos & Hfresh & Hedges).
  unfold setup_edge. cbn [lookup list_lookup default fst snd]. unfold id.
  rewrite (Hpos p0 Hp0).
  set (pos0 := (prefix p0 + pin_count ev p0)%N).
  set (position1 := vset position p0 (pin_count ev p0 + 1)%N).
  assert (vget 0%N position1 p1
          = (pin_count ev p1 + N.b2n (bool_decide (p0 = p1)))%N) as Hc1.
  { unfold position1. case_bool_decide as Hd.
    - subst p1. rewrite vget_vset_eq by lia. cbn. lia.
    - rewrite vget_vset_ne by done. rewrite (Hpos p1 Hp1). cbn. lia. }
  rewrite Hc1.
  set (pos1 := (prefix p1 + (pin_count ev p1 + N.b2n (bool_decide (p0 = p1))))%N).
  pose proof (Hroom p0 Hp0) as Hr0. pose proof (Hroom p1 Hp1) as Hr1.
  rewrite pin_count_snoc in Hr0, Hr1.
  rewrite (bool_decide_eq_true_2 (p0 = p0)) in Hr0 by done.
  rewrite (bool_decide_eq_true_2 (p1 = p1)) in Hr1 by done.
  cbn [N.b2n] in Hr0, Hr1.
  pose proof (Hmono (p0 + 1)%N (N.of_nat n)) as Hm0.
  pose proof (Hmono (p1 + 1)%N (N.of_nat n)) as Hm1.
  pose proof (Hmono (p0 + 1)%N p1) as Hm01.
  pose proof (Hmono (p1 + 1)%N p0) as Hm10.
  assert (pos0 ≠ pos1 ∧ N.to_nat pos0 < cap ∧ N.to_nat pos1 < cap) as (Hne & Hlt0 & Hlt1).
  { unfold pos0, pos1. b2n_cases; lia. }
  assert (vget default_edge es pos0 = default_edge) as Hd0.
  { apply (Hfresh p0); [done|]. unfold pos0. lia. }
  assert (vget default_edge es pos1 = default_edge) as Hd1.
  { apply (Hfresh p1); [done|]. unfold pos1. b2n_cases; lia. }
  rewrite Hd0. rewrite (vget_vset_ne _ _ pos0 pos1) by done. rewrite Hd1.
  assert (∀ old, old = default_edge →
            match ew with
            | Some ws => default 0%Z (ws !! length ev)
            | None => e_weight old
            end = given_edge_weight ew (length ev)) as Hw.
  { intros old ->. unfold given_edge_weight. by destruct ew. }
  rewrite !Hw by done. clear Hw.
  (* an entry written before is not one of the two new ones *)
  assert (∀ q i, (prefix q ≤ i < prefix q + pin_count ev q)%N →
                 i ≠ pos0 ∧ i ≠ pos1) as Hold.
  { intros q i Hi.
    pose proof (Hmono (q + 1)%N p0) as Hq0. pose proof (Hmono (q + 1)%N p1) as Hq1.
    pose proof (Hmono (p0 + 1)%N q) as H0q. pose proof (Hmono (p1 + 1)%N q) as H1q.
    assert (q < N.of_nat n → prefix q + pin_count ev q ≤ prefix (q + 1))%N as Hrq.
    { intros Hq. pose proof (Hroom q Hq) as Hr. rewrite pin_count_snoc in Hr. lia. }
    unfold pos0, pos1. b2n_cases; try lia.
    - assert (q = p0 ∨ q < p0 ∨ p0 < q)%N as [->|[?|?]] by lia; lia.
    - split.
      + assert (q = p0 ∨ q < p0 ∨ p0 < q)%N as [->|[?|?]] by lia; lia.
      + assert (q = p1 ∨ q < p1 ∨ p1 < q)%N as [->|[?|?]] by lia; lia. }
  assert (length position1 = n) as Hpl1
    by (unfold position1; by rewrite length_vset).
  split; [by rewrite !length_vset|]. split_and!.
  - by rewrite length_vset.
  - intros v Hv. rewrite pin_count_snoc.
    destruct (decide (v = p1)) as [->|Hv1].
    + rewrite vget_vset_eq by lia.
      rewrite (bool_decide_eq_true_2 (p1 = p1)) by done. cbn [N.b2n]. lia.
    + rewrite vget_vset_ne by done.
      rewrite (bool_decide_eq_false_2 (p1 = v)) by done.
      destruct (decide (v = p0)) as [->|Hv0].
      * unfold position1. rewrite vget_vset_eq by lia.
        rewrite (bool_decide_eq_true_2 (p0 = p0)) by done. cbn [N.b2n]. lia.
      * unfold position1. rewrite vget_vset_ne by done.
        rewrite (bool_decide_eq_false_2 (p0 = v)) by done. cbn [N.b2n].
        rewrite (Hpos v Hv). lia.
  - intros v i Hv Hi. rewrite pin_count_snoc in Hi.
    pose proof (Hmono (v + 1)%N p0) as Hq0. pose proof (Hmono (v + 1)%N p1) as Hq1.
    pose proof (Hmono (p0 + 1)%N v) as H0q. pose proof (Hmono (p1 + 1)%N v) as H1q.
    assert (i ≠ pos0 ∧ i ≠ pos1) as [Hi0 Hi1].
    { unfold pos0, pos1. b2n_cases; lia. }
    rewrite !vget_vset_ne by done. apply (Hfresh v); [done|]. lia.
  - intros pos q0 q1 Hq.
    apply lookup_app_Some in Hq as [Hq|[Hge Hq]].
    + destruct (Hedges pos q0 q1 Hq) as (i0 & i1 & Hi01 & Hs0 & Hs1 & He0 & He1).
      exists i0, i1. rewrite !pin_count_snoc.
      destruct (Hold q0 i0 Hs0) as [? ?]. destruct (Hold q1 i1 Hs1) as [? ?].
      rewrite !vget_vset_ne by done.
      split_and!; (done || lia).
    + destruct (pos - length ev) as [|k] eqn:Hk; [|by destruct k].
      injection Hq as <- <-. assert (pos = length ev) as -> by lia.
      exists pos0, pos1. rewrite !pin_count_snoc.
      rewrite (bool_decide_eq_true_2 (p0 = p0)) by done.
      rewrite (bool_decide_eq_true_2 (p1 = p1)) by done.
      rewrite vget_vset_ne by done.
      rewrite !vget_vset_eq by (rewrite ?length_vset; lia).
      cbn [N.b2n].
      split_and!; try done; unfold pos0, pos1; b2n_cases; lia.
Qed.

Lemma vget_replicate_default {A} (x : A) (k : nat) (i : N) :
  vget x (replicate k x) i = x.
Proof.
  unfold vget. destruct (replicate k x !! N.to_nat i) as [y|] eqn:Hy; [|done].
  by apply lookup_replicate in Hy as [-> _].
Qed.

Lemma setup_edges_spec prefix ew n cap (ev : list (list HypernodeID)) :
  (∀ u v, (u ≤ v)%N → (prefix u ≤ prefix v)%N) →
  (prefix (N.of_nat n) ≤ N.of_nat cap)%N →
  Forall (λ e, length e = 2) ev →
  Forall (Forall (λ pin, pin < N.of_nat n)%N) ev →
  (∀ v, (v < N.of_nat n)%N → (prefix v + pin_count ev v ≤ prefix (v + 1))%N) →
  let r := foldl (setup_edge prefix ew)
                 (replicate cap default_edge, replicate n 0%N)
                 (imap (λ pos e, (pos, e)) ev) in
  length r.1 = cap ∧ setup_inv prefix ew n ev r.1 r.2.
Proof.
  intros Hmono Hcap.
  induction ev as [|e ev IH] using rev_ind; intros Hsize Hpins Hroom.
  { cbn [imap foldl fst snd]. rewrite length_replicate. split; [done|].
    split_and!.
    - by rewrite length_replicate.
    - intros v Hv. by rewrite vget_replicate_default.
    - intros v i _ _. by rewrite vget_replicate_default.
    - intros pos p0 p1 Hq. done. }
  apply Forall_app in Hsize as [Hsize [He _]%Forall_cons].
  apply Forall_app in Hpins as [Hpins [Hpe _]%Forall_cons].
  destruct e as [|p0 [|p1 [|]]]; try done.
  apply Forall_cons in Hpe as [Hp0 [Hp1 _]%Forall_cons].
  destruct IH as [Hl Hinv]; [done|done| |].
  { intros v Hv. specialize (Hroom v Hv). rewrite pin_count_app in Hroom. lia. }
  cbv zeta. rewrite imap_app, foldl_app. cbn [imap foldl]. rewrite Nat.add_0_r.
  destruct (foldl (setup_edge prefix ew) _ (imap _ ev)) as [es position].
  by apply (setup_edge_step prefix ew n cap).
Qed.

(** The vertex records written by [setup_nodes]. *)
Lemma setup_nodes_records prefix nw (ns : list Node) (n : nat) :
  n ≤ length ns →
  let ns' := foldl (setup_node prefix nw) ns (ids (N.of_nat n)) in
  ∀ u, (u < N.of_nat n)%N →
       vget default_node ns' u
       = {| n_begin := prefix u;
            n_weight := match nw with
                        | Some ws => vget 0%Z ws u
                        | None => n_weight (vget default_node ns u)
                        end;
            n_valid := true |}.
Proof.
  induction n as [|n IH]; intros Hn; [intros ns' u Hu; lia|].
  specialize (IH ltac:(lia)). cbv zeta in *.
  destruct (setup_nodes_spec prefix nw ns n ltac:(lia)) as (Hl & _ & Hk).
  cbv zeta in Hl, Hk.
  rewrite ids_S, foldl_app. cbn [foldl]. intros u Hu.
  unfold setup_node at 1.
  destruct (decide (u = N.of_nat n)) as [->|Hne].
  - rewrite vget_vset_eq by lia. by rewrite Hk by lia.
  - rewrite vget_vset_ne by done. apply IH. lia.
Qed.

(** What [construct] returns, before the incident edges are sorted. *)
Lemma construct_fields num_nodes num_edges ev ew nw stable g :
  wf_edge_vector num_nodes num_edges ev →
  construct num_nodes num_edges ev ew nw stable = Some g →
  let prefix := prefix_sum (count_degrees num_nodes ev) in
  let edges1 := (foldl (setup_edge prefix ew)
                   (replicate (2 * N.to_nat num_edges) default_edge,
                    replicate (N.to_nat num_nodes) 0%N)
                   (imap (λ pos e, (pos, e)) ev)).1 in
  Forall (λ e, length e = 2) ev ∧
  prefix num_nodes = (2 * num_edges)%N ∧
  (∀ u, (u < num_nodes)%N → prefix (u + 1)%N = (prefix u + pin_count ev u)%N) ∧
  (∀ u, (u ≤ num_nodes)%N → n_begin (node g u) = prefix u) ∧
  (∀ u, (u < num_nodes)%N → n_valid (node g u) = true) ∧
  length (_edges g) = 2 * N.to_nat num_edges ∧
  (stable = false → _edges g = edges1).
Proof.
  intros Hwf Hg prefix edges1. unfold construct in Hg.
  case_bool_decide as Hsize; [|done]. injection Hg as <-.
  destruct (count_degrees_sum _ _ _ Hwf Hsize) as [Hcl Hcs]. cbv zeta in Hcl, Hcs.
  fold prefix. fold edges1.
  assert (length edges1 = 2 * N.to_nat num_edges) as Hel.
  { unfold edges1. rewrite setup_edges_length. cbn [fst].
    by rewrite length_replicate. }
  assert (prefix num_nodes = (2 * num_edges)%N) as Htot.
  { unfold prefix, prefix_sum. rewrite take_ge by lia. done. }
  destruct (setup_nodes_spec prefix nw
              (replicate (N.to_nat num_nodes + 1) default_node)
              (N.to_nat num_nodes)) as (Hnl & _ & _).
  { rewrite length_replicate. lia. }
  pose proof (setup_nodes_records prefix nw
                (replicate (N.to_nat num_nodes + 1) default_node)
                (N.to_nat num_nodes)) as Hrec.
  cbv zeta in Hnl, Hrec. rewrite N2Nat.id in Hnl, Hrec.
  rewrite length_replicate in Hnl, Hrec. specialize (Hrec ltac:(lia)).
  set (nodes1 := foldl (setup_node prefix nw) _ (ids num_nodes)) in *.
  unfold node. cbn [_nodes _edges].
  change (N.to_nat num_edges + (N.to_nat num_edges + 0))
    with (2 * N.to_nat num_edges).
  fold edges1.
  split_and!; [done|done| | | | |by intros ->].
  - intros u Hu. unfold prefix. rewrite prefix_sum_S by lia.
    by destruct (count_degrees_spec num_nodes num_edges ev u Hwf) as [_ ->].
  - intros u Hu. destruct (decide (u = num_nodes)) as [->|Hne].
    + rewrite vget_vset_eq by lia. cbn [n_begin]. lia.
    + rewrite vget_vset_ne by done. by rewrite Hrec by lia.
  - intros u Hu. rewrite vget_vset_ne by lia. by rewrite Hrec by done.
  - destruct stable; [|done].
    set (nodes2 := vset nodes1 num_nodes _).
    destruct (sort_loop_sorted nodes2 edges1 (N.to_nat num_nodes)) as [Hlen _].
    + rewrite N2Nat.id. intros v Hv. unfold nodes2.
      rewrite vget_vset_ne by lia. rewrite Hrec by done. cbn [n_begin].
      destruct (decide (v + 1 = num_nodes)%N) as [Heq|Hne].
      * rewrite Heq, vget_vset_eq by lia. cbn [n_begin].
        rewrite Hel. rewrite <-Heq in Htot.
        pose proof (prefix_sum_mono (count_degrees num_nodes ev) v (v + 1)).
        fold prefix in H. lia.
      * rewrite vget_vset_ne by lia. rewrite Hrec by lia. cbn [n_begin].
        apply prefix_sum_mono. lia.
    + rewrite N2Nat.id. unfold nodes2. rewrite vget_vset_eq by lia.
      cbn [n_begin]. lia.
    + rewrite N2Nat.id in Hlen. cbv zeta in Hlen. by rewrite Hlen.
Qed.

(** X24. Without the stable order, [construct] stores every edge of the
    input twice, once in the window of each of its two pins: the entry in
    the window of the first pin has the second pin as its target and the
    other entry as its backwards edge, and the other way round; both carry
    the weight given for the edge. *)
Theorem construct_stores_both_directions num_nodes num_edges ev ew nw g pos p0 p1 :
  wf_edge_vector num_nodes num_edges ev →
  construct num_nodes num_edges ev ew nw false = Some g →
  ev !! pos = Some [p0; p1] →
  ∃ i0 i1 : N,
    i0 ≠ i1 ∧
    (n_begin (node g p0) ≤ i0 < n_begin (node g (p0 + 1)))%N ∧
    (n_begin (node g p1) ≤ i1 < n_begin (node g (p1 + 1)))%N ∧
    vget default_edge (_edges g) i0
    = {| target := p1; backwardsEdge := i1;
         e_weight := given_edge_weight ew pos |} ∧
    vget default_edge (_edges g) i1
    = {| target := p0; backwardsEdge := i0;
         e_weight := given_edge_weight ew pos |}.
Proof.
  intros Hwf Hg Hpos.
  pose proof (construct_fields _ _ _ _ _ _ _ Hwf Hg) as Hf. cbv zeta in Hf.
  destruct Hf as (Hsize & Htot & Hnext & Hbegin & _ & _ & Hedges).
  rewrite (Hedges eq_refl). clear Hedges.
  set (prefix := prefix_sum (count_degrees num_nodes ev)) in *.
  destruct Hwf as [Hlen Hpins].
  destruct (setup_edges_spec prefix ew (N.to_nat num_nodes)
              (2 * N.to_nat num_edges) ev) as [_ (_ & _ & _ & Hinv)].
  - intros u v Huv. by apply prefix_sum_mono.
  - rewrite N2Nat.id, Htot. lia.
  - done.
  - by rewrite N2Nat.id.
  - rewrite N2Nat.id. intros v Hv. rewrite (Hnext v Hv). lia.
  - destruct (Hinv pos p0 p1 Hpos) as (i0 & i1 & Hne & Hs0 & Hs1 & He0 & He1).
    rewrite Forall_forall in Hpins.
    pose proof (Hpins _ (list_elem_of_lookup_2 _ _ _ Hpos)) as Hp.
    apply Forall_cons in Hp as [Hp0 [Hp1 _]%Forall_cons].
    exists i0, i1. rewrite !Hbegin by lia.
    rewrite (Hnext p0 Hp0), (Hnext p1 Hp1). done.
Qed.

Lemma construct_stores_both_directions_witness :
  ∃ i0 i1 : N,
    i0 ≠ i1 ∧
    (n_begin (node (graph_of false) 0) ≤ i0 < n_begin (node (graph_of false) (0 + 1)))%N ∧
    (n_begin (node (graph_of false) 2) ≤ i1 < n_begin (node (graph_of false) (2 + 1)))%N ∧
    vget default_edge (_edges (graph_of false)) i0
    = {| target := 2%N; backwardsEdge := i1;
         e_weight := given_edge_weight None 0 |} ∧
    vget default_edge (_edges (graph_of false)) i1
    = {| target := 0%N; backwardsEdge := i0;
         e_weight := given_edge_weight None 0 |}.
Proof.
  apply (construct_stores_both_directions 3 2 [[0; 2]; [0; 1]]%N None None
           (graph_of false) 0 0%N 2%N).
  - split; [reflexivity|]. repeat constructor.
  - reflexivity.
  - reflexivity.
Defined.

(** With the stable order the entries are moved after the backwards edges
    were set: in the graph with the edges 0-2 and 0-1 the entry of vertex 1
    no longer points at the entry that has vertex 1 as its target. *)
Lemma construct_stable_moves_entries :
  construct 3 2 [[0; 2]; [0; 1]]%N None None true = Some (graph_of true) ∧
  let e := vget default_edge (_edges (graph_of true)) in
  target (e 2%N) = 0%N ∧ (n_begin (node (graph_of true) 1) = 2)%N ∧
  target (e (backwardsEdge (e 2%N))) = 2%N.
Proof. by vm_compute. Qed.

(** X25. The windows of the vertices of the graph that [construct] returns
    follow each other from position 0 up to twice the number of edges, and
    the window of a vertex has one entry for every time the vertex is a pin
    of an edge of the input; every vertex is enabled. *)
Theorem construct_window_sizes num_nodes num_edges ev ew nw stable g :
  wf_edge_vector num_nodes num_edges ev →
  construct num_nodes num_edges ev ew nw stable = Some g →
  n_begin (node g 0) = 0%N ∧
  n_begin (node g num_nodes) = (2 * num_edges)%N ∧
  ∀ u, (u < num_nodes)%N →
       n_begin (node g (u + 1)) = (n_begin (node g u) + pin_count ev u)%N ∧
       length (incident_window g u) = N.to_nat (pin_count ev u) ∧
       n_valid (node g u) = true.
Proof.
  intros Hwf Hg.
  pose proof (construct_fields _ _ _ _ _ _ _ Hwf Hg) as Hf. cbv zeta in Hf.
  destruct Hf as (Hsize & Htot & Hnext & Hbegin & Hvalid & Hlen & _).
  set (prefix := prefix_sum (count_degrees num_nodes ev)) in *.
  split_and!.
  - by rewrite Hbegin by lia.
  - by rewrite Hbegin by lia.
  - intros u Hu. unfold incident_window. rewrite !Hbegin by lia.
    rewrite (Hnext u Hu). split_and!; [done| |by apply Hvalid].
    rewrite length_window; [lia|].
    pose proof (prefix_sum_mono (count_degrees num_nodes ev) (u + 1) num_nodes
                  ltac:(lia)) as Hm.
    fold prefix in Hm. rewrite (Hnext u Hu) in Hm. lia.
Qed.

Lemma construct_window_sizes_witness :
  n_begin (node (graph_of true) 0) = 0%N ∧
  n_begin (node (graph_of true) 3) = (2 * 2)%N ∧
  ∀ u, (u < 3)%N →
       n_begin (node (graph_of true) (u + 1))
       = (n_begin (node (graph_of true) u) + pin_count [[0; 2]; [0; 1]]%N u)%N ∧
       length (incident_window (graph_of true) u)
       = N.to_nat (pin_count [[0; 2]; [0; 1]]%N u) ∧
       n_valid (node (graph_of true) u) = true.
Proof.
  apply (construct_window_sizes 3 2 [[0; 2]; [0; 1]]%N None None true
           (graph_of true)).
  - split; [reflexivity|]. repeat constructor.
  - reflexivity.
Defined.

End AdjacencySpec.

(** ** The depth-first search ends *)

Module SearchSpec.
Import Hypergraph NaturalCut Search.

Lemma unvisited_set (l : list bool) (u : N) :
  N.to_nat u < length l → vget false l u = false →
  unvisited (vset l u true) + 1 = unvisited l.
Proof.
  intros Hu Hf. unfold unvisited, vset, vget in *.
  destruct (lookup_lt_is_Some_2 l (N.to_nat u) Hu) as [b Hb].
  rewrite Hb in Hf. cbn in Hf. subst b.
  rewrite <-(take_drop_middle l (N.to_nat u) false Hb) at 2.
  rewrite insert_take_drop by done.
  rewrite !filter_app, !filter_cons, !length_app.
  rewrite decide_False by done. rewrite decide_True by done. cbn [length]. lia.
Qed.

Lemma waiting_set_le (p : list bool) (v : N) (stk : list HypernodeID) :
  waiting (vset p v true) stk ≤ waiting p stk.
Proof.
  unfold waiting. induction stk as [|x stk IH]; [done|].
  rewrite !filter_cons.
  destruct (decide (x = v)) as [->|Hne].
  - destruct (decide (N.to_nat v < length p)) as [Hv|Hv].
    + rewrite vget_vset_eq by done. rewrite decide_False by done.
      case_decide; cbn [length]; lia.
    + unfold vset. rewrite list_insert_ge by lia.
      case_decide; cbn [length]; [|done].
      unfold vset in IH. rewrite list_insert_ge in IH by lia. lia.
  - rewrite vget_vset_ne by done. case_decide; cbn [length]; lia.
Qed.

Lemma waiting_set_head (p : list bool) (v : N) (rest : list HypernodeID) :
  N.to_nat v < length p → vget false p v = false →
  waiting (vset p v true) (v :: rest) + 1 ≤ waiting p (v :: rest).
Proof.
  intros Hv Hf. pose proof (waiting_set_le p v rest) as Hle.
  unfold waiting in *. rewrite !filter_cons.
  rewrite vget_vset_eq by done. rewrite decide_False by done.
  rewrite decide_True by done. cbn [length]. lia.
Qed.

Lemma push_child_progress H v st u :
  dfs_wf H st → (u < initialNumNodes H)%N →
  dfs_wf H (push_child v st u) ∧
  dfs_measure (push_child v st u) ≤ dfs_measure st ∧
  pushedChildren (push_child v st u) = pushedChildren st.
Proof.
  intros (Hvl & Hpl & Hs) Hu. unfold push_child.
  destruct (vget false (visitedHypernode st) u) eqn:Hvis; [done|].
  unfold dfs_wf, dfs_measure. cbn [visitedHypernode pushedChildren s].
  split_and!; [by rewrite length_vset|done|by constructor| |done].
  pose proof (unvisited_set (visitedHypernode st) u ltac:(lia) Hvis) as Hun.
  unfold waiting. rewrite filter_cons. case_decide; cbn [length]; lia.
Qed.

Lemma push_children_progress H v (l : list HypernodeID) st :
  dfs_wf H st → Forall (λ u, u < initialNumNodes H)%N l →
  let st' := foldl (push_child v) st l in
  dfs_wf H st' ∧ dfs_measure st' ≤ dfs_measure st ∧
  pushedChildren st' = pushedChildren st.
Proof.
  revert st. induction l as [|u l IH]; intros st Hwf Hl; [done|].
  apply Forall_cons in Hl as [Hu Hl]. cbn [foldl].
  destruct (push_child_progress H v st u Hwf Hu) as (Hwf1 & Hm1 & Hp1).
  destruct (IH _ Hwf1 Hl) as (Hwf2 & Hm2 & Hp2). cbv zeta.
  split_and!; [done|lia|congruence].
Qed.

Lemma for_neighbours_progress H v st :
  pins_in_range H → dfs_wf H st →
  let st' := for_neighbours H v (push_child v) st in
  dfs_wf H st' ∧ dfs_measure st' ≤ dfs_measure st.
Proof.
  intros Hpins Hwf. unfold for_neighbours.
  assert (∀ (es : list HyperedgeID) st,
            (∀ e, e ∈ es → e ∈ incidentEdges H v) → dfs_wf H st →
            let st' := foldl (λ st e, foldl (push_child v) st (pins H e)) st es in
            dfs_wf H st' ∧ dfs_measure st' ≤ dfs_measure st) as Hgen.
  { clear st Hwf. intros es. induction es as [|e es IH]; intros st Hes Hwf; [done|].
    cbn [foldl].
    destruct (push_children_progress H v (pins H e) st Hwf) as (Hwf1 & Hm1 & _).
    { apply Forall_forall. intros u Hu. apply (Hpins v e u); [|done].
      apply Hes. by left. }
    destruct (IH _ (λ e' He', Hes e' (list_elem_of_further _ _ _ He')) Hwf1)
      as (Hwf2 & Hm2).
    cbv zeta. split; [done|lia]. }
  by apply Hgen.
Qed.

(** Every iteration of the loop with a defined behaviour lowers the
    measure. *)
Lemma dfs_step_progress H start st st' :
  pins_in_range H → dfs_wf H st → s st ≠ [] →
  dfs_step H start st = Some st' →
  dfs_wf H st' ∧ dfs_measure st' < dfs_measure st.
Proof.
  intros Hpins Hwf Hne. unfold dfs_step.
  destruct (s st) as [|v rest] eqn:Hs; [done|].
  destruct Hwf as (Hvl & Hpl & Hstack). rewrite Hs in Hstack.
  apply Forall_cons in Hstack as [Hv Hrest].
  destruct (vget false (pushedChildren st) v) eqn:Hpushed; cbn [negb].
  - cbv zeta. intros Hstep.
    assert (visitedHypernode st' = visitedHypernode st ∧
            pushedChildren st' = pushedChildren st ∧ s st' = rest)
      as (Hv' & Hp' & Hs').
    { repeat case_match; simplify_eq; done. }
    unfold dfs_wf, dfs_measure. rewrite Hv', Hp', Hs', Hs.
    split; [done|]. unfold waiting. rewrite filter_cons.
    rewrite Hpushed. rewrite decide_False by done. cbn [length]. lia.
  - cbv zeta. intros [= <-].
    match goal with
    | |- context [for_neighbours H v (push_child v) ?st0] =>
        destruct (for_neighbours_progress H v st0 Hpins) as [Hwf' Hm'];
          [|split; [exact Hwf'|]]
    end.
    + unfold dfs_wf. cbn [visitedHypernode pushedChildren s].
      rewrite length_vset.
      split_and!; [done|done|by constructor].
    + eapply Nat.le_lt_trans; [exact Hm'|].
      unfold dfs_measure. cbn [visitedHypernode pushedChildren s]. rewrite Hs.
      pose proof (waiting_set_head (pushedChildren st) v rest ltac:(lia) Hpushed).
      cbn [length] in *. lia.
Qed.

(** With fuel for the measure the loop ends: it returns, or it comes to an
    iteration without defined behaviour. *)
Lemma dfs_loop_ends H start (fuel : nat) st :
  pins_in_range H → dfs_wf H st → dfs_measure st ≤ fuel →
  dfs_loop H start fuel st = Undefined ∨
  ∃ st', dfs_loop H start fuel st = Returns st' ∧ s st' = [].
Proof.
  intros Hpins. revert st.
  induction fuel as [|fuel IH]; intros st Hwf Hm; cbn [dfs_loop].
  { unfold dfs_measure in Hm. destruct (s st) eqn:Hs; [|cbn [length] in Hm; lia].
    right. by exists st. }
  destruct (s st) as [|v rest] eqn:Hs; [right; by exists st|].
  destruct (dfs_step H start st) as [st1|] eqn:Hstep; [|by left].
  destruct (dfs_step_progress H start st st1 Hpins Hwf) as [Hwf' Hlt]; [|done|].
  { by rewrite Hs. }
  apply IH; [done|lia].
Qed.

Lemma dfs_loop_returns H start (fuel : nat) st st' :
  dfs_loop H start fuel st = Returns st' → s st' = [].
Proof.
  revert st. induction fuel as [|fuel IH]; intros st; cbn [dfs_loop].
  { destruct (s st) eqn:Hs; [|done]. by intros [= <-]. }
  destruct (s st) eqn:Hs; [by intros [= <-]|].
  destruct (dfs_step H start st) as [st1|]; [apply IH|done].
Qed.

Lemma dfs_wf_start (start : HypernodeID) (H : StaticHypergraph)
    (visited : list bool) (dep low par comps : list HypernodeID) p :
  (start < initialNumNodes H)%N →
  length visited = N.to_nat (initialNumNodes H) →
  dfs_wf H {| visitedHypernode := visited; depth := dep; lowPoint := low;
              parent := par; components := comps; s := [start];
              pushedChildren := replicate (N.to_nat (initialNumNodes H)) false;
              previous := p |}.
Proof.
  intros Hstart Hlen. unfold dfs_wf. cbn [visitedHypernode pushedChildren s].
  rewrite length_replicate. split_and!; [done|done|by repeat constructor].
Qed.

(** X26. The loop of [depthFirstSearch] ends: on a hypergraph whose pins
    are vertices, started at a vertex and with one visited flag per vertex,
    at most two iterations for the start vertex and two for every vertex
    that is not yet visited are made; then the search has returned, with an
    empty stack, or has come to the read of [lowPoint[previous]] without
    defined behaviour. *)
Theorem depthFirstSearch_ends (fuel : nat) (start : HypernodeID)
    (H : StaticHypergraph) (visited : list bool)
    (dep low par comps : list HypernodeID) :
  pins_in_range H →
  (start < initialNumNodes H)%N →
  length visited = N.to_nat (initialNumNodes H) →
  2 * unvisited visited + 2 ≤ fuel →
  depthFirstSearch fuel start H visited dep low par comps = Undefined ∨
  ∃ st, depthFirstSearch fuel start H visited dep low par comps = Returns st ∧
        s st = [].
Proof.
  intros Hpins Hstart Hlen Hfuel. unfold depthFirstSearch.
  apply dfs_loop_ends; [done|by apply dfs_wf_start|].
  unfold dfs_measure, waiting. cbn [visitedHypernode pushedChildren s].
  rewrite filter_cons, filter_nil. case_decide; cbn [length]; lia.
Qed.

Lemma pins_in_range_pair : pins_in_range H_pair.
Proof.
  intros v e u He Hu. unfold incidentEdges, pins, window in *.
  apply subseteq_take in Hu. apply subseteq_drop in Hu.
  cbn in Hu. apply elem_of_cons in Hu as [->|Hu]; [done|].
  apply list_elem_of_singleton in Hu as ->. done.
Defined.

Lemma depthFirstSearch_ends_witness :
  depthFirstSearch 6 0%N H_pair [false; false]
    [invalid_node; invalid_node] [invalid_node; invalid_node]
    [invalid_node; invalid_node] [0; 0]%N = Undefined ∨
  ∃ st, depthFirstSearch 6 0%N H_pair [false; false]
          [invalid_node; invalid_node] [invalid_node; invalid_node]
          [invalid_node; invalid_node] [0; 0]%N = Returns st ∧
        s st = [].
Proof.
  apply (depthFirstSearch_ends 6 0%N H_pair [false; false]).
  - apply pins_in_range_pair.
  - done.
  - done.
  - vm_compute. lia.
Defined.

(** On the two vertices of [H_pair] the search returns: the first vertex
    popped has two children, and every later pop finds [previous] assigned. *)
Remark depthFirstSearch_pair_returns :
  ∃ st, depthFirstSearch 6 0%N H_pair [false; false]
          [invalid_node; invalid_node] [invalid_node; invalid_node]
          [invalid_node; invalid_node] [0; 0]%N = Returns st ∧
        visitedHypernode st = [true; true] ∧ components st = [0; 0]%N ∧
        previous st = Some 0%N.
Proof. eexists. split; [by vm_compute|done]. Qed.

(** X29. Started at a vertex without incident hyperedges, the search has no
    defined behaviour: the vertex is expanded, nothing is pushed, and when it
    is popped it has no child, so that [lowPoint[previous]] is read before
    [previous] got a value. *)
Theorem depthFirstSearch_isolated_start (fuel : nat) (start : HypernodeID)
    (H : StaticHypergraph) (visited : list bool)
    (dep low par comps : list HypernodeID) :
  (start < initialNumNodes H)%N →
  incidentEdges H start = [] →
  2 ≤ fuel →
  depthFirstSearch fuel start H visited dep low par comps = Undefined.
Proof.
  intros Hstart Hinc Hfuel.
  destruct fuel as [|[|fuel]]; [lia..|].
  unfold depthFirstSearch.
  match goal with |- dfs_loop H start _ ?st = _ => set (st0 := st) end.
  assert (∃ st1, dfs_step H start st0 = Some st1 ∧ s st1 = [start] ∧
                 vget false (pushedChildren st1) start = true ∧
                 previous st1 = None) as (st1 & Hstep & Hs1 & Hp1 & Hprev1).
  { eexists. split.
    - unfold dfs_step, for_neighbours. cbn [s pushedChildren st0].
      rewrite AdjacencySpec.vget_replicate_default, Hinc. cbn [negb foldl].
      reflexivity.
    - cbn [s pushedChildren previous st0]. split_and!; [done| |done].
      rewrite vget_vset_eq by (rewrite length_replicate; lia). done. }
  cbn [dfs_loop]. change (s st0) with [start]. rewrite Hstep, Hs1.
  unfold dfs_step. rewrite Hs1, Hp1, Hprev1. cbn [negb].
  unfold scan_popped, for_neighbours. rewrite Hinc.
  cbn [foldl children isArticulationPoint sc_parent sc_lowPoint].
  rewrite andb_false_r. done.
Qed.

Lemma depthFirstSearch_isolated_start_witness :
  depthFirstSearch 2 0%N H_isolated [false] [invalid_node] [invalid_node]
    [invalid_node] [0]%N = Undefined.
Proof.
  apply (depthFirstSearch_isolated_start 2 0%N H_isolated); [done| |lia].
  reflexivity.
Defined.

(** *** What the search visits *)

Lemma reached_neighbour H start v u :
  v = start ∨ reached H start v → neighbour H v u → reached H start u.
Proof.
  intros [->|Hv] Hu; [by apply reached_first|by eapply reached_next].
Qed.

Lemma push_child_visits H start V0 v st u :
  v = start ∨ reached H start v → neighbour H v u →
  (u < initialNumNodes H)%N →
  expanding H start V0 st →
  let st' := push_child v st u in
  expanding H start V0 st' ∧
  vget false (visitedHypernode st') u = true ∧
  (∀ x, vget false (visitedHypernode st) x = true →
        vget false (visitedHypernode st') x = true) ∧
  (∀ x, x ∈ s st → x ∈ s st') ∧
  pushedChildren st' = pushedChildren st.
Proof.
  intros Hv Hvu Hu (Hwf & Hvis & Hre). cbv zeta. unfold push_child.
  destruct (vget false (visitedHypernode st) u) eqn:Hf.
  { split_and!; done. }
  destruct (push_child_progress H v st u Hwf Hu) as (Hwf' & _ & _).
  unfold push_child in Hwf'. rewrite Hf in Hwf'.
  destruct Hwf as (Hvl & _ & _).
  pose proof (reached_neighbour H start v u Hv Hvu) as Hru.
  unfold expanding. cbn [visitedHypernode pushedChildren s].
  split; [split; [exact Hwf'|split]|split; [|split; [|split; [|done]]]].
  - intros x Hx. destruct (decide (x = u)) as [->|Hne].
    + right. split; [done|]. right. by left.
    + rewrite vget_vset_ne in Hx by done.
      destruct (Hvis x Hx) as [?|(? & [?|?])]; [by left|right..].
      * split; [done|by left].
      * split; [done|]. right. by right.
  - intros x [Hx|[->|Hx]%elem_of_cons]; [apply Hre; by left|by right|].
    apply Hre. by right.
  - rewrite vget_vset_eq by lia. done.
  - intros x Hx. destruct (decide (x = u)) as [->|Hne].
    + by rewrite vget_vset_eq by lia.
    + by rewrite vget_vset_ne by done.
  - intros x Hx. by right.
Qed.

Lemma push_children_visits H start V0 v (l : list HypernodeID) st :
  v = start ∨ reached H start v →
  (∀ u, u ∈ l → neighbour H v u ∧ (u < initialNumNodes H)%N) →
  expanding H start V0 st →
  let st' := foldl (push_child v) st l in
  expanding H start V0 st' ∧
  (∀ u, u ∈ l → vget false (visitedHypernode st') u = true) ∧
  (∀ x, vget false (visitedHypernode st) x = true →
        vget false (visitedHypernode st') x = true) ∧
  (∀ x, x ∈ s st → x ∈ s st') ∧
  pushedChildren st' = pushedChildren st.
Proof.
  intros Hv. revert st. induction l as [|u l IH]; intros st Hl Hex.
  { cbn [foldl]. split_and!; try done. intros u Hu. by apply elem_of_nil in Hu. }
  cbn [foldl].
  destruct (Hl u ltac:(by left)) as [Hvu Hu].
  destruct (push_child_visits H start V0 v st u Hv Hvu Hu Hex)
    as (Hex1 & Hu1 & Hmono1 & Hst1 & Hp1).
  destruct (IH (push_child v st u) (λ x Hx, Hl x (list_elem_of_further _ _ _ Hx)) Hex1)
    as (Hex2 & Hl2 & Hmono2 & Hst2 & Hp2).
  cbv zeta. split_and!; [done| |by auto|by auto|congruence].
  intros x [->|Hx]%elem_of_cons; [by apply Hmono2|by apply Hl2].
Qed.

Lemma for_neighbours_visits H start V0 v st :
  pins_in_range H →
  v = start ∨ reached H start v →
  expanding H start V0 st →
  let st' := for_neighbours H v (push_child v) st in
  expanding H start V0 st' ∧
  (∀ u, neighbour H v u → vget false (visitedHypernode st') u = true) ∧
  (∀ x, vget false (visitedHypernode st) x = true →
        vget false (visitedHypernode st') x = true) ∧
  (∀ x, x ∈ s st → x ∈ s st') ∧
  pushedChildren st' = pushedChildren st.
Proof.
  intros Hpins Hv Hex. unfold for_neighbours.
  assert (∀ (es : list HyperedgeID) st,
            (∀ e, e ∈ es → e ∈ incidentEdges H v) → expanding H start V0 st →
            let st' := foldl (λ st e, foldl (push_child v) st (pins H e)) st es in
            expanding H start V0 st' ∧
            (∀ e u, e ∈ es → u ∈ pins H e →
                    vget false (visitedHypernode st') u = true) ∧
            (∀ x, vget false (visitedHypernode st) x = true →
                  vget false (visitedHypernode st') x = true) ∧
            (∀ x, x ∈ s st → x ∈ s st') ∧
            pushedChildren st' = pushedChildren st) as Hgen.
  { clear st Hex. intros es.
    induction es as [|e es IH]; intros st Hes Hex.
    { cbn [foldl]. split_and!; try done. intros e u He. by apply elem_of_nil in He. }
    cbn [foldl].
    destruct (push_children_visits H start V0 v (pins H e) st Hv)
      as (Hex1 & Hl1 & Hmono1 & Hst1 & Hp1); [|done|].
    { intros u Hu. assert (e ∈ incidentEdges H v) as He by (apply Hes; by left).
      split; [by exists e|by apply (Hpins v e u)]. }
    destruct (IH _ (λ e' He', Hes e' (list_elem_of_further _ _ _ He')) Hex1)
      as (Hex2 & Hl2 & Hmono2 & Hst2 & Hp2).
    cbv zeta. split_and!; [done| |by auto|by auto|congruence].
    intros e' u [->|He']%elem_of_cons Hu; [by apply Hmono2, Hl1|by eapply Hl2]. }
  destruct (Hgen (incidentEdges H v) st (λ e He, He) Hex)
    as (Hex' & Hl' & Hmono' & Hst' & Hp').
  split_and!; [done| |done|done|done].
  intros u (e & He & Hu). by eapply Hl'.
Qed.

(** An iteration of the loop keeps the invariant. *)
Lemma dfs_step_inv H start V0 st st' :
  pins_in_range H → dfs_wf H st → dfs_inv H start V0 st →
  dfs_step H start st = Some st' →
  dfs_inv H start V0 st'.
Proof.
  intros Hpins Hwf Hinv. unfold dfs_step.
  destruct (s st) as [|v rest] eqn:Hs; [by intros [= <-]|].
  destruct Hinv as [I1 I2 I3 I4 I5]. rewrite Hs in I2, I3, I5.
  pose proof Hwf as (Hvl & Hpl & Hstack). rewrite Hs in Hstack.
  apply Forall_cons in Hstack as [Hv Hrest].
  destruct (vget false (pushedChildren st) v) eqn:Hpushed; cbn [negb].
  - (* [v] is popped *)
    cbv zeta. intros Hstep.
    assert (visitedHypernode st' = visitedHypernode st ∧
            pushedChildren st' = pushedChildren st ∧ s st' = rest)
      as (Hv' & Hp' & Hs').
    { repeat case_match; simplify_eq; done. }
    split; rewrite ?Hv', ?Hp', ?Hs'.
    + done.
    + intros x Hx. destruct (I2 x Hx) as [?|(Hr & [?|Hin])]; [by left|right..].
      * split; [done|by left].
      * split; [done|]. apply elem_of_cons in Hin as [->|?]; [by left|by right].
    + destruct I3 as [?|Hin]; [by left|].
      apply elem_of_cons in Hin as [->|?]; [by left|by right].
    + done.
    + intros x [Hx|Hx]; apply I5; [by left|]. right. by right.
  - (* [v] is expanded *)
    cbv zeta. intros [= <-].
    assert (v = start ∨ reached H start v) as Hrv.
    { apply I5. right. by left. }
    assert (∀ x, vget false (vset (pushedChildren st) v true) x = true ↔
                 x = v ∨ vget false (pushedChildren st) x = true) as Hp.
    { intros x. destruct (decide (x = v)) as [->|Hne].
      - rewrite vget_vset_eq by lia. naive_solver.
      - rewrite vget_vset_ne by done. naive_solver. }
    match goal with
    | |- context [for_neighbours H v (push_child v) ?st0] =>
        destruct (for_neighbours_visits H start V0 v st0 Hpins Hrv)
          as ((Hwf' & Hvis' & Hre') & Hn' & Hmono' & Hst' & Hp');
          [|set (st' := for_neighbours H v (push_child v) st0) in *]
    end.
    { unfold expanding, dfs_wf. cbn [visitedHypernode pushedChildren s].
      rewrite length_vset.
      split; [split; [done|split; [done|by constructor]]|split].
      - intros x Hx. destruct (I2 x Hx) as [?|(Hr & [?|Hin])]; [by left|right..].
        + split; [done|]. left. apply Hp. by right.
        + split; [done|by right].
      - intros x [Hx|Hx].
        + apply Hp in Hx as [->|Hx]; [done|]. apply I5. by left.
        + apply I5. by right. }
    cbn [visitedHypernode pushedChildren s] in Hp', Hmono', Hst'.
    split.
    + intros x u Hx Hxu. rewrite Hp' in Hx. apply Hp in Hx as [->|Hx].
      * by apply Hn'.
      * apply Hmono'. by eapply I1.
    + done.
    + destruct I3 as [Hst|Hin].
      * left. rewrite Hp'. apply Hp. by right.
      * right. apply Hst'. done.
    + intros x Hx. by apply Hmono', I4.
    + done.
Qed.

Lemma dfs_loop_inv H start V0 (fuel : nat) st st' :
  pins_in_range H → dfs_wf H st → dfs_inv H start V0 st →
  dfs_loop H start fuel st = Returns st' →
  dfs_inv H start V0 st'.
Proof.
  intros Hpins. revert st.
  induction fuel as [|fuel IH]; intros st Hwf Hinv; cbn [dfs_loop].
  { destruct (s st) eqn:Hs; [|done]. by intros [= <-]. }
  destruct (s st) as [|v rest] eqn:Hs; [by intros [= <-]|].
  destruct (dfs_step H start st) as [st1|] eqn:Hstep; [|done].
  destruct (dfs_step_progress H start st st1 Hpins Hwf) as [Hwf' _]; [|done|].
  { by rewrite Hs. }
  intros Hret. apply (IH st1); [done| |done]. by apply (dfs_step_inv H start V0 st).
Qed.

(** X27. When [depthFirstSearch] returns, the vertices with a visited flag
    are the ones that had it before and the ones reached from the start
    vertex by one or more steps from a vertex to a pin of one of its
    incident nets; the start vertex itself gets the flag only if it is
    reached in this way. The flags set before are assumed to be closed
    under such steps, as they are between the searches of
    [run_natural_cut_detection]. *)
Theorem depthFirstSearch_visits (fuel : nat) (start : HypernodeID)
    (H : StaticHypergraph) (visited : list bool)
    (dep low par comps : list HypernodeID) (st : dfs_state)
    (u : HypernodeID) :
  pins_in_range H →
  (start < initialNumNodes H)%N →
  length visited = N.to_nat (initialNumNodes H) →
  closed_flags H visited →
  depthFirstSearch fuel start H visited dep low par comps = Returns st →
  vget false (visitedHypernode st) u = true
  ↔ vget false visited u = true ∨ reached H start u.
Proof.
  intros Hpins Hstart Hlen Hclosed Hret.
  unfold depthFirstSearch in Hret.
  pose proof (dfs_loop_returns _ _ _ _ _ Hret) as Hend.
  match type of Hret with
  | dfs_loop H start fuel ?st0 = _ =>
      assert (dfs_inv H start visited st0) as Hinv0;
        [|pose proof (dfs_loop_inv H start visited fuel st0 st Hpins
                        (dfs_wf_start start H visited dep low par comps None
                           Hstart Hlen) Hinv0 Hret)
            as [I1 I2 I3 I4 I5]]
  end.
  { split; cbn [visitedHypernode pushedChildren s].
    + intros v x Hv. by rewrite AdjacencySpec.vget_replicate_default in Hv.
    + intros v Hv. by left.
    + right. by left.
    + done.
    + intros v [Hv|Hv%list_elem_of_singleton]; [|by left].
      by rewrite AdjacencySpec.vget_replicate_default in Hv. }
  rewrite Hend in I2, I3, I5.
  assert (vget false (pushedChildren st) start = true) as Hps.
  { destruct I3 as [?|Hin]; [done|by apply elem_of_nil in Hin]. }
  split.
  - intros Hu. destruct (I2 u Hu) as [?|[? _]]; [by left|by right].
  - intros [Hu|Hu]; [by apply I4|].
    induction Hu as [u Hsu|v u _ IH Hvu]; [by eapply I1|].
    destruct (I2 v IH) as [Hv0|(_ & [Hpv|Hin])].
    + apply I4. by eapply Hclosed.
    + by eapply I1.
    + by apply elem_of_nil in Hin.
Qed.

Lemma depthFirstSearch_visits_witness :
  ∃ st,
    depthFirstSearch 6 0%N H_pair [false; false]
      [invalid_node; invalid_node] [invalid_node; invalid_node]
      [invalid_node; invalid_node] [0; 0]%N = Returns st ∧
    (vget false (visitedHypernode st) 1%N = true
     ↔ vget false [false; false] 1%N = true ∨ reached H_pair 0%N 1%N).
Proof.
  eexists. split; [vm_compute; reflexivity|].
  apply (depthFirstSearch_visits 6 0%N H_pair [false; false]
           [invalid_node; invalid_node] [invalid_node; invalid_node]
           [invalid_node; invalid_node] [0; 0]%N).
  - apply pins_in_range_pair.
  - done.
  - done.
  - intros v u Hv _. unfold vget in Hv.
    destruct (N.to_nat v) as [|[|k]]; done.
  - vm_compute. reflexivity.
Defined.

End SearchSpec.

(** ** The size threshold of the natural-cut detection *)

Module ThresholdSpec.
Import Hypergraph NaturalCut Threshold GraphFactorySpec ContractionSpec.

Lemma component_size_S components (j : nat) c :
  component_size components (N.of_nat (S j)) c
  = (component_size components (N.of_nat j) c
     + N.b2n (bool_decide (vget 0%N components (N.of_nat j) = c)))%N.
Proof.
  unfold component_size. rewrite filter_ids_S, length_app.
  case_decide; case_bool_decide; try done; cbn [length N.b2n]; lia.
Qed.

Lemma component_size_le components (j : nat) c :
  (component_size components (N.of_nat j) c ≤ N.of_nat j)%N.
Proof.
  unfold component_size.
  pose proof (length_filter (λ i, vget 0%N components i = c) (ids (N.of_nat j))) as Hf.
  rewrite length_ids in Hf. lia.
Qed.

(** The map holds the sizes of the components that occur. *)
Lemma count_spec components (j : nat) :
  (N.of_nat j < 2 ^ 32)%N →
  ∀ c, foldl (count_component components) ∅ (ids (N.of_nat j)) !! c
       = if decide (component_size components (N.of_nat j) c = 0%N) then None
         else Some (component_size components (N.of_nat j) c).
Proof.
  induction j as [|j IH]; intros Hj c.
  { change (ids (N.of_nat 0)) with (@nil N). cbn [foldl].
    by rewrite lookup_empty. }
  specialize (IH ltac:(lia)).
  rewrite ids_S, foldl_app. cbn [foldl]. rewrite component_size_S.
  set (m := foldl (count_component components) ∅ (ids (N.of_nat j))) in *.
  set (cj := vget 0%N components (N.of_nat j)).
  pose proof (component_size_le components j cj) as Hle.
  assert (count_component components m (N.of_nat j)
          = <[cj := (component_size components (N.of_nat j) cj + 1)%N]> m) as ->.
  { unfold count_component. fold cj. unfold map_at.
    pose proof (IH cj) as Hm.
    destruct (decide (component_size components (N.of_nat j) cj = 0%N)) as [Hz|Hz].
    - rewrite Hm, Hz. rewrite decide_True by done.
      rewrite lookup_insert_eq. by rewrite insert_insert_eq.
    - rewrite Hm. rewrite decide_False by done. rewrite Hm.
      f_equal. unfold wrap32. apply N.mod_small. lia. }
  destruct (decide (cj = c)) as [<-|Hne].
  - rewrite lookup_insert_eq. rewrite bool_decide_eq_true_2 by done.
    cbn [N.b2n]. rewrite decide_False by lia. done.
  - rewrite lookup_insert_ne by done. rewrite bool_decide_eq_false_2 by done.
    cbn [N.b2n]. rewrite N.add_0_r. apply IH.
Qed.

Lemma component_size_pos components (j : N) (i : HypernodeID) :
  (i < j)%N → component_size components j (vget 0%N components i) ≠ 0%N.
Proof.
  intros Hi. unfold component_size.
  assert (i ∈ filter (λ i', vget 0%N components i' = vget 0%N components i) (ids j))
    as Hin by (apply list_elem_of_filter; split; [done|by apply elem_of_ids]).
  destruct (filter _ (ids j)); [by apply elem_of_nil in Hin|]. cbn [length]. lia.
Qed.

Lemma reset_large_spec (n : N) components (m : gmap N N) (size : HypernodeID → N)
    (j : nat) :
  j ≤ length components →
  (∀ i, (i < N.of_nat j)%N →
        m !! vget 0%N components i = Some (size (vget 0%N components i))) →
  let r := foldl (reset_large n) (m, components) (ids (N.of_nat j)) in
  r.1 = m ∧ length r.2 = length components ∧
  ∀ i, vget 0%N r.2 i
       = if decide (i < N.of_nat j)%N
         then if (n / 20 <=? size (vget 0%N components i))%N
              then i else vget 0%N components i
         else vget 0%N components i.
Proof.
  induction j as [|j IH]; intros Hj Hm.
  { cbn. split_and!; [done|done|]. intros i. by rewrite decide_False by lia. }
  destruct IH as (Hm' & Hl' & Hget); [lia|intros i Hi; apply Hm; lia|].
  cbv zeta. rewrite ids_S, foldl_app. cbn [foldl].
  destruct (foldl (reset_large n) (m, components) (ids (N.of_nat j)))
    as [m' comps'].
  cbn [fst snd] in Hm', Hl', Hget. subst m'.
  unfold reset_large, map_at.
  rewrite (Hget (N.of_nat j)). rewrite decide_False by lia.
  rewrite (Hm (N.of_nat j)) by lia.
  change (2 * 10)%N with 20%N.
  destruct (n / 20 <=? size (vget 0%N components (N.of_nat j)))%N eqn:Hthr;
    cbn [fst snd].
  - split_and!; [done|by rewrite length_vset|]. intros i.
    destruct (decide (i = N.of_nat j)) as [->|Hne].
    + rewrite vget_vset_eq by lia. rewrite decide_True by lia. by rewrite Hthr.
    + rewrite vget_vset_ne by done. rewrite Hget.
      repeat case_decide; (done || lia).
  - split_and!; [done|done|]. intros i. rewrite Hget.
    destruct (decide (i = N.of_nat j)) as [->|Hne].
    + rewrite decide_False by lia. rewrite decide_True by lia. by rewrite Hthr.
    + repeat case_decide; (done || lia).
Qed.

(** X28. The loops that follow the searches in [run_natural_cut_detection]
    make every vertex whose component has at least [n / 20] vertices a
    component of its own and leave the other vertices in their component.
    For fewer than 20 vertices the bound is 0, so every vertex becomes a
    component of its own, whatever the searches found. *)
Theorem split_large_spec (n : N) (components : list HypernodeID) :
  (n < 2 ^ 32)%N → length components = N.to_nat n →
  (∀ id, (id < n)%N →
         vget 0%N (split_large n components) id
         = if (n / 20 <=? component_size components n (vget 0%N components id))%N
           then id else vget 0%N components id) ∧
  ((n < 20)%N → split_large n components = ids n).
Proof.
  intros Hn Hlen. unfold split_large.
  pose proof (count_spec components (N.to_nat n)) as Hcount.
  rewrite N2Nat.id in Hcount. specialize (Hcount Hn).
  set (m := foldl (count_component components) ∅ (ids n)) in *.
  pose proof (reset_large_spec n components m (component_size components n)
                (N.to_nat n) ltac:(lia)) as Hreset.
  cbv zeta in Hreset. rewrite N2Nat.id in Hreset.
  destruct Hreset as (_ & Hl & Hget).
  { intros i Hi. rewrite Hcount. rewrite decide_False; [done|].
    by apply component_size_pos. }
  assert (∀ id, (id < n)%N →
            vget 0%N (foldl (reset_large n) (m, components) (ids n)).2 id
            = if (n / 20 <=? component_size components n (vget 0%N components id))%N
              then id else vget 0%N components id) as Hall.
  { intros id Hid. rewrite Hget. by rewrite decide_True by done. }
  split; [done|]. intros Hsmall.
  apply list_eq_same_length with (N.to_nat n); [by rewrite length_ids|lia|].
  intros i x y Hi Hx Hy.
  specialize (Hall (N.of_nat i) ltac:(lia)).
  rewrite (N.div_small n 20 Hsmall) in Hall.
  rewrite (proj2 (N.leb_le 0 _) (N.le_0_l _)) in Hall.
  unfold vget in Hall. rewrite Nat2N.id, Hx in Hall. cbn [default] in Hall.
  rewrite lookup_ids in Hy by lia. unfold id in Hall. congruence.
Qed.

Lemma split_large_spec_witness :
  (∀ id, (id < 3)%N →
         vget 0%N (split_large 3 [0; 0; 2]%N) id
         = if (3 / 20 <=? component_size [0; 0; 2]%N 3 (vget 0%N [0; 0; 2]%N id))%N
           then id else vget 0%N [0; 0; 2]%N id) ∧
  ((3 < 20)%N → split_large 3 [0; 0; 2]%N = ids 3).
Proof.
  apply (split_large_spec 3 [0; 0; 2]%N).
  - by vm_compute.
  - reflexivity.
Defined.

End ThresholdSpec.
